(** * Crunch-Mania (CrM) decompressor: a shallow embedding and its properties

    The development follows [src/CRMDecompressor.cpp] and
    [src/HuffmanDecoder.hpp].  Machine integers are modelled as [Z] with the
    wrap-around of their C++ type written out; buffers are lists indexed
    with stdpp's lookup and insert; exceptions, undefined behaviour and
    loop fuel are outcomes of a small state-and-error monad. *)

From Stdlib Require Import ZArith List Bool Lia Strings.Byte.
From Stdlib Require Strings.String.
From stdpp Require Import base list.
Import ListNotations.
Local Open Scope Z_scope.

(** ** Outcomes and the state-and-error monad *)

Inductive exn : Type :=
  | InvalidFormatError
  | DecompressionError
  | OutOfBoundsError.

(** [Undefined] marks an operation that C++ leaves undefined (a shift by a
    negative amount or by at least the width of the operand); [OutOfFuel]
    is the model's own outcome for a loop cut short by its fuel. *)
Inductive outcome (A : Type) : Type :=
  | Ok (a : A)
  | Raise (e : exn)
  | Undefined
  | OutOfFuel.

Arguments Ok {A} a.
Arguments Raise {A} e.
Arguments Undefined {A}.
Arguments OutOfFuel {A}.

Definition M (St A : Type) : Type := St -> outcome (A * St).

Definition ret {St A} (a : A) : M St A := fun s => Ok (a, s).

Definition bind {St A B} (m : M St A) (k : A -> M St B) : M St B :=
  fun s =>
    match m s with
    | Ok (a, s') => k a s'
    | Raise e => Raise e
    | Undefined => Undefined
    | OutOfFuel => OutOfFuel
    end.

Definition throw {St A} (e : exn) : M St A := fun _ => Raise e.
Definition undefined {St A} : M St A := fun _ => Undefined.
Definition outOfFuel {St A} : M St A := fun _ => OutOfFuel.
Definition get {St} : M St St := fun s => Ok (s, s).
Definition put {St} (s : St) : M St unit := fun _ => Ok (tt, s).

(** [a[i]] on an array held as a list: an access outside the array is
    undefined in C++. *)
Definition load {St A} (a : list A) (i : Z) : M St A :=
  if i <? 0 then undefined
  else match a !! Z.to_nat i with
       | Some x => ret x
       | None => undefined
       end.

Declare Scope crm_scope.
Delimit Scope crm_scope with crm.
Notation "'let*' x ':=' m 'in' k" := (bind m (fun x => k))
  (at level 10, x name, m at level 100, k at level 200) : crm_scope.
Notation "'do*' m 'in' k" := (bind m (fun _ => k))
  (at level 10, m at level 100, k at level 200) : crm_scope.
Local Open Scope crm_scope.

(** ** Fixed-width integers *)

Definition wrap8 (z : Z) : Z := z mod 2 ^ 8.
Definition wrap32 (z : Z) : Z := z mod 2 ^ 32.

(** [x << n] and [x >> n] on a 32-bit unsigned operand; [None] where the
    C++ operation is undefined. *)
Definition shl32 (x n : Z) : option Z :=
  if (0 <=? n) && (n <? 32) then Some (wrap32 (Z.shiftl x n)) else None.
Definition shr32 (x n : Z) : option Z :=
  if (0 <=? n) && (n <? 32) then Some (Z.shiftr x n) else None.

(** ** Buffers *)

Definition byteZ (b : byte) : Z := Z.of_N (Byte.to_N b).

Definition size (buf : list byte) : Z := Z.of_nat (length buf).

(** [buf[i]] for an index the code keeps in range; 0 elsewhere. *)
Definition at8 (buf : list byte) (i : Z) : Z :=
  match buf !! Z.to_nat i with
  | Some b => byteZ b
  | None => 0
  end.

(** Modelled from the spec: [Buffer::readBE32] and [Buffer::readBE16] are
    declared in Buffer.hpp, which is not among the sources.  They read a
    big-endian word at a byte offset, and every buffer access is
    bounds-checked before the dereference. *)
Definition readBE32 (buf : list byte) (off : Z) : outcome Z :=
  if (0 <=? off) && (off + 4 <=? size buf) then
    Ok (Z.lor (Z.shiftl (at8 buf off) 24)
          (Z.lor (Z.shiftl (at8 buf (off + 1)) 16)
             (Z.lor (Z.shiftl (at8 buf (off + 2)) 8) (at8 buf (off + 3)))))
  else Raise OutOfBoundsError.

Definition readBE16 (buf : list byte) (off : Z) : outcome Z :=
  if (0 <=? off) && (off + 2 <=? size buf) then
    Ok (Z.lor (Z.shiftl (at8 buf off) 8) (at8 buf (off + 1)))
  else Raise OutOfBoundsError.

(** Modelled from the spec: the [FourCC] macro is defined outside the
    sources.  The signature is read as a big-endian 32-bit word and
    compared with it, so [FourCC('abcd')] has 'a' in its top byte. *)
Definition FourCC (a b c d : byte) : Z :=
  Z.lor (Z.shiftl (byteZ a) 24)
    (Z.lor (Z.shiftl (byteZ b) 16) (Z.lor (Z.shiftl (byteZ c) 8) (byteZ d))).

Arguments FourCC (a b c d)%_byte.

(** ** Header detection and the constructor *)

Definition detectHeader (hdr : Z) : bool :=
  (hdr =? FourCC "C" "r" "M" "!") || (hdr =? FourCC "C" "r" "M" "2")
  || (hdr =? FourCC "C" "r" "m" "!") || (hdr =? FourCC "C" "r" "m" "2").

Definition detectHeaderXPK (hdr : Z) : bool :=
  (hdr =? FourCC "C" "R" "M" "2") || (hdr =? FourCC "C" "R" "M" "S").

Record CRMDecompressor : Type := mkCRM {
  _packedData : list byte;
  _rawSize : Z;
  _packedSize : Z;
  _isSampled : bool;
  _isLZH : bool;
  _isXPKDelta : bool
}.

(** [CRMDecompressor(packedData, recursionLevel, verify)].  The two size
    ceilings [getMaxRawSize()] and [getMaxPackedSize()] belong to the
    framework (Decompressor.hpp) and are taken as parameters; the flags
    start out false, as the members of the sibling classes do. *)
Definition construct (maxRaw maxPacked : Z) (packedData : list byte)
  : outcome CRMDecompressor :=
  match readBE32 packedData 0 with
  | Ok hdr =>
    if negb (detectHeader hdr) || (size packedData <? 20)
    then Raise InvalidFormatError
    else
      match readBE32 packedData 6, readBE32 packedData 10 with
      | Ok rawSize, Ok packedSize =>
        if (rawSize =? 0) || (packedSize =? 0)
           || (maxRaw <? rawSize) || (maxPacked <? packedSize)
           || (size packedData <? packedSize + 14)
        then Raise InvalidFormatError
        else Ok {| _packedData := packedData;
                   _rawSize := rawSize;
                   _packedSize := packedSize;
                   _isSampled := Z.land (Z.shiftr hdr 8) 255 =? byteZ "m"%byte;
                   _isLZH := Z.land hdr 255 =? byteZ "2"%byte;
                   _isXPKDelta := false |}
      | Raise e, _ => Raise e
      | _, Raise e => Raise e
      | _, _ => Undefined
      end
  | Raise e => Raise e
  | _ => Undefined
  end.

(** The XPK constructor delegates and then records the XPK id. *)
Definition constructXPK (maxRaw maxPacked : Z) (hdr : Z) (packedData : list byte)
  : outcome CRMDecompressor :=
  match construct maxRaw maxPacked packedData with
  | Ok d => Ok {| _packedData := _packedData d;
                  _rawSize := _rawSize d;
                  _packedSize := _packedSize d;
                  _isSampled := _isSampled d;
                  _isLZH := _isLZH d;
                  _isXPKDelta := hdr =? FourCC "C" "R" "M" "S" |}
  | r => r
  end.

Definition getPackedSize (d : CRMDecompressor) : Z := _packedSize d + 14.
Definition getRawSize (d : CRMDecompressor) : Z := _rawSize d.

(** ** Huffman decoders (HuffmanDecoder.hpp) *)

Record HuffmanCode : Type := mkCode {
  length : Z;   (* uint32_t *)
  code : Z;     (* size_t *)
  value : Z     (* T *)
}.

(** [code.code & (1 << k)] as a truth value; [k] stays below 31 in every
    use the decompressor makes of the decoders. *)
Definition codeBitAt (c k : Z) : bool :=
  negb (Z.land c (Z.shiftl 1 k) =? 0).

(** *** The flat variant, [HuffmanDecoder<T, emptyValue, depth>] *)
Module Flat.
Section Flat.
Variables (emptyValue depth : Z).

Definition _length : Z := Z.shiftl 2 depth - 2.

(** The default constructor and [reset()]. *)
Definition empty : list Z := replicate (Z.to_nat _length) emptyValue.

Section Decode.
Context {St : Type} (bitReader : M St Z).

(** One run of the do-while body per unit of fuel. *)
Fixpoint decode_loop (table : list Z) (fuel : nat) (i : Z) : M St Z :=
  match fuel with
  | O => outOfFuel
  | S fuel' =>
    let* b := bitReader in
    let i := if b =? 0 then i else i + 1 in
    let* r := load table i in
    let i := i * 2 + 2 in
    if (r =? emptyValue) && (i <? _length)
    then decode_loop table fuel' i
    else if r =? emptyValue then throw DecompressionError else ret r
  end.

Definition decode (table : list Z) : M St Z :=
  decode_loop table (S (Z.to_nat depth)) 0.
End Decode.

(** The for loop of [insert]: [j] counts down from [code.length]. *)
Fixpoint insert_loop (c : HuffmanCode) (j : nat) (i : Z) : M (list Z) unit :=
  match j with
  | O => ret tt
  | S j' =>
    let i := if codeBitAt (code c) (Z.of_nat j') then i + 1 else i in
    let* table := get in
    let* r := load table i in
    if negb (r =? emptyValue) then throw DecompressionError
    else
      do* (if Nat.eqb j 1 then put (<[Z.to_nat i := value c]> table) else ret tt) in
      insert_loop c j' (i * 2 + 2)
  end.

Definition insert (c : HuffmanCode) : M (list Z) unit :=
  if (value c =? emptyValue) || (depth <? length c)
  then throw DecompressionError
  else insert_loop c (Z.to_nat (length c)) 0.

(** The variadic constructor: insert the listed codes in order. *)
Fixpoint insert_all (cs : list HuffmanCode) : M (list Z) unit :=
  match cs with
  | [] => ret tt
  | c :: cs' => do* insert c in insert_all cs'
  end.

Definition make (cs : list HuffmanCode) : outcome (list Z) :=
  match insert_all cs empty with
  | Ok (_, t) => Ok t
  | Raise e => Raise e
  | Undefined => Undefined
  | OutOfFuel => OutOfFuel
  end.
End Flat.
End Flat.

(** *** The dynamic variant, [HuffmanDecoder<T, emptyValue, 0>] *)
Module Dyn.
Record Node : Type := mkNode {
  sub0 : Z;
  sub1 : Z;
  nvalue : Z
}.

Definition sub (n : Node) (bit : bool) : Z := if bit then sub1 n else sub0 n.
Definition set_sub (n : Node) (bit : bool) (v : Z) : Node :=
  if bit then mkNode (sub0 n) v (nvalue n) else mkNode v (sub1 n) (nvalue n).

Section Dyn.
Variable emptyValue : Z.

(** The default constructor and [reset()]: the root alone. *)
Definition empty : list Node := [mkNode 0 0 emptyValue].

Definition tsize (table : list Node) : Z := Z.of_nat (List.length table).

Section Decode.
Context {St : Type} (bitReader : M St Z).

Definition finish (r : Z) : M St Z :=
  if r =? emptyValue then throw DecompressionError else ret r.

Fixpoint decode_loop (table : list Node) (fuel : nat) (i r : Z) : M St Z :=
  if (i <? tsize table) && (r =? emptyValue) then
    match fuel with
    | O => outOfFuel
    | S fuel' =>
      let* b := bitReader in
      let* n := load table i in
      let i := sub n (negb (b =? 0)) in
      let* n' := load table i in
      let r := nvalue n' in
      if i =? 0 then finish r else decode_loop table fuel' i r
    end
  else finish r.

Definition decode (table : list Node) : M St Z :=
  decode_loop table (List.length table) 0 emptyValue.
End Decode.

(** [int32_t currentBit = code.length]. *)
Definition toInt32 (z : Z) : Z :=
  let w := z mod 2 ^ 32 in if w <? 2 ^ 31 then w else w - 2 ^ 32.

(** The for loop of [insert]; [n] is [currentBit + 1], and [len] is the
  local copy of the table size. *)
Fixpoint insert_loop (c : HuffmanCode) (n : nat) (i len : Z) : M (list Node) unit :=
  match n with
  | O => ret tt
  | S cb =>
    let currentBit := Z.of_nat cb in
    let codeBit :=
      if currentBit =? 0 then false else codeBitAt (code c) (currentBit - 1) in
    let* table := get in
    if i =? len then
      let nz := negb (currentBit =? 0) in
      do* put (table ++ [mkNode (if nz && negb codeBit then len + 1 else 0)
                                (if nz && codeBit then len + 1 else 0)
                                (if nz then emptyValue else value c)]) in
      insert_loop c cb (i + 1) (len + 1)
    else
      let* node := load table i in
      if (currentBit =? 0) || negb (nvalue node =? emptyValue)
      then throw DecompressionError
      else
        let tmp := sub node codeBit in
        if tmp =? 0 then
          do* put (<[Z.to_nat i := set_sub node codeBit len]> table) in
          insert_loop c cb len len
        else insert_loop c cb tmp len
  end.

Definition insert (c : HuffmanCode) : M (list Node) unit :=
  if value c =? emptyValue then throw DecompressionError
  else
    let* table := get in
    insert_loop c (Z.to_nat (toInt32 (length c) + 1)) 0 (tsize table).
End Dyn.
End Dyn.

(** ** The decompressor (CRMDecompressor.cpp) *)

(** The three locals the [readBit] and [readBits] lambdas capture. *)
Record Reader : Type := mkReader {
  bufOffset : Z;        (* size_t *)
  bufBitsContent : Z;   (* uint32_t *)
  bufBitsLength : Z     (* uint8_t *)
}.

(** The state of [decompressImpl]: the bit reader, the raw buffer behind
    [dest], the write cursor, and the log of the indices written through
    [dest], most recent first. *)
Record State : Type := mkState {
  reader : Reader;
  dest : list Z;        (* uint8_t* into rawData *)
  destOffset : Z;       (* size_t *)
  writes : list Z
}.

(** A computation on the bit reader run inside [decompressImpl]. *)
Definition onReader {A} (m : M Reader A) : M State A :=
  fun s =>
    match m (reader s) with
    | Ok (a, r) => Ok (a, mkState r (dest s) (destOffset s) (writes s))
    | Raise e => Raise e
    | Undefined => Undefined
    | OutOfFuel => OutOfFuel
    end.

(** [dest[--destOffset] = v] for a [uint8_t] value [v]. *)
Definition writeByte (v : Z) : M State unit :=
  let* s := get in
  let o := destOffset s - 1 in
  if (o <? 0) || (Z.of_nat (List.length (dest s)) <=? o) then undefined
  else put (mkState (reader s) (<[Z.to_nat o := v]> (dest s)) o (o :: writes s)).

Definition lift {St A} (r : outcome A) : M St A :=
  fun s =>
    match r with
    | Ok a => Ok (a, s)
    | Raise e => Raise e
    | Undefined => Undefined
    | OutOfFuel => OutOfFuel
    end.

Definition lengthBits : list Z := [1; 2; 4; 8].
Definition lengthAdditions : list Z := [2; 4; 8; 24].
Definition distanceBits : list Z := [9; 5; 14].
Definition distanceAdditions : list Z := [32; 0; 544].

Definition stdLengthCodes : list HuffmanCode :=
  [mkCode 1 0 0; mkCode 2 2 1; mkCode 3 6 2; mkCode 3 7 3].
Definition stdDistanceCodes : list HuffmanCode :=
  [mkCode 1 0 0; mkCode 2 2 1; mkCode 2 3 2].

Section Decompress.
(** [bufPtr] and [_rawSize]. *)
Variables (bufPtr : list byte) (rawSize : Z).

Definition readBit : M Reader Z :=
  let* r := get in
  do* (if bufBitsLength r =? 0 then
         if bufOffset r <=? 14 then throw DecompressionError
         else
           let* b := load bufPtr (bufOffset r - 1) in
           put (mkReader (bufOffset r - 1) (byteZ b) 8)
       else ret tt) in
  let* r := get in
  do* put (mkReader (bufOffset r) (Z.shiftr (bufBitsContent r) 1)
             (wrap8 (bufBitsLength r - 1))) in
  ret (Z.land (bufBitsContent r) 1).

(** The while loop of [readBits]: one byte pulled per unit of fuel. *)
Fixpoint refill (fuel : nat) (count : Z) : M Reader unit :=
  let* r := get in
  if bufBitsLength r <? count then
    if bufOffset r <=? 14 then throw DecompressionError
    else
      match fuel with
      | O => outOfFuel
      | S fuel' =>
        let* b := load bufPtr (bufOffset r - 1) in
        match shl32 (byteZ b) (bufBitsLength r) with
        | None => undefined
        | Some v =>
          do* put (mkReader (bufOffset r - 1)
                     (Z.lor (bufBitsContent r) v)
                     (wrap8 (bufBitsLength r + 8))) in
          refill fuel' count
        end
      end
  else ret tt.

(** [(1 << count) - 1] is computed in [int], so [count] must stay
    below 31. *)
Definition readBits (count : Z) : M Reader Z :=
  let* r0 := get in
  do* refill (Z.to_nat (bufOffset r0)) count in
  let* r := get in
  if (count <? 0) || (31 <=? count) then undefined
  else
    do* put (mkReader (bufOffset r) (Z.shiftr (bufBitsContent r) count)
               (wrap8 (bufBitsLength r - count))) in
    ret (Z.land (bufBitsContent r) (Z.shiftl 1 count - 1)).

(** [for (i = 0; i < count; i++) dest[--destOffset] = readBits(8);] *)
Fixpoint literalLoop (n : nat) : M State unit :=
  match n with
  | O => ret tt
  | S n' =>
    let* v := onReader (readBits 8) in
    do* writeByte (wrap8 v) in
    literalLoop n'
  end.

(** [for (i = 0; i < count; i++) dest[--destOffset] = dest[--distance];] *)
Fixpoint copyLoop (n : nat) (distance : Z) : M State unit :=
  match n with
  | O => ret tt
  | S n' =>
    let distance := wrap32 (distance - 1) in
    let* s := get in
    let* v := load (dest s) distance in
    do* writeByte v in
    copyLoop n' distance
  end.

(** *** Standard mode *)

(** The literal-run branch, entered when the length value is 23. *)
Definition stdLiteralRun : M State unit :=
  let* b := onReader readBit in
  let* count :=
    (if negb (b =? 0)
     then let* v := onReader (readBits 5) in ret (wrap32 (v + 15))
     else let* v := onReader (readBits 14) in ret (wrap32 (v + 15))) in
  let* s := get in
  if destOffset s <? count then throw DecompressionError
  else literalLoop (Z.to_nat count).

(** The bounds check and the copy of a standard-mode match. *)
Definition stdCopy (distance count : Z) : M State unit :=
  let* s := get in
  if (distance =? 0) || (destOffset s <? count)
     || (rawSize <? destOffset s + distance)
  then throw DecompressionError
  else copyLoop (Z.to_nat count) (wrap32 (distance + destOffset s)).

(** The distance of a standard-mode match of [count] bytes, then the copy. *)
Definition stdMatchCopy (distanceDecoder : list Z) (count : Z) : M State unit :=
  let* distanceIndex := onReader (Flat.decode 255 2 readBit distanceDecoder) in
  let* db := load distanceBits distanceIndex in
  let* da := load distanceAdditions distanceIndex in
  let* v := onReader (readBits db) in
  stdCopy (wrap32 (v + da)) count.

(** The else branch of [if (count == 23)]. *)
Definition stdMatch (distanceDecoder : list Z) (count : Z) : M State unit :=
  let count := if 23 <? count then wrap32 (count - 1) else count in
  stdMatchCopy distanceDecoder count.

(** One turn of [while (destOffset)]. *)
Definition stdToken (lengthDecoder distanceDecoder : list Z) : M State unit :=
  let* b := onReader readBit in
  if negb (b =? 0) then
    let* v := onReader (readBits 8) in writeByte (wrap8 v)
  else
    let* lengthIndex := onReader (Flat.decode 255 3 readBit lengthDecoder) in
    let* lb := load lengthBits lengthIndex in
    let* la := load lengthAdditions lengthIndex in
    let* v := onReader (readBits lb) in
    let count := wrap32 (v + la) in
    if count =? 23 then stdLiteralRun
    else stdMatch distanceDecoder count.

Fixpoint stdLoop (lengthDecoder distanceDecoder : list Z) (fuel : nat)
  : M State unit :=
  let* s := get in
  if destOffset s =? 0 then ret tt
  else
    match fuel with
    | O => outOfFuel
    | S fuel' =>
      do* stdToken lengthDecoder distanceDecoder in
      stdLoop lengthDecoder distanceDecoder fuel'
    end.

Definition stdMode : M State unit :=
  let* lengthDecoder := lift (Flat.make 255 3 stdLengthCodes) in
  let* distanceDecoder := lift (Flat.make 255 2 stdDistanceCodes) in
  stdLoop lengthDecoder distanceDecoder (Z.to_nat rawSize).

(** *** LZH mode *)

(** [dec.insert(c)] on a decoder held in a local variable. *)
Definition insertInto (dec : list Dyn.Node) (c : HuffmanCode)
  : M Reader (list Dyn.Node) :=
  fun r =>
    match Dyn.insert 512 c dec with
    | Ok (_, dec') => Ok (dec', r)
    | Raise e => Raise e
    | Undefined => Undefined
    | OutOfFuel => OutOfFuel
    end.

(** [for (i = 0; i < maxDepth; i++) lengthTable[i] = readBits(min(i+1, codeLength));] *)
Fixpoint readLengthTable (codeLength : Z) (n : nat) (i : Z) : M Reader (list Z) :=
  match n with
  | O => ret []
  | S n' =>
    let* v := readBits (Z.min (i + 1) codeLength) in
    let* rest := readLengthTable codeLength n' (i + 1) in
    ret (v :: rest)
  end.

(** The inner for loop over the codes of one depth; the running [code]
    and the decoder are threaded through. *)
Fixpoint readCodes (codeLength maxDepth depth : Z) (n : nat)
    (code : Z) (dec : list Dyn.Node) : M Reader (Z * list Dyn.Node) :=
  match n with
  | O => ret (code, dec)
  | S n' =>
    let* v := readBits codeLength in
    let* dec := insertInto dec
                  (mkCode depth (Z.shiftr code (maxDepth - depth)) v) in
    readCodes codeLength maxDepth depth n'
      (wrap32 (code + Z.shiftl 1 (maxDepth - depth))) dec
  end.

(** The outer for loop, [depth = 1 .. maxDepth]; [n] turns remain. *)
Fixpoint readDepths (codeLength maxDepth : Z) (lengthTable : list Z)
    (n : nat) (depth code : Z) (dec : list Dyn.Node)
  : M Reader (list Dyn.Node) :=
  match n with
  | O => ret dec
  | S n' =>
    let* cnt := load lengthTable (depth - 1) in
    let* r := readCodes codeLength maxDepth depth (Z.to_nat cnt) code dec in
    readDepths codeLength maxDepth lengthTable n' (depth + 1) (fst r) (snd r)
  end.

Definition readHuffmanTable (dec : list Dyn.Node) (codeLength : Z)
  : M Reader (list Dyn.Node) :=
  let* maxDepth := readBits 4 in
  if maxDepth =? 0 then throw DecompressionError
  else
    let* lengthTable := readLengthTable codeLength (Z.to_nat maxDepth) 0 in
    readDepths codeLength maxDepth lengthTable (Z.to_nat maxDepth) 1 0 dec.

(** The distance of an LZH match from its width symbol. *)
Definition lzhDistance (distanceBits : Z) : M Reader Z :=
  if distanceBits =? 0 then
    let* v := readBits 1 in ret (wrap32 (v + 1))
  else
    let* v := readBits distanceBits in
    ret (wrap32 (Z.lor v (Z.shiftl 1 distanceBits) + 1)).

Definition lzhCopy (distance count : Z) : M State unit :=
  let* s := get in
  if (destOffset s <? count) || (rawSize <? destOffset s + distance)
  then throw DecompressionError
  else copyLoop (Z.to_nat count) (wrap32 (distance + destOffset s)).

Definition lzhItem (lengthDecoder distanceDecoder : list Dyn.Node)
  : M State unit :=
  let* count := onReader (Dyn.decode 512 readBit lengthDecoder) in
  if negb (Z.land count 256 =? 0) then
    let* s := get in
    if destOffset s =? 0 then throw DecompressionError
    else writeByte (wrap8 count)
  else
    let count := wrap32 (count + 3) in
    let* distanceBits := onReader (Dyn.decode 512 readBit distanceDecoder) in
    let* distance := onReader (lzhDistance distanceBits) in
    lzhCopy distance count.

Fixpoint lzhItems (lengthDecoder distanceDecoder : list Dyn.Node) (n : nat)
  : M State unit :=
  match n with
  | O => ret tt
  | S n' =>
    do* lzhItem lengthDecoder distanceDecoder in
    lzhItems lengthDecoder distanceDecoder n'
  end.

(** The body of the do-while: two tables, then [items] tokens. *)
Definition lzhBlock : M State unit :=
  let* lengthDecoder := onReader (readHuffmanTable (Dyn.empty 512) 9) in
  let* distanceDecoder := onReader (readHuffmanTable (Dyn.empty 512) 4) in
  let* v := onReader (readBits 16) in
  lzhItems lengthDecoder distanceDecoder (Z.to_nat (wrap32 (v + 1))).

(** [do { block } while (readBit());], one further block per unit of fuel. *)
Fixpoint lzhLoop (fuel : nat) : M State unit :=
  do* lzhBlock in
  let* b := onReader readBit in
  if b =? 0 then ret tt
  else
    match fuel with
    | O => outOfFuel
    | S fuel' => lzhLoop fuel'
    end.

(** Lines 142-252: the mode dispatch and the final check. *)
Definition decodeBody (isLZH : bool) : M State unit :=
  do* (if isLZH then lzhLoop (Z.to_nat rawSize) else stdMode) in
  let* s := get in
  if negb (destOffset s =? 0) then throw DecompressionError else ret tt.
End Decompress.

(** Modelled from the spec: [DLTADecode::decode] lives in DLTADecode.hpp,
    which is not among the sources.  Over [length] bytes from [offset] it
    replaces each 8-bit delta by the running sum. *)
Fixpoint dltaRun (ctr : Z) (n : nat) (l : list Z) : list Z :=
  match n, l with
  | S n', x :: l' => let c := wrap8 (ctr + x) in c :: dltaRun c n' l'
  | _, _ => l
  end.

Definition DLTADecode (src : list Z) (offset len : Z) : list Z :=
  take (Z.to_nat offset) src
  ++ dltaRun 0 (Z.to_nat len) (drop (Z.to_nat offset) src).

(** Line 108: the amount [16-originalShift].  [originalShift] is a
    [uint16_t] and is promoted to [int], so the difference is formed in
    [int]: it does not wrap, and it is negative for a shift word above
    16. *)
Definition seedShift (originalShift : Z) : Z := 16 - originalShift.

(** The bit-reader seed taken from the last six bytes of the packed data
    (lines 101-108). *)
Definition initReader (d : CRMDecompressor) : outcome Reader :=
  let bufOffset := _packedSize d + 14 - 6 in
  match readBE32 (_packedData d) bufOffset,
        readBE16 (_packedData d) (bufOffset + 4) with
  | Ok originalBitsContent, Ok originalShift =>
    let bufBitsLength := wrap8 (originalShift + 16) in
    match shr32 originalBitsContent (seedShift originalShift) with
    | Some bufBitsContent => Ok (mkReader bufOffset bufBitsContent bufBitsLength)
    | None => Undefined
    end
  | Raise e, _ => Raise e
  | _, Raise e => Raise e
  | _, _ => Undefined
  end.

(** Lines 101-252: what [decompressImpl(rawData, verify)] does once the
    size check has passed, up to and including the final [destOffset]
    check; the result is the final state. *)
Definition decodeFrom (d : CRMDecompressor) (rawData : list Z) : outcome State :=
  match initReader d with
  | Ok r =>
    match decodeBody (_packedData d) (_rawSize d) (_isLZH d)
            (mkState r rawData (_rawSize d) []) with
    | Ok (_, s) => Ok s
    | Raise e => Raise e
    | Undefined => Undefined
    | OutOfFuel => OutOfFuel
    end
  | Raise e => Raise e
  | Undefined => Undefined
  | OutOfFuel => OutOfFuel
  end.

(** Lines 99-252 of [decompressImpl(rawData, verify)]. *)
Definition decodePhase (d : CRMDecompressor) (rawData : list Z) : outcome State :=
  if Z.of_nat (List.length rawData) <? _rawSize d then Raise DecompressionError
  else decodeFrom d rawData.

(** Lines 253-254: the delta post-filter of a sampled stream. *)
Definition postFilter (d : CRMDecompressor) (s : State) : list Z :=
  if _isSampled d then DLTADecode (dest s) 0 (_rawSize d) else dest s.

(** [decompressImpl(rawData, verify)]: the raw buffer on return. *)
Definition decompressImpl (d : CRMDecompressor) (rawData : list Z)
  : outcome (list Z) :=
  match decodePhase d rawData with
  | Ok s => Ok (postFilter d s)
  | Raise e => Raise e
  | Undefined => Undefined
  | OutOfFuel => OutOfFuel
  end.

(** [decompressImpl(rawData, previousData, verify)], the XPK form. *)
Definition decompressImplXPK (d : CRMDecompressor)
    (rawData previousData : list Z) : outcome (list Z) :=
  if negb (Z.of_nat (List.length rawData) =? _rawSize d)
  then Raise DecompressionError
  else decompressImpl d rawData.
(** ** [CreateOrderlyHuffmanTable] (HuffmanDecoder.hpp, lines 175-199) *)

Section Orderly.
(** The decoder type [T] with its [insert], and the conversion of an
    index to [T::ItemType]. *)
Context {T : Type} (insert : HuffmanCode -> M T unit) (toItem : Z -> Z).

(** Lines 179-184: the smallest nonzero and the largest bit length. *)
Fixpoint depthRange (bitLengths : list Z) (minDepth maxDepth : Z) : Z * Z :=
  match bitLengths with
  | [] => (minDepth, maxDepth)
  | l :: rest =>
    let minDepth := if negb (l =? 0) && (l <? minDepth) then l else minDepth in
    let maxDepth := if maxDepth <? l then l else maxDepth in
    depthRange rest minDepth maxDepth
  end.

(** Lines 190-197: the inner for loop, over the bit lengths from index
    [i] on; it returns the running [code].  [1 << (maxDepth - depth)] is
    computed in [int]. *)
Fixpoint orderlyCodes (maxDepth depth : Z) (bitLengths : list Z) (i code : Z)
  : M T Z :=
  match bitLengths with
  | [] => ret code
  | l :: rest =>
    if l =? depth then
      match shr32 code (maxDepth - depth) with
      | None => undefined
      | Some c =>
        do* insert (mkCode depth c (toItem i)) in
        if (maxDepth - depth <? 0) || (31 <=? maxDepth - depth) then undefined
        else
          orderlyCodes maxDepth depth rest (i + 1)
            (wrap32 (code + Z.shiftl 1 (maxDepth - depth)))
      end
    else orderlyCodes maxDepth depth rest (i + 1) code
  end.

(** Lines 188-198: the outer for loop; [n] turns remain. *)
Fixpoint orderlyDepths (maxDepth : Z) (bitLengths : list Z) (n : nat)
    (depth code : Z) : M T unit :=
  match n with
  | O => ret tt
  | S n' =>
    let* code := orderlyCodes maxDepth depth bitLengths 0 code in
    orderlyDepths maxDepth bitLengths n' (depth + 1) code
  end.

Definition CreateOrderlyHuffmanTable (bitLengths : list Z) : M T unit :=
  let (minDepth, maxDepth) := depthRange bitLengths 32 0 in
  if maxDepth =? 0 then throw DecompressionError
  else
    orderlyDepths maxDepth bitLengths (Z.to_nat (maxDepth + 1 - minDepth))
      minDepth 0.
End Orderly.
(** ** Names (CRMDecompressor.cpp, lines 65-85) *)

(** The [names] array of [getName]. *)
Module GetName.
Import Strings.String.
Definition names : list string :=
  ["CrM!: Crunch-Mania standard-mode"%string;
   "Crm!: Crunch-Mania standard-mode, sampled"%string;
   "CrM2: Crunch-Mania LZH-mode"%string;
   "Crm2: Crunch-Mania LZH-mode, sampled"%string].
End GetName.

(** The [names] array of [getSubName]. *)
Module GetSubName.
Import Strings.String.
Definition names : list string :=
  ["XPK-CRM2: Crunch-Mania LZH-mode"%string;
   "XPK-CRMS: Crunch-Mania LZH-mode, sampled"%string].
End GetSubName.

Definition getName (d : CRMDecompressor) : String.string :=
  nth ((if _isLZH d then 2 else 0) + (if _isSampled d then 1 else 0))%nat
    GetName.names String.EmptyString.

Definition getSubName (d : CRMDecompressor) : String.string :=
  nth (if _isXPKDelta d then 1%nat else 0%nat) GetSubName.names
    String.EmptyString.
(** ** The stores of a whole call (CRMDecompressor.cpp, lines 97-255) *)

(** [buffer[i] = v] on the raw buffer, logged like the stores through
    [dest]; the write cursor is not involved. *)
Definition storeAt (i v : Z) : M State unit :=
  let* s := get in
  if (i <? 0) || (Z.of_nat (List.length (dest s)) <=? i) then undefined
  else put (mkState (reader s) (<[Z.to_nat i := v]> (dest s)) (destOffset s)
              (i :: writes s)).

(** Modelled from the spec: [DLTADecode::decode] (DLTADecode.hpp is not
    among the sources) on one buffer as both source and destination, as
    line 254 calls it: a pass over [n] bytes from index [i] upwards that
    replaces each byte by the running 8-bit sum [ctr].  [DLTADecode]
    gives the bytes of the buffer afterwards; here every replacement is
    a logged store. *)
Fixpoint dltaStores (ctr i : Z) (n : nat) : M State unit :=
  match n with
  | O => ret tt
  | S n' =>
    let* s := get in
    let* x := load (dest s) i in
    let c := wrap8 (ctr + x) in
    do* storeAt i c in
    dltaStores c (i + 1) n'
  end.

(** [decompressImpl(rawData, verify)] with its stores: the state on
    return, after the decode (lines 99-252) and, for a sampled stream,
    the post-filter (lines 253-254).  [dest] is the raw buffer on return
    and [writes] the log of every store of the call, most recent
    first. *)
Definition decompressStores (d : CRMDecompressor) (rawData : list Z)
  : outcome State :=
  match decodePhase d rawData with
  | Ok s =>
    if _isSampled d then
      match dltaStores 0 0 (Z.to_nat (_rawSize d)) s with
      | Ok (_, s') => Ok s'
      | Raise e => Raise e
      | Undefined => Undefined
      | OutOfFuel => OutOfFuel
      end
    else Ok s
  | Raise e => Raise e
  | Undefined => Undefined
  | OutOfFuel => OutOfFuel
  end.

(** ** Sample streams *)

Definition bytesOf (l : list Z) : list byte :=
  map (fun z => match Byte.of_N (Z.to_N z) with
                | Some b => b
                | None => "000"%byte
                end) l.

(** The size ceiling used with the sample streams. *)
Definition ceiling : Z := 16777216.

(** "CrM!", one literal byte 'A'. *)
Definition sampleLiteral : list byte :=
  bytesOf [67; 114; 77; 33; 0; 0; 0; 0; 0; 1; 0; 0; 0; 6; 0; 131; 0; 0; 0; 0].

(** "CrM!", literals 'B' and 'A', then a match of 8 bytes at distance 2. *)
Definition sampleMatch : list byte :=
  bytesOf [67; 114; 77; 33; 0; 0; 0; 0; 0; 10; 0; 0; 0; 9;
           0; 36; 25; 6; 133; 0; 0; 0; 0].

(** "Crm!" (sampled), a literal run of 15 bytes and one literal. *)
Definition sampleRun : list byte :=
  bytesOf [67; 114; 109; 33; 0; 0; 0; 0; 0; 16; 0; 0; 0; 22;
           3; 220; 156; 92; 27; 219; 155; 91; 26; 218; 154; 90; 25; 217; 153;
           89; 1; 246; 0; 0; 0; 0].

(** "CrM2", one block: two literals and a match of 8 bytes at distance 2. *)
Definition sampleLZH : list byte :=
  bytesOf [67; 114; 77; 50; 0; 0; 0; 0; 0; 10; 0; 0; 0; 13;
           2; 208; 0; 16; 68; 11; 65; 161; 82; 0; 0; 0; 0].

(** [sampleLiteral] with the trailing shift word set to 17. *)
Definition sampleShift17 : list byte :=
  bytesOf [67; 114; 77; 33; 0; 0; 0; 0; 0; 1; 0; 0; 0; 6; 0; 131; 0; 0; 0; 17].

Definition decoderOf (p : list byte) : CRMDecompressor :=
  match construct ceiling ceiling p with
  | Ok d => d
  | _ => mkCRM [] 0 0 false false false
  end.

(** ** Bit sources and tree walks used in the statements *)

(** A bit reader over an explicit list of bits; it raises, as [readBit]
    does, when the bits run out. *)
Definition popBit : M (list Z) Z :=
  fun s =>
    match s with
    | [] => Raise DecompressionError
    | b :: s' => Ok (b, s')
    end.

(** [reads rd s bits s']: from [s], the reader [rd] yields [bits] in this
    order and ends in [s']. *)
Fixpoint reads {St} (rd : M St Z) (s : St) (bits : list Z) (s' : St) : Prop :=
  match bits with
  | [] => s = s'
  | b :: bs => exists s1, rd s = Ok (b, s1) /\ reads rd s1 bs s'
  end.

Definition bitOf (b : Z) : Z := if b =? 0 then 0 else 1.

(** The slot the flat decoder inspects after the last of [bits], when
    its loop variable was [i] before the first of them. *)
Fixpoint slotFrom (i : Z) (bits : list Z) : Z :=
  match bits with
  | [] => i
  | [b] => i + bitOf b
  | b :: bs => slotFrom ((i + bitOf b) * 2 + 2) bs
  end.

(** The walk as the specification words it: [i] starts at 0, each bit
    makes it [i*2 + 2 + bit], and the slot at that index is inspected. *)
Section ClaimedWalk.
Context {St : Type} (emptyValue depth : Z) (bitReader : M St Z).

Fixpoint claimedDecode_loop (table : list Z) (fuel : nat) (i : Z) : M St Z :=
  match fuel with
  | O => outOfFuel
  | S fuel' =>
    let* b := bitReader in
    let i := i * 2 + 2 + bitOf b in
    let* r := load table i in
    if negb (r =? emptyValue) then ret r
    else claimedDecode_loop table fuel' i
  end.

Definition claimedDecode (table : list Z) : M St Z :=
  claimedDecode_loop table (S (Z.to_nat depth)) 0.
End ClaimedWalk.

Definition stdLengthTable : list Z :=
  [0; 255; 255; 255; 1; 255; 255; 255; 255; 255; 255; 255; 2; 3].
Definition stdDistanceTable : list Z := [0; 255; 255; 255; 1; 2].

(** The code "10" followed by its proper prefix "1". *)
Definition prefixPair : list HuffmanCode := [mkCode 2 2 1; mkCode 1 1 2].

(** ** Output positions and literal bytes used in the statements *)

(** [span lo n] is [lo; lo+1; ...; lo+n-1]. *)
Definition span (lo : Z) (n : nat) : list Z :=
  map (fun k => lo + Z.of_nat k) (seq 0 n).

(** [n] successive [readBits(8)]. *)
Fixpoint readBytes (bufPtr : list byte) (n : nat) : M Reader (list Z) :=
  match n with
  | O => ret []
  | S n' =>
    let* v := readBits bufPtr 8 in
    let* rest := readBytes bufPtr n' in
    ret (v :: rest)
  end.

(** The invariant of the output side of [decompressImpl]: the cursor is
    inside the raw buffer and the indices written so far are exactly
    those from the cursor up to [rawSize - 1], the latest first. *)
Definition outputInv (rawSize : Z) (s : State) : Prop :=
  0 <= destOffset s <= rawSize
  /\ rawSize <= Z.of_nat (List.length (dest s))
  /\ writes s = span (destOffset s) (Z.to_nat (rawSize - destOffset s)).

(** ** Sample states *)

(** [sampleRun] at the start of its first token, and after the length
    value 23 of that token has been read. *)
Definition runStart : State :=
  mkState (mkReader 30 502 16) (replicate 16 0) 16 [].
Definition runState : State :=
  mkState (mkReader 30 1 8) (replicate 16 0) 16 [].

(** A raw buffer of six bytes with the two highest written. *)
Definition copyState : State :=
  mkState (mkReader 14 0 0) [0; 0; 0; 0; 5; 6] 4 [4; 5].

(** [keeps rawSize m]: whenever [m] returns, it has kept the output
    invariant and has not moved the write cursor up. *)
Definition keeps {A} (rawSize : Z) (m : M State A) : Prop :=
  forall s a s',
    outputInv rawSize s -> m s = Ok (a, s') ->
    outputInv rawSize s' /\ destOffset s' <= destOffset s.

(** The index written by the [k]-th write ([k = 0] for the first one);
    the log holds the latest write first. *)
Definition nthWrite (s : State) (k : nat) : option Z :=
  if (k <? List.length (writes s))%nat
  then writes s !! (List.length (writes s) - 1 - k)%nat
  else None.

(** ** Table deserialisation as the specification words it *)

Section ClaimedTable.
Variable bufPtr : list byte.

(** Successive [readBits] of the given widths. *)
Fixpoint readMany (widths : list Z) : M Reader (list Z) :=
  match widths with
  | [] => ret []
  | w :: ws =>
    let* v := readBits bufPtr w in
    let* rest := readMany ws in
    ret (v :: rest)
  end.

(** The canonical assignment: at each depth, starting with [depth], as
    many consecutive codes as the length table says, the first being the
    MSB-aligned running [code] shifted down to that depth. *)
Fixpoint canonicalSlots (maxDepth depth code : Z) (lengthTable : list Z)
  : list (Z * Z) :=
  match lengthTable with
  | [] => []
  | cnt :: rest =>
    map (fun k => (depth, Z.shiftr code (maxDepth - depth) + k))
      (span 0 (Z.to_nat cnt))
    ++ canonicalSlots maxDepth (depth + 1)
         (code + cnt * 2 ^ (maxDepth - depth)) rest
  end.

(** One leaf value read and inserted per slot. *)
Fixpoint readLeaves (codeLength : Z) (slots : list (Z * Z))
    (dec : list Dyn.Node) : M Reader (list Dyn.Node) :=
  match slots with
  | [] => ret dec
  | (depth, c) :: rest =>
    let* v := readBits bufPtr codeLength in
    let* dec := insertInto dec (mkCode depth c v) in
    readLeaves codeLength rest dec
  end.

Definition claimedReadHuffmanTable (dec : list Dyn.Node) (codeLength : Z)
  : M Reader (list Dyn.Node) :=
  let* maxDepth := readBits bufPtr 4 in
  if maxDepth =? 0 then throw DecompressionError
  else
    let* lengthTable :=
      readMany (map (fun i => Z.min (i + 1) codeLength)
                  (span 0 (Z.to_nat maxDepth))) in
    readLeaves codeLength (canonicalSlots maxDepth 1 0 lengthTable) dec.
End ClaimedTable.

(** ** Well-formed dynamic tables *)

(** Every child link is null or points forward, below [bound]. *)
Definition linksBelow (table : list Dyn.Node) (bound : Z) : Prop :=
  forall j node b,
    table !! j = Some node ->
    Dyn.sub node b = 0 \/ Z.of_nat j < Dyn.sub node b < bound.

Definition wfTable (table : list Dyn.Node) : Prop :=
  linksBelow table (Dyn.tsize table).

(** Every node value lies in [0, top]. *)
Definition valuesUpTo (top : Z) (table : list Dyn.Node) : Prop :=
  forall j node, table !! j = Some node -> 0 <= Dyn.nvalue node <= top.

(** A computation that never stops for lack of fuel. *)
Definition noFuel {St A} (m : M St A) : Prop := forall s, m s <> OutOfFuel.

(** Tables read from the stream are well formed, with 9-bit values. *)
Definition goodTable (dec : list Dyn.Node) : Prop :=
  wfTable dec /\ valuesUpTo 512 dec.

(** The size of a raw buffer. *)
Definition rawLen (rawData : list Z) : Z := Z.of_nat (List.length rawData).

(** The range of the flat decoder's loop variable at level [k] of the tree. *)
Definition atLevel (k i : Z) : Prop :=
  2 * 2 ^ k - 2 <= i <= 4 * 2 ^ k - 4.

(** ** Codes as bit strings *)

(** The low [j] bits of [c], the most significant first: the order in
    which [insert] walks them. *)
Fixpoint codeBits (c : Z) (j : nat) : list Z :=
  match j with
  | O => []
  | S j' => (if codeBitAt c (Z.of_nat j') then 1 else 0) :: codeBits c j'
  end.

Definition bitsOf (c : HuffmanCode) : list Z :=
  codeBits (code c) (Z.to_nat (length c)).

(** [c] is stored in a flat table: the slot at the end of its path holds
    its value. *)
Definition flatStored (emptyValue : Z) (table : list Z) (c : HuffmanCode) : Prop :=
  bitsOf c <> []
  /\ value c <> emptyValue
  /\ table !! Z.to_nat (slotFrom 0 (bitsOf c)) = Some (value c).

(** ** Codes stored in a dynamic table *)

(** The node reached from node [i] along the links of [bits]. *)
Fixpoint walk (table : list Dyn.Node) (i : Z) (bits : list Z) : option Z :=
  match bits with
  | [] => Some i
  | b :: bs =>
    match table !! Z.to_nat i with
    | Some n =>
      let t := Dyn.sub n (negb (b =? 0)) in
      if t =? 0 then None else walk table t bs
    | None => None
    end
  end.

(** [c] is stored: its path from the root ends in a node with its value. *)
Definition dynStored (emptyValue : Z) (table : list Dyn.Node) (c : HuffmanCode)
  : Prop :=
  value c <> emptyValue
  /\ exists j nd,
       0 <= j /\ walk table 0 (bitsOf c) = Some j
       /\ table !! Z.to_nat j = Some nd /\ Dyn.nvalue nd = value c.

(** [table'] has the nodes of [table] with their values and their
    non-null links. *)
Definition extends (table table' : list Dyn.Node) : Prop :=
  forall j nd,
    table !! j = Some nd ->
    exists nd',
      table' !! j = Some nd' /\ Dyn.nvalue nd' = Dyn.nvalue nd
      /\ forall b, Dyn.sub nd b <> 0 -> Dyn.sub nd' b = Dyn.sub nd b.

(** One code is a prefix of the other, or they are equal. *)
Definition prefixRelated (c c' : HuffmanCode) : Prop :=
  exists m, bitsOf c = take m (bitsOf c') \/ bitsOf c' = take m (bitsOf c).

(** Successive inserts into a dynamic decoder. *)
Fixpoint dynInsertAll (emptyValue : Z) (cs : list HuffmanCode)
  : M (list Dyn.Node) unit :=
  match cs with
  | [] => ret tt
  | c :: cs' => do* Dyn.insert emptyValue c in dynInsertAll emptyValue cs'
  end.

(** ** Defined behaviour *)

(** [post Q o]: the outcome [o] is a result in [Q] or the exception
    DecompressionError; it is neither an undefined operation nor a stop
    for lack of fuel. *)
Definition post {St A} (Q : A -> St -> Prop) (o : outcome (A * St)) : Prop :=
  match o with
  | Ok (a, s') => Q a s'
  | Raise e => e = DecompressionError
  | Undefined => False
  | OutOfFuel => False
  end.

Definition hoare {St A} (P : St -> Prop) (m : M St A) (Q : A -> St -> Prop)
  : Prop :=
  forall s, P s -> post Q (m s).

(** The bit reader stays inside the packed data. *)
Definition readerInv (bufPtr : list byte) (r : Reader) : Prop :=
  0 <= bufOffset r <= size bufPtr /\ 0 <= bufBitsLength r.


(** [readsOk bufPtr m Q]: [m] keeps the reader invariant and returns a
    value in [Q]. *)
Definition readsOk {A} (bufPtr : list byte) (m : M Reader A) (Q : A -> Prop)
  : Prop :=
  hoare (readerInv bufPtr) m (fun a r => readerInv bufPtr r /\ Q a).

(** Every stored value is EMPTY or satisfies [P]. *)
Definition leafValues (emptyValue : Z) (P : Z -> Prop) (table : list Dyn.Node)
  : Prop :=
  forall j node,
    table !! j = Some node ->
    Dyn.nvalue node = emptyValue \/ P (Dyn.nvalue node).

(** A table read from the stream with leaf width [codeLength]. *)
Definition readTable (codeLength : Z) (dec : list Dyn.Node) : Prop :=
  wfTable dec /\ leafValues 512 (fun v => 0 <= v < 2 ^ codeLength) dec.


(** ** The packed data as a stream of bits *)

(** The low [n] bits of [z], the least significant first. *)
Fixpoint lowBits (n : nat) (z : Z) : list Z :=
  match n with
  | O => []
  | S n' => Z.land z 1 :: lowBits n' (Z.shiftr z 1)
  end.

(** The number whose bits are [bits], the least significant first. *)
Fixpoint fromBits (bits : list Z) : Z :=
  match bits with
  | [] => 0
  | b :: bs => b + 2 * fromBits bs
  end.

(** The bits of the [k] packed bytes below index [off], from
    [bufPtr[off-1]] downwards, each byte with its least significant bit
    first. *)
Fixpoint bytesBelow (bufPtr : list byte) (k : nat) (off : Z) : list Z :=
  match k with
  | O => []
  | S k' => lowBits 8 (at8 bufPtr (off - 1)) ++ bytesBelow bufPtr k' (off - 1)
  end.

(** The bits the reader has still to deliver: those it holds, then the
    packed bytes from [bufOffset - 1] down to index 14. *)
Definition pending (bufPtr : list byte) (r : Reader) : list Z :=
  lowBits (Z.to_nat (bufBitsLength r)) (bufBitsContent r)
  ++ bytesBelow bufPtr (Z.to_nat (bufOffset r - 14)) (bufOffset r).

(** The reader is inside the packed data and holds [bufBitsLength] bits,
    at most 32, with nothing above them. *)
Definition cleanReader (bufPtr : list byte) (r : Reader) : Prop :=
  0 <= bufOffset r <= size bufPtr
  /\ 0 <= bufBitsLength r <= 32
  /\ 0 <= bufBitsContent r < 2 ^ bufBitsLength r.

(** ** Slots of the flat decoder *)

(** The slots of level [k] of the flat table (level 0 holds the codes of
    one bit). *)
Definition slotLevel (k x : Z) : Prop :=
  2 * 2 ^ k - 2 <= x <= 4 * 2 ^ k - 3.

(** ** Paths of the dynamic decoder *)

(** From node [i] the links of [bits] lead through nodes holding EMPTY
    to a node holding [v]. *)
Fixpoint codePath (emptyValue : Z) (table : list Dyn.Node) (i : Z)
    (bits : list Z) (v : Z) : Prop :=
  match bits with
  | [] =>
    0 <= i /\ exists n, table !! Z.to_nat i = Some n /\ Dyn.nvalue n = v
  | b :: bs =>
    0 <= i
    /\ exists n,
         table !! Z.to_nat i = Some n /\ Dyn.nvalue n = emptyValue
         /\ Dyn.sub n (negb (b =? 0)) <> 0
         /\ codePath emptyValue table (Dyn.sub n (negb (b =? 0))) bs v
  end.

(** The root of the table holds EMPTY. *)
Definition rootEmpty (emptyValue : Z) (table : list Dyn.Node) : Prop :=
  exists n, table !! 0%nat = Some n /\ Dyn.nvalue n = emptyValue.

(** No two links of the table lead to the same node. *)
Definition linkInj (table : list Dyn.Node) : Prop :=
  forall j j' n n' b b',
    table !! j = Some n -> table !! j' = Some n' ->
    Dyn.sub n b <> 0 -> Dyn.sub n b = Dyn.sub n' b' ->
    j = j' /\ b = b'.

(** Every value held in the table is the value of one of the codes
    [cs], at the end of that code's path from the root. *)
Definition leavesFrom (emptyValue : Z) (cs : list HuffmanCode)
    (table : list Dyn.Node) : Prop :=
  forall j nd,
    table !! j = Some nd -> Dyn.nvalue nd <> emptyValue ->
    exists c,
      In c cs /\ value c = Dyn.nvalue nd
      /\ walk table 0 (bitsOf c) = Some (Z.of_nat j).

(** A bit reader that returns 0 or 1. *)
Definition bitValued {St} (rd : M St Z) : Prop :=
  forall s b s1, rd s = Ok (b, s1) -> b = 0 \/ b = 1.

(** Every node but the root lies on the path of one of the codes [cs]. *)
Definition nodesFrom (cs : list HuffmanCode) (table : list Dyn.Node) : Prop :=
  forall j nd,
    table !! j = Some nd -> (0 < j)%nat ->
    exists c m,
      In c cs /\ walk table 0 (take m (bitsOf c)) = Some (Z.of_nat j).

(** What holds of a dynamic table into which the codes [cs] have been
    inserted. *)
Definition dynInv (emptyValue : Z) (cs : list HuffmanCode)
    (table : list Dyn.Node) : Prop :=
  wfTable table /\ rootEmpty emptyValue table /\ linkInj table
  /\ leavesFrom emptyValue cs table /\ nodesFrom cs table
  /\ forall c, In c cs ->
       bitsOf c <> [] /\ value c <> emptyValue
       /\ codePath emptyValue table 0 (bitsOf c) (value c).

(** The directions of a list of bits. *)
Definition dirs (bits : list Z) : list bool :=
  map (fun b => negb (b =? 0)) bits.

(** ** Bytes once written *)

(** [settles rawSize m]: whenever [m] returns, it has kept the output
    invariant and the size of the raw buffer, has not moved the write
    cursor up, and has left every byte at or above the cursor it started
    from as it was. *)
Definition settles {A} (rawSize : Z) (m : M State A) : Prop :=
  forall s a s',
    outputInv rawSize s -> m s = Ok (a, s') ->
    outputInv rawSize s' /\ destOffset s' <= destOffset s
    /\ List.length (dest s') = List.length (dest s)
    /\ forall j, destOffset s <= j ->
         dest s' !! Z.to_nat j = dest s !! Z.to_nat j.

(** ** Two runs on raw buffers with different contents *)

(** The two states are at the same point of the decode and hold the
    same bytes from the write cursor up to [rawSize]. *)
Definition agree (rawSize : Z) (s1 s2 : State) : Prop :=
  reader s1 = reader s2 /\ destOffset s1 = destOffset s2
  /\ writes s1 = writes s2
  /\ forall j, destOffset s1 <= j < rawSize ->
       dest s1 !! Z.to_nat j = dest s2 !! Z.to_nat j.

(** The two outcomes are of the same kind, with the same value or
    exception, and leave states that agree. *)
Definition corr {A} (rawSize : Z) (o1 o2 : outcome (A * State)) : Prop :=
  match o1, o2 with
  | Ok (a1, s1), Ok (a2, s2) =>
    a1 = a2 /\ outputInv rawSize s1 /\ outputInv rawSize s2
    /\ agree rawSize s1 s2
  | Raise e1, Raise e2 => e1 = e2
  | Undefined, Undefined => True
  | OutOfFuel, OutOfFuel => True
  | _, _ => False
  end.

(** [m] does not look at the bytes below the write cursor. *)
Definition oblivious {A} (rawSize : Z) (m : M State A) : Prop :=
  forall s1 s2,
    outputInv rawSize s1 -> outputInv rawSize s2 -> agree rawSize s1 s2 ->
    corr rawSize (m s1) (m s2).

(** ** Sample codes *)

(** The codes "0" and "10", and the dynamic table that holds them. *)
Definition sampleCodes : list HuffmanCode := [mkCode 1 0 65; mkCode 2 2 66].

Definition sampleTable : list Dyn.Node :=
  match dynInsertAll 512 sampleCodes (Dyn.empty 512) with
  | Ok (_, table) => table
  | _ => []
  end.

(** ** Consecutive codes *)

(** The share of the codes of [maxDepth] bits that the codes [cs] take:
    a code of [d] bits takes [2^(maxDepth - d)] of them. *)
Fixpoint codeSpace (maxDepth : Z) (cs : list HuffmanCode) : Z :=
  match cs with
  | [] => 0
  | c :: rest => 2 ^ (maxDepth - length c) + codeSpace maxDepth rest
  end.

(** [cs] are consecutive codes from the MSB-aligned running code
    [start]: each is [start] shifted down to its length, and [start] then
    moves on by the code's share. *)
Fixpoint consecutive (maxDepth start : Z) (cs : list HuffmanCode) : Prop :=
  match cs with
  | [] => True
  | c :: rest =>
    1 <= length c <= maxDepth
    /\ start mod 2 ^ (maxDepth - length c) = 0
    /\ code c = Z.shiftr start (maxDepth - length c)
    /\ consecutive maxDepth (start + 2 ^ (maxDepth - length c)) rest
  end.

(** The codes [cs] all end at or below the running code [start]. *)
Definition belowStart (maxDepth start : Z) (cs : list HuffmanCode) : Prop :=
  forall c, In c cs ->
    1 <= length c <= maxDepth /\ 0 <= code c
    /\ (code c + 1) * 2 ^ (maxDepth - length c) <= start.

(** The share of the code space that a length table takes, its first
    entry being the number of codes of [depth] bits. *)
Fixpoint tableSpace (maxDepth depth : Z) (lengthTable : list Z) : Z :=
  match lengthTable with
  | [] => 0
  | cnt :: rest =>
    cnt * 2 ^ (maxDepth - depth) + tableSpace maxDepth (depth + 1) rest
  end.

(** The codes of a table: its slots, each with the leaf value read for
    it. *)
Fixpoint tableCodes (slots : list (Z * Z)) (values : list Z)
  : list HuffmanCode :=
  match slots, values with
  | (depth, c) :: slots', v :: values' =>
    mkCode depth c v :: tableCodes slots' values'
  | _, _ => []
  end.

(** ** Orderly tables *)

(** The share of the code space that the nonzero bit lengths take. *)
Fixpoint lengthsSpace (maxDepth : Z) (bitLengths : list Z) : Z :=
  match bitLengths with
  | [] => 0
  | l :: rest =>
    (if l =? 0 then 0 else 2 ^ (maxDepth - l)) + lengthsSpace maxDepth rest
  end.

(** The indices from [i] on whose bit length is [depth], each with
    [depth] and as an item. *)
Fixpoint levelItems (toItem : Z -> Z) (depth : Z) (bitLengths : list Z) (i : Z)
  : list (Z * Z) :=
  match bitLengths with
  | [] => []
  | l :: rest =>
    (if l =? depth then [(depth, toItem i)] else [])
    ++ levelItems toItem depth rest (i + 1)
  end.

(** The items of [n] depths from [depth] on: by depth, and within a
    depth by index. *)
Fixpoint orderlyItems (toItem : Z -> Z) (bitLengths : list Z) (n : nat)
    (depth : Z) : list (Z * Z) :=
  match n with
  | O => []
  | S n' =>
    levelItems toItem depth bitLengths 0
    ++ orderlyItems toItem bitLengths n' (depth + 1)
  end.

(** The largest bit length, and the smallest nonzero one (32 when there
    is none). *)
Definition maxLength (bitLengths : list Z) : Z := fold_left Z.max bitLengths 0.
Definition minLength (bitLengths : list Z) : Z :=
  fold_left (fun m l => if l =? 0 then m else Z.min m l) bitLengths 32.

(** The share of the code space that the bit lengths from [lo] to
    [hi - 1] take. *)
Fixpoint rangeSpace (maxDepth lo hi : Z) (bitLengths : list Z) : Z :=
  match bitLengths with
  | [] => 0
  | l :: rest =>
    (if (lo <=? l) && (l <? hi) then 2 ^ (maxDepth - l) else 0)
    + rangeSpace maxDepth lo hi rest
  end.

(** The consecutive codes of the indices from [i] on whose bit length
    is [depth], the first being [start] shifted down. *)
Fixpoint levelCodes (toItem : Z -> Z) (maxDepth depth : Z)
    (bitLengths : list Z) (i start : Z) : list HuffmanCode :=
  match bitLengths with
  | [] => []
  | l :: rest =>
    if l =? depth then
      mkCode depth (Z.shiftr start (maxDepth - depth)) (toItem i)
      :: levelCodes toItem maxDepth depth rest (i + 1)
           (start + 2 ^ (maxDepth - depth))
    else levelCodes toItem maxDepth depth rest (i + 1) start
  end.

(** The consecutive codes of [n] depths from [depth] on. *)
Fixpoint depthCodes (toItem : Z -> Z) (maxDepth : Z) (bitLengths : list Z)
    (n : nat) (depth start : Z) : list HuffmanCode :=
  match n with
  | O => []
  | S n' =>
    levelCodes toItem maxDepth depth bitLengths 0 start
    ++ depthCodes toItem maxDepth bitLengths n' (depth + 1)
         (start
          + codeSpace maxDepth
              (levelCodes toItem maxDepth depth bitLengths 0 start))
  end.

(** ** Sample LZH states *)

(** The two decoders of the block of [sampleLZH], and the state at the
    first token of the block. *)
Definition lzhLengths : list Dyn.Node :=
  [Dyn.mkNode 1 2 512; Dyn.mkNode 0 0 322; Dyn.mkNode 3 4 512;
   Dyn.mkNode 0 0 321; Dyn.mkNode 0 0 5].
Definition lzhDistances : list Dyn.Node :=
  [Dyn.mkNode 1 0 512; Dyn.mkNode 0 0 0].
Definition lzhStart : State :=
  mkState (mkReader 15 26 5) (replicate 10 0) 10 [].
Definition lzhSecond : State :=
  mkState (mkReader 15 13 4) (replicate 10 0) 10 [].

(** What holds between two inserts of [CreateOrderlyHuffmanTable] into a
    dynamic decoder: the table holds the codes [before], which end at or
    below the running code [start]; the first of them is the code 0. *)
Definition orderlyInv (emptyValue maxDepth : Z) (before : list HuffmanCode)
    (table : list Dyn.Node) (start : Z) : Prop :=
  dynInv emptyValue before table
  /\ belowStart maxDepth start before
  /\ (0 < start -> exists c0, In c0 before /\ code c0 = 0)
  /\ 0 <= start <= 2 ^ maxDepth.

(** ** Codes held by a flat decoder *)

(** No code of [cs] equals, or is a prefix of, a code before it in the
    list. *)
Fixpoint laterNotPrefix (cs : list HuffmanCode) : Prop :=
  match cs with
  | [] => True
  | c :: rest =>
    (forall c' m, In c' rest -> bitsOf c' <> take m (bitsOf c))
    /\ laterNotPrefix rest
  end.

(** What holds of a flat table into which the codes [cs] have been
    inserted: each code's value is in the slot at the end of its path,
    the slots before it on the path hold EMPTY, and every other slot
    holds EMPTY. *)
Definition flatInv (emptyValue depth : Z) (cs : list HuffmanCode)
    (table : list Z) : Prop :=
  Z.of_nat (List.length table) = Flat._length depth
  /\ (forall c, In c cs ->
        0 < length c <= depth /\ value c <> emptyValue
        /\ table !! Z.to_nat (slotFrom 0 (bitsOf c)) = Some (value c)
        /\ forall m, (0 < m < List.length (bitsOf c))%nat ->
             table !! Z.to_nat (slotFrom 0 (take m (bitsOf c)))
             = Some emptyValue)
  /\ (forall x v, table !! x = Some v -> v <> emptyValue ->
        exists c,
          In c cs /\ value c = v /\ x = Z.to_nat (slotFrom 0 (bitsOf c))).

(** What holds of a flat table after any successful inserts of the codes
    [cs]: each code's value is in the slot at the end of its path, and
    every other slot holds EMPTY. *)
Definition flatHolds (emptyValue depth : Z) (cs : list HuffmanCode)
    (table : list Z) : Prop :=
  Z.of_nat (List.length table) = Flat._length depth
  /\ (forall c, In c cs -> flatStored emptyValue table c)
  /\ (forall x v, table !! x = Some v -> v <> emptyValue ->
        exists c,
          In c cs /\ value c = v /\ x = Z.to_nat (slotFrom 0 (bitsOf c))).

(** ** Every index stored to once, downwards *)

(** Of the log of a state: each store went to a lower index than the one
    before, every index of [0, rawSize) was stored to exactly once and no
    other index was, [rawSize] stores in all. *)
Definition writtenOnceDownwards (rawSize : Z) (s : State) : Prop :=
  (forall j k x y, (j < k)%nat ->
     nthWrite s j = Some x -> nthWrite s k = Some y -> y < x)
  /\ (forall x, 0 <= x < rawSize -> count_occ Z.eq_dec (writes s) x = 1%nat)
  /\ (forall x, In x (writes s) -> 0 <= x < rawSize)
  /\ Z.of_nat (List.length (writes s)) = rawSize.

(** * Properties *)

(** ** Bytes and big-endian words *)

Lemma byteZ_range (b : byte) : 0 <= byteZ b < 256.
Proof.
  unfold byteZ. pose proof (Byte.to_N_bounded b). lia.
Qed.

Lemma at8_range (buf : list byte) (i : Z) : 0 <= at8 buf i < 256.
Proof.
  unfold at8. destruct (buf !! Z.to_nat i); [apply byteZ_range | lia].
Qed.

Lemma lor_shiftl_small (a b n : Z) :
  0 <= n -> 0 <= b < 2 ^ n -> Z.lor (Z.shiftl a n) b = a * 2 ^ n + b.
Proof.
  intros Hn Hb.
  destruct (Z.eq_dec b 0) as [-> | Hb0].
  { rewrite Z.lor_0_r, Z.shiftl_mul_pow2; lia. }
  rewrite <- Z.shiftl_mul_pow2 by lia.
  rewrite <- Z.lxor_lor, <- Z.add_nocarry_lxor; trivial.
  all: apply Z.bits_inj'; intros k Hk; rewrite Z.land_spec, Z.bits_0.
  all: destruct (Z.lt_ge_cases k n) as [Hlt | Hge].
  all: try (rewrite Z.shiftl_spec_low by lia; reflexivity).
  all: rewrite (Z.bits_above_log2 b k); [apply andb_false_r | lia |].
  all: apply Z.log2_lt_pow2; [lia |];
       apply Z.lt_le_trans with (2 ^ n); [lia | apply Z.pow_le_mono_r; lia].
Qed.

Lemma be32_value (a b c d : Z) :
  0 <= a < 256 -> 0 <= b < 256 -> 0 <= c < 256 -> 0 <= d < 256 ->
  Z.lor (Z.shiftl a 24) (Z.lor (Z.shiftl b 16) (Z.lor (Z.shiftl c 8) d))
  = a * 2 ^ 24 + b * 2 ^ 16 + c * 2 ^ 8 + d.
Proof.
  intros Ha Hb Hc Hd.
  rewrite (lor_shiftl_small c d 8) by lia.
  rewrite (lor_shiftl_small b _ 16) by lia.
  rewrite (lor_shiftl_small a _ 24) by lia.
  lia.
Qed.

Lemma readBE32_value (buf : list byte) (off v : Z) :
  readBE32 buf off = Ok v ->
  v = at8 buf off * 16777216 + at8 buf (off + 1) * 65536
      + at8 buf (off + 2) * 256 + at8 buf (off + 3).
Proof.
  unfold readBE32. destruct (_ && _); [| discriminate].
  intros [= <-]. apply be32_value; apply at8_range.
Qed.

Lemma readBE32_range (buf : list byte) (off v : Z) :
  readBE32 buf off = Ok v -> 0 <= v < 2 ^ 32.
Proof.
  intros H. apply readBE32_value in H. subst v.
  pose proof (at8_range buf off). pose proof (at8_range buf (off + 1)).
  pose proof (at8_range buf (off + 2)). pose proof (at8_range buf (off + 3)).
  lia.
Qed.

Lemma readBE16_value (buf : list byte) (off v : Z) :
  readBE16 buf off = Ok v -> v = at8 buf off * 256 + at8 buf (off + 1).
Proof.
  unfold readBE16. destruct (_ && _); [| discriminate].
  intros [= <-]. apply lor_shiftl_small; [lia | apply at8_range].
Qed.



(** ** The constructor *)

(** What the constructor has checked once it returns an object. *)
Lemma construct_accepts (maxRaw maxPacked : Z) (p : list byte) (d : CRMDecompressor) :
  construct maxRaw maxPacked p = Ok d ->
  exists hdr,
    readBE32 p 0 = Ok hdr /\ detectHeader hdr = true /\ 20 <= size p
    /\ _packedData d = p
    /\ readBE32 p 6 = Ok (_rawSize d) /\ readBE32 p 10 = Ok (_packedSize d)
    /\ 0 < _rawSize d <= maxRaw /\ 0 < _packedSize d <= maxPacked
    /\ _packedSize d + 14 <= size p
    /\ _isSampled d = (Z.land (Z.shiftr hdr 8) 255 =? byteZ "m")
    /\ _isLZH d = (Z.land hdr 255 =? byteZ "2")
    /\ _isXPKDelta d = false.
Proof.
  unfold construct. intros H.
  destruct (readBE32 p 0) as [hdr | | |] eqn:Eh; try discriminate.
  destruct (negb (detectHeader hdr)) eqn:Ed; [discriminate |].
  destruct (size p <? 20) eqn:Es; [discriminate |]. simpl in H.
  destruct (readBE32 p 6) as [raw | | |] eqn:Er; try discriminate;
    destruct (readBE32 p 10) as [pk | | |] eqn:Ep; try discriminate.
  pose proof (readBE32_range _ _ _ Er). pose proof (readBE32_range _ _ _ Ep).
  destruct (raw =? 0) eqn:E1; [discriminate |].
  destruct (pk =? 0) eqn:E2; [discriminate |].
  destruct (maxRaw <? raw) eqn:E3; [discriminate |].
  destruct (maxPacked <? pk) eqn:E4; [discriminate |].
  destruct (size p <? pk + 14) eqn:E5; [discriminate |].
  simpl in H. injection H as <-. simpl.
  exists hdr. apply negb_false_iff in Ed.
  repeat split; trivial; lia.
Qed.

Lemma header_byte2 (buf : list byte) (hdr : Z) :
  readBE32 buf 0 = Ok hdr -> Z.land (Z.shiftr hdr 8) 255 = at8 buf 2.
Proof.
  intros H. apply readBE32_value in H. rewrite !Z.add_0_l in H.
  pose proof (at8_range buf 0). pose proof (at8_range buf 1).
  pose proof (at8_range buf 2). pose proof (at8_range buf 3).
  change 255 with (Z.ones 8). rewrite Z.land_ones, Z.shiftr_div_pow2 by lia.
  subst hdr. change (2 ^ 8) with 256.
  Z.to_euclidean_division_equations. lia.
Qed.

Lemma header_byte3 (buf : list byte) (hdr : Z) :
  readBE32 buf 0 = Ok hdr -> Z.land hdr 255 = at8 buf 3.
Proof.
  intros H. apply readBE32_value in H. rewrite !Z.add_0_l in H.
  pose proof (at8_range buf 0). pose proof (at8_range buf 1).
  pose proof (at8_range buf 2). pose proof (at8_range buf 3).
  change 255 with (Z.ones 8). rewrite Z.land_ones by lia.
  subst hdr. change (2 ^ 8) with 256.
  Z.to_euclidean_division_equations. lia.
Qed.

Lemma header_byte1 (buf : list byte) (hdr : Z) :
  readBE32 buf 0 = Ok hdr -> detectHeader hdr = true -> at8 buf 1 = byteZ "r".
Proof.
  intros H Hd. apply readBE32_value in H. rewrite !Z.add_0_l in H.
  pose proof (at8_range buf 0). pose proof (at8_range buf 1).
  pose proof (at8_range buf 2). pose proof (at8_range buf 3).
  unfold detectHeader in Hd.
  repeat (apply orb_prop in Hd; destruct Hd as [Hd | Hd]);
    apply Z.eqb_eq in Hd; vm_compute in Hd; rewrite Hd in H;
    change (byteZ "r") with 114; lia.
Qed.

(** C1 (as amended): for every packed stream the constructor accepts, the
    sampled flag is set exactly when byte index 2 (the third byte) of the
    signature is 'm', and the LZH flag exactly when byte index 3 (the
    fourth byte) is '2'; byte index 1 is 'r' in every accepted stream. *)
Theorem C1_flags_from_signature
    (maxRaw maxPacked : Z) (p : list byte) (d : CRMDecompressor) :
  construct maxRaw maxPacked p = Ok d ->
  (_isSampled d = true <-> at8 p 2 = byteZ "m")
  /\ (_isLZH d = true <-> at8 p 3 = byteZ "2")
  /\ at8 p 1 = byteZ "r".
Proof.
  intros H. apply construct_accepts in H.
  destruct H as (hdr & Hh & Hd & _ & _ & _ & _ & _ & _ & _ & Hs & Hl & _).
  rewrite Hs, Hl, (header_byte2 _ _ Hh), (header_byte3 _ _ Hh).
  rewrite !Z.eqb_eq. split; [tauto | split; [tauto |]].
  eapply header_byte1; eauto.
Qed.

Lemma sampleRun_accepted :
  construct ceiling ceiling sampleRun
  = Ok (mkCRM sampleRun 16 22 true false false).
Proof. vm_compute. reflexivity. Qed.

Lemma C1_flags_witness :
  construct ceiling ceiling sampleRun = Ok (decoderOf sampleRun)
  /\ (_isSampled (decoderOf sampleRun) = true <-> at8 sampleRun 2 = byteZ "m")
  /\ (_isLZH (decoderOf sampleRun) = true <-> at8 sampleRun 3 = byteZ "2")
  /\ at8 sampleRun 1 = byteZ "r".
Proof.
  split; [vm_compute; reflexivity |].
  apply (C1_flags_from_signature ceiling ceiling sampleRun (decoderOf sampleRun)).
  vm_compute; reflexivity.
Defined.

(** C1 (as stated) fails: the accepted stream "Crm!" has the sampled flag
    set although its byte index 1 is 'r', not 'm'. *)
Lemma C1_counterexample :
  construct ceiling ceiling sampleRun = Ok (decoderOf sampleRun)
  /\ ~ (_isSampled (decoderOf sampleRun) = true
        <-> at8 sampleRun 1 = byteZ "m").
Proof.
  split; [vm_compute; reflexivity |].
  intros [H _]. specialize (H eq_refl). vm_compute in H. discriminate.
Qed.

(** ** The raw-buffer size checks *)

(** C4: the one-buffer form raises DecompressionError when the raw buffer
    is smaller than rawSize and otherwise goes on to decode (a larger
    buffer is accepted); the XPK form raises DecompressionError whenever
    the size differs from rawSize, whatever the packed data, and
    otherwise is the one-buffer form. *)
Theorem C4_raw_size_checks (d : CRMDecompressor) (rawData previousData : list Z) :
  (rawLen rawData < _rawSize d ->
     decodePhase d rawData = Raise DecompressionError
     /\ decompressImpl d rawData = Raise DecompressionError)
  /\ (_rawSize d <= rawLen rawData ->
        decodePhase d rawData = decodeFrom d rawData)
  /\ (rawLen rawData <> _rawSize d ->
        decompressImplXPK d rawData previousData = Raise DecompressionError)
  /\ (rawLen rawData = _rawSize d ->
        decompressImplXPK d rawData previousData = decompressImpl d rawData)
  /\ decompressImpl (decoderOf sampleLiteral) [0; 7] = Ok [65; 7]
  /\ decompressImplXPK (decoderOf sampleLiteral) [0; 7] [] = Raise DecompressionError.
Proof.
  split; [| split; [| split; [| split; [| split]]]].
  - intros H. unfold rawLen in H. unfold decompressImpl, decodePhase.
    destruct (_ <? _) eqn:E; [split; reflexivity | lia].
  - intros H. unfold rawLen in H. unfold decodePhase.
    destruct (_ <? _) eqn:E; [lia | reflexivity].
  - intros H. unfold rawLen in H. unfold decompressImplXPK.
    destruct (_ =? _) eqn:E; [lia | reflexivity].
  - intros H. unfold rawLen in H. unfold decompressImplXPK.
    destruct (_ =? _) eqn:E; [reflexivity | lia].
  - vm_compute. reflexivity.
  - vm_compute. reflexivity.
Qed.

(** ** The seed of the bit reader *)


(** C10: decompress never validates the trailing shift word.  With the
    two seed words read, the reader never starts with an exception: for
    a shift word up to 16 its state is bufBitsLength = (shift + 16) mod
    256 and bufBitsContent = content >> (16 - shift); for a shift word
    above 16 the amount 16 - shift, formed in int, is negative (it does
    not wrap around), and the shift by it is performed unchecked
    (undefined in C++), so that the call has no defined result.  The
    accepted stream [sampleShift17] shows the second case. *)
Theorem C10_shift_word_not_validated :
  (forall (d : CRMDecompressor) (originalBitsContent originalShift : Z),
      readBE32 (_packedData d) (_packedSize d + 14 - 6) = Ok originalBitsContent ->
      readBE16 (_packedData d) (_packedSize d + 14 - 6 + 4) = Ok originalShift ->
      (forall e, initReader d <> Raise e)
      /\ (originalShift <= 16 ->
            initReader d
            = Ok (mkReader (_packedSize d + 14 - 6)
                    (Z.shiftr originalBitsContent (16 - originalShift))
                    ((originalShift + 16) mod 256)))
      /\ (16 < originalShift ->
            -65519 <= seedShift originalShift < 0
            /\ shr32 originalBitsContent (seedShift originalShift) = None
            /\ initReader d = Undefined
            /\ forall rawData, _rawSize d <= rawLen rawData ->
                 decompressImpl d rawData = Undefined))
  /\ (construct ceiling ceiling sampleShift17 = Ok (decoderOf sampleShift17)
      /\ readBE16 sampleShift17 (_packedSize (decoderOf sampleShift17) + 14 - 6 + 4)
         = Ok 17
      /\ decompressImpl (decoderOf sampleShift17) [0] = Undefined).
Proof.
  split.
  - intros d obc os H32 H16.
    pose proof (readBE16_value _ _ _ H16) as Hv.
    pose proof (at8_range (_packedData d) (_packedSize d + 14 - 6 + 4)).
    pose proof (at8_range (_packedData d) (_packedSize d + 14 - 6 + 4 + 1)).
    unfold initReader. rewrite H32, H16. unfold shr32, seedShift.
    destruct (Z.leb_spec 0 (16 - os)) as [E1 | E1];
      destruct (Z.ltb_spec (16 - os) 32) as [E2 | E2]; simpl; try lia.
    + split; [discriminate |].
      split; [intros _; reflexivity | intros Hos; lia].
    + split; [discriminate |]. split; [lia |]. intros Hos.
      split; [lia |]. split; [reflexivity |]. split; [reflexivity |].
      intros raw Hraw.
      unfold decompressImpl, decodePhase, decodeFrom, initReader, seedShift.
      unfold rawLen in Hraw.
      destruct (_ <? _) eqn:E; [lia |].
      rewrite H32, H16. unfold shr32.
      destruct (Z.leb_spec 0 (16 - os)); [lia | reflexivity].
  - repeat split; vm_compute; reflexivity.
Qed.

(** ** The monad *)

Lemma bind_Ok {St A B} (m : M St A) (k : A -> M St B) (s s1 : St) (a : A) :
  m s = Ok (a, s1) -> bind m k s = k a s1.
Proof. intros H. unfold bind. rewrite H. reflexivity. Qed.

Lemma bind_inv_Ok {St A B} (m : M St A) (k : A -> M St B) (s s' : St) (b : B) :
  bind m k s = Ok (b, s') ->
  exists a s1, m s = Ok (a, s1) /\ k a s1 = Ok (b, s').
Proof.
  unfold bind. destruct (m s) as [[a s1] | | |]; try discriminate. eauto.
Qed.

Lemma load_inv_Ok {St A} (l : list A) (i : Z) (s s' : St) (x : A) :
  load l i s = Ok (x, s') -> 0 <= i /\ l !! Z.to_nat i = Some x /\ s' = s.
Proof.
  unfold load. destruct (Z.ltb_spec i 0); [discriminate |].
  destruct (l !! Z.to_nat i); [| discriminate].
  unfold ret. intros [= -> ->]. auto.
Qed.

Lemma load_Ok {St A} (l : list A) (i : Z) (s : St) (x : A) :
  0 <= i -> l !! Z.to_nat i = Some x -> load l i s = Ok (x, s).
Proof.
  intros Hi Hl. unfold load. destruct (Z.ltb_spec i 0); [lia |].
  rewrite Hl. reflexivity.
Qed.

(** ** The flat Huffman decoder *)

Lemma stdLengthTable_made : Flat.make 255 3 stdLengthCodes = Ok stdLengthTable.
Proof. vm_compute. reflexivity. Qed.

Lemma stdDistanceTable_made : Flat.make 255 2 stdDistanceCodes = Ok stdDistanceTable.
Proof. vm_compute. reflexivity. Qed.

Lemma shiftl2 (k : Z) : 0 <= k -> Z.shiftl 2 k = 2 * 2 ^ k.
Proof. intros H. rewrite Z.shiftl_mul_pow2 by lia. reflexivity. Qed.

Lemma bitOf_range (b : Z) : 0 <= bitOf b <= 1.
Proof. unfold bitOf. destruct (b =? 0); lia. Qed.

Lemma slotFrom_cons (i b : Z) (bs : list Z) :
  bs <> [] -> slotFrom i (b :: bs) = slotFrom ((i + bitOf b) * 2 + 2) bs.
Proof. destruct bs; [congruence | reflexivity]. Qed.

Section FlatDecode.
Context {St : Type} (emptyValue depth : Z) (rd : M St Z) (table : list Z).
Hypothesis table_size : Z.of_nat (List.length table) = Flat._length depth.

Lemma decode_loop_sound (m : nat) :
  forall (fuel : nat) (k i : Z) (s s' : St) (v : Z),
    0 <= k -> k + Z.of_nat m = depth -> atLevel k i ->
    Flat.decode_loop emptyValue depth rd table fuel i s = Ok (v, s') ->
    exists bits,
      bits <> [] /\ (List.length bits <= m)%nat /\ reads rd s bits s'
      /\ table !! Z.to_nat (slotFrom i bits) = Some v /\ v <> emptyValue
      /\ forall j, (0 < j < List.length bits)%nat ->
           table !! Z.to_nat (slotFrom i (take j bits)) = Some emptyValue.
Proof.
  induction m as [| m IH]; intros fuel k i s s' v Hk Hd Hl H.
  - (* no level left: the slot read is outside the table *)
    destruct fuel as [| fuel]; [discriminate |]. simpl in H.
    apply bind_inv_Ok in H as (b & s1 & Hb & H).
    apply bind_inv_Ok in H as (r & s2 & Hr & H).
    apply load_inv_Ok in Hr as (_ & Hr & _).
    apply lookup_lt_Some in Hr. unfold Flat._length in table_size.
    rewrite shiftl2 in table_size by lia.
    unfold atLevel in Hl. replace k with depth in Hl by lia.
    destruct (b =? 0); lia.
  - destruct fuel as [| fuel]; [discriminate |]. simpl in H.
    apply bind_inv_Ok in H as (b & s1 & Hb & H).
    apply bind_inv_Ok in H as (r & s2 & Hr & H).
    apply load_inv_Ok in Hr as (Hi0 & Hr & ->).
    fold (bitOf b) in *.
    replace (if b =? 0 then i else i + 1) with (i + bitOf b) in *
      by (unfold bitOf; destruct (b =? 0); lia).
    destruct (Z.eqb_spec r emptyValue) as [-> | Hne]; simpl in H.
    + destruct (Z.ltb_spec ((i + bitOf b) * 2 + 2) (Flat._length depth)) as [Hlt | Hge];
        [| discriminate].
      pose proof (bitOf_range b) as Hbit.
      assert (Hm : (1 <= m)%nat).
      { destruct m; [| lia]. exfalso.
        unfold Flat._length in Hlt. rewrite shiftl2 in Hlt by lia.
        unfold atLevel in Hl. replace depth with (k + 1) in Hlt by lia.
        rewrite Z.pow_add_r in Hlt by lia. lia. }
      apply (IH fuel (k + 1)) in H; [| lia | lia |].
      * destruct H as (bits & Hne & Hlen & Hrd & Hv & Hnv & Hpre).
        exists (b :: bits).
        split; [discriminate |]. split; [simpl; lia |].
        split; [simpl; eauto |].
        rewrite slotFrom_cons by trivial.
        split; [trivial |]. split; [trivial |].
        intros j Hj. destruct j as [| j]; [lia |]. simpl take.
        destruct j as [| j].
        -- rewrite take_0. simpl. trivial.
        -- rewrite slotFrom_cons.
           ++ apply Hpre. simpl in Hj. lia.
           ++ destruct bits; [simpl in Hj; lia | simpl; discriminate].
      * unfold atLevel in *. rewrite Z.pow_add_r by lia. lia.
    + injection H as <- <-.
      exists [b]. simpl.
      split; [discriminate |]. split; [lia |]. split; [eauto |].
      split; [trivial |]. split; [trivial |]. intros j Hj. lia.
Qed.

Lemma decode_loop_complete (bits : list Z) :
  forall (fuel : nat) (k i : Z) (s s' : St) (v : Z),
    0 <= k -> k + Z.of_nat (List.length bits) <= depth -> atLevel k i ->
    bits <> [] -> (List.length bits <= fuel)%nat -> reads rd s bits s' ->
    table !! Z.to_nat (slotFrom i bits) = Some v -> v <> emptyValue ->
    (forall j, (0 < j < List.length bits)%nat ->
       table !! Z.to_nat (slotFrom i (take j bits)) = Some emptyValue) ->
    Flat.decode_loop emptyValue depth rd table fuel i s = Ok (v, s').
Proof.
  induction bits as [| b bs IH]; intros fuel k i s s' v Hk Hd Hl Hne Hf Hrd Hv Hnv Hpre;
    [congruence |].
  destruct fuel as [| fuel]; [simpl in Hf; lia |].
  destruct Hrd as (s1 & Hb & Hrd).
  pose proof (bitOf_range b) as Hbit.
  assert (Hi0 : 0 <= i + bitOf b).
  { unfold atLevel in Hl. pose proof (Z.pow_pos_nonneg 2 k). lia. }
  simpl Flat.decode_loop. rewrite (bind_Ok _ _ _ _ _ Hb).
  replace (if b =? 0 then i else i + 1) with (i + bitOf b)
    by (unfold bitOf; destruct (b =? 0); lia).
  destruct bs as [| b2 bs].
  - simpl in Hrd, Hv. subst s1.
    rewrite (bind_Ok _ _ _ _ _ (load_Ok _ _ _ _ Hi0 Hv)).
    destruct (Z.eqb_spec v emptyValue); [contradiction | reflexivity].
  - pose proof (Hpre 1%nat ltac:(simpl; lia)) as H1. simpl in H1.
    rewrite (bind_Ok _ _ _ _ _ (load_Ok _ _ _ _ Hi0 H1)).
    rewrite Z.eqb_refl. simpl andb.
    assert (Hlt : (i + bitOf b) * 2 + 2 < Flat._length depth).
    { unfold Flat._length. rewrite shiftl2 by (simpl in Hd; lia).
      unfold atLevel in Hl.
      assert (2 ^ (k + 2) <= 2 ^ depth)
        by (apply Z.pow_le_mono_r; simpl in Hd; lia).
      rewrite Z.pow_add_r in * by lia. lia. }
    destruct (Z.ltb_spec ((i + bitOf b) * 2 + 2) (Flat._length depth)); [| lia].
    apply (IH fuel (k + 1)); try trivial.
    + lia.
    + simpl in *. lia.
    + unfold atLevel in *. rewrite Z.pow_add_r by lia. lia.
    + discriminate.
    + simpl in *. lia.
    + intros j Hj. specialize (Hpre (S j) ltac:(simpl in *; lia)).
      simpl take in Hpre. rewrite slotFrom_cons in Hpre; [trivial |].
      destruct j; [lia | simpl; discriminate].
Qed.

(** The fuel [decode] starts with is never used up. *)
Lemma decode_loop_fuel (m : nat) :
  forall (fuel : nat) (k i : Z) (s : St),
    (forall s0, rd s0 <> OutOfFuel) ->
    0 <= k -> k + Z.of_nat m = depth -> atLevel k i -> (m < fuel)%nat ->
    Flat.decode_loop emptyValue depth rd table fuel i s <> OutOfFuel.
Proof.
  induction m as [| m IH]; intros fuel k i s Hrd Hk Hd Hl Hf;
    (destruct fuel as [| fuel]; [lia |]); simpl;
    unfold bind at 1; specialize (Hrd s) as Hs;
    destruct (rd s) as [[b s1] | | |]; try discriminate; try congruence;
    unfold bind, load;
    (destruct (Z.ltb_spec (if b =? 0 then i else i + 1) 0); [discriminate |]);
    (destruct (table !! _) as [r |] eqn:Hr; [| discriminate]); unfold ret.
  - apply lookup_lt_Some in Hr. unfold Flat._length in table_size.
    rewrite shiftl2 in table_size by lia.
    unfold atLevel in Hl. replace k with depth in Hl by lia.
    destruct (b =? 0); lia.
  - destruct (Z.eqb_spec r emptyValue) as [-> | Hne]; simpl; [| discriminate].
    destruct (Z.ltb_spec ((if b =? 0 then i else i + 1) * 2 + 2) (Flat._length depth));
      [| discriminate].
    apply (IH fuel (k + 1)); trivial; try lia.
    unfold atLevel in *. rewrite Z.pow_add_r by lia. destruct (b =? 0); lia.
Qed.
End FlatDecode.

Lemma slotFrom_snoc (bits : list Z) :
  forall (i b : Z), bits <> [] ->
    slotFrom i (bits ++ [b]) = slotFrom i bits * 2 + 2 + bitOf b.
Proof.
  induction bits as [| b0 bits IH]; intros i b Hne; [congruence |].
  destruct bits as [| b1 bits]; [reflexivity |].
  change ((b0 :: b1 :: bits) ++ [b]) with (b0 :: (b1 :: bits) ++ [b]).
  rewrite slotFrom_cons by (simpl; discriminate).
  rewrite slotFrom_cons by discriminate.
  apply IH. discriminate.
Qed.

(** C2 (as amended): the flat decoder inspects slot [bit] after the first
    bit and slot [2*s + 2 + bit] after each further bit, [s] being the slot
    inspected before; it returns the value of the first non-EMPTY slot on
    that path, within [depth] bits. *)
Theorem C2_flat_decode_walk {St : Type} (emptyValue depth : Z) (rd : M St Z)
    (table : list Z) (s s' : St) (v : Z) :
  0 <= depth ->
  Z.of_nat (List.length table) = Flat._length depth ->
  (forall i b, slotFrom i [b] = i + bitOf b)
  /\ (forall i bits b, bits <> [] ->
        slotFrom i (bits ++ [b]) = slotFrom i bits * 2 + 2 + bitOf b)
  /\ (Flat.decode emptyValue depth rd table s = Ok (v, s') <->
      exists bits,
        bits <> [] /\ Z.of_nat (List.length bits) <= depth /\ reads rd s bits s'
        /\ table !! Z.to_nat (slotFrom 0 bits) = Some v /\ v <> emptyValue
        /\ forall j, (0 < j < List.length bits)%nat ->
             table !! Z.to_nat (slotFrom 0 (take j bits)) = Some emptyValue).
Proof.
  intros Hd Hsz.
  split; [reflexivity |]. split; [intros; apply slotFrom_snoc; trivial |].
  unfold Flat.decode. split.
  - intros H.
    apply (decode_loop_sound emptyValue depth rd table Hsz (Z.to_nat depth) _ 0) in H;
      [| lia | lia | unfold atLevel; simpl; lia].
    destruct H as (bits & H1 & H2 & H3 & H4 & H5 & H6).
    exists bits. repeat (split; [trivial; lia |]). trivial.
  - intros (bits & H1 & H2 & H3 & H4 & H5 & H6).
    apply (decode_loop_complete emptyValue depth rd table bits _ 0); trivial; try lia.
    unfold atLevel; simpl; lia.
Qed.

Lemma C2_flat_decode_walk_witness :
  0 <= 3
  /\ Z.of_nat (List.length stdLengthTable) = Flat._length 3
  /\ (forall i b, slotFrom i [b] = i + bitOf b)
  /\ (forall i bits b, bits <> [] ->
        slotFrom i (bits ++ [b]) = slotFrom i bits * 2 + 2 + bitOf b)
  /\ (Flat.decode 255 3 popBit stdLengthTable [1; 0; 1] = Ok (1, [1]) <->
      exists bits,
        bits <> [] /\ Z.of_nat (List.length bits) <= 3
        /\ reads popBit [1; 0; 1] bits [1]
        /\ stdLengthTable !! Z.to_nat (slotFrom 0 bits) = Some 1 /\ 1 <> 255
        /\ forall j, (0 < j < List.length bits)%nat ->
             stdLengthTable !! Z.to_nat (slotFrom 0 (take j bits)) = Some 255).
Proof.
  split; [lia |]. split; [reflexivity |].
  apply (C2_flat_decode_walk 255 3 popBit stdLengthTable [1; 0; 1] [1] 1);
    [lia | reflexivity].
Defined.

(** C2 (as stated) fails: with the standard length table and the single
    bit 0 the decoder returns the value of slot 0, whereas the slot the
    claim names, 0*2 + 2 + 0 = 2, is EMPTY and a walk through it does
    not return that value. *)
Lemma C2_counterexample :
  Flat.make 255 3 stdLengthCodes = Ok stdLengthTable
  /\ Flat.decode 255 3 popBit stdLengthTable [0] = Ok (0, [])
  /\ stdLengthTable !! Z.to_nat (0 * 2 + 2 + bitOf 0) = Some 255
  /\ claimedDecode 255 3 popBit stdLengthTable [0]
     <> Flat.decode 255 3 popBit stdLengthTable [0].
Proof.
  split; [vm_compute; reflexivity |].
  split; [vm_compute; reflexivity |].
  split; [vm_compute; reflexivity |].
  vm_compute. discriminate.
Qed.

(** [decode] never stops for lack of fuel. *)
Lemma flat_decode_total {St : Type} (emptyValue depth : Z) (rd : M St Z)
    (table : list Z) (s : St) :
  0 <= depth ->
  Z.of_nat (List.length table) = Flat._length depth ->
  (forall s0, rd s0 <> OutOfFuel) ->
  Flat.decode emptyValue depth rd table s <> OutOfFuel.
Proof.
  intros Hd Hsz Hrd. unfold Flat.decode.
  apply (decode_loop_fuel emptyValue depth rd table Hsz (Z.to_nat depth) _ 0);
    trivial; try lia.
  unfold atLevel. simpl. lia.
Qed.

(** ** Insertion into the Huffman decoders *)

Lemma flat_insert_empty_value (emptyValue depth : Z) (c : HuffmanCode) (t : list Z) :
  value c = emptyValue ->
  Flat.insert emptyValue depth c t = Raise DecompressionError.
Proof.
  intros H. unfold Flat.insert. rewrite H, Z.eqb_refl. reflexivity.
Qed.

Lemma flat_insert_too_long (emptyValue depth : Z) (c : HuffmanCode) (t : list Z) :
  depth < length c ->
  Flat.insert emptyValue depth c t = Raise DecompressionError.
Proof.
  intros H. unfold Flat.insert.
  destruct (Z.ltb_spec depth (length c)); [| lia].
  rewrite orb_true_r. reflexivity.
Qed.

Lemma dyn_insert_empty_value (emptyValue : Z) (c : HuffmanCode) (t : list Dyn.Node) :
  value c = emptyValue ->
  Dyn.insert emptyValue c t = Raise DecompressionError.
Proof.
  intros H. unfold Dyn.insert. rewrite H, Z.eqb_refl. reflexivity.
Qed.

(** C3: the flat variant accepts a code that is a proper prefix of a
    stored one.  After "10" has been stored, inserting "1" succeeds and
    the table then holds two codes of which one is a prefix of the
    other; "10" can no longer be decoded.  The dynamic variant raises
    DecompressionError on the same second insert. *)
Theorem C3_flat_accepts_prefix_of_stored :
  Flat.insert_all 255 2 prefixPair (Flat.empty 255 2)
  = Ok (tt, [255; 2; 255; 255; 1; 255])
  /\ Flat.decode 255 2 popBit [255; 2; 255; 255; 1; 255] [1; 0] = Ok (2, [0])
  /\ exists t,
       Dyn.insert 255 (mkCode 2 2 1) (Dyn.empty 255) = Ok (tt, t)
       /\ Dyn.insert 255 (mkCode 1 1 2) t = Raise DecompressionError.
Proof.
  split; [vm_compute; reflexivity |].
  split; [vm_compute; reflexivity |].
  eexists. split; vm_compute; reflexivity.
Qed.

(** ** The bit reader *)

Section Reader.
Variable bufPtr : list byte.

Lemma readBits_inv (count : Z) (r r' : Reader) (v : Z) :
readBits bufPtr count r = Ok (v, r') ->
0 <= count < 31
/\ exists r1,
     refill bufPtr (Z.to_nat (bufOffset r)) count r = Ok (tt, r1)
     /\ v = bufBitsContent r1 mod 2 ^ count
     /\ r' = mkReader (bufOffset r1) (Z.shiftr (bufBitsContent r1) count)
               (wrap8 (bufBitsLength r1 - count)).
Proof.
  unfold readBits. intros H.
  apply bind_inv_Ok in H as (r0 & s0 & [= <- <-] & H).
  apply bind_inv_Ok in H as ([] & r1 & Hre & H).
  apply bind_inv_Ok in H as (r2 & s2 & [= <- <-] & H).
  destruct (Z.ltb_spec count 0); [discriminate |].
  destruct (Z.leb_spec 31 count); [discriminate |].
  simpl in H. apply bind_inv_Ok in H as ([] & r3 & [= <-] & H).
  unfold ret in H. injection H as Hv Hr'. subst v r'.
  split; [lia |]. exists r1. split; [trivial |]. split; [| reflexivity].
  change (Z.shiftl 1 count - 1) with (Z.ones count).
  apply Z.land_ones. lia.
Qed.

(** [readBits(n)] returns an [n]-bit value. *)
Lemma readBits_range (count : Z) (r r' : Reader) (v : Z) :
readBits bufPtr count r = Ok (v, r') -> 0 <= count < 31 /\ 0 <= v < 2 ^ count.
Proof.
  intros H. apply readBits_inv in H as (Hc & r1 & _ & -> & _).
  split; [trivial |]. apply Z.mod_pos_bound. apply Z.pow_pos_nonneg; lia.
Qed.

Lemma land1_range (c : Z) : 0 <= Z.land c 1 <= 1.
Proof.
  change (Z.land c 1) with (Z.land c (Z.ones 1)).
  rewrite Z.land_ones by lia. change (2 ^ 1) with 2.
  pose proof (Z.mod_pos_bound c 2). lia.
Qed.

Lemma readBit_range (r r' : Reader) (v : Z) :
readBit bufPtr r = Ok (v, r') -> 0 <= v <= 1.
Proof.
  unfold readBit. intros H.
  apply bind_inv_Ok in H as (r0 & s0 & _ & H).
  apply bind_inv_Ok in H as ([] & r1 & _ & H).
  apply bind_inv_Ok in H as (r2 & s2 & [= <- <-] & H).
  apply bind_inv_Ok in H as ([] & r3 & _ & [= <- _]).
  apply land1_range.
Qed.

End Reader.


(** ** Writes to the raw buffer *)

Lemma span_S_l (lo : Z) (n : nat) : span lo (S n) = lo :: span (lo + 1) n.
Proof.
  unfold span. simpl. rewrite Z.add_0_r. f_equal.
  rewrite <- seq_shift, map_map. apply map_ext. intros k. lia.
Qed.

Lemma span_length (lo : Z) (n : nat) : List.length (span lo n) = n.
Proof. unfold span. rewrite length_map, length_seq. reflexivity. Qed.

Lemma span_S_r (n : nat) : forall lo, span lo (S n) = span lo n ++ [lo + Z.of_nat n].
Proof.
  induction n as [| n IH]; intros lo.
  - unfold span. simpl. reflexivity.
  - rewrite span_S_l, IH, (span_S_l lo n). simpl. do 3 f_equal. lia.
Qed.

Lemma span_lookup (n : nat) : forall lo k, (k < n)%nat ->
  span lo n !! k = Some (lo + Z.of_nat k).
Proof.
  induction n as [| n IH]; intros lo k Hk; [lia |].
  rewrite span_S_l. destruct k as [| k]; simpl.
  - f_equal. lia.
  - rewrite IH by lia. f_equal. lia.
Qed.

Lemma onReader_inv_Ok {A} (m : M Reader A) (s s' : State) (a : A) :
  onReader m s = Ok (a, s') ->
  m (reader s) = Ok (a, reader s')
  /\ dest s' = dest s /\ destOffset s' = destOffset s /\ writes s' = writes s.
Proof.
  unfold onReader. destruct (m (reader s)) as [[a0 r] | | |]; try discriminate.
  intros [= <- <-]. simpl. auto.
Qed.

Lemma onReader_Ok {A} (m : M Reader A) (s : State) (a : A) (r : Reader) :
  m (reader s) = Ok (a, r) ->
  onReader m s = Ok (a, mkState r (dest s) (destOffset s) (writes s)).
Proof. intros H. unfold onReader. rewrite H. reflexivity. Qed.

Lemma onReader_Raise {A} (m : M Reader A) (s : State) (e : exn) :
  m (reader s) = Raise e -> onReader m s = Raise e.
Proof. intros H. unfold onReader. rewrite H. reflexivity. Qed.

Lemma writeByte_Ok (v : Z) (s : State) :
  0 < destOffset s <= Z.of_nat (List.length (dest s)) ->
  writeByte v s
  = Ok (tt, mkState (reader s) (<[Z.to_nat (destOffset s - 1) := v]> (dest s))
              (destOffset s - 1) ((destOffset s - 1) :: writes s)).
Proof.
  intros H. unfold writeByte, bind, get, put.
  destruct (Z.ltb_spec (destOffset s - 1) 0); [lia |].
  destruct (Z.leb_spec (Z.of_nat (List.length (dest s))) (destOffset s - 1)); [lia |].
  reflexivity.
Qed.

Lemma writeByte_inv_Ok (v : Z) (s s' : State) (u : unit) :
  writeByte v s = Ok (u, s') ->
  0 < destOffset s <= Z.of_nat (List.length (dest s))
  /\ s' = mkState (reader s) (<[Z.to_nat (destOffset s - 1) := v]> (dest s))
            (destOffset s - 1) ((destOffset s - 1) :: writes s).
Proof.
  unfold writeByte, bind, get, put.
  destruct (Z.ltb_spec (destOffset s - 1) 0); [discriminate |].
  destruct (Z.leb_spec (Z.of_nat (List.length (dest s))) (destOffset s - 1));
    [discriminate |].
  destruct u. simpl. intros [= <-]. split; [lia | reflexivity].
Qed.

Section Loops.
Variables (bufPtr : list byte) (rawSize : Z).

(** The copy loop of a match: [n] bytes, the source cursor [src] above
    the write cursor and inside the buffer. *)
Lemma copyLoop_spec (n : nat) :
  forall (s : State) (src : Z),
    Z.of_nat n <= destOffset s -> destOffset s < src ->
    src <= Z.of_nat (List.length (dest s)) -> src < 2 ^ 32 ->
    exists s',
      copyLoop n src s = Ok (tt, s')
      /\ reader s' = reader s
      /\ destOffset s' = destOffset s - Z.of_nat n
      /\ List.length (dest s') = List.length (dest s)
      /\ writes s' = span (destOffset s - Z.of_nat n) n ++ writes s
      /\ (forall j, 0 <= j -> j < destOffset s - Z.of_nat n \/ destOffset s <= j ->
            dest s' !! Z.to_nat j = dest s !! Z.to_nat j)
      /\ (forall k, 0 <= k < Z.of_nat n ->
            dest s' !! Z.to_nat (destOffset s - 1 - k)
            = dest s' !! Z.to_nat (src - 1 - k)).
Proof.
  induction n as [| n IH]; intros s src Hn Hsrc Hlen H32.
  - exists s. simpl. rewrite Z.sub_0_r.
    do 5 (split; [reflexivity |]). split; [auto | intros; lia].
  - simpl copyLoop.
    assert (Hw : wrap32 (src - 1) = src - 1)
      by (unfold wrap32; apply Z.mod_small; lia).
    rewrite Hw. unfold bind at 1, get.
    destruct (lookup_lt_is_Some_2 (dest s) (Z.to_nat (src - 1)) ltac:(lia)) as [v Hv].
    rewrite (bind_Ok _ _ _ _ _ (load_Ok (dest s) (src - 1) s v ltac:(lia) Hv)).
    rewrite (bind_Ok _ _ _ _ _ (writeByte_Ok v s ltac:(lia))).
    set (s1 := mkState _ _ _ _).
    pose proof (IH s1 (src - 1)) as IHs. subst s1. simpl in IHs.
    rewrite length_insert in IHs.
    destruct IHs as (s' & Hrun & Hrd & Hoff & Hl & Hwr & Hout & Hcp); try lia.
    exists s'. split; [trivial |]. split; [trivial |].
    split; [lia |]. split; [trivial |].
    split.
    { rewrite Hwr.
      replace (destOffset s - 1 - Z.of_nat n) with (destOffset s - Z.of_nat (S n)) by lia.
      rewrite (span_S_r n), <- app_assoc. simpl. do 3 f_equal. lia. }
    split.
    { intros j Hj0 Hj. rewrite Hout by lia.
      apply list_lookup_insert_ne. lia. }
    intros k Hk.
    destruct (Z.eq_dec k 0) as [-> | Hk0].
    + rewrite !Z.sub_0_r.
      rewrite (Hout (destOffset s - 1)) by lia.
      rewrite (Hout (src - 1)) by lia.
      rewrite list_lookup_insert_eq by lia.
      rewrite list_lookup_insert_ne by lia. symmetry. trivial.
    + specialize (Hcp (k - 1) ltac:(lia)).
      replace (destOffset s - 1 - 1 - (k - 1)) with (destOffset s - 1 - k) in Hcp by lia.
      replace (src - 1 - 1 - (k - 1)) with (src - 1 - k) in Hcp by lia.
      trivial.
Qed.
End Loops.

Section MatchAndRun.
Variables (bufPtr : list byte) (rawSize : Z).

(** C6: a standard-mode match copy raises DecompressionError exactly
    when distance == 0, destOffset < count or destOffset + distance >
    rawSize; otherwise it copies count bytes, the byte at
    destOffset+distance-1-k going to destOffset-1-k for k = 0 .. count-1,
    and touches nothing else. *)
Theorem C6_std_match_copy (distance count : Z) (s : State) :
  0 <= destOffset s <= rawSize ->
  rawSize <= Z.of_nat (List.length (dest s)) ->
  rawSize < 2 ^ 32 -> 0 <= count -> 0 <= distance ->
  (stdCopy rawSize distance count s = Raise DecompressionError
   <-> distance = 0 \/ destOffset s < count \/ rawSize < destOffset s + distance)
  /\ (~ (distance = 0 \/ destOffset s < count \/ rawSize < destOffset s + distance) ->
      exists s',
        stdCopy rawSize distance count s = Ok (tt, s')
        /\ reader s' = reader s
        /\ destOffset s' = destOffset s - count
        /\ writes s' = span (destOffset s - count) (Z.to_nat count) ++ writes s
        /\ (forall k, 0 <= k < count ->
              dest s' !! Z.to_nat (destOffset s - 1 - k)
              = dest s' !! Z.to_nat (destOffset s + distance - 1 - k))
        /\ (forall j, 0 <= j -> j < destOffset s - count \/ destOffset s <= j ->
              dest s' !! Z.to_nat j = dest s !! Z.to_nat j)).
Proof.
  intros Hd Hlen H32 Hc Hdist.
  unfold stdCopy, bind, get.
  destruct (Z.eqb_spec distance 0) as [H0 | H0]; simpl.
  { split; [tauto | intros H; exfalso; apply H; auto]. }
  destruct (Z.ltb_spec (destOffset s) count) as [H1 | H1]; simpl.
  { split; [tauto | intros H; exfalso; apply H; auto]. }
  destruct (Z.ltb_spec rawSize (destOffset s + distance)) as [H2 | H2]; simpl.
  { split; [unfold throw; tauto | intros H; exfalso; apply H; auto]. }
  assert (Hw : wrap32 (distance + destOffset s) = destOffset s + distance)
    by (unfold wrap32; rewrite Z.mod_small; lia).
  rewrite Hw.
  destruct (copyLoop_spec (Z.to_nat count) s (destOffset s + distance))
    as (s' & Hrun & Hrd & Hoff & Hl & Hwr & Hout & Hcp); try lia.
  rewrite Z2Nat.id in * by lia.
  split.
  - rewrite Hrun. split; [discriminate | lia].
  - intros _. exists s'. repeat (split; [trivial |]). trivial.
Qed.

Lemma readBytes_inv_S (n : nat) (r r' : Reader) (bytes : list Z) :
  readBytes bufPtr (S n) r = Ok (bytes, r') ->
  exists v r1 rest,
    readBits bufPtr 8 r = Ok (v, r1) /\ readBytes bufPtr n r1 = Ok (rest, r')
    /\ bytes = v :: rest.
Proof.
  simpl. intros H.
  apply bind_inv_Ok in H as (v & r1 & Hv & H).
  apply bind_inv_Ok in H as (rest & r2 & Hrest & [= <- <-]).
  eauto 6.
Qed.

(** The literal loop writes the bytes it reads at decreasing positions. *)
Lemma literalLoop_spec (n : nat) :
  forall (s : State) (bytes : list Z) (r' : Reader),
    Z.of_nat n <= destOffset s <= Z.of_nat (List.length (dest s)) ->
    readBytes bufPtr n (reader s) = Ok (bytes, r') ->
    exists s',
      literalLoop bufPtr n s = Ok (tt, s')
      /\ reader s' = r'
      /\ destOffset s' = destOffset s - Z.of_nat n
      /\ List.length (dest s') = List.length (dest s)
      /\ writes s' = span (destOffset s - Z.of_nat n) n ++ writes s
      /\ (forall j, 0 <= j -> j < destOffset s - Z.of_nat n \/ destOffset s <= j ->
            dest s' !! Z.to_nat j = dest s !! Z.to_nat j)
      /\ (forall k, (k < n)%nat ->
            dest s' !! Z.to_nat (destOffset s - 1 - Z.of_nat k)
            = wrap8 <$> bytes !! k).
Proof.
  induction n as [| n IH]; intros s bytes r' Hd Hrd.
  - simpl in Hrd. injection Hrd as <- <-. exists s. simpl. rewrite Z.sub_0_r.
    do 5 (split; [reflexivity |]). split; [auto | intros; lia].
  - apply readBytes_inv_S in Hrd as (v & r1 & rest & Hv & Hrest & ->).
    simpl literalLoop.
    rewrite (bind_Ok _ _ _ _ _ (onReader_Ok _ s v r1 Hv)).
    set (s1 := mkState r1 _ _ _).
    rewrite (bind_Ok _ _ _ _ _ (writeByte_Ok (wrap8 v) s1 ltac:(simpl; lia))).
    subst s1. cbn [reader dest destOffset writes]. set (s2 := mkState r1 _ _ _).
    pose proof (IH s2 rest r') as IHs. subst s2. simpl in IHs.
    rewrite length_insert in IHs.
    destruct (IHs ltac:(lia) Hrest) as (s' & Hrun & Hr & Hoff & Hl & Hwr & Hout & Hcp).
    exists s'. split; [trivial |]. split; [trivial |].
    split; [lia |]. split; [trivial |].
    split.
    { rewrite Hwr.
      replace (destOffset s - 1 - Z.of_nat n) with (destOffset s - Z.of_nat (S n)) by lia.
      rewrite (span_S_r n), <- app_assoc. simpl. do 3 f_equal. lia. }
    split.
    { intros j Hj0 Hj. rewrite Hout by lia.
      apply list_lookup_insert_ne. lia. }
    intros k Hk. destruct k as [| k].
    + rewrite Z.sub_0_r. rewrite (Hout (destOffset s - 1)) by lia.
      rewrite list_lookup_insert_eq by lia. reflexivity.
    + specialize (Hcp k ltac:(lia)).
      replace (destOffset s - 1 - Z.of_nat (S k))
        with (destOffset s - 1 - 1 - Z.of_nat k) by lia.
      trivial.
Qed.

(** C5: in standard mode a length value of 23 starts a literal run: one
    bit chooses between readBits(5)+15 and readBits(14)+15 for count, a
    count above destOffset raises DecompressionError, and otherwise the
    count bytes read (8 bits each) are written at the decreasing
    positions destOffset-1, destOffset-2, ...; a length value above 23 is
    used as match length less 1, one below 23 as it is. *)
Theorem C5_std_literal_run (lengthDecoder distanceDecoder : list Z) (s : State) :
  (forall s1 lengthIndex s2 lb la v s3,
      onReader (readBit bufPtr) s = Ok (0, s1) ->
      onReader (Flat.decode 255 3 (readBit bufPtr) lengthDecoder) s1
      = Ok (lengthIndex, s2) ->
      0 <= lengthIndex ->
      lengthBits !! Z.to_nat lengthIndex = Some lb ->
      lengthAdditions !! Z.to_nat lengthIndex = Some la ->
      onReader (readBits bufPtr lb) s2 = Ok (v, s3) ->
      (v + la = 23 ->
         stdToken bufPtr rawSize lengthDecoder distanceDecoder s
         = stdLiteralRun bufPtr s3)
      /\ (23 < v + la ->
            stdToken bufPtr rawSize lengthDecoder distanceDecoder s
            = stdMatchCopy bufPtr rawSize distanceDecoder (v + la - 1) s3)
      /\ (v + la < 23 ->
            stdToken bufPtr rawSize lengthDecoder distanceDecoder s
            = stdMatchCopy bufPtr rawSize distanceDecoder (v + la) s3))
  /\ (forall b r1 v r2,
        0 <= destOffset s <= Z.of_nat (List.length (dest s)) ->
        readBit bufPtr (reader s) = Ok (b, r1) ->
        readBits bufPtr (if b =? 0 then 14 else 5) r1 = Ok (v, r2) ->
        (destOffset s < v + 15 ->
           stdLiteralRun bufPtr s = Raise DecompressionError)
        /\ (v + 15 <= destOffset s ->
            forall bytes r3,
              readBytes bufPtr (Z.to_nat (v + 15)) r2 = Ok (bytes, r3) ->
              exists s',
                stdLiteralRun bufPtr s = Ok (tt, s')
                /\ reader s' = r3
                /\ destOffset s' = destOffset s - (v + 15)
                /\ writes s'
                   = span (destOffset s - (v + 15)) (Z.to_nat (v + 15)) ++ writes s
                /\ (forall k, (k < Z.to_nat (v + 15))%nat ->
                      dest s' !! Z.to_nat (destOffset s - 1 - Z.of_nat k)
                      = wrap8 <$> bytes !! k)
                /\ (forall j, 0 <= j ->
                      j < destOffset s - (v + 15) \/ destOffset s <= j ->
                      dest s' !! Z.to_nat j = dest s !! Z.to_nat j))).
Proof.
  split.
  - intros s1 li s2 lb la v s3 Hb Hli Hli0 Hlb Hla Hv.
    unfold stdToken.
    rewrite (bind_Ok _ _ _ _ _ Hb). change (negb (0 =? 0)) with false. cbv iota.
    rewrite (bind_Ok _ _ _ _ _ Hli).
    rewrite (bind_Ok _ _ _ _ _ (load_Ok _ li s2 lb Hli0 Hlb)).
    rewrite (bind_Ok _ _ _ _ _ (load_Ok _ li s2 la Hli0 Hla)).
    rewrite (bind_Ok _ _ _ _ _ Hv).
    apply onReader_inv_Ok in Hv as (Hv & _).
    apply readBits_range in Hv as (Hlb31 & Hvr).
    assert (Hla24 : 0 <= la <= 24).
    { apply list_elem_of_lookup_2 in Hla. unfold lengthAdditions in Hla.
      repeat (apply elem_of_cons in Hla as [-> | Hla]; [lia |]).
      apply elem_of_nil in Hla. contradiction. }
    assert (2 ^ lb <= 2 ^ 30) by (apply Z.pow_le_mono_r; lia).
    assert (Hw : wrap32 (v + la) = v + la)
      by (unfold wrap32; rewrite Z.mod_small; lia).
    rewrite Hw. unfold stdMatch.
    split; [| split]; intros Hc.
    + rewrite Hc. reflexivity.
    + destruct (Z.eqb_spec (v + la) 23); [lia |].
      destruct (Z.ltb_spec 23 (v + la)); [| lia].
      unfold wrap32. rewrite Z.mod_small by lia. reflexivity.
    + destruct (Z.eqb_spec (v + la) 23); [lia |].
      destruct (Z.ltb_spec 23 (v + la)); [lia | reflexivity].
  - intros b r1 v r2 Hd Hb Hv.
    assert (Hcount :
      (if negb (b =? 0)
       then let* v := onReader (readBits bufPtr 5) in ret (wrap32 (v + 15))
       else let* v := onReader (readBits bufPtr 14) in ret (wrap32 (v + 15)))
        (mkState r1 (dest s) (destOffset s) (writes s))
      = Ok (v + 15, mkState r2 (dest s) (destOffset s) (writes s))).
    { pose proof (readBits_range _ _ _ _ _ Hv) as (_ & Hvr).
      assert (2 ^ (if b =? 0 then 14 else 5) <= 2 ^ 14)
        by (apply Z.pow_le_mono_r; destruct (b =? 0); lia).
      assert (Hw : wrap32 (v + 15) = v + 15)
        by (unfold wrap32; rewrite Z.mod_small; lia).
      destruct (b =? 0); cbn [negb]; cbv iota in Hv |- *;
        rewrite (bind_Ok _ _ _ _ _ (onReader_Ok _ (mkState r1 _ _ _) v r2 Hv));
        unfold ret; rewrite Hw; reflexivity. }
    unfold stdLiteralRun.
    rewrite (bind_Ok _ _ _ _ _ (onReader_Ok _ s b r1 Hb)).
    rewrite (bind_Ok _ _ _ _ _ Hcount).
    unfold bind, get.
    split; intros Hc.
    + simpl. destruct (Z.ltb_spec (destOffset s) (v + 15)); [reflexivity | lia].
    + intros bytes r3 Hbytes. cbn [destOffset].
      destruct (Z.ltb_spec (destOffset s) (v + 15)); [lia |].
      pose proof (readBits_range _ _ _ _ _ Hv) as (_ & Hvr).
      destruct (literalLoop_spec (Z.to_nat (v + 15))
                  (mkState r2 (dest s) (destOffset s) (writes s)) bytes r3)
        as (s' & Hrun & Hr & Hoff & Hl & Hwr & Hout & Hcp);
        simpl; trivial; try lia.
      simpl in Hoff, Hwr, Hout, Hcp. rewrite Z2Nat.id in * by lia.
      exists s'. repeat (split; [trivial |]). trivial.
Qed.
End MatchAndRun.

Lemma C6_std_match_copy_witness :
  (0 <= destOffset copyState <= 6
   /\ 6 <= Z.of_nat (List.length (dest copyState))
   /\ 6 < 2 ^ 32 /\ 0 <= 3 /\ 0 <= 2)
  /\ (stdCopy 6 2 3 copyState = Raise DecompressionError
      <-> 2 = 0 \/ destOffset copyState < 3 \/ 6 < destOffset copyState + 2)
  /\ (~ (2 = 0 \/ destOffset copyState < 3 \/ 6 < destOffset copyState + 2) ->
      exists s',
        stdCopy 6 2 3 copyState = Ok (tt, s')
        /\ reader s' = reader copyState
        /\ destOffset s' = destOffset copyState - 3
        /\ writes s' = span (destOffset copyState - 3) (Z.to_nat 3) ++ writes copyState
        /\ (forall k, 0 <= k < 3 ->
              dest s' !! Z.to_nat (destOffset copyState - 1 - k)
              = dest s' !! Z.to_nat (destOffset copyState + 2 - 1 - k))
        /\ (forall j, 0 <= j -> j < destOffset copyState - 3 \/ destOffset copyState <= j ->
              dest s' !! Z.to_nat j = dest copyState !! Z.to_nat j)).
Proof.
  assert (H : 0 <= destOffset copyState <= 6
              /\ 6 <= Z.of_nat (List.length (dest copyState))
              /\ 6 < 2 ^ 32 /\ 0 <= 3 /\ 0 <= 2)
    by (simpl; lia).
  split; [exact H |].
  destruct H as (H1 & H2 & H3 & H4 & H5).
  exact (C6_std_match_copy 6 2 3 copyState H1 H2 H3 H4 H5).
Defined.

Lemma C5_std_literal_run_witness :
  stdToken sampleRun 16 stdLengthTable stdDistanceTable runStart
  = stdLiteralRun sampleRun runState
  /\ exists s',
       stdLiteralRun sampleRun runState = Ok (tt, s')
       /\ reader s' = mkReader 15 3 2
       /\ destOffset s' = 1
       /\ writes s' = span 1 15 ++ []
       /\ forall k, (k < 15)%nat ->
            dest s' !! Z.to_nat (16 - 1 - Z.of_nat k)
            = wrap8 <$> [100; 101; 102; 103; 104; 105; 106; 107; 108; 109;
                         110; 111; 112; 113; 114] !! k.
Proof.
  destruct (C5_std_literal_run sampleRun 16 stdLengthTable stdDistanceTable runStart)
    as [HA _].
  destruct (C5_std_literal_run sampleRun 16 stdLengthTable stdDistanceTable runState)
    as [_ HB].
  split.
  - refine (proj1 (HA (mkState (mkReader 30 251 15) (replicate 16 0) 16 [])
                      2 (mkState (mkReader 30 31 12) (replicate 16 0) 16 [])
                      4 8 15 runState _ _ _ _ _ _) _);
      try (vm_compute; reflexivity); try lia; try discriminate.
  - destruct (HB 1 (mkReader 30 0 7) 0 (mkReader 30 0 2)) as [_ Hrun];
      try (vm_compute; reflexivity).
    { simpl. lia. }
    destruct (Hrun ltac:(simpl; lia)
                [100; 101; 102; 103; 104; 105; 106; 107; 108; 109;
                 110; 111; 112; 113; 114] (mkReader 15 3 2))
      as (s' & H1 & H2 & H3 & H4 & H5 & _).
    { vm_compute. reflexivity. }
    exists s'. split; [exact H1 |]. split; [exact H2 |].
    split; [exact H3 |]. split; [exact H4 |]. exact H5.
Defined.

(** ** The output invariant *)

Create HintDb keeps discriminated.

Section Keeps.
Variables (bufPtr : list byte) (rawSize : Z).

Lemma keeps_ret {A} (a : A) : keeps rawSize (ret a).
Proof. intros s a0 s' Hinv [= <- <-]. split; [trivial | lia]. Qed.

Lemma keeps_throw {A} (e : exn) : keeps rawSize (@throw State A e).
Proof. intros s a s' _ H. discriminate. Qed.

Lemma keeps_undefined {A} : keeps rawSize (@undefined State A).
Proof. intros s a s' _ H. discriminate. Qed.

Lemma keeps_outOfFuel {A} : keeps rawSize (@outOfFuel State A).
Proof. intros s a s' _ H. discriminate. Qed.

Lemma keeps_get : keeps rawSize get.
Proof. intros s a s' Hinv [= <- <-]. split; [trivial | lia]. Qed.

Lemma keeps_bind {A B} (m : M State A) (k : A -> M State B) :
  keeps rawSize m -> (forall a, keeps rawSize (k a)) -> keeps rawSize (bind m k).
Proof.
  intros Hm Hk s b s' Hinv H.
  apply bind_inv_Ok in H as (a & s1 & H1 & H2).
  destruct (Hm _ _ _ Hinv H1) as [Hinv1 Hle1].
  destruct (Hk a _ _ _ Hinv1 H2) as [Hinv2 Hle2].
  split; [trivial | lia].
Qed.

Lemma keeps_onReader {A} (m : M Reader A) : keeps rawSize (onReader m).
Proof.
  intros s a s' (H1 & H2 & H3) H.
  apply onReader_inv_Ok in H as (_ & Hd & Ho & Hw).
  unfold outputInv. rewrite Hd, Ho, Hw. repeat split; trivial; lia.
Qed.

Lemma keeps_load {A} (l : list A) (i : Z) : keeps rawSize (load l i).
Proof.
  intros s a s' Hinv H. apply load_inv_Ok in H as (_ & _ & ->).
  split; [trivial | lia].
Qed.

Lemma keeps_lift {A} (r : outcome A) : keeps rawSize (lift r).
Proof.
  intros s a s' Hinv H. unfold lift in H.
  destruct r; try discriminate. injection H as <- <-. split; [trivial | lia].
Qed.

Lemma span_cons_pred (d : Z) (n : nat) : (d - 1) :: span d n = span (d - 1) (S n).
Proof. rewrite span_S_l. do 2 f_equal. lia. Qed.

Lemma keeps_writeByte (v : Z) : keeps rawSize (writeByte v).
Proof.
  intros s a s' (H1 & H2 & H3) H.
  apply writeByte_inv_Ok in H as (Hd & ->). simpl.
  split; [| lia]. unfold outputInv. simpl. rewrite length_insert.
  split; [lia |]. split; [trivial |].
  rewrite H3, span_cons_pred. f_equal. lia.
Qed.

Hint Resolve keeps_ret keeps_throw keeps_undefined keeps_outOfFuel keeps_get
  keeps_onReader keeps_load keeps_lift keeps_writeByte : keeps.

(** Break a computation down along its binds and conditionals. *)
Ltac keeps_step :=
  match goal with
  | |- keeps _ (bind _ _) => apply keeps_bind; [| intros ?]
  | |- keeps _ (if ?b then _ else _) => destruct b
  | |- keeps _ (let x := _ in _) => cbv zeta
  | |- keeps _ _ => solve [auto with keeps]
  end.

Lemma keeps_copyLoop (n : nat) : forall distance, keeps rawSize (copyLoop n distance).
Proof.
  induction n as [| n IH]; intros distance; simpl; repeat keeps_step.
Qed.

Lemma keeps_literalLoop (n : nat) : keeps rawSize (literalLoop bufPtr n).
Proof.
  induction n as [| n IH]; simpl; repeat keeps_step.
Qed.

Hint Resolve keeps_copyLoop keeps_literalLoop : keeps.

Lemma keeps_stdToken (ld dd : list Z) : keeps rawSize (stdToken bufPtr rawSize ld dd).
Proof.
  unfold stdToken, stdLiteralRun, stdMatch, stdMatchCopy, stdCopy.
  repeat keeps_step.
Qed.

Lemma keeps_stdLoop (ld dd : list Z) (fuel : nat) :
  keeps rawSize (stdLoop bufPtr rawSize ld dd fuel).
Proof.
  pose proof (keeps_stdToken ld dd).
  induction fuel as [| fuel IH]; simpl; repeat keeps_step.
Qed.

Lemma keeps_lzhItem (ld dd : list Dyn.Node) : keeps rawSize (lzhItem bufPtr rawSize ld dd).
Proof.
  unfold lzhItem, lzhCopy. repeat keeps_step.
Qed.

Lemma keeps_lzhItems (ld dd : list Dyn.Node) (n : nat) :
  keeps rawSize (lzhItems bufPtr rawSize ld dd n).
Proof.
  pose proof (keeps_lzhItem ld dd).
  induction n as [| n IH]; simpl; repeat keeps_step.
Qed.

Lemma keeps_lzhBlock : keeps rawSize (lzhBlock bufPtr rawSize).
Proof.
  unfold lzhBlock. repeat keeps_step. apply keeps_lzhItems.
Qed.

Lemma keeps_lzhLoop (fuel : nat) : keeps rawSize (lzhLoop bufPtr rawSize fuel).
Proof.
  pose proof keeps_lzhBlock.
  induction fuel as [| fuel IH]; simpl; repeat keeps_step.
Qed.

Lemma keeps_decodeBody (isLZH : bool) : keeps rawSize (decodeBody bufPtr rawSize isLZH).
Proof.
  unfold decodeBody, stdMode.
  pose proof keeps_lzhLoop. pose proof keeps_stdLoop.
  repeat keeps_step.
Qed.
End Keeps.

Lemma span_In (n : nat) (lo x : Z) :
  In x (span lo n) <-> lo <= x < lo + Z.of_nat n.
Proof.
  unfold span. rewrite in_map_iff. split.
  - intros (k & <- & Hk). apply in_seq in Hk. lia.
  - intros H. exists (Z.to_nat (x - lo)). split; [lia |]. apply in_seq. lia.
Qed.

Lemma span_NoDup (n : nat) : forall lo, NoDup (span lo n).
Proof.
  induction n as [| n IH]; intros lo; [constructor |].
  rewrite span_S_l. constructor; [| apply IH].
  rewrite list_elem_of_In, span_In. lia.
Qed.

Lemma decodeBody_final (bufPtr : list byte) (rawSize : Z) (isLZH : bool)
    (s0 s : State) (u : unit) :
  decodeBody bufPtr rawSize isLZH s0 = Ok (u, s) -> destOffset s = 0.
Proof.
  unfold decodeBody. intros H.
  apply bind_inv_Ok in H as ([] & s1 & _ & H).
  apply bind_inv_Ok in H as (s2 & s3 & [= <- <-] & H).
  destruct (Z.eqb_spec (destOffset s1) 0) as [E | E]; simpl in H; [| discriminate].
  injection H as _ <-. trivial.
Qed.

Lemma decodeFrom_inv (d : CRMDecompressor) (rawData : list Z) (s : State) :
  decodeFrom d rawData = Ok s ->
  exists r u,
    initReader d = Ok r
    /\ decodeBody (_packedData d) (_rawSize d) (_isLZH d)
         (mkState r rawData (_rawSize d) []) = Ok (u, s).
Proof.
  unfold decodeFrom.
  destruct (initReader d) as [r | | |] eqn:Hr; try discriminate.
  destruct (decodeBody _ _ _ _) as [[u s1] | | |] eqn:Hb; try discriminate.
  intros [= <-]. exists r, u. split; [reflexivity | exact Hb].
Qed.

Lemma span_count (n : nat) : forall lo x,
  count_occ Z.eq_dec (span lo n) x
  = if (lo <=? x) && (x <? lo + Z.of_nat n) then 1%nat else 0%nat.
Proof.
  induction n as [| n IH]; intros lo x.
  - destruct (Z.leb_spec lo x); destruct (Z.ltb_spec x (lo + Z.of_nat 0));
      cbn [andb]; trivial; lia.
  - rewrite span_S_l. simpl count_occ. rewrite IH.
    destruct (Z.leb_spec (lo + 1) x); destruct (Z.leb_spec lo x);
      destruct (Z.ltb_spec x (lo + 1 + Z.of_nat n));
      destruct (Z.ltb_spec x (lo + Z.of_nat (S n)));
      destruct (Z.eq_dec lo x); cbn [andb]; trivial; lia.
Qed.

(** The stores of the post-filter: the bytes are those of [DLTADecode],
    the indices those of the range, upwards. *)
Lemma dltaStores_spec (n : nat) : forall (ctr i : Z) (s : State),
  0 <= i -> i + Z.of_nat n <= Z.of_nat (List.length (dest s)) ->
  dltaStores ctr i n s
  = Ok (tt, mkState (reader s)
              (take (Z.to_nat i) (dest s)
               ++ dltaRun ctr n (drop (Z.to_nat i) (dest s)))
              (destOffset s) (rev (span i n) ++ writes s)).
Proof.
  induction n as [| n IH]; intros ctr i s Hi Hlen.
  - destruct s as [r l o w]. simpl. unfold ret. rewrite take_drop. reflexivity.
  - destruct (lookup_lt_is_Some_2 (dest s) (Z.to_nat i)) as [x Hx]; [lia |].
    cbn [dltaStores]. unfold bind at 1. unfold get.
    unfold bind at 1. unfold load.
    destruct (Z.ltb_spec i 0); [lia |]. rewrite Hx. unfold ret.
    unfold bind at 1. unfold storeAt, bind, get, put.
    destruct (Z.ltb_spec i 0); [lia |].
    destruct (Z.leb_spec (Z.of_nat (List.length (dest s))) i); [lia |].
    cbn [orb].
    rewrite IH by (cbn [dest]; rewrite ?length_insert; lia).
    cbn [reader dest destOffset writes].
    replace (Z.to_nat (i + 1)) with (S (Z.to_nat i)) by lia.
    rewrite (take_S_r _ _ (wrap8 (ctr + x)))
      by (apply list_lookup_insert_eq; lia).
    rewrite take_insert_ge by lia.
    rewrite drop_insert_lt by lia.
    rewrite (drop_S _ _ _ Hx). cbn [dltaRun].
    rewrite span_S_l. cbn [rev]. rewrite <- !app_assoc. reflexivity.
Qed.

Lemma rev_lookup {A} (l : list A) (k : nat) :
  (k < List.length l)%nat -> rev l !! k = l !! (List.length l - 1 - k)%nat.
Proof.
  intros Hk. rewrite rev_alt. change (rev_append l []) with (reverse l).
  rewrite reverse_lookup by trivial. f_equal. lia.
Qed.

Lemma nthWrite_lookup (s : State) (k : nat) :
  (k < List.length (writes s))%nat ->
  nthWrite s k = rev (writes s) !! k.
Proof.
  intros Hk. unfold nthWrite.
  destruct (Nat.ltb_spec k (List.length (writes s))); [| lia].
  symmetry. apply rev_lookup. trivial.
Qed.

(** C9: when decompress returns, the stores of the decode (lines
    139-252, either mode) went to strictly decreasing indices: the k-th
    one went to index rawSize-1-k, every index of [0, rawSize) was
    stored to exactly once and no other index was, rawSize bytes in
    all.  For a stream that is not sampled these are all the stores of
    the call.  For a sampled stream the post-filter (line 254) then
    stores to every index of [0, rawSize) once more, upwards from 0: the
    call stores to each of these indices twice and to no other, and the
    stores of the whole call are once and downwards exactly when the
    stream is not sampled. *)
Theorem C9_stores_of_a_call (maxRaw maxPacked : Z) (p : list byte)
    (d : CRMDecompressor) (rawData out : list Z) :
  construct maxRaw maxPacked p = Ok d ->
  decompressImpl d rawData = Ok out ->
  exists s s',
    decodePhase d rawData = Ok s /\ out = postFilter d s
    /\ decompressStores d rawData = Ok s' /\ out = dest s'
    /\ destOffset s = 0
    /\ writes s = span 0 (Z.to_nat (_rawSize d))
    /\ (forall k, 0 <= Z.of_nat k < _rawSize d ->
          nthWrite s k = Some (_rawSize d - 1 - Z.of_nat k))
    /\ (forall j k x y, (j < k)%nat ->
          nthWrite s j = Some x -> nthWrite s k = Some y -> y < x)
    /\ NoDup (writes s)
    /\ (forall x, 0 <= x < _rawSize d ->
          count_occ Z.eq_dec (writes s) x = 1%nat)
    /\ (forall x, In x (writes s) <-> 0 <= x < _rawSize d)
    /\ Z.of_nat (List.length (writes s)) = _rawSize d
    /\ (_isSampled d = false -> s' = s)
    /\ (_isSampled d = true ->
          writes s' = rev (span 0 (Z.to_nat (_rawSize d))) ++ writes s
          /\ (forall k, 0 <= Z.of_nat k < _rawSize d ->
                nthWrite s' k = Some (_rawSize d - 1 - Z.of_nat k)
                /\ nthWrite s' (Z.to_nat (_rawSize d) + k) = Some (Z.of_nat k))
          /\ (forall x, 0 <= x < _rawSize d ->
                count_occ Z.eq_dec (writes s') x = 2%nat)
          /\ (forall x, In x (writes s') <-> 0 <= x < _rawSize d)
          /\ Z.of_nat (List.length (writes s')) = 2 * _rawSize d)
    /\ (writtenOnceDownwards (_rawSize d) s' <-> _isSampled d = false).
Proof.
  intros Hc H.
  apply construct_accepts in Hc as (_ & _ & _ & _ & _ & _ & _ & Hraw & _).
  unfold decompressImpl in H.
  destruct (decodePhase d rawData) as [s | | |] eqn:Hs; try discriminate.
  injection H as <-.
  pose proof Hs as Hphase. unfold decodePhase in Hs.
  destruct (Z.ltb_spec (Z.of_nat (List.length rawData)) (_rawSize d)) as [| Hlen];
    [discriminate |].
  apply decodeFrom_inv in Hs as (r & u & _ & Hbody).
  pose proof (decodeBody_final _ _ _ _ _ _ Hbody) as Hzero.
  assert (Hinit : outputInv (_rawSize d) (mkState r rawData (_rawSize d) [])).
  { unfold outputInv. cbn [destOffset dest writes]. rewrite Z.sub_diag.
    split; [lia | split; [lia | reflexivity]]. }
  destruct (keeps_decodeBody (_packedData d) (_rawSize d) (_isLZH d) _ _ _
              Hinit Hbody) as [(_ & Hdest & Hw) _].
  rewrite Hzero, Z.sub_0_r in Hw.
  set (n := Z.to_nat (_rawSize d)) in *.
  assert (Hn : List.length (writes s) = n) by (rewrite Hw; apply span_length).
  assert (Hnth : forall k, 0 <= Z.of_nat k < _rawSize d ->
            nthWrite s k = Some (_rawSize d - 1 - Z.of_nat k)).
  { intros k Hk. unfold nthWrite. rewrite Hn.
    destruct (Nat.ltb_spec k n); [| lia].
    rewrite Hw, span_lookup by lia. f_equal. lia. }
  assert (Hdown : forall j k x y, (j < k)%nat ->
            nthWrite s j = Some x -> nthWrite s k = Some y -> y < x).
  { intros j k x y Hjk Hx Hy.
    assert (Hk : (k < n)%nat).
    { unfold nthWrite in Hy. rewrite Hn in Hy.
      destruct (Nat.ltb_spec k n); [trivial | discriminate]. }
    rewrite Hnth in Hx, Hy by lia.
    injection Hx as <-. injection Hy as <-. lia. }
  assert (Hocc : forall x, 0 <= x < _rawSize d ->
            count_occ Z.eq_dec (writes s) x = 1%nat).
  { intros x Hx. rewrite Hw, span_count.
    destruct (Z.leb_spec 0 x); [| lia].
    destruct (Z.ltb_spec x (0 + Z.of_nat n)); [reflexivity | lia]. }
  assert (Hin : forall x, In x (writes s) <-> 0 <= x < _rawSize d)
    by (intros x; rewrite Hw, span_In; lia).
  assert (Hstores : exists s',
            decompressStores d rawData = Ok s' /\ postFilter d s = dest s'
            /\ (_isSampled d = false -> s' = s)
            /\ (_isSampled d = true ->
                  writes s' = rev (span 0 n) ++ writes s)).
  { unfold decompressStores, postFilter. rewrite Hphase. fold n.
    destruct (_isSampled d).
    - rewrite (dltaStores_spec n 0 0 s) by lia.
      eexists. split; [reflexivity |]. cbn [dest writes].
      split; [reflexivity |]. split; [discriminate | reflexivity].
    - exists s. split; [reflexivity |]. split; [reflexivity |].
      split; [reflexivity | discriminate]. }
  destruct Hstores as (s' & Hst & Hout & Hplain & Hsampled).
  exists s, s'.
  split; [reflexivity |]. split; [reflexivity |].
  split; [exact Hst |]. split; [exact Hout |].
  split; [exact Hzero |]. split; [exact Hw |]. split; [exact Hnth |].
  split; [exact Hdown |]. split; [rewrite Hw; apply span_NoDup |].
  split; [exact Hocc |]. split; [exact Hin |]. split; [lia |].
  split; [exact Hplain |].
  assert (Htwice : _isSampled d = true ->
            writes s' = rev (span 0 n) ++ writes s
            /\ (forall k, 0 <= Z.of_nat k < _rawSize d ->
                  nthWrite s' k = Some (_rawSize d - 1 - Z.of_nat k)
                  /\ nthWrite s' (n + k) = Some (Z.of_nat k))
            /\ (forall x, 0 <= x < _rawSize d ->
                  count_occ Z.eq_dec (writes s') x = 2%nat)
            /\ (forall x, In x (writes s') <-> 0 <= x < _rawSize d)
            /\ Z.of_nat (List.length (writes s')) = 2 * _rawSize d).
  { intros Hsam. specialize (Hsampled Hsam).
    assert (Hlen' : List.length (writes s') = (n + n)%nat)
      by (rewrite Hsampled, length_app, length_rev, span_length, Hn; reflexivity).
    split; [exact Hsampled |]. split.
    { intros k Hk.
      rewrite !nthWrite_lookup by lia.
      rewrite Hsampled, rev_app_distr, rev_involutive, Hw. split.
      - rewrite lookup_app_l by (rewrite length_rev, span_length; lia).
        rewrite rev_lookup by (rewrite span_length; lia).
        rewrite span_length, span_lookup by lia. f_equal. lia.
      - rewrite lookup_app_r by (rewrite length_rev, span_length; lia).
        rewrite length_rev, span_length.
        replace (n + k - n)%nat with k by lia.
        rewrite span_lookup by lia. f_equal. }
    split.
    { intros x Hx. rewrite Hsampled, count_occ_app, count_occ_rev, <- Hw.
      rewrite (Hocc x Hx). reflexivity. }
    split.
    { intros x. rewrite Hsampled, in_app_iff, <- in_rev, <- Hw, Hin. tauto. }
    lia. }
  split; [exact Htwice |].
  split.
  - intros (_ & _ & _ & Hcount).
    destruct (_isSampled d) eqn:Hsam; [| reflexivity].
    destruct (Htwice eq_refl) as (_ & _ & _ & _ & Hall). lia.
  - intros Hsam. rewrite (Hplain Hsam).
    split; [exact Hdown |]. split; [exact Hocc |].
    split; [intros x; apply Hin | lia].
Qed.

Lemma C9_stores_witness :
  (construct ceiling ceiling sampleRun = Ok (decoderOf sampleRun)
   /\ decompressImpl (decoderOf sampleRun) (replicate 16 0)
      = Ok [7; 121; 234; 90; 201; 55; 164; 16; 123; 229; 78; 182; 29; 131;
            232; 76])
  /\ exists s s',
       decodePhase (decoderOf sampleRun) (replicate 16 0) = Ok s
       /\ [7; 121; 234; 90; 201; 55; 164; 16; 123; 229; 78; 182; 29; 131;
           232; 76] = postFilter (decoderOf sampleRun) s
       /\ decompressStores (decoderOf sampleRun) (replicate 16 0) = Ok s'
       /\ [7; 121; 234; 90; 201; 55; 164; 16; 123; 229; 78; 182; 29; 131;
           232; 76] = dest s'
       /\ destOffset s = 0
       /\ writes s = span 0 (Z.to_nat (_rawSize (decoderOf sampleRun)))
       /\ (forall k, 0 <= Z.of_nat k < _rawSize (decoderOf sampleRun) ->
             nthWrite s k = Some (_rawSize (decoderOf sampleRun) - 1 - Z.of_nat k))
       /\ (forall j k x y, (j < k)%nat ->
             nthWrite s j = Some x -> nthWrite s k = Some y -> y < x)
       /\ NoDup (writes s)
       /\ (forall x, 0 <= x < _rawSize (decoderOf sampleRun) ->
             count_occ Z.eq_dec (writes s) x = 1%nat)
       /\ (forall x, In x (writes s) <-> 0 <= x < _rawSize (decoderOf sampleRun))
       /\ Z.of_nat (List.length (writes s)) = _rawSize (decoderOf sampleRun)
       /\ (_isSampled (decoderOf sampleRun) = false -> s' = s)
       /\ (_isSampled (decoderOf sampleRun) = true ->
             writes s'
             = rev (span 0 (Z.to_nat (_rawSize (decoderOf sampleRun)))) ++ writes s
             /\ (forall k, 0 <= Z.of_nat k < _rawSize (decoderOf sampleRun) ->
                   nthWrite s' k
                   = Some (_rawSize (decoderOf sampleRun) - 1 - Z.of_nat k)
                   /\ nthWrite s' (Z.to_nat (_rawSize (decoderOf sampleRun)) + k)
                      = Some (Z.of_nat k))
             /\ (forall x, 0 <= x < _rawSize (decoderOf sampleRun) ->
                   count_occ Z.eq_dec (writes s') x = 2%nat)
             /\ (forall x, In x (writes s')
                           <-> 0 <= x < _rawSize (decoderOf sampleRun))
             /\ Z.of_nat (List.length (writes s'))
                = 2 * _rawSize (decoderOf sampleRun))
       /\ (writtenOnceDownwards (_rawSize (decoderOf sampleRun)) s'
           <-> _isSampled (decoderOf sampleRun) = false).
Proof.
  assert (H1 : construct ceiling ceiling sampleRun = Ok (decoderOf sampleRun))
    by (vm_compute; reflexivity).
  assert (H2 : decompressImpl (decoderOf sampleRun) (replicate 16 0)
               = Ok [7; 121; 234; 90; 201; 55; 164; 16; 123; 229; 78; 182; 29;
                     131; 232; 76])
    by (vm_compute; reflexivity).
  split; [split; [exact H1 | exact H2] |].
  exact (C9_stores_of_a_call ceiling ceiling sampleRun
           (decoderOf sampleRun) (replicate 16 0) _ H1 H2).
Defined.

(** C9 (as stated) fails: the call on the accepted sampled stream "Crm!"
    [sampleRun] returns, and after the sixteen stores of the decode, down
    from index 15 to index 0, the post-filter has stored to the indices 0
    to 15 once more, upwards: 32 stores, two to each index, the 16th and
    the 17th both to index 0.  The byte at index 1, 114 when the decode
    ends, is 121 on return. *)
Lemma C9_counterexample :
  construct ceiling ceiling sampleRun = Ok (decoderOf sampleRun)
  /\ _isSampled (decoderOf sampleRun) = true
  /\ _rawSize (decoderOf sampleRun) = 16
  /\ decompressImpl (decoderOf sampleRun) (replicate 16 0)
     = Ok [7; 121; 234; 90; 201; 55; 164; 16; 123; 229; 78; 182; 29; 131;
           232; 76]
  /\ exists s s',
       decodePhase (decoderOf sampleRun) (replicate 16 0) = Ok s
       /\ decompressStores (decoderOf sampleRun) (replicate 16 0) = Ok s'
       /\ dest s = [7; 114; 113; 112; 111; 110; 109; 108; 107; 106; 105; 104;
                    103; 102; 101; 100]
       /\ dest s' = [7; 121; 234; 90; 201; 55; 164; 16; 123; 229; 78; 182; 29;
                     131; 232; 76]
       /\ rev (writes s')
          = [15; 14; 13; 12; 11; 10; 9; 8; 7; 6; 5; 4; 3; 2; 1; 0;
             0; 1; 2; 3; 4; 5; 6; 7; 8; 9; 10; 11; 12; 13; 14; 15]
       /\ nthWrite s' 15 = Some 0
       /\ nthWrite s' 16 = Some 0
       /\ nthWrite s' 17 = Some 1
       /\ count_occ Z.eq_dec (writes s') 0 = 2%nat
       /\ List.length (writes s') = 32%nat
       /\ ~ writtenOnceDownwards 16 s'.
Proof.
  split; [vm_compute; reflexivity |].
  split; [vm_compute; reflexivity |].
  split; [vm_compute; reflexivity |].
  split; [vm_compute; reflexivity |].
  eexists _, _.
  split; [vm_compute; reflexivity |].
  split; [vm_compute; reflexivity |].
  split; [reflexivity |]. split; [reflexivity |]. split; [reflexivity |].
  split; [reflexivity |]. split; [reflexivity |]. split; [reflexivity |].
  split; [reflexivity |]. split; [reflexivity |].
  intros (Hdown & _). specialize (Hdown 15%nat 16%nat 0 0).
  assert (H : 0 < 0); [| lia].
  apply Hdown; [lia | reflexivity | reflexivity].
Qed.

(** ** Table deserialisation *)

Lemma bind_ext {St A B} (m : M St A) (k1 k2 : A -> M St B) (s : St) :
  (forall a s1, k1 a s1 = k2 a s1) -> bind m k1 s = bind m k2 s.
Proof.
  intros H. unfold bind. destruct (m s) as [[a s1] | | |]; auto.
Qed.

Lemma bind_assoc {St A B C} (m : M St A) (k : A -> M St B) (h : B -> M St C) (s : St) :
  bind (bind m k) h s = bind m (fun a => bind (k a) h) s.
Proof.
  unfold bind. destruct (m s) as [[a s1] | | |]; reflexivity.
Qed.

Lemma span_shift (n : nat) (lo : Z) : span (lo + 1) n = map (fun k => k + 1) (span lo n).
Proof.
  unfold span. rewrite map_map. apply map_ext. intros k. lia.
Qed.

Lemma lookup_map {A B} (f : A -> B) (l : list A) :
  forall j, map f l !! j = f <$> l !! j.
Proof.
  induction l as [| x l IH]; intros [| j]; simpl; auto.
Qed.

Section Table.
Variable bufPtr : list byte.

Lemma readMany_range (widths : list Z) :
  forall r r' vs,
    readMany bufPtr widths r = Ok (vs, r') ->
    List.length vs = List.length widths
    /\ forall j w v, widths !! j = Some w -> vs !! j = Some v -> 0 <= v < 2 ^ w.
Proof.
  induction widths as [| w ws IH]; intros r r' vs H; simpl in H.
  - injection H as <- <-. split; [reflexivity |]. intros j w v Hw. discriminate.
  - apply bind_inv_Ok in H as (v0 & r1 & Hv0 & H).
    apply bind_inv_Ok in H as (rest & r2 & Hrest & [= <- <-]).
    apply IH in Hrest as (Hlen & Hr).
    split; [simpl; lia |].
    intros [| j] w' v' Hw Hv; simpl in Hw, Hv.
    + injection Hw as <-. injection Hv as <-.
      apply readBits_range in Hv0. tauto.
    + eauto.
Qed.

Lemma readLengthTable_eq (codeLength : Z) (n : nat) :
  forall i r,
    readLengthTable bufPtr codeLength n i r
    = readMany bufPtr (map (fun j => Z.min (j + 1) codeLength) (span i n)) r.
Proof.
  induction n as [| n IH]; intros i r; [reflexivity |].
  rewrite span_S_l. simpl. apply bind_ext. intros v r1.
  unfold bind. rewrite IH. reflexivity.
Qed.

Lemma readLeaves_app (codeLength : Z) (a b : list (Z * Z)) :
  forall dec r,
    readLeaves bufPtr codeLength (a ++ b) dec r
    = bind (readLeaves bufPtr codeLength a dec)
        (fun dec' => readLeaves bufPtr codeLength b dec') r.
Proof.
  induction a as [| [depth c] a IH]; intros dec r; simpl.
  - reflexivity.
  - rewrite bind_assoc. apply bind_ext. intros v r1.
    rewrite bind_assoc. apply bind_ext. intros dec1 r2. apply IH.
Qed.

(** The running [code] of the inner loop yields consecutive codes. *)
Lemma readCodes_eq (codeLength maxDepth depth : Z) (n : nat) :
  forall code dec r,
    0 <= maxDepth - depth -> 0 <= code ->
    code + Z.of_nat n * 2 ^ (maxDepth - depth) < 2 ^ 32 ->
    readCodes bufPtr codeLength maxDepth depth n code dec r
    = bind (readLeaves bufPtr codeLength
              (map (fun k => (depth, Z.shiftr code (maxDepth - depth) + k))
                 (span 0 n)) dec)
        (fun dec' => ret (code + Z.of_nat n * 2 ^ (maxDepth - depth), dec')) r.
Proof.
  induction n as [| n IH]; intros code dec r Hm Hc Hb.
  - simpl. unfold bind, ret. do 2 f_equal. f_equal. lia.
  - pose proof (Z.pow_pos_nonneg 2 (maxDepth - depth) ltac:(lia) Hm) as Hpow.
    rewrite span_S_l. simpl readCodes. simpl map. simpl readLeaves.
    rewrite bind_assoc. apply bind_ext. intros v r1.
    rewrite Z.add_0_r, bind_assoc. apply bind_ext. intros dec1 r2.
    rewrite Z.shiftl_mul_pow2, Z.mul_1_l by lia.
    assert (Hw : wrap32 (code + 2 ^ (maxDepth - depth)) = code + 2 ^ (maxDepth - depth))
      by (unfold wrap32; rewrite Z.mod_small; lia).
    rewrite Hw, IH by lia.
    replace (code + 2 ^ (maxDepth - depth) + Z.of_nat n * 2 ^ (maxDepth - depth))
      with (code + Z.of_nat (S n) * 2 ^ (maxDepth - depth)) by lia.
    rewrite (span_shift n 0), map_map.
    assert (Hs : Z.shiftr (code + 2 ^ (maxDepth - depth)) (maxDepth - depth)
                 = Z.shiftr code (maxDepth - depth) + 1).
    { rewrite !Z.shiftr_div_pow2 by lia.
      replace (code + 2 ^ (maxDepth - depth)) with (code + 1 * 2 ^ (maxDepth - depth)) by lia.
      apply Z.div_add. lia. }
    rewrite Hs.
    rewrite (map_ext (fun k => (depth, Z.shiftr code (maxDepth - depth) + 1 + k))
               (fun x => (depth, Z.shiftr code (maxDepth - depth) + (x + 1))));
      [reflexivity | intros k; f_equal; lia].
Qed.

(** The outer loop walks the canonical slots. *)
Lemma readDepths_eq (codeLength maxDepth : Z) (post : list Z) :
  forall (pre : list Z) code dec r,
    Z.of_nat (List.length pre) + Z.of_nat (List.length post) = maxDepth ->
    maxDepth * 2 ^ maxDepth < 2 ^ 32 ->
    0 <= code <= Z.of_nat (List.length pre) * 2 ^ maxDepth ->
    (forall j cnt, post !! j = Some cnt ->
       0 <= cnt < 2 ^ (Z.of_nat (List.length pre) + 1 + Z.of_nat j)) ->
    readDepths bufPtr codeLength maxDepth (pre ++ post) (List.length post)
      (Z.of_nat (List.length pre) + 1) code dec r
    = readLeaves bufPtr codeLength
        (canonicalSlots maxDepth (Z.of_nat (List.length pre) + 1) code post) dec r.
Proof.
  induction post as [| cnt rest IH]; intros pre code dec r Hlen H32 Hcode Hcnt;
    [reflexivity |].
  set (depth := Z.of_nat (List.length pre) + 1) in *.
  simpl List.length in *. simpl readDepths. simpl canonicalSlots.
  pose proof (Hcnt 0%nat cnt eq_refl) as Hc0. rewrite Z.add_0_r in Hc0.
  assert (Hm : 0 <= maxDepth - depth) by lia.
  assert (Hpm : 2 ^ depth * 2 ^ (maxDepth - depth) = 2 ^ maxDepth).
  { rewrite <- Z.pow_add_r by lia. f_equal. lia. }
  pose proof (Z.pow_pos_nonneg 2 (maxDepth - depth) ltac:(lia) Hm) as Hpow.
  assert (Hstep : cnt * 2 ^ (maxDepth - depth) < 2 ^ maxDepth) by nia.
  assert (Hstep0 : 0 <= cnt * 2 ^ (maxDepth - depth)) by nia.
  assert (Hload : load (pre ++ cnt :: rest) (depth - 1) r = Ok (cnt, r)).
  { apply load_Ok; [lia |].
    replace (Z.to_nat (depth - 1)) with (List.length pre) by lia.
    rewrite lookup_app_r by lia. rewrite Nat.sub_diag. reflexivity. }
  rewrite (bind_Ok _ _ _ _ _ Hload).
  rewrite readLeaves_app.
  unfold bind at 1. rewrite readCodes_eq by (rewrite ?Z2Nat.id; lia).
  unfold bind.
  destruct (readLeaves bufPtr codeLength _ dec r) as [[dec1 r1] | | |];
    try reflexivity.
  unfold ret. cbn [fst snd]. rewrite Z2Nat.id by lia.
  specialize (IH (pre ++ [cnt]) (code + cnt * 2 ^ (maxDepth - depth)) dec1 r1).
  rewrite length_app in IH. simpl List.length in IH.
  rewrite <- app_assoc in IH. simpl app in IH.
  replace (Z.of_nat (List.length pre + 1) + 1) with (depth + 1) in IH by lia.
  apply IH.
  - lia.
  - trivial.
  - split; [lia |].
    replace (Z.of_nat (List.length pre + 1)) with (Z.of_nat (List.length pre) + 1) by lia.
    rewrite Z.mul_add_distr_r. lia.
  - intros j c Hj. specialize (Hcnt (S j) c Hj).
    replace (depth + 1 + Z.of_nat j)
      with (Z.of_nat (List.length pre) + 1 + Z.of_nat (S j)) by (subst depth; lia).
    trivial.
Qed.

(** C8: LZH table deserialisation reads maxDepth = readBits(4) and raises
    DecompressionError when it is 0; reads lengthTable[i] =
    readBits(min(i+1, codeLength)) for i = 0 .. maxDepth-1; and then reads
    one leaf value of codeLength bits per code and inserts it, depth by
    depth, the codes of one depth being consecutive integers that start
    at the MSB-aligned running code shifted down to that depth. *)
Theorem C8_table_deserialisation (dec : list Dyn.Node) (codeLength : Z) (r : Reader) :
  readHuffmanTable bufPtr dec codeLength r
  = claimedReadHuffmanTable bufPtr dec codeLength r
  /\ (forall r1, readBits bufPtr 4 r = Ok (0, r1) ->
        readHuffmanTable bufPtr dec codeLength r = Raise DecompressionError).
Proof.
  split.
  - unfold readHuffmanTable, claimedReadHuffmanTable.
    unfold bind at 1 3.
    destruct (readBits bufPtr 4 r) as [[maxDepth r1] | | |] eqn:Hmd; try reflexivity.
    apply readBits_range in Hmd as (_ & Hmd). change (2 ^ 4) with 16 in Hmd.
    destruct (Z.eqb_spec maxDepth 0) as [| Hnz]; [reflexivity |].
    unfold bind at 1 2. rewrite readLengthTable_eq.
    destruct (readMany bufPtr _ r1) as [[lengthTable r2] | | |] eqn:Hlt; try reflexivity.
    apply readMany_range in Hlt as (Hlen & Hrange).
    rewrite length_map, span_length in Hlen.
    replace (Z.to_nat maxDepth) with (List.length lengthTable) by lia.
    apply (readDepths_eq codeLength maxDepth lengthTable [] 0 dec r2).
    + simpl. lia.
    + assert (2 ^ maxDepth <= 2 ^ 15) by (apply Z.pow_le_mono_r; lia). nia.
    + simpl. lia.
    + intros j cnt Hj. simpl List.length.
      assert (Hjl : (j < Z.to_nat maxDepth)%nat)
        by (apply lookup_lt_Some in Hj; lia).
      specialize (Hrange j (Z.min (Z.of_nat j + 1) codeLength) cnt).
      rewrite lookup_map, span_lookup in Hrange by lia.
      rewrite Z.add_0_l in Hrange.
      destruct (Hrange eq_refl Hj) as [Hlo Hhi].
      * split; [lia |].
        destruct (Z.le_gt_cases 0 (Z.min (Z.of_nat j + 1) codeLength)) as [Hw | Hw].
        -- apply Z.lt_le_trans with (2 ^ Z.min (Z.of_nat j + 1) codeLength); [lia |].
           apply Z.pow_le_mono_r; lia.
        -- rewrite (Z.pow_neg_r 2 _ Hw) in Hhi. lia.
  - intros r1 H. unfold readHuffmanTable.
    rewrite (bind_Ok _ _ _ _ _ H). reflexivity.
Qed.
End Table.

(** ** The dynamic Huffman decoder: links point forward *)

Section DynWf.
Variable emptyValue : Z.

Lemma sub_set_sub (n : Dyn.Node) (b b' : bool) (v : Z) :
  Dyn.sub (Dyn.set_sub n b v) b' = if Bool.eqb b b' then v else Dyn.sub n b'.
Proof. destruct n, b, b'; reflexivity. Qed.

Lemma nvalue_set_sub (n : Dyn.Node) (b : bool) (v : Z) :
  Dyn.nvalue (Dyn.set_sub n b v) = Dyn.nvalue n.
Proof. destruct n, b; reflexivity. Qed.

Lemma linksBelow_mono (table : list Dyn.Node) (a b : Z) :
  a <= b -> linksBelow table a -> linksBelow table b.
Proof.
  intros Hab H j node bit Hj. destruct (H j node bit Hj); [auto | right; lia].
Qed.

Lemma linksBelow_push (table : list Dyn.Node) (node : Dyn.Node) (bound : Z) :
  linksBelow table bound ->
  (forall b, Dyn.sub node b = 0
             \/ Dyn.tsize table < Dyn.sub node b < bound) ->
  linksBelow (table ++ [node]) bound.
Proof.
  intros H Hn j nd b Hj.
  apply lookup_app_Some in Hj as [Hj | [Hge Hj]]; [eauto |].
  destruct (j - List.length table)%nat eqn:E; simpl in Hj; [| discriminate].
  injection Hj as <-. unfold Dyn.tsize in Hn.
  destruct (Hn b); [auto | right; lia].
Qed.

Lemma linksBelow_update (table : list Dyn.Node) (i : nat) (node : Dyn.Node)
    (b : bool) (v bound : Z) :
  linksBelow table bound -> table !! i = Some node ->
  Z.of_nat i < v < bound ->
  linksBelow (<[i := Dyn.set_sub node b v]> table) bound.
Proof.
  intros H Hi Hv j nd b' Hj.
  destruct (Nat.eq_dec i j) as [<- | Hne].
  - rewrite list_lookup_insert_eq in Hj by (apply lookup_lt_Some in Hi; trivial).
    injection Hj as <-. rewrite sub_set_sub.
    destruct (Bool.eqb b b'); [right; lia | eauto].
  - rewrite list_lookup_insert_ne in Hj by trivial. eauto.
Qed.

(** The loop of [insert] may leave one link to the node it is about to
    push; when it returns, every link is inside the table again. *)
Lemma insert_loop_wf (c : HuffmanCode) (n : nat) :
  forall (table table' : list Dyn.Node) (i len : Z) (u : unit),
    len = Dyn.tsize table -> 0 <= i <= len ->
    linksBelow table len
    \/ (i = len /\ (0 < n)%nat /\ linksBelow table (len + 1)) ->
    Dyn.insert_loop emptyValue c n i len table = Ok (u, table') ->
    wfTable table'.
Proof.
  induction n as [| cb IH]; intros table table' i len u Hlen Hi Hinv H.
  - simpl in H. injection H as _ <-.
    destruct Hinv as [Hinv | (_ & Hn & _)]; [| lia].
    unfold wfTable. rewrite <- Hlen. trivial.
  - simpl in H. unfold bind at 1, get in H.
    destruct (Z.eqb_spec i len) as [-> | Hne].
    + (* push a node *)
      unfold bind at 1, put in H.
      assert (Hweak : linksBelow table (Dyn.tsize table + 1)).
      { destruct Hinv as [Hinv | (_ & _ & Hinv)]; subst len; trivial.
        apply (linksBelow_mono table (Dyn.tsize table)); [lia | trivial]. }
      eapply IH in H; [exact H | | |].
      * unfold Dyn.tsize. rewrite length_app. simpl. unfold Dyn.tsize in Hlen. lia.
      * lia.
      * destruct cb as [| cb].
        -- left. simpl. apply linksBelow_push.
           ++ subst len. trivial.
           ++ intros b. destruct b; simpl; auto.
        -- right. split; [reflexivity |]. split; [lia |].
           apply linksBelow_push.
           ++ apply (linksBelow_mono table (len + 1)); [lia | subst len; trivial].
           ++ intros b. subst len.
              destruct (negb (Z.of_nat (S cb) =? 0) && _),
                       (negb (Z.of_nat (S cb) =? 0) && _), b; simpl; auto; right; lia.
    + (* walk an existing node *)
      assert (Hinv' : linksBelow table len) by (destruct Hinv as [| (? & _)]; [trivial | lia]).
      apply bind_inv_Ok in H as (node & t1 & Hload & H).
      apply load_inv_Ok in Hload as (_ & Hnode & ->).
      destruct ((Z.of_nat cb =? 0) || negb (Dyn.nvalue node =? emptyValue)) eqn:E;
        [discriminate |].
      apply orb_false_elim in E as [Ecb _].
      apply Z.eqb_neq in Ecb.
      set (codeBit := if Z.of_nat cb =? 0 then false
                      else codeBitAt (code c) (Z.of_nat cb - 1)) in *.
      destruct (Z.eqb_spec (Dyn.sub node codeBit) 0) as [Etmp | Etmp].
      * unfold bind at 1, put in H.
        eapply IH in H; [exact H | | |].
        -- unfold Dyn.tsize. rewrite length_insert. exact Hlen.
        -- lia.
        -- right. split; [reflexivity |]. split; [lia |].
           apply linksBelow_update; trivial.
           ++ apply (linksBelow_mono table len); [lia | trivial].
           ++ apply lookup_lt_Some in Hnode. unfold Dyn.tsize in Hlen. lia.
      * destruct (Hinv' _ _ codeBit Hnode) as [| Hlt]; [contradiction |].
        eapply IH in H; [exact H | trivial | lia | auto].
Qed.

Lemma empty_wf : wfTable (Dyn.empty emptyValue).
Proof.
  intros j node b Hj. destruct j; [| discriminate].
  injection Hj as <-. left. destruct b; reflexivity.
Qed.

Lemma insert_wf (c : HuffmanCode) (table table' : list Dyn.Node) (u : unit) :
  wfTable table ->
  Dyn.insert emptyValue c table = Ok (u, table') -> wfTable table'.
Proof.
  intros Hwf H. unfold Dyn.insert in H.
  destruct (value c =? emptyValue); [discriminate |].
  unfold bind, get in H.
  eapply insert_loop_wf in H; [exact H | reflexivity | | left; exact Hwf].
  unfold Dyn.tsize. lia.
Qed.
End DynWf.

Section DynValues.
Variables (emptyValue top : Z).
Hypothesis empty_le_top : 0 <= emptyValue <= top.

Lemma valuesUpTo_push (table : list Dyn.Node) (node : Dyn.Node) :
  valuesUpTo top table -> 0 <= Dyn.nvalue node <= top ->
  valuesUpTo top (table ++ [node]).
Proof.
  intros H Hn j nd Hj.
  apply lookup_app_Some in Hj as [Hj | [Hge Hj]]; [eauto |].
  destruct (j - List.length table)%nat; simpl in Hj; [| discriminate].
  injection Hj as <-. trivial.
Qed.

Lemma valuesUpTo_update (table : list Dyn.Node) (i : nat) (node : Dyn.Node)
    (b : bool) (v : Z) :
  valuesUpTo top table -> table !! i = Some node ->
  valuesUpTo top (<[i := Dyn.set_sub node b v]> table).
Proof.
  intros H Hi j nd Hj.
  destruct (Nat.eq_dec i j) as [<- | Hne].
  - rewrite list_lookup_insert_eq in Hj by (apply lookup_lt_Some in Hi; trivial).
    injection Hj as <-. rewrite nvalue_set_sub. eauto.
  - rewrite list_lookup_insert_ne in Hj by trivial. eauto.
Qed.

Lemma insert_loop_values (c : HuffmanCode) (n : nat) :
  forall (table table' : list Dyn.Node) (i len : Z) (u : unit),
    0 <= value c <= top -> valuesUpTo top table ->
    Dyn.insert_loop emptyValue c n i len table = Ok (u, table') ->
    valuesUpTo top table'.
Proof.
  induction n as [| cb IH]; intros table table' i len u Hv Hvals H.
  - simpl in H. injection H as _ <-. trivial.
  - simpl in H. unfold bind at 1, get in H.
    destruct (i =? len).
    + unfold bind at 1, put in H.
      eapply IH in H; [exact H | trivial |].
      apply valuesUpTo_push; [trivial |]. simpl.
      destruct (negb (Z.of_nat cb =? 0)); lia.
    + apply bind_inv_Ok in H as (node & t1 & Hload & H).
      apply load_inv_Ok in Hload as (_ & Hnode & ->).
      destruct ((Z.of_nat cb =? 0) || negb (Dyn.nvalue node =? emptyValue));
        [discriminate |].
      destruct (Dyn.sub node _ =? 0).
      * unfold bind at 1, put in H.
        eapply IH in H; [exact H | trivial |].
        apply valuesUpTo_update; trivial.
      * eapply IH in H; [exact H | trivial | trivial].
Qed.

Lemma insert_values (c : HuffmanCode) (table table' : list Dyn.Node) (u : unit) :
  0 <= value c <= top -> valuesUpTo top table ->
  Dyn.insert emptyValue c table = Ok (u, table') -> valuesUpTo top table'.
Proof.
  intros Hv Hvals H. unfold Dyn.insert in H.
  destruct (value c =? emptyValue); [discriminate |].
  unfold bind, get in H.
  eapply insert_loop_values in H; eauto.
Qed.

Lemma empty_values : valuesUpTo top (Dyn.empty emptyValue).
Proof.
  intros j node Hj. destruct j; [| discriminate].
  injection Hj as <-. simpl. trivial.
Qed.

Section DynDecode.
Context {St : Type} (rd : M St Z).

(** What [decode] returns is the value of a node. *)
Lemma decode_loop_value (table : list Dyn.Node) (fuel : nat) :
  forall i r0 s s' v,
    valuesUpTo top table -> 0 <= r0 <= top ->
    Dyn.decode_loop emptyValue rd table fuel i r0 s = Ok (v, s') ->
    0 <= v <= top /\ v <> emptyValue.
Proof.
  assert (Hfin : forall r0 (s s' : St) v, 0 <= r0 <= top ->
            Dyn.finish emptyValue r0 s = Ok (v, s') ->
            0 <= v <= top /\ v <> emptyValue).
  { intros r0 s s' v Hr H. unfold Dyn.finish in H.
    destruct (Z.eqb_spec r0 emptyValue); [discriminate |].
    injection H as <- _. auto. }
  induction fuel as [| fuel IH]; intros i r0 s s' v Hvals Hr H; simpl in H.
  - destruct (_ && _); [discriminate | eauto].
  - destruct (_ && _); [| eauto].
    apply bind_inv_Ok in H as (b & s1 & _ & H).
    apply bind_inv_Ok in H as (n & s2 & _ & H).
    apply bind_inv_Ok in H as (n' & s3 & Hn' & H).
    apply load_inv_Ok in Hn' as (_ & Hn' & _).
    pose proof (Hvals _ _ Hn') as Hv'.
    destruct (Dyn.sub n (negb (b =? 0)) =? 0);
      [eapply Hfin; [exact Hv' | exact H]
      | eapply IH; [exact Hvals | exact Hv' | exact H]].
Qed.

Lemma decode_loop_noFuel (table : list Dyn.Node) (fuel : nat) :
  forall i r0 s,
    noFuel rd -> wfTable table -> 0 <= i ->
    Dyn.tsize table - i <= Z.of_nat fuel ->
    Dyn.decode_loop emptyValue rd table fuel i r0 s <> OutOfFuel.
Proof.
  assert (Hfin : forall r0 (s : St), Dyn.finish emptyValue r0 s <> OutOfFuel).
  { intros r0 s. unfold Dyn.finish. destruct (_ =? _); discriminate. }
  induction fuel as [| fuel IH]; intros i r0 s Hrd Hwf Hi Hf; simpl.
  - destruct (Z.ltb_spec i (Dyn.tsize table)); [lia | apply Hfin].
  - destruct (Z.ltb_spec i (Dyn.tsize table)); [| apply Hfin].
    destruct (r0 =? emptyValue); [| apply Hfin]. simpl.
    unfold bind at 1. specialize (Hrd s) as Hs.
    destruct (rd s) as [[b s1] | | |]; try discriminate; [| congruence].
    unfold bind at 1, load.
    destruct (Z.ltb_spec i 0); [discriminate |].
    destruct (table !! Z.to_nat i) as [n |] eqn:Hn; [| discriminate].
    unfold ret, bind at 1.
    destruct (Z.ltb_spec (Dyn.sub n (negb (b =? 0))) 0); [discriminate |].
    destruct (table !! Z.to_nat (Dyn.sub n _)) as [n' |]; [| discriminate].
    destruct (Z.eqb_spec (Dyn.sub n (negb (b =? 0))) 0); [apply Hfin |].
    destruct (Hwf _ _ (negb (b =? 0)) Hn) as [| Hlt]; [contradiction |].
    apply IH; trivial; lia.
Qed.

Lemma decode_noFuel (table : list Dyn.Node) :
  noFuel rd -> wfTable table -> noFuel (Dyn.decode emptyValue rd table).
Proof.
  intros Hrd Hwf s. unfold Dyn.decode.
  apply decode_loop_noFuel; trivial; unfold Dyn.tsize; lia.
Qed.

Lemma decode_value (table : list Dyn.Node) (s s' : St) (v : Z) :
  valuesUpTo top table ->
  Dyn.decode emptyValue rd table s = Ok (v, s') ->
  0 <= v <= top /\ v <> emptyValue.
Proof.
  intros Hvals H. unfold Dyn.decode in H.
  eapply decode_loop_value in H; eauto.
Qed.
End DynDecode.
End DynValues.

(** ** No loop runs out of fuel *)

Lemma noFuel_bind_at {St A B} (m : M St A) (k : A -> M St B) (s : St) :
  m s <> OutOfFuel ->
  (forall a s', m s = Ok (a, s') -> k a s' <> OutOfFuel) ->
  bind m k s <> OutOfFuel.
Proof.
  intros Hm Hk. unfold bind.
  destruct (m s) as [[a s'] | | |]; try discriminate; [auto | congruence].
Qed.

Lemma noFuel_bind {St A B} (m : M St A) (k : A -> M St B) :
  noFuel m -> (forall a, noFuel (k a)) -> noFuel (bind m k).
Proof.
  intros Hm Hk s. apply noFuel_bind_at; [apply Hm | intros a s' _; apply Hk].
Qed.

Lemma noFuel_ret {St A} (a : A) : noFuel (@ret St A a).
Proof. intros s. discriminate. Qed.

Lemma noFuel_throw {St A} (e : exn) : noFuel (@throw St A e).
Proof. intros s. discriminate. Qed.

Lemma noFuel_undefined {St A} : noFuel (@undefined St A).
Proof. intros s. discriminate. Qed.

Lemma noFuel_get {St} : noFuel (@get St).
Proof. intros s. discriminate. Qed.

Lemma noFuel_put {St} (s0 : St) : noFuel (put s0).
Proof. intros s. discriminate. Qed.

Lemma noFuel_load {St A} (l : list A) (i : Z) : noFuel (@load St A l i).
Proof.
  intros s. unfold load. destruct (i <? 0); [discriminate |].
  destruct (l !! Z.to_nat i); discriminate.
Qed.

Lemma noFuel_onReader {A} (m : M Reader A) : noFuel m -> noFuel (onReader m).
Proof.
  intros Hm s. unfold onReader. specialize (Hm (reader s)).
  destruct (m (reader s)) as [[a r] | | |]; try discriminate. congruence.
Qed.

Lemma noFuel_writeByte (v : Z) : noFuel (writeByte v).
Proof.
  intros s. unfold writeByte, bind, get. destruct (_ || _); discriminate.
Qed.

Create HintDb nofuel discriminated.
#[local] Hint Resolve noFuel_ret noFuel_throw noFuel_undefined noFuel_get
  noFuel_put noFuel_load noFuel_onReader noFuel_writeByte : nofuel.

Ltac nofuel_step :=
  match goal with
  | |- noFuel (bind _ _) => apply noFuel_bind; [| intros ?]
  | |- noFuel (if ?b then _ else _) => destruct b
  | |- noFuel (match ?x with Some _ => _ | None => _ end) => destruct x
  | |- noFuel (let x := _ in _) => cbv zeta
  | |- noFuel _ => solve [auto with nofuel]
  end.

Section Total.
Variables (bufPtr : list byte) (rawSize : Z).

Lemma refill_noFuel (fuel : nat) :
  forall count r,
    bufOffset r <= Z.of_nat fuel -> refill bufPtr fuel count r <> OutOfFuel.
Proof.
  induction fuel as [| fuel IH]; intros count r Hf; simpl;
    unfold bind at 1, get;
    (destruct (bufBitsLength r <? count); [| discriminate]);
    (destruct (Z.leb_spec (bufOffset r) 14); [discriminate |]); [lia |].
  apply noFuel_bind_at; [apply noFuel_load |].
  intros b r1 Hb. apply load_inv_Ok in Hb as (_ & _ & ->).
  destruct (shl32 _ _); [| discriminate].
  unfold bind, put. apply IH. simpl. lia.
Qed.

Lemma noFuel_readBits (count : Z) : noFuel (readBits bufPtr count).
Proof.
  intros r. unfold readBits. unfold bind at 1, get.
  apply noFuel_bind_at; [apply refill_noFuel; lia |].
  intros [] r1 _. revert r1. change (noFuel (A := Z)
    (let* r := get in
     if (count <? 0) || (31 <=? count) then undefined
     else do* put (mkReader (bufOffset r) (Z.shiftr (bufBitsContent r) count)
                     (wrap8 (bufBitsLength r - count))) in
          ret (Z.land (bufBitsContent r) (Z.shiftl 1 count - 1)))).
  repeat nofuel_step.
Qed.

Lemma noFuel_readBit : noFuel (readBit bufPtr).
Proof. unfold readBit. repeat nofuel_step. Qed.

Hint Resolve noFuel_readBits noFuel_readBit : nofuel.

Lemma noFuel_flat_decode (emptyValue depth : Z) (table : list Z) :
  0 <= depth -> Z.of_nat (List.length table) = Flat._length depth ->
  noFuel (Flat.decode emptyValue depth (readBit bufPtr) table).
Proof.
  intros Hd Hsz r. apply flat_decode_total; trivial. apply noFuel_readBit.
Qed.

Lemma insert_loop_noFuel (c : HuffmanCode) (n : nat) :
  forall i len, noFuel (Dyn.insert_loop 512 c n i len).
Proof.
  induction n as [| cb IH]; intros i len; simpl; repeat nofuel_step.
Qed.

Lemma noFuel_insertInto (dec : list Dyn.Node) (c : HuffmanCode) :
  noFuel (insertInto dec c).
Proof.
  intros r. unfold insertInto.
  assert (H : Dyn.insert 512 c dec <> OutOfFuel).
  { unfold Dyn.insert. destruct (_ =? _); [discriminate |].
    pose proof (insert_loop_noFuel c). unfold bind, get. apply H. }
  destruct (Dyn.insert 512 c dec) as [[u t] | | |]; try discriminate. congruence.
Qed.

Hint Resolve noFuel_insertInto : nofuel.

Lemma noFuel_readLengthTable (codeLength : Z) (n : nat) :
  forall i, noFuel (readLengthTable bufPtr codeLength n i).
Proof. induction n as [| n IH]; intros i; simpl; repeat nofuel_step. Qed.

Lemma noFuel_readCodes (codeLength maxDepth depth : Z) (n : nat) :
  forall code dec, noFuel (readCodes bufPtr codeLength maxDepth depth n code dec).
Proof. induction n as [| n IH]; intros code dec; simpl; repeat nofuel_step. Qed.

Lemma noFuel_readDepths (codeLength maxDepth : Z) (lengthTable : list Z) (n : nat) :
  forall depth code dec,
    noFuel (readDepths bufPtr codeLength maxDepth lengthTable n depth code dec).
Proof.
  pose proof noFuel_readCodes.
  induction n as [| n IH]; intros depth code dec; simpl; repeat nofuel_step.
Qed.

Lemma noFuel_readHuffmanTable (dec : list Dyn.Node) (codeLength : Z) :
  noFuel (readHuffmanTable bufPtr dec codeLength).
Proof.
  pose proof noFuel_readLengthTable. pose proof noFuel_readDepths.
  unfold readHuffmanTable. repeat nofuel_step.
Qed.

Lemma noFuel_lzhDistance (distanceBits : Z) : noFuel (lzhDistance bufPtr distanceBits).
Proof. unfold lzhDistance. repeat nofuel_step. Qed.

Lemma noFuel_copyLoop (n : nat) : forall distance, noFuel (copyLoop n distance).
Proof. induction n as [| n IH]; intros distance; simpl; repeat nofuel_step. Qed.

Lemma noFuel_literalLoop (n : nat) : noFuel (literalLoop bufPtr n).
Proof. induction n as [| n IH]; simpl; repeat nofuel_step. Qed.

Hint Resolve noFuel_readHuffmanTable noFuel_lzhDistance noFuel_copyLoop
  noFuel_literalLoop : nofuel.

Lemma noFuel_stdToken :
  noFuel (stdToken bufPtr rawSize stdLengthTable stdDistanceTable).
Proof.
  pose proof (noFuel_flat_decode 255 3 stdLengthTable ltac:(lia) eq_refl).
  pose proof (noFuel_flat_decode 255 2 stdDistanceTable ltac:(lia) eq_refl).
  unfold stdToken, stdLiteralRun, stdMatch, stdMatchCopy, stdCopy.
  repeat nofuel_step.
Qed.

Lemma noFuel_lzhItem (ld dd : list Dyn.Node) :
  wfTable ld -> wfTable dd -> noFuel (lzhItem bufPtr rawSize ld dd).
Proof.
  intros Hl Hd.
  pose proof (decode_noFuel 512 (readBit bufPtr) ld noFuel_readBit Hl).
  pose proof (decode_noFuel 512 (readBit bufPtr) dd noFuel_readBit Hd).
  unfold lzhItem, lzhCopy. repeat nofuel_step.
Qed.

Lemma noFuel_lzhItems (ld dd : list Dyn.Node) (n : nat) :
  wfTable ld -> wfTable dd -> noFuel (lzhItems bufPtr rawSize ld dd n).
Proof.
  intros Hl Hd. pose proof (noFuel_lzhItem ld dd Hl Hd).
  induction n as [| n IH]; simpl; repeat nofuel_step.
Qed.
End Total.

Section Progress.
Variables (bufPtr : list byte) (rawSize : Z).

Lemma insertInto_good (dec dec' : list Dyn.Node) (c : HuffmanCode) (r r' : Reader) :
  goodTable dec -> 0 <= value c <= 512 ->
  insertInto dec c r = Ok (dec', r') -> goodTable dec'.
Proof.
  intros [Hwf Hv] Hc H. unfold insertInto in H. unfold goodTable.
  destruct (Dyn.insert 512 c dec) as [[u t] | | |] eqn:E; try discriminate.
  injection H as <- _. split.
  + eapply insert_wf; eauto.
  + eapply (insert_values 512 512); eauto. lia.
Qed.

Lemma readCodes_good (codeLength maxDepth depth : Z) (n : nat) :
  forall code dec r p r',
    codeLength <= 9 -> goodTable dec ->
    readCodes bufPtr codeLength maxDepth depth n code dec r = Ok (p, r') ->
    goodTable (snd p).
Proof.
  induction n as [| n IH]; intros code dec r p r' Hcl Hg H; simpl in H.
  - injection H as <- _. trivial.
  - apply bind_inv_Ok in H as (v & r1 & Hv & H).
    apply bind_inv_Ok in H as (dec1 & r2 & Hi & H).
    apply readBits_range in Hv as (Hc & Hv).
    assert (2 ^ codeLength <= 2 ^ 9) by (apply Z.pow_le_mono_r; lia).
    eapply IH in H; [exact H | trivial |].
    eapply insertInto_good in Hi; [exact Hi | exact Hg |]. simpl. lia.
Qed.

Lemma readDepths_good (codeLength maxDepth : Z) (lengthTable : list Z) (n : nat) :
  forall depth code dec r dec' r',
    codeLength <= 9 -> goodTable dec ->
    readDepths bufPtr codeLength maxDepth lengthTable n depth code dec r
    = Ok (dec', r') ->
    goodTable dec'.
Proof.
  induction n as [| n IH]; intros depth code dec r dec' r' Hcl Hg H; simpl in H.
  - injection H as <- _. trivial.
  - apply bind_inv_Ok in H as (cnt & r1 & _ & H).
    apply bind_inv_Ok in H as (p & r2 & Hp & H).
    eapply IH in H; [exact H | trivial |].
    eapply readCodes_good in Hp; [exact Hp | trivial | trivial].
Qed.

Lemma readHuffmanTable_good (codeLength : Z) (r r' : Reader) (dec' : list Dyn.Node) :
  codeLength <= 9 ->
  readHuffmanTable bufPtr (Dyn.empty 512) codeLength r = Ok (dec', r') ->
  goodTable dec'.
Proof.
  intros Hcl H. unfold readHuffmanTable in H.
  apply bind_inv_Ok in H as (maxDepth & r1 & _ & H).
  destruct (maxDepth =? 0); [discriminate |].
  apply bind_inv_Ok in H as (lt & r2 & _ & H).
  eapply readDepths_good in H; [exact H | trivial |].
  unfold goodTable. split; [apply empty_wf | apply empty_values; lia].
Qed.

Lemma copyLoop_offset (n : nat) :
  forall distance s s' u,
    copyLoop n distance s = Ok (u, s') ->
    destOffset s' = destOffset s - Z.of_nat n.
Proof.
  induction n as [| n IH]; intros distance s s' u H; simpl in H.
  - injection H as _ <-. lia.
  - apply bind_inv_Ok in H as (s0 & s1 & [= <- <-] & H).
    apply bind_inv_Ok in H as (v & s2 & Hl & H).
    apply load_inv_Ok in Hl as (_ & _ & ->).
    apply bind_inv_Ok in H as (u1 & s3 & Hw & H).
    apply writeByte_inv_Ok in Hw as (_ & ->).
    apply IH in H. simpl in H. lia.
Qed.

Lemma literalLoop_offset (n : nat) :
  forall s s' u,
    literalLoop bufPtr n s = Ok (u, s') ->
    destOffset s' = destOffset s - Z.of_nat n.
Proof.
  induction n as [| n IH]; intros s s' u H; simpl in H.
  - injection H as _ <-. lia.
  - apply bind_inv_Ok in H as (v & s1 & Hv & H).
    apply onReader_inv_Ok in Hv as (_ & _ & Ho & _).
    apply bind_inv_Ok in H as (u1 & s2 & Hw & H).
    apply writeByte_inv_Ok in Hw as (_ & ->).
    apply IH in H. simpl in H. lia.
Qed.

(** Every standard-mode token moves the write cursor down. *)
Lemma stdToken_advances (ld dd : list Z) (s s' : State) (u : unit) :
  stdToken bufPtr rawSize ld dd s = Ok (u, s') -> destOffset s' < destOffset s.
Proof.
  unfold stdToken. intros H.
  apply bind_inv_Ok in H as (b & s1 & Hb & H).
  apply onReader_inv_Ok in Hb as (_ & _ & Ho1 & _).
  destruct (negb (b =? 0)).
  - apply bind_inv_Ok in H as (v & s2 & Hv & H).
    apply onReader_inv_Ok in Hv as (_ & _ & Ho2 & _).
    apply writeByte_inv_Ok in H as (_ & ->). simpl. lia.
  - apply bind_inv_Ok in H as (li & s2 & Hli & H).
    apply onReader_inv_Ok in Hli as (_ & _ & Ho2 & _).
    apply bind_inv_Ok in H as (lb & s3 & Hlb & H).
    apply load_inv_Ok in Hlb as (_ & _ & ->).
    apply bind_inv_Ok in H as (la & s3 & Hla & H).
    apply load_inv_Ok in Hla as (_ & Hla & ->).
    apply bind_inv_Ok in H as (v & s4 & Hv & H).
    apply onReader_inv_Ok in Hv as (Hv & _ & Ho4 & _).
    apply readBits_range in Hv as (Hlb31 & Hvr).
    assert (Hla24 : 2 <= la <= 24).
    { apply list_elem_of_lookup_2 in Hla. unfold lengthAdditions in Hla.
      repeat (apply elem_of_cons in Hla as [-> | Hla]; [lia |]).
      apply elem_of_nil in Hla. contradiction. }
    assert (2 ^ lb <= 2 ^ 30) by (apply Z.pow_le_mono_r; lia).
    assert (Hw : wrap32 (v + la) = v + la)
      by (unfold wrap32; rewrite Z.mod_small; lia).
    rewrite Hw in H.
    destruct (v + la =? 23).
    + unfold stdLiteralRun in H.
      apply bind_inv_Ok in H as (b' & s5 & Hb' & H).
      apply onReader_inv_Ok in Hb' as (_ & _ & Ho5 & _).
      apply bind_inv_Ok in H as (count & s6 & Hc & H).
      assert (Hcount : 15 <= count /\ destOffset s6 = destOffset s5).
      { destruct (negb (b' =? 0));
          apply bind_inv_Ok in Hc as (v' & s7 & Hv' & [= <- <-]);
          apply onReader_inv_Ok in Hv' as (Hv' & _ & Ho7 & _);
          apply readBits_range in Hv' as (_ & Hv');
          (split; [| trivial]); unfold wrap32; rewrite Z.mod_small; lia. }
      apply bind_inv_Ok in H as (s7 & s8 & [= <- <-] & H).
      destruct (destOffset s6 <? count); [discriminate |].
      apply literalLoop_offset in H. lia.
    + unfold stdMatch, stdMatchCopy in H.
      apply bind_inv_Ok in H as (di & s5 & Hdi & H).
      apply onReader_inv_Ok in Hdi as (_ & _ & Ho5 & _).
      apply bind_inv_Ok in H as (db & s6 & Hdb & H).
      apply load_inv_Ok in Hdb as (_ & _ & ->).
      apply bind_inv_Ok in H as (da & s6 & Hda & H).
      apply load_inv_Ok in Hda as (_ & _ & ->).
      apply bind_inv_Ok in H as (v2 & s7 & Hv2 & H).
      apply onReader_inv_Ok in Hv2 as (_ & _ & Ho7 & _).
      unfold stdCopy in H.
      apply bind_inv_Ok in H as (s8 & s9 & [= <- <-] & H).
      destruct (_ || _); [discriminate |].
      apply copyLoop_offset in H.
      assert (1 <= (if 23 <? v + la then wrap32 (v + la - 1) else v + la)).
      { destruct (Z.ltb_spec 23 (v + la)); [| lia].
        unfold wrap32. rewrite Z.mod_small; lia. }
      lia.
Qed.

Lemma stdLoop_noFuel (fuel : nat) :
  forall s,
    outputInv rawSize s -> destOffset s <= Z.of_nat fuel ->
    stdLoop bufPtr rawSize stdLengthTable stdDistanceTable fuel s <> OutOfFuel.
Proof.
  induction fuel as [| fuel IH]; intros s Hinv Hf; simpl; unfold bind at 1, get.
  - destruct (Z.eqb_spec (destOffset s) 0) as [| Hne]; [discriminate |].
    destruct Hinv as (Hd & _). lia.
  - destruct (Z.eqb_spec (destOffset s) 0); [discriminate |].
    apply noFuel_bind_at; [apply noFuel_stdToken |].
    intros u s' Htok.
    destruct (keeps_stdToken bufPtr rawSize _ _ _ _ _ Hinv Htok) as [Hinv' _].
    apply stdToken_advances in Htok. apply IH; [trivial | lia].
Qed.
End Progress.

Section ProgressLZH.
Variables (bufPtr : list byte) (rawSize : Z).

(** Every LZH token moves the write cursor down. *)
Lemma lzhItem_advances (ld dd : list Dyn.Node) (s s' : State) (u : unit) :
  goodTable ld ->
  lzhItem bufPtr rawSize ld dd s = Ok (u, s') -> destOffset s' < destOffset s.
Proof.
  intros [_ Hvals] H. unfold lzhItem in H.
  apply bind_inv_Ok in H as (count & s1 & Hc & H).
  apply onReader_inv_Ok in Hc as (Hc & _ & Ho1 & _).
  apply (decode_value 512 512) in Hc as (Hc & Hne); [| lia | trivial].
  destruct (negb (Z.land count 256 =? 0)).
  - apply bind_inv_Ok in H as (s2 & s3 & [= <- <-] & H).
    destruct (destOffset s1 =? 0); [discriminate |].
    apply writeByte_inv_Ok in H as (_ & ->). simpl. lia.
  - apply bind_inv_Ok in H as (db & s2 & Hdb & H).
    apply onReader_inv_Ok in Hdb as (_ & _ & Ho2 & _).
    apply bind_inv_Ok in H as (dist & s3 & Hdist & H).
    apply onReader_inv_Ok in Hdist as (_ & _ & Ho3 & _).
    unfold lzhCopy in H.
    apply bind_inv_Ok in H as (s4 & s5 & [= <- <-] & H).
    destruct (_ || _); [discriminate |].
    apply copyLoop_offset in H.
    assert (wrap32 (count + 3) = count + 3)
      by (unfold wrap32; rewrite Z.mod_small; lia).
    lia.
Qed.

Lemma lzhItems_advance (ld dd : list Dyn.Node) (n : nat) :
  forall s s' u,
    goodTable ld ->
    lzhItems bufPtr rawSize ld dd n s = Ok (u, s') ->
    destOffset s' + Z.of_nat n <= destOffset s.
Proof.
  induction n as [| n IH]; intros s s' u Hg H; simpl in H.
  - injection H as _ <-. lia.
  - apply bind_inv_Ok in H as (u1 & s1 & Hitem & H).
    apply lzhItem_advances in Hitem; [| trivial].
    apply IH in H; [| trivial]. lia.
Qed.

Lemma lzhBlock_advances (s s' : State) (u : unit) :
  lzhBlock bufPtr rawSize s = Ok (u, s') -> destOffset s' < destOffset s.
Proof.
  unfold lzhBlock. intros H.
  apply bind_inv_Ok in H as (ld & s1 & Hld & H).
  apply onReader_inv_Ok in Hld as (Hld & _ & Ho1 & _).
  apply readHuffmanTable_good in Hld; [| lia].
  apply bind_inv_Ok in H as (dd & s2 & Hdd & H).
  apply onReader_inv_Ok in Hdd as (_ & _ & Ho2 & _).
  apply bind_inv_Ok in H as (v & s3 & Hv & H).
  apply onReader_inv_Ok in Hv as (Hv & _ & Ho3 & _).
  apply readBits_range in Hv as (_ & Hv). change (2 ^ 16) with 65536 in Hv.
  apply lzhItems_advance in H; [| trivial].
  assert (wrap32 (v + 1) = v + 1) by (unfold wrap32; rewrite Z.mod_small; lia).
  lia.
Qed.

Lemma noFuel_lzhBlock : noFuel (lzhBlock bufPtr rawSize).
Proof.
  intros s. unfold lzhBlock.
  apply noFuel_bind_at; [apply noFuel_onReader, noFuel_readHuffmanTable |].
  intros ld s1 Hld.
  apply onReader_inv_Ok in Hld as (Hld & _).
  apply readHuffmanTable_good in Hld as [Hld _]; [| lia].
  apply noFuel_bind_at; [apply noFuel_onReader, noFuel_readHuffmanTable |].
  intros dd s2 Hdd.
  apply onReader_inv_Ok in Hdd as (Hdd & _).
  apply readHuffmanTable_good in Hdd as [Hdd _]; [| lia].
  apply noFuel_bind_at; [apply noFuel_onReader, noFuel_readBits |].
  intros v s3 _. apply noFuel_lzhItems; trivial.
Qed.

Lemma lzhLoop_noFuel (fuel : nat) :
  forall s,
    outputInv rawSize s -> destOffset s <= Z.of_nat fuel ->
    lzhLoop bufPtr rawSize fuel s <> OutOfFuel.
Proof.
  induction fuel as [| fuel IH]; intros s Hinv Hf; simpl;
    (apply noFuel_bind_at; [apply noFuel_lzhBlock |]);
    intros u s1 Hblock;
    destruct (keeps_lzhBlock bufPtr rawSize _ _ _ Hinv Hblock) as [Hinv1 _];
    apply lzhBlock_advances in Hblock;
    (apply noFuel_bind_at; [apply noFuel_onReader, noFuel_readBit |]);
    intros b s2 Hb;
    destruct (keeps_onReader rawSize _ _ _ _ Hinv1 Hb) as [Hinv2 _];
    apply onReader_inv_Ok in Hb as (_ & _ & Ho2 & _);
    (destruct (b =? 0); [discriminate |]).
  - destruct Hinv1 as (Hd & _). lia.
  - apply IH; [trivial | lia].
Qed.

Lemma decodeBody_noFuel (isLZH : bool) (s : State) :
  outputInv rawSize s -> destOffset s <= rawSize ->
  decodeBody bufPtr rawSize isLZH s <> OutOfFuel.
Proof.
  intros Hinv Hd. unfold decodeBody.
  apply noFuel_bind_at.
  - destruct isLZH.
    + apply lzhLoop_noFuel; [trivial |]. destruct Hinv as (? & _). lia.
    + unfold stdMode. rewrite stdLengthTable_made, stdDistanceTable_made.
      unfold bind, lift. apply stdLoop_noFuel; [trivial |].
      destruct Hinv as (? & _). lia.
  - intros u s1 _. unfold bind, get.
    destruct (negb _); discriminate.
Qed.
End ProgressLZH.

(** The fuel the model gives its loops always suffices: decompress
    never stops for lack of it. *)
Theorem decompress_total (d : CRMDecompressor) (rawData : list Z) :
  0 <= _rawSize d ->
  decodePhase d rawData <> OutOfFuel /\ decompressImpl d rawData <> OutOfFuel.
Proof.
  intros Hraw.
  assert (H : decodePhase d rawData <> OutOfFuel).
  { unfold decodePhase.
    destruct (Z.ltb_spec (Z.of_nat (List.length rawData)) (_rawSize d));
      [discriminate |].
    unfold decodeFrom, initReader.
    destruct (readBE32 _ _) as [obc | | |] eqn:E32; try discriminate;
      try (unfold readBE32 in E32; destruct (_ && _); discriminate).
    destruct (readBE16 _ _) as [os | | |] eqn:E16; try discriminate;
      try (unfold readBE16 in E16; destruct (_ && _); discriminate).
    destruct (shr32 _ _); [| discriminate].
    pose proof (decodeBody_noFuel (_packedData d) (_rawSize d) (_isLZH d)
                  (mkState (mkReader (_packedSize d + 14 - 6) z
                              (wrap8 (os + 16))) rawData (_rawSize d) [])) as Hb.
    destruct (decodeBody _ _ _ _) as [[u s] | | |]; try discriminate.
    exfalso. apply Hb; [| simpl; lia | reflexivity].
    unfold outputInv. cbn [destOffset dest writes]. rewrite Z.sub_diag.
    split; [lia | split; [lia | reflexivity]]. }
  split; [trivial |].
  unfold decompressImpl. destruct (decodePhase d rawData); try discriminate.
  congruence.
Qed.

(** ** Insertion into the flat decoder *)

Section FlatInsert.
Variables (emptyValue depth : Z) (c : HuffmanCode).

(** A non-EMPTY slot on the path of the code makes [insert] raise. *)
Lemma flat_insert_loop_rejects (j : nat) :
  forall (table : list Z) (i k : Z) (m : nat) (v : Z),
    Z.of_nat (List.length table) = Flat._length depth ->
    0 <= k -> k + Z.of_nat j <= depth -> atLevel k i ->
    (0 < m <= j)%nat ->
    table !! Z.to_nat (slotFrom i (take m (codeBits (code c) j))) = Some v ->
    v <> emptyValue ->
    Flat.insert_loop emptyValue c j i table = Raise DecompressionError.
Proof.
  induction j as [| j IH]; intros table i k m v Hsz Hk Hd Hl Hm Hv Hne; [lia |].
  simpl Flat.insert_loop. simpl codeBits in Hv.
  set (b := if codeBitAt (code c) (Z.of_nat j) then 1 else 0) in *.
  replace (if codeBitAt (code c) (Z.of_nat j) then i + 1 else i) with (i + bitOf b)
    by (subst b; destruct (codeBitAt _ _); unfold bitOf; simpl; lia).
  assert (Hbit : 0 <= bitOf b <= 1) by apply bitOf_range.
  pose proof (Z.pow_pos_nonneg 2 k ltac:(lia) Hk) as Hpow.
  unfold bind at 1, get.
  assert (Hin : (Z.to_nat (i + bitOf b) < List.length table)%nat).
  { unfold Flat._length in Hsz. rewrite shiftl2 in Hsz by lia.
    unfold atLevel in Hl.
    assert (2 ^ (k + 1) <= 2 ^ depth) by (apply Z.pow_le_mono_r; lia).
    rewrite Z.pow_add_r in * by lia. lia. }
  destruct (lookup_lt_is_Some_2 table _ Hin) as [r Hr].
  rewrite (bind_Ok _ _ _ _ _ (load_Ok table (i + bitOf b) table r
                               ltac:(unfold atLevel in Hl; lia) Hr)).
  destruct (Z.eqb_spec r emptyValue) as [-> | Hr0]; [| reflexivity].
  simpl negb. cbv iota.
  destruct m as [| m]; [lia |]. simpl take in Hv.
  destruct m as [| m].
  { rewrite take_0 in Hv. simpl in Hv. congruence. }
  destruct j as [| j]; [lia |].
  rewrite slotFrom_cons in Hv by (simpl; discriminate).
  change (Nat.eqb (S (S j)) 1) with false. cbv iota.
  unfold bind at 1, ret.
  apply (IH table _ (k + 1) (S m) v); trivial; try lia.
  unfold atLevel in *. rewrite Z.pow_add_r by lia. lia.
Qed.

(** With every slot on the path EMPTY, [insert] stores the value at the
    last one and changes nothing else. *)
Lemma flat_insert_loop_stores (j : nat) :
  forall (table : list Z) (i k : Z),
    Z.of_nat (List.length table) = Flat._length depth ->
    0 <= k -> k + Z.of_nat j <= depth -> atLevel k i -> (0 < j)%nat ->
    (forall m, (0 < m <= j)%nat ->
       table !! Z.to_nat (slotFrom i (take m (codeBits (code c) j)))
       = Some emptyValue) ->
    Flat.insert_loop emptyValue c j i table
    = Ok (tt, <[Z.to_nat (slotFrom i (codeBits (code c) j)) := value c]> table).
Proof.
  induction j as [| j IH]; intros table i k Hsz Hk Hd Hl Hj Hpath; [lia |].
  simpl Flat.insert_loop.
  pose proof (Hpath 1%nat ltac:(lia)) as H1. simpl codeBits in H1 |- *.
  set (b := if codeBitAt (code c) (Z.of_nat j) then 1 else 0) in *.
  replace (if codeBitAt (code c) (Z.of_nat j) then i + 1 else i) with (i + bitOf b)
    by (subst b; destruct (codeBitAt _ _); unfold bitOf; simpl; lia).
  assert (Hbit : 0 <= bitOf b <= 1) by apply bitOf_range.
  pose proof (Z.pow_pos_nonneg 2 k ltac:(lia) Hk) as Hpow.
  simpl take in H1. rewrite take_0 in H1. simpl slotFrom in H1.
  unfold bind at 1, get.
  rewrite (bind_Ok _ _ _ _ _ (load_Ok table (i + bitOf b) table emptyValue
                               ltac:(unfold atLevel in Hl; lia) H1)).
  rewrite Z.eqb_refl. simpl negb. cbv iota.
  destruct j as [| j].
  - simpl. reflexivity.
  - change (Nat.eqb (S (S j)) 1) with false. cbv iota.
    unfold bind at 1, ret.
    rewrite slotFrom_cons by (simpl; discriminate).
    apply (IH table _ (k + 1)); trivial; try lia.
    + unfold atLevel in *. rewrite Z.pow_add_r by lia. lia.
    + intros m Hm. specialize (Hpath (S m) ltac:(lia)).
      simpl take in Hpath. simpl codeBits in Hpath. fold b in Hpath.
      rewrite slotFrom_cons in Hpath; [trivial |].
      destruct m; [lia | simpl; discriminate].
Qed.
End FlatInsert.

Lemma codeBits_length (c : Z) (j : nat) : List.length (codeBits c j) = j.
Proof. induction j as [| j IH]; simpl; congruence. Qed.

(** The flat variant does reject a code that equals a stored code or has
    a stored code as a proper prefix. *)
Theorem flat_insert_rejects_extension (emptyValue depth : Z) (table : list Z)
    (c c' : HuffmanCode) :
  Z.of_nat (List.length table) = Flat._length depth ->
  flatStored emptyValue table c ->
  0 <= length c' ->
  (exists m, (m <= List.length (bitsOf c'))%nat /\ bitsOf c = take m (bitsOf c')) ->
  Flat.insert emptyValue depth c' table = Raise DecompressionError.
Proof.
  intros Hsz (Hne & Hv & Hst) Hlen (m & Hm & Hpre).
  unfold Flat.insert.
  destruct (value c' =? emptyValue); [reflexivity |].
  destruct (Z.ltb_spec depth (length c')); [reflexivity |]. simpl.
  unfold bitsOf in Hpre, Hm, Hst, Hne. rewrite codeBits_length in Hm.
  apply (flat_insert_loop_rejects emptyValue depth c' _ table 0 0 m (value c));
    trivial; try lia.
  - unfold atLevel. simpl. lia.
  - split; [| trivial]. destruct m; [| lia].
    rewrite take_0 in Hpre. contradiction.
  - rewrite <- Hpre. trivial.
Qed.

(** ** Insertion into the dynamic decoder: stored codes are prefix-free *)

Lemma walk_app (table : list Dyn.Node) (l1 l2 : list Z) :
  forall i j,
    walk table i (l1 ++ l2) = Some j ->
    exists j1, walk table i l1 = Some j1 /\ walk table j1 l2 = Some j.
Proof.
  induction l1 as [| b l1 IH]; intros i j H; simpl in *.
  - eauto.
  - destruct (table !! Z.to_nat i) as [n |]; [| discriminate].
    destruct (Dyn.sub n (negb (b =? 0)) =? 0); [discriminate |]. eauto.
Qed.

Lemma extends_refl (table : list Dyn.Node) : extends table table.
Proof. intros j nd H. eauto. Qed.

Lemma extends_trans (t1 t2 t3 : list Dyn.Node) :
  extends t1 t2 -> extends t2 t3 -> extends t1 t3.
Proof.
  intros H12 H23 j nd H.
  destruct (H12 j nd H) as (nd2 & H2 & Hv2 & Hs2).
  destruct (H23 j nd2 H2) as (nd3 & H3 & Hv3 & Hs3).
  exists nd3. split; [trivial |]. split; [congruence |].
  intros b Hb. rewrite Hs3; rewrite Hs2; trivial.
Qed.

Lemma extends_push (table : list Dyn.Node) (nd : Dyn.Node) :
  extends table (table ++ [nd]).
Proof.
  intros j n H. exists n. split; [| auto].
  apply lookup_app_l_Some. trivial.
Qed.

Lemma extends_update (table : list Dyn.Node) (i : nat) (nd : Dyn.Node)
    (b : bool) (v : Z) :
  table !! i = Some nd -> Dyn.sub nd b = 0 ->
  extends table (<[i := Dyn.set_sub nd b v]> table).
Proof.
  intros Hi Hb j n H.
  destruct (Nat.eq_dec i j) as [<- | Hne].
  - rewrite Hi in H. injection H as <-.
    exists (Dyn.set_sub nd b v).
    rewrite list_lookup_insert_eq by (apply lookup_lt_Some in Hi; trivial).
    split; [trivial |]. split; [apply nvalue_set_sub |].
    intros b' Hb'. rewrite sub_set_sub.
    destruct b, b'; simpl; trivial; contradiction.
  - exists n. rewrite list_lookup_insert_ne by trivial. auto.
Qed.

Lemma walk_extends (t t' : list Dyn.Node) (bits : list Z) :
  forall i j, extends t t' -> walk t i bits = Some j -> walk t' i bits = Some j.
Proof.
  induction bits as [| b bits IH]; intros i j He H; simpl in *; [trivial |].
  destruct (t !! Z.to_nat i) as [n |] eqn:Hn; [| discriminate].
  destruct (He _ _ Hn) as (n' & Hn' & _ & Hs).
  rewrite Hn'.
  destruct (Z.eqb_spec (Dyn.sub n (negb (b =? 0))) 0) as [| Hnz]; [discriminate |].
  rewrite (Hs _ Hnz).
  destruct (Z.eqb_spec (Dyn.sub n (negb (b =? 0))) 0); [contradiction |].
  eauto.
Qed.

Section DynInsert.
Variable emptyValue : Z.

Lemma codeBit_of_bits (c : Z) (k : nat) :
  negb ((if codeBitAt c (Z.of_nat k) then 1 else 0) =? 0) = codeBitAt c (Z.of_nat k).
Proof. destruct (codeBitAt c (Z.of_nat k)); reflexivity. Qed.

Lemma insert_loop_codeBit (c : Z) (cb : nat) :
  (if Z.of_nat (S cb) =? 0 then false else codeBitAt c (Z.of_nat (S cb) - 1))
  = codeBitAt c (Z.of_nat cb).
Proof.
  destruct (Z.eqb_spec (Z.of_nat (S cb)) 0); [lia |].
  f_equal. lia.
Qed.

(** One turn of the loop of [insert]. *)
Lemma insert_loop_S (c : HuffmanCode) (cb : nat) (i len : Z) (table : list Dyn.Node) :
  Dyn.insert_loop emptyValue c (S cb) i len table
  = (let codeBit :=
       if Z.of_nat cb =? 0 then false else codeBitAt (code c) (Z.of_nat cb - 1) in
     if i =? len then
       let nz := negb (Z.of_nat cb =? 0) in
       Dyn.insert_loop emptyValue c cb (i + 1) (len + 1)
         (table ++ [Dyn.mkNode (if nz && negb codeBit then len + 1 else 0)
                               (if nz && codeBit then len + 1 else 0)
                               (if nz then emptyValue else value c)])
     else
       match load table i table with
       | Ok (node, _) =>
         if (Z.of_nat cb =? 0) || negb (Dyn.nvalue node =? emptyValue)
         then Raise DecompressionError
         else if Dyn.sub node codeBit =? 0
              then Dyn.insert_loop emptyValue c cb len len
                     (<[Z.to_nat i := Dyn.set_sub node codeBit len]> table)
              else Dyn.insert_loop emptyValue c cb (Dyn.sub node codeBit) len table
       | Raise e => Raise e
       | Undefined => Undefined
       | OutOfFuel => OutOfFuel
       end).
Proof.
  simpl. unfold bind at 1, get. destruct (i =? len); [reflexivity |].
  unfold bind at 1. destruct (load table i table) as [[node t] | | |] eqn:E;
    try reflexivity.
  apply load_inv_Ok in E as (_ & _ & ->).
  destruct (_ || _); [reflexivity |].
  destruct (_ =? 0); reflexivity.
Qed.

(** A walk that follows a stored code, or ends inside one, is refused. *)
Lemma dyn_insert_loop_rejects (c' : HuffmanCode) (cb : nat) :
  forall (table : list Dyn.Node) (i : Z) (m : nat) (j : Z) (nd : Dyn.Node),
    wfTable table -> 0 <= i < Dyn.tsize table -> (m <= cb)%nat ->
    walk table i (take m (codeBits (code c') cb)) = Some j ->
    table !! Z.to_nat j = Some nd ->
    m = cb \/ Dyn.nvalue nd <> emptyValue ->
    Dyn.insert_loop emptyValue c' (S cb) i (Dyn.tsize table) table
    = Raise DecompressionError.
Proof.
  induction cb as [| cb IH]; intros table i m j nd Hwf Hi Hm Hwalk Hnd Hcase;
    rewrite insert_loop_S; cbv zeta;
    (destruct (Z.eqb_spec i (Dyn.tsize table)); [lia |]);
    destruct (lookup_lt_is_Some_2 table (Z.to_nat i)
                ltac:(unfold Dyn.tsize in Hi; lia)) as [node Hnode];
    rewrite (load_Ok table i table node ltac:(lia) Hnode).
  - reflexivity.
  - rewrite insert_loop_codeBit.
    destruct (Z.eqb_spec (Z.of_nat (S cb)) 0); [lia |].
    destruct (Z.eqb_spec (Dyn.nvalue node) emptyValue) as [Hval | Hval];
      [| reflexivity].
    cbn [orb negb].
    destruct m as [| m].
    + simpl in Hwalk. injection Hwalk as <-.
      rewrite Hnode in Hnd. injection Hnd as <-.
      destruct Hcase; [lia | contradiction].
    + simpl codeBits in Hwalk. simpl take in Hwalk. simpl walk in Hwalk.
      rewrite Hnode, codeBit_of_bits in Hwalk.
      destruct (Z.eqb_spec (Dyn.sub node (codeBitAt (code c') (Z.of_nat cb))) 0)
        as [| Hnz]; [discriminate |].
      destruct (Hwf _ _ (codeBitAt (code c') (Z.of_nat cb)) Hnode) as [| Hlt];
        [contradiction |].
      apply (IH table _ m j nd); trivial; try lia.
Qed.

(** [insert] only appends nodes and fills null links. *)
Lemma insert_loop_extends (c : HuffmanCode) (n : nat) :
  forall (table table' : list Dyn.Node) (i len : Z) (u : unit),
    Dyn.insert_loop emptyValue c n i len table = Ok (u, table') ->
    extends table table'.
Proof.
  induction n as [| cb IH]; intros table table' i len u H.
  - simpl in H. injection H as _ <-. apply extends_refl.
  - rewrite insert_loop_S in H. cbv zeta in H.
    destruct (i =? len).
    + apply IH in H.
      eapply extends_trans; [apply extends_push | exact H].
    + destruct (load table i table) as [[node t1] | | |] eqn:Hload;
        try discriminate.
      apply load_inv_Ok in Hload as (_ & Hnode & _).
      destruct (_ || _); [discriminate |].
      destruct (Z.eqb_spec (Dyn.sub node
                  (if Z.of_nat cb =? 0 then false
                   else codeBitAt (code c) (Z.of_nat cb - 1))) 0) as [Hz | Hnz].
      * apply IH in H.
        eapply extends_trans; [apply extends_update; eauto | exact H].
      * eauto.
Qed.

(** After a successful [insert] the path of the code ends in its value. *)
Lemma insert_loop_stores (c : HuffmanCode) (cb : nat) :
  forall (table table' : list Dyn.Node) (i : Z) (u : unit),
    0 <= i ->
    Dyn.insert_loop emptyValue c (S cb) i (Dyn.tsize table) table = Ok (u, table') ->
    exists j nd,
      0 <= j /\ walk table' i (codeBits (code c) cb) = Some j
      /\ table' !! Z.to_nat j = Some nd /\ Dyn.nvalue nd = value c.
Proof.
  induction cb as [| cb IH]; intros table table' i u Hi H;
    rewrite insert_loop_S in H; cbv zeta in H.
  - destruct (Z.eqb_spec i (Dyn.tsize table)) as [-> | Hne].
    + simpl in H. injection H as _ <-.
      exists (Dyn.tsize table), (Dyn.mkNode 0 0 (value c)).
      split; [trivial |]. split; [reflexivity |]. split; [| reflexivity].
      unfold Dyn.tsize. rewrite Nat2Z.id.
      rewrite lookup_app_r by lia. rewrite Nat.sub_diag. reflexivity.
    + destruct (load table i table) as [[node t1] | | |]; discriminate.
  - rewrite insert_loop_codeBit in H.
    simpl codeBits. simpl walk. rewrite codeBit_of_bits.
    set (bit := codeBitAt (code c) (Z.of_nat cb)) in *.
    destruct (Z.eqb_spec (Z.of_nat (S cb)) 0) as [| _]; [lia |].
    destruct (Z.eqb_spec i (Dyn.tsize table)) as [-> | Hne].
    + cbn [negb andb] in H.
      set (node := Dyn.mkNode _ _ _) in H.
      assert (Hsz : Dyn.tsize table + 1 = Dyn.tsize (table ++ [node]))
        by (unfold Dyn.tsize; rewrite length_app; simpl; lia).
      rewrite Hsz in H.
      pose proof (insert_loop_extends _ _ _ _ _ _ _ H) as Hext.
      apply IH in H as (j & nd & Hj & Hw & Hnd & Hv); [| unfold Dyn.tsize; lia].
      destruct (Hext (List.length table) node) as (node' & Hn' & _ & Hs').
      { rewrite lookup_app_r by lia. rewrite Nat.sub_diag. reflexivity. }
      assert (Hlink : Dyn.sub node bit = Dyn.tsize table + 1)
        by (subst node; destruct bit; reflexivity).
      unfold Dyn.tsize at 1. rewrite Nat2Z.id, Hn'.
      rewrite (Hs' bit) by (rewrite Hlink; unfold Dyn.tsize; lia).
      rewrite Hlink.
      destruct (Z.eqb_spec (Dyn.tsize table + 1) 0); [unfold Dyn.tsize in *; lia |].
      rewrite Hsz. eauto 6.
    + destruct (load table i table) as [[node t1] | | |] eqn:Hload;
        try discriminate.
      apply load_inv_Ok in Hload as (_ & Hnode & _).
      destruct (_ || _); [discriminate |].
      destruct (Z.eqb_spec (Dyn.sub node bit) 0) as [Hz | Hnz].
      * set (t2 := <[Z.to_nat i := _]> table) in H.
        assert (Hsz : Dyn.tsize table = Dyn.tsize t2)
          by (unfold Dyn.tsize; subst t2; rewrite length_insert; reflexivity).
        assert (Hpos : 0 < Dyn.tsize table)
          by (apply lookup_lt_Some in Hnode; unfold Dyn.tsize; lia).
        rewrite Hsz in H.
        pose proof (insert_loop_extends _ _ _ _ _ _ _ H) as Hext.
        apply IH in H as (j & nd & Hj & Hw & Hnd & Hv); [| lia].
        destruct (Hext (Z.to_nat i) (Dyn.set_sub node bit (Dyn.tsize table)))
          as (node' & Hn' & _ & Hs').
        { subst t2. apply list_lookup_insert_eq.
          apply lookup_lt_Some in Hnode. trivial. }
        rewrite Hn'.
        rewrite (Hs' bit) by (rewrite sub_set_sub, Bool.eqb_reflx; lia).
        rewrite sub_set_sub, Bool.eqb_reflx.
        destruct (Z.eqb_spec (Dyn.tsize table) 0); [lia |].
        rewrite Hsz. eauto 6.
      * pose proof (insert_loop_extends _ _ _ _ _ _ _ H) as Hext.
        destruct (Z.lt_ge_cases (Dyn.sub node bit) 0) as [Hneg | Hpos].
        { (* a negative link is never followed *)
          exfalso. rewrite insert_loop_S in H. cbv zeta in H.
          destruct (Z.eqb_spec (Dyn.sub node bit) (Dyn.tsize table));
            [unfold Dyn.tsize in *; lia |].
          unfold load in H.
          destruct (Z.ltb_spec (Dyn.sub node bit) 0); [discriminate | lia]. }
        apply IH in H as (j & nd & Hj & Hw & Hnd & Hv); [| lia].
        destruct (Hext _ _ Hnode) as (node' & Hn' & _ & Hs').
        rewrite Hn', (Hs' bit Hnz).
        destruct (Z.eqb_spec (Dyn.sub node bit) 0); [contradiction |].
        eauto 6.
Qed.
End DynInsert.

Section DynStored.
Variable emptyValue : Z.

Lemma toInt32_small (z : Z) : 0 <= z < 2 ^ 31 -> Dyn.toInt32 z = z.
Proof.
  intros H. unfold Dyn.toInt32. rewrite Z.mod_small by lia.
  destruct (Z.ltb_spec z (2 ^ 31)); lia.
Qed.

Lemma insert_unfold (c : HuffmanCode) (table : list Dyn.Node) :
  0 <= length c < 2 ^ 31 -> value c <> emptyValue ->
  Dyn.insert emptyValue c table
  = Dyn.insert_loop emptyValue c (S (Z.to_nat (length c))) 0 (Dyn.tsize table) table.
Proof.
  intros Hl Hv. unfold Dyn.insert.
  destruct (Z.eqb_spec (value c) emptyValue); [contradiction |].
  unfold bind, get. rewrite toInt32_small by trivial.
  replace (Z.to_nat (length c + 1)) with (S (Z.to_nat (length c))) by lia.
  reflexivity.
Qed.

Lemma take_codeBits_all (c : Z) (j : nat) : take j (codeBits c j) = codeBits c j.
Proof. apply firstn_all2. rewrite codeBits_length. lia. Qed.

(** The dynamic variant refuses a code that equals a stored code, has a
    stored code as a proper prefix, or is a proper prefix of one. *)
Theorem dyn_insert_rejects (table : list Dyn.Node) (c c' : HuffmanCode) :
  wfTable table -> dynStored emptyValue table c ->
  0 <= length c' < 2 ^ 31 ->
  prefixRelated c c' ->
  Dyn.insert emptyValue c' table = Raise DecompressionError.
Proof.
  intros Hwf (Hv & j & nd & Hj & Hwalk & Hnd & Hval) Hlen (m & Hrel).
  destruct (Z.eq_dec (value c') emptyValue) as [He | Hne].
  { apply dyn_insert_empty_value. trivial. }
  rewrite insert_unfold by trivial.
  assert (Hroot : 0 <= 0 < Dyn.tsize table).
  { unfold Dyn.tsize. destruct (bitsOf c) as [| b bs] eqn:Eb; simpl in Hwalk.
    - injection Hwalk as <-. apply lookup_lt_Some in Hnd. simpl in Hnd. lia.
    - destruct (table !! Z.to_nat 0) eqn:E0; [| discriminate].
      apply lookup_lt_Some in E0. simpl in E0. lia. }
  destruct Hrel as [Hrel | Hrel].
  - (* c is a prefix of c', or equal to it *)
    destruct (Nat.le_gt_cases m (Z.to_nat (length c'))) as [Hm | Hm].
    + apply (dyn_insert_loop_rejects emptyValue c' _ table 0 m j nd); trivial.
      * unfold bitsOf in Hrel. rewrite <- Hrel. exact Hwalk.
      * right. congruence.
    + assert (Heq : bitsOf c = codeBits (code c') (Z.to_nat (length c'))).
      { rewrite Hrel. apply firstn_all2. unfold bitsOf.
        rewrite codeBits_length. lia. }
      apply (dyn_insert_loop_rejects emptyValue c' _ table 0
               (Z.to_nat (length c')) j nd); trivial.
      * rewrite take_codeBits_all, <- Heq. exact Hwalk.
      * auto.
  - (* c' is a prefix of c *)
    rewrite <- (firstn_skipn m (bitsOf c)) in Hwalk.
    apply walk_app in Hwalk as (j1 & Hw1 & Hw2).
    rewrite <- Hrel in Hw1.
    assert (Hn1 : exists nd1, table !! Z.to_nat j1 = Some nd1).
    { destruct (skipn m (bitsOf c)) as [| b bs]; simpl in Hw2.
      - injection Hw2 as ->. eauto.
      - destruct (table !! Z.to_nat j1); [eauto | discriminate]. }
    destruct Hn1 as (nd1 & Hn1).
    apply (dyn_insert_loop_rejects emptyValue c' _ table 0
             (Z.to_nat (length c')) j1 nd1); trivial.
    + rewrite take_codeBits_all. exact Hw1.
    + auto.
Qed.

(** A stored code stays stored when another one is inserted. *)
Theorem dyn_insert_keeps (table table' : list Dyn.Node) (c c' : HuffmanCode)
    (u : unit) :
  dynStored emptyValue table c ->
  Dyn.insert emptyValue c' table = Ok (u, table') ->
  dynStored emptyValue table' c.
Proof.
  intros (Hv & j & nd & Hj & Hwalk & Hnd & Hval) H.
  assert (Hext : extends table table').
  { unfold Dyn.insert in H. destruct (_ =? _); [discriminate |].
    unfold bind, get in H. eapply insert_loop_extends. exact H. }
  destruct (Hext _ _ Hnd) as (nd' & Hnd' & Hval' & _).
  split; [trivial |]. exists j, nd'.
  split; [trivial |]. split; [eapply walk_extends; eauto |].
  split; [trivial | congruence].
Qed.

(** A successful insert stores its code. *)
Theorem dyn_insert_stores (table table' : list Dyn.Node) (c : HuffmanCode)
    (u : unit) :
  0 <= length c < 2 ^ 31 ->
  Dyn.insert emptyValue c table = Ok (u, table') ->
  dynStored emptyValue table' c.
Proof.
  intros Hlen H.
  assert (Hv : value c <> emptyValue).
  { intros He. rewrite dyn_insert_empty_value in H by trivial. discriminate. }
  rewrite insert_unfold in H by trivial.
  apply insert_loop_stores in H as (j & nd & Hj & Hw & Hnd & Hval); [| lia].
  split; [trivial |]. exists j, nd. auto.
Qed.

(** After any sequence of successful inserts into an empty dynamic
    decoder every inserted code is stored and no two of them are
    prefix-related. *)
Lemma dynInsertAll_inv (cs : list HuffmanCode) :
  forall (table table' : list Dyn.Node) (before : list HuffmanCode) (u : unit),
    wfTable table ->
    (forall c, In c cs -> 0 <= length c < 2 ^ 31) ->
    (forall c, In c before -> dynStored emptyValue table c) ->
    dynInsertAll emptyValue cs table = Ok (u, table') ->
    wfTable table'
    /\ (forall c, In c (before ++ cs) -> dynStored emptyValue table' c)
    /\ (forall c c', In c before -> In c' cs -> ~ prefixRelated c c')
    /\ (forall i k c c', (i < k)%nat -> cs !! i = Some c -> cs !! k = Some c' ->
          ~ prefixRelated c c').
Proof.
  induction cs as [| c0 cs IH]; intros table table' before u Hwf Hlen Hst H.
  - simpl in H. injection H as _ <-. rewrite app_nil_r.
    split; [trivial |]. split; [trivial |].
    split; [intros c c' _ []| intros i k c c' _ Hi; discriminate].
  - simpl in H. apply bind_inv_Ok in H as (u1 & t1 & Hins & H).
    assert (Hl0 : 0 <= length c0 < 2 ^ 31) by (apply Hlen; left; reflexivity).
    assert (Hfresh : forall c, In c before -> ~ prefixRelated c c0).
    { intros c Hc Hrel.
      rewrite (dyn_insert_rejects table c c0) in Hins; auto. discriminate. }
    destruct (IH t1 table' (before ++ [c0]) u) as (Hwf' & Hall & Hcross & Hpair).
    + eapply insert_wf; eauto.
    + intros c Hc. apply Hlen. right. trivial.
    + intros c Hc. apply in_app_or in Hc as [Hc | [<- | []]].
      * eapply dyn_insert_keeps; eauto.
      * eapply dyn_insert_stores; eauto.
    + exact H.
    + split; [trivial |].
      split; [intros c Hc; apply Hall; rewrite <- app_assoc; exact Hc |].
      split.
      * intros c c' Hc [<- | Hc']; [auto |].
        apply Hcross; [apply in_or_app; auto | trivial].
      * intros i k c c' Hik Hi Hk.
        destruct k as [| k]; [lia |]. simpl in Hk.
        pose proof Hk as Hk'.
        apply list_elem_of_lookup_2, list_elem_of_In in Hk'.
        destruct i as [| i]; simpl in Hi.
        -- injection Hi as <-.
           apply Hcross; [apply in_or_app; right; left; reflexivity | trivial].
        -- apply (Hpair i k); [lia | exact Hi | exact Hk].
Qed.

Theorem dyn_inserts_prefix_free (cs : list HuffmanCode) (table : list Dyn.Node)
    (u : unit) :
  (forall c, In c cs -> 0 <= length c < 2 ^ 31) ->
  dynInsertAll emptyValue cs (Dyn.empty emptyValue) = Ok (u, table) ->
  (forall c, In c cs -> dynStored emptyValue table c)
  /\ (forall i k c c', (i < k)%nat -> cs !! i = Some c -> cs !! k = Some c' ->
        ~ prefixRelated c c').
Proof.
  intros Hlen H.
  destruct (dynInsertAll_inv cs (Dyn.empty emptyValue) table [] u)
    as (_ & Hall & _ & Hpair); trivial.
  - apply empty_wf.
  - intros c [].
  - auto.
Qed.
End DynStored.

(** ** The statements at the sample streams *)

Lemma C4_raw_size_checks_witness :
  (rawLen [] < _rawSize (decoderOf sampleLiteral)
   /\ decompressImpl (decoderOf sampleLiteral) [] = Raise DecompressionError)
  /\ (rawLen [0; 7] <> _rawSize (decoderOf sampleLiteral)
      /\ decompressImplXPK (decoderOf sampleLiteral) [0; 7] []
         = Raise DecompressionError)
  /\ (rawLen [0] = _rawSize (decoderOf sampleLiteral)
      /\ decompressImplXPK (decoderOf sampleLiteral) [0] []
         = decompressImpl (decoderOf sampleLiteral) [0]).
Proof.
  assert (H1 : rawLen [] < _rawSize (decoderOf sampleLiteral)) by (vm_compute; reflexivity).
  assert (H2 : rawLen [0; 7] <> _rawSize (decoderOf sampleLiteral))
    by (vm_compute; discriminate).
  assert (H3 : rawLen [0] = _rawSize (decoderOf sampleLiteral)) by (vm_compute; reflexivity).
  split; [split; [exact H1 |] | split; [split; [exact H2 |] | split; [exact H3 |]]].
  - exact (proj2 (proj1 (C4_raw_size_checks (decoderOf sampleLiteral) [] []) H1)).
  - exact (proj1 (proj2 (proj2 (C4_raw_size_checks (decoderOf sampleLiteral) [0; 7] []))) H2).
  - exact (proj1 (proj2 (proj2 (proj2
             (C4_raw_size_checks (decoderOf sampleLiteral) [0] [])))) H3).
Defined.

Lemma C8_table_deserialisation_witness :
  readBits sampleLZH 4 (mkReader 14 0 4) = Ok (0, mkReader 14 0 0)
  /\ readHuffmanTable sampleLZH (Dyn.empty 512) 9 (mkReader 14 0 4)
     = Raise DecompressionError
  /\ readHuffmanTable sampleLZH (Dyn.empty 512) 9 (mkReader 21 41298 16)
     = claimedReadHuffmanTable sampleLZH (Dyn.empty 512) 9 (mkReader 21 41298 16).
Proof.
  assert (H : readBits sampleLZH 4 (mkReader 14 0 4) = Ok (0, mkReader 14 0 0))
    by (vm_compute; reflexivity).
  split; [exact H |]. split.
  - exact (proj2 (C8_table_deserialisation sampleLZH (Dyn.empty 512) 9
                    (mkReader 14 0 4)) (mkReader 14 0 0) H).
  - exact (proj1 (C8_table_deserialisation sampleLZH (Dyn.empty 512) 9
                    (mkReader 21 41298 16))).
Defined.

Lemma C10_shift_word_witness :
  readBE32 (_packedData (decoderOf sampleShift17))
    (_packedSize (decoderOf sampleShift17) + 14 - 6) = Ok 8585216
  /\ readBE16 (_packedData (decoderOf sampleShift17))
       (_packedSize (decoderOf sampleShift17) + 14 - 6 + 4) = Ok 17
  /\ 16 < 17
  /\ -65519 <= seedShift 17 < 0
  /\ shr32 8585216 (seedShift 17) = None
  /\ initReader (decoderOf sampleShift17) = Undefined.
Proof.
  assert (H32 : readBE32 (_packedData (decoderOf sampleShift17))
                  (_packedSize (decoderOf sampleShift17) + 14 - 6) = Ok 8585216)
    by (vm_compute; reflexivity).
  assert (H16 : readBE16 (_packedData (decoderOf sampleShift17))
                  (_packedSize (decoderOf sampleShift17) + 14 - 6 + 4) = Ok 17)
    by (vm_compute; reflexivity).
  assert (Hlt : 16 < 17) by lia.
  split; [exact H32 |]. split; [exact H16 |]. split; [exact Hlt |].
  destruct (proj1 C10_shift_word_not_validated (decoderOf sampleShift17) 8585216 17 H32 H16)
    as (_ & _ & H).
  destruct (H Hlt) as (Ha & Hb & Hc & _).
  split; [exact Ha |]. split; [exact Hb | exact Hc].
Defined.

(** C10 (as stated) fails: the amount of line 108 is formed in int, so
    it never wraps around to 32 or more.  At the accepted stream
    [sampleShift17], whose shift word is 17, it is -1, not the wrapped
    value 4294967295, and the shift by it is undefined; and the shift
    word of no stream gives an amount of 32 or more. *)
Lemma C10_counterexample :
  construct ceiling ceiling sampleShift17 = Ok (decoderOf sampleShift17)
  /\ readBE16 sampleShift17 (_packedSize (decoderOf sampleShift17) + 14 - 6 + 4)
     = Ok 17
  /\ seedShift 17 = -1
  /\ wrap32 (16 - 17) = 4294967295
  /\ ~ 32 <= seedShift 17
  /\ initReader (decoderOf sampleShift17) = Undefined
  /\ (forall (d : CRMDecompressor) (originalShift : Z),
        readBE16 (_packedData d) (_packedSize d + 14 - 6 + 4) = Ok originalShift ->
        ~ 32 <= seedShift originalShift).
Proof.
  split; [vm_compute; reflexivity |].
  split; [vm_compute; reflexivity |].
  split; [reflexivity |].
  split; [reflexivity |].
  split; [unfold seedShift; lia |].
  split; [vm_compute; reflexivity |].
  intros d os H16.
  pose proof (readBE16_value _ _ _ H16) as Hv.
  pose proof (at8_range (_packedData d) (_packedSize d + 14 - 6 + 4)).
  pose proof (at8_range (_packedData d) (_packedSize d + 14 - 6 + 4 + 1)).
  unfold seedShift. lia.
Qed.

(** ** Defined behaviour: no access out of bounds, no shift out of range *)

Lemma post_bind {St A B} (m : M St A) (k : A -> M St B) (R : A -> St -> Prop)
    (Q : B -> St -> Prop) (s : St) :
  post R (m s) ->
  (forall a s1, m s = Ok (a, s1) -> R a s1 -> post Q (k a s1)) ->
  post Q (bind m k s).
Proof.
  intros Hm Hk. unfold bind.
  destruct (m s) as [[a s1] | | |]; trivial. apply Hk; trivial.
Qed.

Lemma post_weaken {St A} (Q Q' : A -> St -> Prop) (o : outcome (A * St)) :
  post Q o -> (forall a s, Q a s -> Q' a s) -> post Q' o.
Proof. destruct o as [[a s] | | |]; simpl; auto. Qed.

Lemma post_load {St A} (Q : A -> St -> Prop) (l : list A) (i : Z) (s : St) :
  0 <= i < Z.of_nat (List.length l) ->
  (forall a, l !! Z.to_nat i = Some a -> Q a s) ->
  post Q (load l i s).
Proof.
  intros Hi HQ. unfold load.
  destruct (Z.ltb_spec i 0); [lia |].
  destruct (lookup_lt_is_Some_2 l (Z.to_nat i) ltac:(lia)) as [x Hx].
  rewrite Hx. simpl. auto.
Qed.

Lemma hoare_bind {St A B} (P : St -> Prop) (m : M St A) (R : A -> St -> Prop)
    (k : A -> M St B) (Q : B -> St -> Prop) :
  hoare P m R -> (forall a, hoare (R a) (k a) Q) -> hoare P (bind m k) Q.
Proof.
  intros Hm Hk s Hs. apply (post_bind m k R); [exact (Hm s Hs) |].
  intros a s1 _ HR. exact (Hk a s1 HR).
Qed.

Section DefinedReader.
Variable bufPtr : list byte.

Lemma readsOk_bind {A B} (m : M Reader A) (Q : A -> Prop) (k : A -> M Reader B)
    (Q' : B -> Prop) :
  readsOk bufPtr m Q -> (forall a, Q a -> readsOk bufPtr (k a) Q') ->
  readsOk bufPtr (bind m k) Q'.
Proof.
  intros Hm Hk. unfold readsOk. eapply hoare_bind; [exact Hm |].
  intros a r [Hr Ha]. exact (Hk a Ha r Hr).
Qed.

Lemma readsOk_ret {A} (a : A) (Q : A -> Prop) : Q a -> readsOk bufPtr (ret a) Q.
Proof. intros H r Hr. simpl. auto. Qed.

Lemma readsOk_throw {A} (Q : A -> Prop) :
  readsOk bufPtr (throw DecompressionError) Q.
Proof. intros r _. reflexivity. Qed.

Lemma readsOk_weaken {A} (m : M Reader A) (Q Q' : A -> Prop) :
  readsOk bufPtr m Q -> (forall a, Q a -> Q' a) -> readsOk bufPtr m Q'.
Proof.
  intros H HQ r Hr. eapply post_weaken; [exact (H r Hr) |].
  intros a r' [Hr' Ha]. auto.
Qed.

Lemma readsOk_load {A} (l : list A) (i : Z) :
  0 <= i < Z.of_nat (List.length l) ->
  readsOk bufPtr (load l i) (fun a => l !! Z.to_nat i = Some a).
Proof. intros Hi r Hr. apply post_load; auto. Qed.

Lemma wrap8_nonneg (z : Z) : 0 <= wrap8 z.
Proof. unfold wrap8. apply Z.mod_pos_bound. lia. Qed.


Lemma refill_defined (fuel : nat) :
  forall count r,
    readerInv bufPtr r -> bufOffset r <= Z.of_nat fuel -> count <= 32 ->
    post (fun _ r' => readerInv bufPtr r') (refill bufPtr fuel count r).
Proof.
  induction fuel as [| fuel IH]; intros count r [Hoff Hlen] Hf Hc; simpl;
    unfold bind at 1, get;
    (destruct (Z.ltb_spec (bufBitsLength r) count);
       [| simpl; split; trivial]);
    (destruct (Z.leb_spec (bufOffset r) 14); [reflexivity |]); [lia |].
  unfold bind at 1, load.
  destruct (Z.ltb_spec (bufOffset r - 1) 0); [lia |].
  destruct (lookup_lt_is_Some_2 bufPtr (Z.to_nat (bufOffset r - 1))
              ltac:(unfold size in Hoff; lia)) as [b Hb].
  rewrite Hb. unfold ret, shl32.
  destruct (Z.leb_spec 0 (bufBitsLength r)); [| lia].
  destruct (Z.ltb_spec (bufBitsLength r) 32); [| lia]. simpl.
  unfold bind, put. apply IH; simpl; try lia.
  split; [simpl; lia | simpl; apply wrap8_nonneg].
Qed.

Lemma readsOk_readBits (count : Z) :
  0 <= count <= 30 ->
  readsOk bufPtr (readBits bufPtr count) (fun v => 0 <= v < 2 ^ count).
Proof.
  intros Hc r Hr. unfold readBits. unfold bind at 1, get.
  eapply post_bind;
    [apply (refill_defined _ count r Hr); [destruct Hr; lia | lia] |].
  intros [] r1 _ [Hoff Hlen]. unfold bind, get, put, ret.
  destruct (Z.ltb_spec count 0); [lia |].
  destruct (Z.leb_spec 31 count); [lia |]. simpl.
  split; [split; [simpl; lia | simpl; apply wrap8_nonneg] |].
  change (Z.shiftl 1 count - 1) with (Z.ones count).
  rewrite Z.land_ones by lia. apply Z.mod_pos_bound.
  apply Z.pow_pos_nonneg; lia.
Qed.
End DefinedReader.

(** *** The flat decoder stays inside its table *)

Section DefinedFlat.
Context {St : Type}.
Variables (emptyValue depth : Z) (rd : M St Z) (table : list Z).
Variable P : St -> Prop.
Hypothesis table_size : Z.of_nat (List.length table) = Flat._length depth.
Hypothesis rd_ok : hoare P rd (fun _ s => P s).

Lemma flat_decode_loop_defined (m : nat) :
  forall (fuel : nat) (k i : Z) (s : St),
    0 <= k -> k + 1 + Z.of_nat m = depth -> atLevel k i -> (m < fuel)%nat ->
    P s ->
    post (fun v s' => P s' /\ v <> emptyValue /\ In v table)
         (Flat.decode_loop emptyValue depth rd table fuel i s).
Proof.
  induction m as [| m IH]; intros fuel k i s Hk Hd Hl Hf Hs;
    (destruct fuel as [| fuel]; [lia |]); simpl;
    assert (Hsz : Z.of_nat (List.length table) = 2 * 2 ^ depth - 2)
      by (rewrite table_size; unfold Flat._length;
          rewrite Z.shiftl_mul_pow2; lia);
    (eapply post_bind; [exact (rd_ok s Hs) |]); intros b s1 _ Hs1;
    assert (Hpow : 2 * 2 ^ k <= 2 ^ depth)
      by (rewrite <- Hd, !Z.pow_add_r, Z.pow_1_r by lia;
          pose proof (Z.pow_pos_nonneg 2 k ltac:(lia) Hk);
          match goal with
          | |- context [2 ^ Z.of_nat ?n] =>
            pose proof (Z.pow_pos_nonneg 2 (Z.of_nat n) ltac:(lia) ltac:(lia))
          end; nia);
    pose proof (Z.pow_pos_nonneg 2 k ltac:(lia) Hk) as Hpk;
    unfold atLevel in Hl;
    (eapply post_bind;
       [apply (post_load (fun a s' => s' = s1 /\ table !! Z.to_nat (if b =? 0 then i else i + 1) = Some a));
          [destruct (b =? 0); lia | auto] |]);
    intros r s2 _ [-> Hr];
    assert (Hin : In r table)
      by (apply list_elem_of_In; eapply list_elem_of_lookup_2; exact Hr);
    (destruct (Z.eqb_spec r emptyValue) as [Er | Er]; simpl;
       [| split; [trivial | split; trivial]]).
  - destruct (Z.ltb_spec ((if b =? 0 then i else i + 1) * 2 + 2) (Flat._length depth))
      as [Hlt | _]; [| reflexivity].
    exfalso. unfold Flat._length in Hlt. rewrite Z.shiftl_mul_pow2 in Hlt by lia.
    replace depth with (k + 1) in Hlt by lia.
    rewrite Z.pow_add_r, Z.pow_1_r in Hlt by lia. destruct (b =? 0); lia.
  - destruct (Z.ltb_spec ((if b =? 0 then i else i + 1) * 2 + 2) (Flat._length depth));
      [| reflexivity].
    apply (IH fuel (k + 1)); trivial; try lia.
    unfold atLevel. rewrite Z.pow_add_r, Z.pow_1_r by lia. destruct (b =? 0); lia.
Qed.

Lemma flat_decode_defined :
  0 < depth ->
  hoare P (Flat.decode emptyValue depth rd table)
        (fun v s' => P s' /\ v <> emptyValue /\ In v table).
Proof.
  intros Hd s Hs. unfold Flat.decode.
  apply (flat_decode_loop_defined (Z.to_nat (depth - 1)) _ 0); trivial; try lia.
  unfold atLevel. simpl. lia.
Qed.
End DefinedFlat.

(** *** The dynamic decoder stays inside its node vector *)

Section DefinedDyn.
Variable emptyValue : Z.
Variable Val : Z -> Prop.

Lemma leafValues_push (table : list Dyn.Node) (node : Dyn.Node) :
  leafValues emptyValue Val table ->
  Dyn.nvalue node = emptyValue \/ Val (Dyn.nvalue node) ->
  leafValues emptyValue Val (table ++ [node]).
Proof.
  intros Ht Hn j node' Hj.
  destruct (lookup_app_Some table [node] j node') as [Hsplit _].
  destruct (Hsplit Hj) as [Hl | [_ Hr]]; [eauto |].
  destruct (j - List.length table)%nat; [| discriminate].
  injection Hr as <-. trivial.
Qed.

Lemma leafValues_update (table : list Dyn.Node) (i : nat) (node : Dyn.Node)
    (b : bool) (v : Z) :
  leafValues emptyValue Val table -> table !! i = Some node ->
  leafValues emptyValue Val (<[i := Dyn.set_sub node b v]> table).
Proof.
  intros Ht Hi j node' Hj.
  destruct (Nat.eq_dec i j) as [<- | Hne].
  - rewrite list_lookup_insert_eq in Hj by (eapply lookup_lt_Some; eauto).
    injection Hj as <-. rewrite nvalue_set_sub. eauto.
  - rewrite list_lookup_insert_ne in Hj by trivial. eauto.
Qed.

Lemma insert_loop_leaf (c : HuffmanCode) (n : nat) :
  forall (table table' : list Dyn.Node) (i len : Z) (u : unit),
    Val (value c) -> leafValues emptyValue Val table ->
    Dyn.insert_loop emptyValue c n i len table = Ok (u, table') ->
    leafValues emptyValue Val table'.
Proof.
  induction n as [| cb IH]; intros table table' i len u Hv Hvals H.
  - simpl in H. injection H as _ <-. trivial.
  - simpl in H. unfold bind at 1, get in H.
    destruct (i =? len).
    + unfold bind at 1, put in H.
      eapply IH in H; [exact H | trivial |].
      apply leafValues_push; [trivial |]. simpl.
      destruct (negb (Z.of_nat cb =? 0)); auto.
    + apply bind_inv_Ok in H as (node & t1 & Hload & H).
      apply load_inv_Ok in Hload as (_ & Hnode & ->).
      destruct ((Z.of_nat cb =? 0) || negb (Dyn.nvalue node =? emptyValue));
        [discriminate |].
      destruct (Dyn.sub node _ =? 0).
      * unfold bind at 1, put in H.
        eapply IH in H; [exact H | trivial |].
        apply leafValues_update; trivial.
      * eapply IH in H; [exact H | trivial | trivial].
Qed.

Lemma insert_leaf (c : HuffmanCode) (table table' : list Dyn.Node) (u : unit) :
  Val (value c) -> leafValues emptyValue Val table ->
  Dyn.insert emptyValue c table = Ok (u, table') ->
  leafValues emptyValue Val table'.
Proof.
  intros Hv Hvals H. unfold Dyn.insert in H.
  destruct (value c =? emptyValue); [discriminate |].
  unfold bind, get in H.
  eapply insert_loop_leaf in H; eauto.
Qed.

Lemma empty_leaf : leafValues emptyValue Val (Dyn.empty emptyValue).
Proof.
  intros j node Hj. destruct j; [| discriminate].
  injection Hj as <-. left. reflexivity.
Qed.

(** [insert] indexes the node vector only at nodes it holds. *)
Lemma insert_loop_defined (c : HuffmanCode) (n : nat) :
  forall (table : list Dyn.Node) (i len : Z),
    len = Dyn.tsize table -> 0 <= i <= len ->
    linksBelow table len
    \/ (i = len /\ (0 < n)%nat /\ linksBelow table (len + 1)) ->
    post (fun _ _ => True) (Dyn.insert_loop emptyValue c n i len table).
Proof.
  induction n as [| cb IH]; intros table i len Hlen Hi Hinv.
  - exact I.
  - simpl. unfold bind at 1, get.
    destruct (Z.eqb_spec i len) as [-> | Hne].
    + unfold bind at 1, put.
      assert (Hweak : linksBelow table (Dyn.tsize table + 1)).
      { destruct Hinv as [Hinv | (_ & _ & Hinv)]; subst len; trivial.
        apply (linksBelow_mono table (Dyn.tsize table)); [lia | trivial]. }
      apply IH.
      * unfold Dyn.tsize. rewrite length_app. simpl. unfold Dyn.tsize in Hlen. lia.
      * lia.
      * destruct cb as [| cb].
        -- left. simpl. apply linksBelow_push.
           ++ subst len. trivial.
           ++ intros b. destruct b; simpl; auto.
        -- right. split; [reflexivity |]. split; [lia |].
           apply linksBelow_push.
           ++ apply (linksBelow_mono table (len + 1)); [lia | subst len; trivial].
           ++ intros b. subst len.
              destruct (negb (Z.of_nat (S cb) =? 0) && _),
                       (negb (Z.of_nat (S cb) =? 0) && _), b; simpl; auto; right; lia.
    + assert (Hinv' : linksBelow table len)
        by (destruct Hinv as [| (? & _)]; [trivial | lia]).
      eapply post_bind;
        [apply (post_load (fun a t => t = table /\ table !! Z.to_nat i = Some a));
           [unfold Dyn.tsize in Hlen; lia | auto] |].
      intros node t1 _ [-> Hnode].
      destruct ((Z.of_nat cb =? 0) || negb (Dyn.nvalue node =? emptyValue)) eqn:E;
        [reflexivity |].
      apply orb_false_elim in E as [Ecb _].
      apply Z.eqb_neq in Ecb.
      set (codeBit := if Z.of_nat cb =? 0 then false
                      else codeBitAt (code c) (Z.of_nat cb - 1)) in *.
      destruct (Z.eqb_spec (Dyn.sub node codeBit) 0) as [Etmp | Etmp].
      * unfold bind at 1, put. apply IH.
        -- unfold Dyn.tsize. rewrite length_insert. exact Hlen.
        -- lia.
        -- right. split; [reflexivity |]. split; [lia |].
           apply linksBelow_update; trivial.
           ++ apply (linksBelow_mono table len); [lia | trivial].
           ++ apply lookup_lt_Some in Hnode. unfold Dyn.tsize in Hlen. lia.
      * destruct (Hinv' _ _ codeBit Hnode) as [| Hlt]; [contradiction |].
        apply IH; [trivial | lia | auto].
Qed.

Lemma insert_defined (c : HuffmanCode) (table : list Dyn.Node) :
  wfTable table -> post (fun _ _ => True) (Dyn.insert emptyValue c table).
Proof.
  intros Hwf. unfold Dyn.insert.
  destruct (value c =? emptyValue); [reflexivity |].
  unfold bind, get.
  apply insert_loop_defined; [reflexivity | unfold Dyn.tsize; lia | left; exact Hwf].
Qed.

Section DefinedDynDecode.
Context {St : Type}.
Variables (rd : M St Z) (table : list Dyn.Node) (P : St -> Prop).
Hypothesis rd_ok : hoare P rd (fun _ s => P s).
Hypothesis table_wf : wfTable table.
Hypothesis table_leaves : leafValues emptyValue Val table.

Lemma finish_defined (r : Z) (s : St) :
  r = emptyValue \/ Val r -> P s ->
  post (fun v s' => P s' /\ v <> emptyValue /\ Val v) (Dyn.finish emptyValue r s).
Proof.
  intros Hr Hs. unfold Dyn.finish.
  destruct (Z.eqb_spec r emptyValue) as [E | E]; [reflexivity |].
  simpl. destruct Hr; [contradiction | auto].
Qed.

Lemma dyn_decode_loop_defined (fuel : nat) :
  forall i r0 s,
    0 <= i -> Dyn.tsize table - i <= Z.of_nat fuel ->
    r0 = emptyValue \/ Val r0 -> P s ->
    post (fun v s' => P s' /\ v <> emptyValue /\ Val v)
         (Dyn.decode_loop emptyValue rd table fuel i r0 s).
Proof.
  induction fuel as [| fuel IH]; intros i r0 s Hi Hf Hr Hs; simpl.
  - destruct (Z.ltb_spec i (Dyn.tsize table)); [lia |].
    apply finish_defined; trivial.
  - destruct (Z.ltb_spec i (Dyn.tsize table)); [| apply finish_defined; trivial].
    destruct (r0 =? emptyValue); [| apply finish_defined; trivial]. simpl.
    eapply post_bind; [exact (rd_ok s Hs) |]. intros b s1 _ Hs1.
    eapply post_bind;
      [apply (post_load (fun a s' => s' = s1 /\ table !! Z.to_nat i = Some a));
         [unfold Dyn.tsize in *; lia | auto] |].
    intros n s2 _ [-> Hn].
    pose proof (table_wf _ _ (negb (b =? 0)) Hn) as Hsub.
    eapply post_bind;
      [apply (post_load (fun a s' => s' = s1
                 /\ table !! Z.to_nat (Dyn.sub n (negb (b =? 0))) = Some a));
         [unfold Dyn.tsize in *; lia | auto] |].
    intros n' s3 _ [-> Hn'].
    pose proof (table_leaves _ _ Hn') as Hv.
    destruct (Z.eqb_spec (Dyn.sub n (negb (b =? 0))) 0);
      [apply finish_defined; trivial |].
    apply IH; trivial; lia.
Qed.

Lemma dyn_decode_defined :
  hoare P (Dyn.decode emptyValue rd table)
        (fun v s' => P s' /\ v <> emptyValue /\ Val v).
Proof.
  intros s Hs. unfold Dyn.decode.
  apply dyn_decode_loop_defined; trivial; [lia | unfold Dyn.tsize; lia | auto].
Qed.
End DefinedDynDecode.
End DefinedDyn.

(** *** Table deserialisation and the LZH distance *)

Section DefinedTables.
Variable bufPtr : list byte.

Lemma empty_readTable (codeLength : Z) : readTable codeLength (Dyn.empty 512).
Proof. split; [apply empty_wf | apply empty_leaf]. Qed.

Lemma readsOk_insertInto (codeLength : Z) (dec : list Dyn.Node) (c : HuffmanCode) :
  readTable codeLength dec -> 0 <= value c < 2 ^ codeLength ->
  readsOk bufPtr (insertInto dec c) (readTable codeLength).
Proof.
  intros [Hwf Hleaf] Hv r Hr. unfold insertInto.
  pose proof (insert_defined 512 c dec Hwf) as Hd.
  destruct (Dyn.insert 512 c dec) as [[u t] | | |] eqn:E; simpl in *; trivial.
  split; [trivial |]. split.
  - eapply insert_wf; eauto.
  - eapply insert_leaf; [| exact Hleaf | exact E]. exact Hv.
Qed.

Lemma readsOk_readLengthTable (codeLength : Z) (n : nat) :
  forall i,
    0 <= i -> 0 <= codeLength <= 30 ->
    readsOk bufPtr (readLengthTable bufPtr codeLength n i)
            (fun l => List.length l = n).
Proof.
  induction n as [| n IH]; intros i Hi Hcl; simpl.
  - apply readsOk_ret. reflexivity.
  - eapply readsOk_bind; [apply readsOk_readBits; lia |]. intros v _.
    eapply readsOk_bind; [apply IH; lia |]. intros rest Hrest.
    apply readsOk_ret. simpl. congruence.
Qed.

Lemma readsOk_readCodes (codeLength maxDepth depth : Z) (n : nat) :
  forall code dec,
    0 <= codeLength <= 30 -> readTable codeLength dec ->
    readsOk bufPtr (readCodes bufPtr codeLength maxDepth depth n code dec)
            (fun p => readTable codeLength (snd p)).
Proof.
  induction n as [| n IH]; intros code dec Hcl Hdec; simpl.
  - apply readsOk_ret. exact Hdec.
  - eapply readsOk_bind; [apply readsOk_readBits; lia |]. intros v Hv.
    eapply readsOk_bind; [apply (readsOk_insertInto codeLength); trivial |].
    intros dec' Hdec'. apply IH; trivial.
Qed.

Lemma readsOk_readDepths (codeLength maxDepth : Z) (lengthTable : list Z) (n : nat) :
  forall depth code dec,
    0 <= codeLength <= 30 -> Z.of_nat (List.length lengthTable) = maxDepth ->
    1 <= depth -> depth + Z.of_nat n = maxDepth + 1 ->
    readTable codeLength dec ->
    readsOk bufPtr
      (readDepths bufPtr codeLength maxDepth lengthTable n depth code dec)
      (readTable codeLength).
Proof.
  induction n as [| n IH]; intros depth code dec Hcl Hlen Hd Hn Hdec; simpl.
  - apply readsOk_ret. exact Hdec.
  - eapply readsOk_bind; [apply readsOk_load; lia |]. intros cnt _.
    eapply readsOk_bind; [apply readsOk_readCodes; trivial |].
    intros p Hp. apply IH; trivial; lia.
Qed.

Lemma readsOk_readHuffmanTable (codeLength : Z) :
  0 <= codeLength <= 30 ->
  readsOk bufPtr (readHuffmanTable bufPtr (Dyn.empty 512) codeLength)
          (readTable codeLength).
Proof.
  intros Hcl. unfold readHuffmanTable.
  eapply readsOk_bind; [apply readsOk_readBits; lia |]. intros maxDepth Hmd.
  destruct (maxDepth =? 0); [apply readsOk_throw |].
  eapply readsOk_bind; [apply readsOk_readLengthTable; lia |].
  intros lt Hlt. simpl in Hmd, Hlt.
  apply readsOk_readDepths; [trivial | lia | lia | lia | apply empty_readTable].
Qed.

End DefinedTables.

(** *** The token loops stay inside the raw buffer *)





Lemma wrap32_range (z : Z) : 0 <= wrap32 z < 4294967296.
Proof. unfold wrap32. apply Z.mod_pos_bound. reflexivity. Qed.

Section DefinedOutput.
Variables (bufPtr : list byte) (rawSize : Z).
Hypothesis rawSize_32 : rawSize < 4294967296.









(** **** Standard mode *)





(** **** LZH mode *)





End DefinedOutput.



(** ** The bit reader delivers the packed bytes as one stream of bits *)

Lemma lowBits_length (n : nat) : forall z, List.length (lowBits n z) = n.
Proof. induction n as [| n IH]; intros z; simpl; [| rewrite IH]; reflexivity. Qed.

Lemma lowBits_app (a b : nat) :
  forall x y,
    0 <= x < 2 ^ Z.of_nat a ->
    lowBits (a + b) (x + y * 2 ^ Z.of_nat a) = lowBits a x ++ lowBits b y.
Proof.
  induction a as [| a IH]; intros x y Hx.
  - simpl in *. replace x with 0 by lia. rewrite Z.mul_1_r. reflexivity.
  - rewrite Nat2Z.inj_succ, Z.pow_succ_r in * by lia.
    cbn [Nat.add lowBits app].
    assert (Hland : forall z, Z.land z 1 = z mod 2).
    { intros z. change 1 with (Z.ones 1). rewrite Z.land_ones by lia. reflexivity. }
    assert (Hshr : forall z, Z.shiftr z 1 = z / 2).
    { intros z. rewrite Z.shiftr_div_pow2 by lia. reflexivity. }
    rewrite !Hland, !Hshr.
    replace (x + y * (2 * 2 ^ Z.of_nat a))
      with (x + (y * 2 ^ Z.of_nat a) * 2) by lia.
    rewrite Z.mod_add, Z.div_add by lia.
    f_equal. apply IH.
    split; [apply Z.div_pos; lia |].
    apply Z.div_lt_upper_bound; lia.
Qed.

Lemma lowBits_take (m : nat) :
  forall n z, (n <= m)%nat -> take n (lowBits m z) = lowBits n z.
Proof.
  induction m as [| m IH]; intros n z Hn.
  - destruct n; [reflexivity | lia].
  - destruct n as [| n]; [reflexivity |]. simpl. f_equal. apply IH. lia.
Qed.

Lemma shiftr_shiftr_1 (z : Z) (n : nat) :
  Z.shiftr (Z.shiftr z 1) (Z.of_nat n) = Z.shiftr z (Z.of_nat (S n)).
Proof. rewrite Z.shiftr_shiftr by lia. f_equal. lia. Qed.

Lemma lowBits_drop (m : nat) :
  forall n z, (n <= m)%nat ->
    drop n (lowBits m z) = lowBits (m - n) (Z.shiftr z (Z.of_nat n)).
Proof.
  induction m as [| m IH]; intros n z Hn.
  - destruct n; [reflexivity | lia].
  - destruct n as [| n].
    + rewrite Z.shiftr_0_r. reflexivity.
    + cbn [lowBits drop Nat.sub]. rewrite IH by lia.
      rewrite shiftr_shiftr_1. reflexivity.
Qed.

Lemma fromBits_lowBits (n : nat) :
  forall z, fromBits (lowBits n z) = z mod 2 ^ Z.of_nat n.
Proof.
  induction n as [| n IH]; intros z.
  - simpl. rewrite Z.mod_1_r. reflexivity.
  - cbn [lowBits fromBits]. rewrite IH.
    rewrite Nat2Z.inj_succ, Z.pow_succ_r by lia.
    change 1 with (Z.ones 1) at 1. rewrite Z.land_ones by lia.
    rewrite Z.shiftr_div_pow2 by lia. change (2 ^ 1) with 2.
    rewrite Z.rem_mul_r by lia. lia.
Qed.

Section ReaderStream.
Variable bufPtr : list byte.

Lemma at8_lookup (i : Z) (b : byte) :
  bufPtr !! Z.to_nat i = Some b -> at8 bufPtr i = byteZ b.
Proof. intros H. unfold at8. rewrite H. reflexivity. Qed.

Lemma bytesBelow_pull (off : Z) :
  14 < off ->
  bytesBelow bufPtr (Z.to_nat (off - 14)) off
  = lowBits 8 (at8 bufPtr (off - 1))
    ++ bytesBelow bufPtr (Z.to_nat (off - 1 - 14)) (off - 1).
Proof.
  intros H. replace (Z.to_nat (off - 14)) with (S (Z.to_nat (off - 1 - 14))) by lia.
  reflexivity.
Qed.

Lemma shiftr1_bound (z n : Z) :
  0 < n -> 0 <= z < 2 ^ n -> 0 <= Z.shiftr z 1 < 2 ^ (n - 1).
Proof.
  intros Hn Hz. rewrite Z.shiftr_div_pow2 by lia. change (2 ^ 1) with 2.
  replace n with (Z.succ (n - 1)) in Hz by lia.
  rewrite Z.pow_succ_r in Hz by lia.
  split; [apply Z.div_pos; lia | apply Z.div_lt_upper_bound; lia].
Qed.

Lemma wrap8_small (z : Z) : 0 <= z < 256 -> wrap8 z = z.
Proof. intros H. unfold wrap8. apply Z.mod_small. exact H. Qed.

(** X1: [readBit] delivers the next bit of the stream and leaves the
    rest; it raises DecompressionError exactly when the stream is
    exhausted. *)
Theorem readBit_stream (r : Reader) :
  cleanReader bufPtr r ->
  match pending bufPtr r with
  | [] => readBit bufPtr r = Raise DecompressionError
  | b :: bs =>
    exists r',
      readBit bufPtr r = Ok (b, r')
      /\ cleanReader bufPtr r' /\ pending bufPtr r' = bs
  end.
Proof.
  intros (Hoff & Hlen & Hc). unfold pending, readBit, bind, get.
  destruct (Z.eqb_spec (bufBitsLength r) 0) as [E | E].
  - rewrite E. cbn [Z.to_nat lowBits app].
    destruct (Z.leb_spec (bufOffset r) 14) as [Hlow | Hhigh].
    + replace (Z.to_nat (bufOffset r - 14)) with 0%nat by lia. reflexivity.
    + rewrite bytesBelow_pull by lia.
      destruct (lookup_lt_is_Some_2 bufPtr (Z.to_nat (bufOffset r - 1))
                  ltac:(unfold size in Hoff; lia)) as [b Hb].
      rewrite (load_Ok bufPtr (bufOffset r - 1) r b ltac:(lia) Hb).
      rewrite (at8_lookup _ _ Hb). pose proof (byteZ_range b) as Hbr.
      cbn [lowBits app put ret bufOffset bufBitsContent bufBitsLength].
      eexists. split; [reflexivity |]. split.
      * split; [cbn; lia |]. split; [cbn; rewrite wrap8_small; lia |].
        cbn [bufBitsContent bufBitsLength]. rewrite wrap8_small by lia.
        apply (shiftr1_bound (byteZ b) 8); [lia | exact Hbr].
      * cbn [bufOffset bufBitsContent bufBitsLength].
        rewrite wrap8_small by lia. reflexivity.
  - cbn [put ret bufOffset bufBitsContent bufBitsLength].
    replace (Z.to_nat (bufBitsLength r)) with (S (Z.to_nat (bufBitsLength r - 1)))
      by lia.
    cbn [lowBits app].
    eexists. split; [reflexivity |].
    cbn [bufOffset bufBitsContent bufBitsLength].
    rewrite wrap8_small by lia. split; [| reflexivity].
    unfold cleanReader. cbn [bufOffset bufBitsContent bufBitsLength].
    split; [lia |]. split; [lia |]. apply shiftr1_bound; [lia | exact Hc].
Qed.

Lemma bytesBelow_length (k : nat) :
  forall off, List.length (bytesBelow bufPtr k off) = (8 * k)%nat.
Proof.
  induction k as [| k IH]; intros off; [reflexivity |].
  cbn [bytesBelow]. rewrite length_app, lowBits_length, IH. lia.
Qed.

Lemma pending_length (r : Reader) :
  0 <= bufBitsLength r ->
  Z.of_nat (List.length (pending bufPtr r))
  = bufBitsLength r + 8 * Z.max 0 (bufOffset r - 14).
Proof.
  intros H. unfold pending.
  rewrite length_app, lowBits_length, bytesBelow_length. lia.
Qed.

Lemma refill_enough (fuel : nat) (count : Z) (r : Reader) :
  count <= bufBitsLength r -> refill bufPtr fuel count r = Ok (tt, r).
Proof.
  intros H. destruct fuel; cbn [refill]; unfold bind, get;
    (destruct (Z.ltb_spec (bufBitsLength r) count); [lia | reflexivity]).
Qed.

Lemma refill_exhausted (fuel : nat) (count : Z) (r : Reader) :
  bufBitsLength r < count -> bufOffset r <= 14 ->
  refill bufPtr fuel count r = Raise DecompressionError.
Proof.
  intros H1 H2. destruct fuel; cbn [refill]; unfold bind, get;
    (destruct (Z.ltb_spec (bufBitsLength r) count); [| lia]);
    (destruct (Z.leb_spec (bufOffset r) 14); [reflexivity | lia]).
Qed.

(** One turn of the while loop of [readBits]: a byte is pulled above the
    bits held, and the stream is the same. *)
Lemma refill_pull (fuel : nat) (count : Z) (r : Reader) :
  cleanReader bufPtr r -> count <= 25 ->
  bufBitsLength r < count -> 14 < bufOffset r ->
  exists r2,
    refill bufPtr (S fuel) count r = refill bufPtr fuel count r2
    /\ cleanReader bufPtr r2 /\ pending bufPtr r2 = pending bufPtr r
    /\ bufOffset r2 = bufOffset r - 1.
Proof.
  intros (Hoff & Hlen & Hc) Hcount Hlt Hhigh.
  cbn [refill]. unfold bind at 1, get.
  destruct (Z.ltb_spec (bufBitsLength r) count); [| lia].
  destruct (Z.leb_spec (bufOffset r) 14); [lia |].
  destruct (lookup_lt_is_Some_2 bufPtr (Z.to_nat (bufOffset r - 1))
              ltac:(unfold size in Hoff; lia)) as [b Hb].
  rewrite (bind_Ok _ _ _ _ _ (load_Ok bufPtr (bufOffset r - 1) r b ltac:(lia) Hb)).
  pose proof (byteZ_range b) as Hbr.
  assert (Hp : 0 < 2 ^ bufBitsLength r) by (apply Z.pow_pos_nonneg; lia).
  assert (Hp24 : 2 ^ bufBitsLength r <= 2 ^ 24) by (apply Z.pow_le_mono_r; lia).
  change (2 ^ 24) with 16777216 in Hp24.
  unfold shl32.
  destruct (Z.leb_spec 0 (bufBitsLength r)); [| lia].
  destruct (Z.ltb_spec (bufBitsLength r) 32); [| lia].
  cbn [andb]. unfold bind at 1, put.
  assert (Hw : wrap32 (Z.shiftl (byteZ b) (bufBitsLength r))
               = Z.shiftl (byteZ b) (bufBitsLength r)).
  { rewrite Z.shiftl_mul_pow2 by lia. unfold wrap32.
    change (2 ^ 32) with 4294967296. apply Z.mod_small. nia. }
  rewrite Hw, Z.lor_comm.
  rewrite (lor_shiftl_small (byteZ b) (bufBitsContent r) (bufBitsLength r))
    by lia.
  rewrite wrap8_small by lia.
  eexists. split; [reflexivity |]. split; [| split; [| reflexivity]].
  - unfold cleanReader. cbn [bufOffset bufBitsContent bufBitsLength].
    split; [lia |]. split; [lia |].
    rewrite Z.pow_add_r by lia. change (2 ^ 8) with 256. nia.
  - unfold pending. cbn [bufOffset bufBitsContent bufBitsLength].
    rewrite (bytesBelow_pull (bufOffset r)) by lia.
    rewrite (at8_lookup _ _ Hb), app_assoc. f_equal.
    replace (Z.to_nat (bufBitsLength r + 8))
      with (Z.to_nat (bufBitsLength r) + 8)%nat by lia.
    rewrite Z.add_comm.
    replace (2 ^ bufBitsLength r) with (2 ^ Z.of_nat (Z.to_nat (bufBitsLength r)))
      by (rewrite Z2Nat.id by lia; reflexivity).
    apply lowBits_app. rewrite Z2Nat.id by lia. exact Hc.
Qed.

(** The while loop of [readBits] pulls whole bytes until [count] bits are
    held, without changing the stream. *)
Lemma refill_stream (fuel : nat) :
  forall count r,
    cleanReader bufPtr r -> 0 <= count <= 25 -> bufOffset r <= Z.of_nat fuel ->
    if count <=? Z.of_nat (List.length (pending bufPtr r)) then
      exists r1,
        refill bufPtr fuel count r = Ok (tt, r1)
        /\ cleanReader bufPtr r1 /\ pending bufPtr r1 = pending bufPtr r
        /\ count <= bufBitsLength r1
    else refill bufPtr fuel count r = Raise DecompressionError.
Proof.
  induction fuel as [| fuel IH]; intros count r Hclean Hcount Hfuel;
    pose proof Hclean as (Hoff & Hlen & Hc);
    pose proof (pending_length r ltac:(lia)) as Hpl;
    (destruct (Z.lt_ge_cases (bufBitsLength r) count) as [Hlt | Hge];
       [| rewrite refill_enough by lia;
          destruct (Z.leb_spec count (Z.of_nat (List.length (pending bufPtr r))));
          [exists r; auto | lia]]);
    (destruct (Z.le_gt_cases (bufOffset r) 14) as [Hlow | Hhigh];
       [rewrite refill_exhausted by lia;
        destruct (Z.leb_spec count (Z.of_nat (List.length (pending bufPtr r))));
          [lia | reflexivity] |]); [lia |].
  destruct (refill_pull fuel count r Hclean ltac:(lia) Hlt ltac:(lia))
    as (r2 & -> & Hclean2 & Hpend & Hoff2).
  specialize (IH count r2 Hclean2 Hcount ltac:(lia)).
  rewrite Hpend in IH. exact IH.
Qed.

(** X2: [readBits(count)], for [count] up to 25, delivers the next
    [count] bits of the stream as a number, the first bit the least
    significant, and leaves the rest; it raises DecompressionError exactly
    when fewer than [count] bits are left. *)
Theorem readBits_stream (count : Z) (r : Reader) :
  cleanReader bufPtr r -> 0 <= count <= 25 ->
  if count <=? Z.of_nat (List.length (pending bufPtr r)) then
    exists r',
      readBits bufPtr count r
      = Ok (fromBits (take (Z.to_nat count) (pending bufPtr r)), r')
      /\ cleanReader bufPtr r'
      /\ pending bufPtr r' = drop (Z.to_nat count) (pending bufPtr r)
  else readBits bufPtr count r = Raise DecompressionError.
Proof.
  intros Hclean Hcount.
  pose proof (refill_stream (Z.to_nat (bufOffset r)) count r Hclean Hcount
                ltac:(destruct Hclean; lia)) as Hre.
  destruct (count <=? Z.of_nat (List.length (pending bufPtr r)));
    unfold readBits; unfold bind at 1, get;
    [| unfold bind at 1; rewrite Hre; reflexivity].
  destruct Hre as (r1 & Hrun & (Hoff1 & Hlen1 & Hc1) & Hp1 & Hl1).
  rewrite (bind_Ok _ _ _ _ _ Hrun). unfold bind, get, put, ret.
  destruct (Z.ltb_spec count 0); [lia |].
  destruct (Z.leb_spec 31 count); [lia |]. cbn [orb].
  rewrite wrap8_small by lia.
  eexists. split; [| split].
  - f_equal. f_equal. rewrite <- Hp1. unfold pending.
    rewrite take_app_le by (rewrite lowBits_length; lia).
    rewrite lowBits_take by lia. rewrite fromBits_lowBits.
    rewrite Z2Nat.id by lia.
    change (Z.shiftl 1 count - 1) with (Z.ones count).
    apply Z.land_ones. lia.
  - unfold cleanReader. cbn [bufOffset bufBitsContent bufBitsLength].
    split; [lia |]. split; [lia |].
    rewrite Z.shiftr_div_pow2 by lia.
    assert (Hpc : 0 < 2 ^ count) by (apply Z.pow_pos_nonneg; lia).
    split; [apply Z.div_pos; lia |].
    apply Z.div_lt_upper_bound; [lia |].
    rewrite <- Z.pow_add_r by lia.
    replace (count + (bufBitsLength r1 - count)) with (bufBitsLength r1) by lia.
    lia.
  - rewrite <- Hp1. unfold pending.
    cbn [bufOffset bufBitsContent bufBitsLength].
    rewrite drop_app_le by (rewrite lowBits_length; lia).
    rewrite lowBits_drop by lia. rewrite Z2Nat.id by lia.
    f_equal. f_equal. lia.
Qed.
End ReaderStream.

Lemma readBit_stream_witness :
  cleanReader sampleLiteral (mkReader 16 0 0)
  /\ exists r',
       readBit sampleLiteral (mkReader 16 0 0) = Ok (1, r')
       /\ cleanReader sampleLiteral r'
       /\ pending sampleLiteral r'
          = [1; 0; 0; 0; 0; 0; 1; 0; 0; 0; 0; 0; 0; 0; 0].
Proof.
  assert (H : cleanReader sampleLiteral (mkReader 16 0 0))
    by (unfold cleanReader; vm_compute; intuition discriminate).
  split; [exact H |].
  exact (readBit_stream sampleLiteral (mkReader 16 0 0) H).
Defined.

Lemma readBits_stream_witness :
  cleanReader sampleLiteral (mkReader 16 0 0)
  /\ 0 <= 10 <= 25
  /\ (exists r',
        readBits sampleLiteral 10 (mkReader 16 0 0) = Ok (131, r')
        /\ cleanReader sampleLiteral r'
        /\ pending sampleLiteral r' = [0; 0; 0; 0; 0; 0])
  /\ readBits sampleLiteral 17 (mkReader 16 0 0) = Raise DecompressionError.
Proof.
  assert (H : cleanReader sampleLiteral (mkReader 16 0 0))
    by (unfold cleanReader; vm_compute; intuition discriminate).
  assert (H10 : 0 <= 10 <= 25) by lia.
  assert (H17 : 0 <= 17 <= 25) by lia.
  split; [exact H |]. split; [exact H10 |]. split.
  - exact (readBits_stream sampleLiteral 10 (mkReader 16 0 0) H H10).
  - exact (readBits_stream sampleLiteral 17 (mkReader 16 0 0) H H17).
Defined.

(** ** The flat decoder: what [insert] stores, [decode] finds *)

Lemma slotFrom_level (bits : list Z) :
  forall i k,
    0 <= k -> atLevel k i -> bits <> [] ->
    slotLevel (k + Z.of_nat (List.length bits) - 1) (slotFrom i bits).
Proof.
  induction bits as [| b bs IH]; intros i k Hk Hl Hne; [congruence |].
  pose proof (bitOf_range b) as Hb.
  pose proof (Z.pow_pos_nonneg 2 k ltac:(lia) Hk) as Hp.
  destruct bs as [| b' bs].
  - cbn [slotFrom List.length]. replace (k + Z.of_nat 1 - 1) with k by lia.
    unfold atLevel in Hl. unfold slotLevel. lia.
  - rewrite slotFrom_cons by discriminate.
    replace (k + Z.of_nat (List.length (b :: b' :: bs)) - 1)
      with ((k + 1) + Z.of_nat (List.length (b' :: bs)) - 1)
      by (cbn [List.length]; lia).
    apply IH; [lia | | discriminate].
    unfold atLevel in *. rewrite Z.pow_add_r, Z.pow_1_r by lia. lia.
Qed.

Lemma slotLevel_inj (k k' x : Z) :
  0 <= k -> 0 <= k' -> slotLevel k x -> slotLevel k' x -> k = k'.
Proof.
  intros Hk Hk' H H'. unfold slotLevel in *.
  destruct (Z.lt_trichotomy k k') as [Hlt | [-> | Hgt]]; [| reflexivity |]; exfalso.
  - assert (2 ^ (k + 1) <= 2 ^ k') by (apply Z.pow_le_mono_r; lia).
    rewrite Z.pow_add_r, Z.pow_1_r in * by lia. lia.
  - assert (2 ^ (k' + 1) <= 2 ^ k) by (apply Z.pow_le_mono_r; lia).
    rewrite Z.pow_add_r, Z.pow_1_r in * by lia. lia.
Qed.

Lemma slotLevel_in_table (depth k x : Z) (table : list Z) :
  Z.of_nat (List.length table) = Flat._length depth ->
  0 <= k < depth -> slotLevel k x ->
  0 <= x /\ (Z.to_nat x < List.length table)%nat.
Proof.
  intros Hsz Hk Hx. unfold Flat._length in Hsz. rewrite shiftl2 in Hsz by lia.
  unfold slotLevel in Hx.
  pose proof (Z.pow_pos_nonneg 2 k ltac:(lia) ltac:(lia)) as Hp.
  assert (2 ^ (k + 1) <= 2 ^ depth) by (apply Z.pow_le_mono_r; lia).
  rewrite Z.pow_add_r, Z.pow_1_r in * by lia. lia.
Qed.

(** The slot at the end of the first [m] bits of a code lies at level
    [m - 1]. *)
Lemma codeSlot_level (c : Z) (j m : nat) :
  (0 < m <= j)%nat ->
  slotLevel (Z.of_nat m - 1) (slotFrom 0 (take m (codeBits c j))).
Proof.
  intros Hm.
  assert (Hat0 : atLevel 0 0) by (unfold atLevel; simpl; lia).
  pose proof (slotFrom_level (take m (codeBits c j)) 0 0 ltac:(lia) Hat0) as H.
  rewrite length_take, codeBits_length in H.
  replace (0 + Z.of_nat (m `min` j) - 1) with (Z.of_nat m - 1) in H by lia.
  apply H. intros E. apply (f_equal (@List.length Z)) in E.
  rewrite length_take, codeBits_length in E. simpl in E. lia.
Qed.

(** What a successful flat [insert] has found and done. *)
Lemma flat_insert_effect (emptyValue depth : Z) (table table' : list Z)
    (c : HuffmanCode) (u : unit) :
  0 < depth ->
  Z.of_nat (List.length table) = Flat._length depth ->
  0 < length c ->
  Flat.insert emptyValue depth c table = Ok (u, table') ->
  value c <> emptyValue /\ length c <= depth
  /\ table' = <[Z.to_nat (slotFrom 0 (bitsOf c)) := value c]> table
  /\ (forall m, (0 < m <= List.length (bitsOf c))%nat ->
        table !! Z.to_nat (slotFrom 0 (take m (bitsOf c))) = Some emptyValue).
Proof.
  intros Hd Hsz Hlen Hins. unfold Flat.insert in Hins.
  destruct (Z.eqb_spec (value c) emptyValue) as [| Hval]; [discriminate |].
  destruct (Z.ltb_spec depth (length c)) as [| Hfit]; [discriminate |].
  cbn [orb] in Hins. split; [exact Hval |]. split; [exact Hfit |].
  unfold bitsOf.
  set (j := Z.to_nat (length c)) in *.
  assert (Hj : (0 < j)%nat) by lia.
  assert (Hjd : Z.of_nat j <= depth) by lia.
  clearbody j.
  assert (Hat0 : atLevel 0 0) by (unfold atLevel; simpl; lia).
  assert (Hpath : forall m, (0 < m <= j)%nat ->
            table !! Z.to_nat (slotFrom 0 (take m (codeBits (code c) j)))
            = Some emptyValue).
  { intros m Hm.
    destruct (slotLevel_in_table depth (Z.of_nat m - 1) _ table Hsz
                ltac:(lia) (codeSlot_level (code c) j m Hm)) as [_ Hin].
    destruct (lookup_lt_is_Some_2 table _ Hin) as [v Hv].
    destruct (Z.eq_dec v emptyValue) as [-> | Hne]; [exact Hv |].
    rewrite (flat_insert_loop_rejects emptyValue depth c j table 0 0 m v)
      in Hins; trivial; try lia. discriminate. }
  rewrite (flat_insert_loop_stores emptyValue depth c j table 0 0) in Hins;
    trivial; try lia.
  destruct u. injection Hins as <-.
  split; [reflexivity |].
  intros m Hm. rewrite codeBits_length in Hm. apply Hpath. exact Hm.
Qed.

(** The slots of two different paths differ. *)
Lemma codeSlot_differ (depth : Z) (table : list Z) (c : Z) (j m m' : nat) :
  Z.of_nat (List.length table) = Flat._length depth ->
  Z.of_nat j <= depth ->
  (0 < m <= j)%nat -> (0 < m' <= j)%nat -> m <> m' ->
  Z.to_nat (slotFrom 0 (take m (codeBits c j)))
  <> Z.to_nat (slotFrom 0 (take m' (codeBits c j))).
Proof.
  intros Hsz Hjd Hm Hm' Hne E.
  pose proof (codeSlot_level c j m Hm) as L.
  pose proof (codeSlot_level c j m' Hm') as L'.
  destruct (slotLevel_in_table depth (Z.of_nat m - 1) _ table Hsz
              ltac:(lia) L) as [H0 _].
  destruct (slotLevel_in_table depth (Z.of_nat m' - 1) _ table Hsz
              ltac:(lia) L') as [H0' _].
  apply Z2Nat.inj in E; [| exact H0 | exact H0'].
  rewrite E in L.
  pose proof (slotLevel_inj (Z.of_nat m - 1) (Z.of_nat m' - 1) _
                ltac:(lia) ltac:(lia) L L'). lia.
Qed.

(** X4: A successful flat [insert] of a code of at least one bit changes
    exactly one slot, the one at the end of the code's path, which was
    EMPTY like every slot on that path; afterwards [decode] returns the
    code's value on the code's bits. *)
Theorem flat_insert_then_decode {St : Type} (emptyValue depth : Z)
    (rd : M St Z) (table table' : list Z) (c : HuffmanCode) (u : unit) :
  0 < depth <= 29 ->
  Z.of_nat (List.length table) = Flat._length depth ->
  0 < length c ->
  Flat.insert emptyValue depth c table = Ok (u, table') ->
  table' = <[Z.to_nat (slotFrom 0 (bitsOf c)) := value c]> table
  /\ (forall m, (0 < m <= List.length (bitsOf c))%nat ->
        table !! Z.to_nat (slotFrom 0 (take m (bitsOf c))) = Some emptyValue)
  /\ (forall s s', reads rd s (bitsOf c) s' ->
        Flat.decode emptyValue depth rd table' s = Ok (value c, s')).
Proof.
  intros Hd Hsz Hlen Hins.
  destruct (flat_insert_effect emptyValue depth table table' c u ltac:(lia)
              Hsz Hlen Hins) as (Hval & Hfit & Heq & Hpath).
  split; [exact Heq |]. split; [exact Hpath |].
  intros s s' Hrd. unfold Flat.decode. subst table'.
  unfold bitsOf in *. set (j := Z.to_nat (length c)) in *.
  assert (Hj : (0 < j)%nat) by lia.
  assert (Hjd : Z.of_nat j <= depth) by lia.
  clearbody j. rewrite codeBits_length in Hpath.
  assert (Hat0 : atLevel 0 0) by (unfold atLevel; simpl; lia).
  pose proof (codeSlot_level (code c) j j ltac:(lia)) as Hlast.
  rewrite take_codeBits_all in Hlast.
  destruct (slotLevel_in_table depth (Z.of_nat j - 1) _ table Hsz
              ltac:(lia) Hlast) as [Hlo Hin].
  apply (decode_loop_complete emptyValue depth rd _ (codeBits (code c) j) _ 0);
    trivial; try lia.
  - rewrite codeBits_length. lia.
  - intros E. apply (f_equal (@List.length Z)) in E.
    rewrite codeBits_length in E. simpl in E. lia.
  - rewrite codeBits_length. lia.
  - apply list_lookup_insert_eq. exact Hin.
  - intros m Hm. rewrite codeBits_length in Hm.
    rewrite list_lookup_insert_ne; [apply Hpath; lia |].
    rewrite <- (take_codeBits_all (code c) j) at 1.
    apply (codeSlot_differ depth table); trivial; lia.
Qed.

Lemma flat_insert_then_decode_witness :
  (0 < 3 <= 29
   /\ Z.of_nat (List.length (Flat.empty 255 3)) = Flat._length 3
   /\ 0 < length (mkCode 2 2 1)
   /\ Flat.insert 255 3 (mkCode 2 2 1) (Flat.empty 255 3)
      = Ok (tt, [255; 255; 255; 255; 1; 255; 255; 255; 255; 255; 255; 255; 255; 255]))
  /\ Flat.decode 255 3 popBit
       [255; 255; 255; 255; 1; 255; 255; 255; 255; 255; 255; 255; 255; 255]
       [1; 0; 1]
     = Ok (1, [1]).
Proof.
  assert (H1 : 0 < 3 <= 29) by lia.
  assert (H2 : Z.of_nat (List.length (Flat.empty 255 3)) = Flat._length 3)
    by (vm_compute; reflexivity).
  assert (H3 : 0 < length (mkCode 2 2 1)) by (simpl; lia).
  assert (H4 : Flat.insert 255 3 (mkCode 2 2 1) (Flat.empty 255 3)
               = Ok (tt, [255; 255; 255; 255; 1; 255; 255; 255; 255; 255; 255;
                          255; 255; 255]))
    by (vm_compute; reflexivity).
  split; [auto |].
  apply (proj2 (proj2 (flat_insert_then_decode 255 3 popBit _ _ _ tt
                         H1 H2 H3 H4)) [1; 0; 1] [1]).
  simpl. eauto.
Defined.

Lemma flat_decode_loop_raises {St : Type} (emptyValue depth : Z) (rd : M St Z)
    (table : list Z) (bits : list Z) :
  forall (fuel : nat) (k i : Z) (s s' : St),
    0 <= k -> k + Z.of_nat (List.length bits) = depth -> atLevel k i ->
    bits <> [] -> (List.length bits <= fuel)%nat -> reads rd s bits s' ->
    (forall m, (0 < m <= List.length bits)%nat ->
       table !! Z.to_nat (slotFrom i (take m bits)) = Some emptyValue) ->
    Flat.decode_loop emptyValue depth rd table fuel i s
    = Raise DecompressionError.
Proof.
  induction bits as [| b bs IH]; intros fuel k i s s' Hk Hd Hl Hne Hf Hrd Hpath;
    [congruence |].
  destruct fuel as [| fuel]; [simpl in Hf; lia |].
  destruct Hrd as (s1 & Hb & Hrd).
  pose proof (bitOf_range b) as Hbit.
  pose proof (Z.pow_pos_nonneg 2 k ltac:(lia) Hk) as Hp.
  assert (Hi0 : 0 <= i + bitOf b) by (unfold atLevel in Hl; lia).
  simpl Flat.decode_loop. rewrite (bind_Ok _ _ _ _ _ Hb).
  replace (if b =? 0 then i else i + 1) with (i + bitOf b)
    by (unfold bitOf; destruct (b =? 0); lia).
  pose proof (Hpath 1%nat ltac:(simpl; lia)) as H1.
  simpl take in H1. rewrite take_0 in H1. simpl slotFrom in H1.
  rewrite (bind_Ok _ _ _ _ _ (load_Ok _ _ _ _ Hi0 H1)).
  rewrite Z.eqb_refl. cbn [andb].
  destruct bs as [| b2 bs].
  - simpl in Hd.
    destruct (Z.ltb_spec ((i + bitOf b) * 2 + 2) (Flat._length depth)) as [Hlt |];
      [| reflexivity].
    exfalso. unfold Flat._length in Hlt. rewrite shiftl2 in Hlt by lia.
    unfold atLevel in Hl. replace depth with (k + 1) in Hlt by lia.
    rewrite Z.pow_add_r, Z.pow_1_r in Hlt by lia. lia.
  - destruct (Z.ltb_spec ((i + bitOf b) * 2 + 2) (Flat._length depth));
      [| reflexivity].
    apply (IH fuel (k + 1) _ s1 s'); trivial.
    + lia.
    + simpl in *. lia.
    + unfold atLevel in *. rewrite Z.pow_add_r, Z.pow_1_r by lia. lia.
    + discriminate.
    + simpl in *. lia.
    + intros m Hm. specialize (Hpath (S m) ltac:(simpl in *; lia)).
      simpl take in Hpath. rewrite slotFrom_cons in Hpath; [exact Hpath |].
      destruct m; [lia | simpl; discriminate].
Qed.

(** X5: The flat [decode] raises DecompressionError when the [depth]
    bits it reads lead only over slots that hold EMPTY, whatever the
    reader would deliver after them; in particular it does so on a
    decoder that was just constructed or reset, whatever the bits are. *)
Theorem flat_decode_raises {St : Type} (emptyValue depth : Z) (rd : M St Z)
    (bits : list Z) (s s' : St) :
  0 < depth <= 29 ->
  Z.of_nat (List.length bits) = depth ->
  reads rd s bits s' ->
  (forall table,
     Z.of_nat (List.length table) = Flat._length depth ->
     (forall m, (0 < m <= List.length bits)%nat ->
        table !! Z.to_nat (slotFrom 0 (take m bits)) = Some emptyValue) ->
     Flat.decode emptyValue depth rd table s = Raise DecompressionError)
  /\ Flat.decode emptyValue depth rd (Flat.empty emptyValue depth) s
     = Raise DecompressionError.
Proof.
  intros Hd Hlen Hrd.
  assert (Hgen : forall table,
            (forall m, (0 < m <= List.length bits)%nat ->
               table !! Z.to_nat (slotFrom 0 (take m bits)) = Some emptyValue) ->
            Flat.decode emptyValue depth rd table s = Raise DecompressionError).
  { intros table Hpath. unfold Flat.decode.
    apply (flat_decode_loop_raises emptyValue depth rd table bits _ 0 0 s s');
      trivial; try lia.
    - unfold atLevel. simpl. lia.
    - intros E. subst bits. simpl in Hlen. lia. }
  split; [intros table _; apply Hgen |]. apply Hgen. intros m Hm.
  assert (Hat0 : atLevel 0 0) by (unfold atLevel; simpl; lia).
  pose proof (slotFrom_level (take m bits) 0 0 ltac:(lia) Hat0) as Hlev.
  rewrite length_take in Hlev.
  assert (Hne : take m bits <> []).
  { intros E. apply (f_equal (@List.length Z)) in E.
    rewrite length_take in E. simpl in E. lia. }
  specialize (Hlev Hne).
  assert (Hsz : Z.of_nat (List.length (Flat.empty emptyValue depth))
                = Flat._length depth).
  { unfold Flat.empty. rewrite length_replicate.
    unfold Flat._length. rewrite shiftl2 by lia.
    pose proof (Z.pow_pos_nonneg 2 depth ltac:(lia) ltac:(lia)). lia. }
  destruct (slotLevel_in_table depth (0 + Z.of_nat (m `min` List.length bits) - 1)
              _ _ Hsz ltac:(lia) Hlev) as [_ Hin].
  unfold Flat.empty in *. rewrite length_replicate in Hin.
  apply lookup_replicate_2. exact Hin.
Qed.

Lemma flat_decode_raises_witness :
  (0 < 2 <= 29 /\ Z.of_nat (List.length [1; 0]) = 2
   /\ reads popBit [1; 0; 1] [1; 0] [1])
  /\ Flat.decode 255 2 popBit (Flat.empty 255 2) [1; 0; 1]
     = Raise DecompressionError.
Proof.
  assert (H1 : 0 < 2 <= 29) by lia.
  assert (H2 : Z.of_nat (List.length [1; 0]) = 2) by reflexivity.
  assert (H3 : reads popBit [1; 0; 1] [1; 0] [1]) by (simpl; eauto).
  split; [auto |].
  exact (proj2 (flat_decode_raises 255 2 popBit [1; 0] [1; 0; 1] [1] H1 H2 H3)).
Defined.

(** X6: A code of length 0 is accepted by the flat [insert], which then
    stores nothing and leaves the table as it was, whereas the dynamic
    [insert] raises DecompressionError on it. *)
Theorem insert_length_zero (emptyValue depth : Z) (c : HuffmanCode)
    (table : list Z) (nodes : list Dyn.Node) :
  0 < depth <= 29 -> value c <> emptyValue -> length c = 0 -> nodes <> [] ->
  Flat.insert emptyValue depth c table = Ok (tt, table)
  /\ Dyn.insert emptyValue c nodes = Raise DecompressionError.
Proof.
  intros Hd Hv Hlen Hne. split.
  - unfold Flat.insert.
    destruct (Z.eqb_spec (value c) emptyValue); [contradiction |].
    destruct (Z.ltb_spec depth (length c)); [lia |].
    rewrite Hlen. reflexivity.
  - unfold Dyn.insert.
    destruct (Z.eqb_spec (value c) emptyValue); [contradiction |].
    unfold bind at 1, get. rewrite Hlen.
    change (Z.to_nat (Dyn.toInt32 0 + 1)) with 1%nat.
    destruct nodes as [| nd nodes]; [contradiction |].
    cbn [Dyn.insert_loop]. unfold bind at 1, get.
    destruct (Z.eqb_spec 0 (Dyn.tsize (nd :: nodes))) as [E |].
    { unfold Dyn.tsize in E. simpl in E. lia. }
    reflexivity.
Qed.

Lemma insert_length_zero_witness :
  (0 < 2 <= 29 /\ value (mkCode 0 0 7) <> 255 /\ length (mkCode 0 0 7) = 0
   /\ Dyn.empty 255 <> [])
  /\ Flat.insert 255 2 (mkCode 0 0 7) (Flat.empty 255 2)
     = Ok (tt, Flat.empty 255 2)
  /\ Dyn.insert 255 (mkCode 0 0 7) (Dyn.empty 255) = Raise DecompressionError.
Proof.
  assert (H1 : 0 < 2 <= 29) by lia.
  assert (H2 : value (mkCode 0 0 7) <> 255) by (simpl; lia).
  assert (H3 : length (mkCode 0 0 7) = 0) by reflexivity.
  assert (H4 : Dyn.empty 255 <> []) by discriminate.
  split; [auto |].
  exact (insert_length_zero 255 2 (mkCode 0 0 7) (Flat.empty 255 2)
           (Dyn.empty 255) H1 H2 H3 H4).
Defined.

(** ** The dynamic decoder: [decode] follows the links of the bits *)

Section DynDecodePath.
Context {St : Type}.
Variables (emptyValue : Z) (rd : M St Z) (table : list Dyn.Node).
Hypothesis table_wf : wfTable table.

Lemma codePath_bound (bits : list Z) :
  forall i v,
    codePath emptyValue table i bits v ->
    0 <= i /\ i + Z.of_nat (List.length bits) < Dyn.tsize table.
Proof.
  induction bits as [| b bs IH]; intros i v H; cbn [codePath] in H.
  - destruct H as (Hi & n & Hn & _). apply lookup_lt_Some in Hn.
    unfold Dyn.tsize. simpl. lia.
  - destruct H as (Hi & n & Hn & _ & Hnz & Hrest).
    apply IH in Hrest as [_ Hb].
    destruct (table_wf _ _ (negb (b =? 0)) Hn) as [| Hlt]; [contradiction |].
    cbn [List.length]. lia.
Qed.

Lemma dyn_decode_loop_complete (bits : list Z) :
  forall (fuel : nat) (i : Z) (s s' : St) (v : Z),
    bits <> [] -> (List.length bits <= fuel)%nat ->
    reads rd s bits s' -> codePath emptyValue table i bits v ->
    v <> emptyValue ->
    Dyn.decode_loop emptyValue rd table fuel i emptyValue s = Ok (v, s').
Proof.
  induction bits as [| b bs IH]; intros fuel i s s' v Hne Hf Hrd Hpath Hv;
    [congruence |].
  destruct fuel as [| fuel]; [simpl in Hf; lia |].
  destruct Hrd as (s1 & Hb & Hrd).
  cbn [codePath] in Hpath. destruct Hpath as (Hi & n & Hn & Hnv & Hnz & Hrest).
  pose proof (lookup_lt_Some _ _ _ Hn) as Hlt.
  cbn [Dyn.decode_loop].
  destruct (Z.ltb_spec i (Dyn.tsize table)); [| unfold Dyn.tsize in *; lia].
  rewrite Z.eqb_refl. cbn [andb].
  rewrite (bind_Ok _ _ _ _ _ Hb).
  rewrite (bind_Ok _ _ _ _ _ (load_Ok table i s1 n Hi Hn)).
  set (t := Dyn.sub n (negb (b =? 0))) in *.
  assert (Ht : 0 <= t /\ exists n', table !! Z.to_nat t = Some n').
  { destruct bs; cbn [codePath] in Hrest; destruct Hrest as (H0 & n' & Hn' & _);
      eauto. }
  destruct Ht as (Ht0 & n' & Hn').
  rewrite (bind_Ok _ _ _ _ _ (load_Ok table t s1 n' Ht0 Hn')).
  destruct (Z.eqb_spec t 0); [contradiction |].
  destruct bs as [| b2 bs].
  - cbn [codePath] in Hrest. destruct Hrest as (_ & n2 & Hn2 & Hv2).
    rewrite Hn' in Hn2. injection Hn2 as <-. simpl in Hrd. subst s1.
    rewrite Hv2.
    assert (Hfin : forall f, Dyn.decode_loop emptyValue rd table f t v s'
                             = Ok (v, s')).
    { intros f. destruct f; cbn [Dyn.decode_loop];
        (destruct (Z.eqb_spec v emptyValue); [contradiction |]);
        rewrite andb_false_r; unfold Dyn.finish;
        (destruct (Z.eqb_spec v emptyValue); [contradiction | reflexivity]). }
    apply Hfin.
  - assert (Hv' : Dyn.nvalue n' = emptyValue).
    { cbn [codePath] in Hrest. destruct Hrest as (_ & n2 & Hn2 & Hv2 & _).
      rewrite Hn' in Hn2. injection Hn2 as <-. exact Hv2. }
    rewrite Hv'.
    apply (IH fuel t s1 s' v); trivial; [discriminate | simpl in *; lia].
Qed.

Hypothesis table_root : rootEmpty emptyValue table.

Lemma dyn_decode_loop_sound (fuel : nat) :
  forall (i : Z) (s s' : St) (v : Z) (n : Dyn.Node),
    0 <= i -> table !! Z.to_nat i = Some n -> Dyn.nvalue n = emptyValue ->
    Dyn.decode_loop emptyValue rd table fuel i emptyValue s = Ok (v, s') ->
    exists bits,
      bits <> [] /\ reads rd s bits s'
      /\ codePath emptyValue table i bits v /\ v <> emptyValue.
Proof.
  induction fuel as [| fuel IH]; intros i s s' v n Hi Hn Hnv H;
    pose proof (lookup_lt_Some _ _ _ Hn) as Hlt;
    cbn [Dyn.decode_loop] in H;
    (destruct (Z.ltb_spec i (Dyn.tsize table)); [| unfold Dyn.tsize in *; lia]);
    rewrite Z.eqb_refl in H; cbn [andb] in H; [discriminate |].
  apply bind_inv_Ok in H as (b & s1 & Hb & H).
  apply bind_inv_Ok in H as (n0 & s2 & Hl & H).
  apply load_inv_Ok in Hl as (_ & Hn0 & ->).
  rewrite Hn in Hn0. injection Hn0 as <-.
  apply bind_inv_Ok in H as (n' & s3 & Hl & H).
  apply load_inv_Ok in Hl as (Ht0 & Hn' & ->).
  set (t := Dyn.sub n (negb (b =? 0))) in *.
  destruct (Z.eqb_spec t 0) as [E | Hnz].
  - (* a null link: the root is read, and it holds EMPTY *)
    exfalso. destruct table_root as (r0 & Hr0 & Hrv).
    rewrite E in Hn'. change (Z.to_nat 0) with 0%nat in Hn'.
    rewrite Hr0 in Hn'. injection Hn' as <-.
    unfold Dyn.finish in H. rewrite Hrv, Z.eqb_refl in H. discriminate.
  - destruct (Z.eq_dec (Dyn.nvalue n') emptyValue) as [Ev | Ev].
    + rewrite Ev in H.
      apply (IH t s1 s' v n') in H as (bits & Hne & Hrd & Hpath & Hv); trivial.
      exists (b :: bits). split; [discriminate |].
      split; [simpl; eauto |]. split; [| exact Hv].
      cbn [codePath]. split; [exact Hi |]. exists n. auto.
    + assert (Hfin : Dyn.finish emptyValue (Dyn.nvalue n') s1 = Ok (v, s')).
      { destruct fuel; cbn [Dyn.decode_loop] in H;
          (destruct (Z.eqb_spec (Dyn.nvalue n') emptyValue); [contradiction |]);
          rewrite andb_false_r in H; exact H. }
      unfold Dyn.finish in Hfin.
      destruct (Z.eqb_spec (Dyn.nvalue n') emptyValue); [contradiction |].
      injection Hfin as <- <-.
      exists [b]. split; [discriminate |]. split; [simpl; eauto |].
      split; [| exact Ev].
      cbn [codePath]. split; [exact Hi |]. exists n.
      split; [exact Hn |]. split; [exact Hnv |]. split; [exact Hnz |].
      split; [exact Ht0 |]. exists n'. auto.
Qed.

(** X10: On a table whose links point forward and whose root holds EMPTY,
    the dynamic [decode] returns [v] exactly when the bits it reads lead
    from the root, link by link through nodes holding EMPTY, to a node
    holding the non-EMPTY value [v]. *)
Theorem dyn_decode_walk (s s' : St) (v : Z) :
  Dyn.decode emptyValue rd table s = Ok (v, s') <->
  exists bits,
    bits <> [] /\ reads rd s bits s'
    /\ codePath emptyValue table 0 bits v /\ v <> emptyValue.
Proof.
  unfold Dyn.decode. split.
  - intros H. destruct table_root as (r0 & Hr0 & Hrv).
    apply (dyn_decode_loop_sound (List.length table) 0 s s' v r0); trivial. lia.
  - intros (bits & Hne & Hrd & Hpath & Hv).
    apply (dyn_decode_loop_complete bits); trivial.
    apply codePath_bound in Hpath. unfold Dyn.tsize in Hpath. lia.
Qed.
End DynDecodePath.

Lemma dyn_decode_walk_witness :
  wfTable sampleTable /\ rootEmpty 512 sampleTable
  /\ (Dyn.decode 512 popBit sampleTable [1; 0; 1] = Ok (66, [1]) <->
      exists bits,
        bits <> [] /\ reads popBit [1; 0; 1] bits [1]
        /\ codePath 512 sampleTable 0 bits 66 /\ 66 <> 512).
Proof.
  assert (Hwf : wfTable sampleTable).
  { intros j node b Hj.
    do 4 (destruct j as [| j];
          [injection Hj as <-; destruct b; vm_compute; intuition discriminate |]).
    discriminate. }
  assert (Hroot : rootEmpty 512 sampleTable) by (eexists; split; reflexivity).
  split; [exact Hwf |]. split; [exact Hroot |].
  exact (dyn_decode_walk 512 popBit sampleTable Hwf Hroot [1; 0; 1] [1] 66).
Defined.

(** ** The dynamic decoder: inserted codes and decoded values *)

Lemma codePath_extends (emptyValue : Z) (t t' : list Dyn.Node) (bits : list Z) :
  forall i v,
    extends t t' -> codePath emptyValue t i bits v ->
    codePath emptyValue t' i bits v.
Proof.
  induction bits as [| b bs IH]; intros i v He H; cbn [codePath] in *.
  - destruct H as (Hi & n & Hn & Hv).
    destruct (He _ _ Hn) as (n' & Hn' & Hv' & _).
    split; [exact Hi |]. exists n'. split; [exact Hn' | congruence].
  - destruct H as (Hi & n & Hn & Hv & Hnz & Hrest).
    destruct (He _ _ Hn) as (n' & Hn' & Hv' & Hs).
    split; [exact Hi |]. exists n'. rewrite (Hs _ Hnz).
    split; [exact Hn' |]. split; [congruence |]. split; [exact Hnz |].
    apply IH; trivial.
Qed.

Lemma codePath_walk (emptyValue : Z) (t : list Dyn.Node) (bits : list Z) :
  forall i v,
    codePath emptyValue t i bits v ->
    exists j nd,
      0 <= j /\ walk t i bits = Some j /\ t !! Z.to_nat j = Some nd
      /\ Dyn.nvalue nd = v.
Proof.
  induction bits as [| b bs IH]; intros i v H; cbn [codePath] in H.
  - destruct H as (Hi & n & Hn & Hv). exists i, n. simpl. auto.
  - destruct H as (Hi & n & Hn & Hv & Hnz & Hrest).
    apply IH in Hrest as (j & nd & Hj & Hw & Hnd & Hvn).
    exists j, nd. cbn [walk]. rewrite Hn.
    destruct (Z.eqb_spec (Dyn.sub n (negb (b =? 0))) 0); [contradiction |].
    auto.
Qed.

Section DynInsertPath.
Variable emptyValue : Z.

(** After a successful [insert] the path of the code leads through
    nodes holding EMPTY to a node holding its value. *)
Lemma insert_loop_codePath (c : HuffmanCode) (cb : nat) :
  forall (table table' : list Dyn.Node) (i : Z) (u : unit),
    0 <= i ->
    Dyn.insert_loop emptyValue c (S cb) i (Dyn.tsize table) table = Ok (u, table') ->
    codePath emptyValue table' i (codeBits (code c) cb) (value c).
Proof.
  induction cb as [| cb IH]; intros table table' i u Hi H;
    rewrite insert_loop_S in H; cbv zeta in H.
  - destruct (Z.eqb_spec i (Dyn.tsize table)) as [-> | Hne].
    + simpl in H. injection H as _ <-.
      cbn [codeBits codePath]. split; [exact Hi |].
      exists (Dyn.mkNode 0 0 (value c)). split; [| reflexivity].
      unfold Dyn.tsize. rewrite Nat2Z.id.
      rewrite lookup_app_r by lia. rewrite Nat.sub_diag. reflexivity.
    + destruct (load table i table) as [[node t1] | | |]; discriminate.
  - rewrite insert_loop_codeBit in H.
    cbn [codeBits codePath]. rewrite codeBit_of_bits.
    set (bit := codeBitAt (code c) (Z.of_nat cb)) in *.
    destruct (Z.eqb_spec (Z.of_nat (S cb)) 0) as [| _]; [lia |].
    split; [exact Hi |].
    destruct (Z.eqb_spec i (Dyn.tsize table)) as [-> | Hne].
    + cbn [negb andb] in H.
      set (node := Dyn.mkNode _ _ _) in H.
      assert (Hsz : Dyn.tsize table + 1 = Dyn.tsize (table ++ [node]))
        by (unfold Dyn.tsize; rewrite length_app; simpl; lia).
      rewrite Hsz in H.
      pose proof (insert_loop_extends _ _ _ _ _ _ _ _ H) as Hext.
      apply IH in H; [| unfold Dyn.tsize; lia].
      destruct (Hext (List.length table) node) as (node' & Hn' & Hv' & Hs').
      { rewrite lookup_app_r by lia. rewrite Nat.sub_diag. reflexivity. }
      assert (Hlink : Dyn.sub node bit = Dyn.tsize table + 1)
        by (subst node; destruct bit; reflexivity).
      exists node'. unfold Dyn.tsize at 1. rewrite Nat2Z.id.
      split; [exact Hn' |]. split; [rewrite Hv'; reflexivity |].
      rewrite (Hs' bit) by (rewrite Hlink; unfold Dyn.tsize; lia).
      rewrite Hlink. split; [unfold Dyn.tsize; lia |].
      rewrite Hsz. exact H.
    + destruct (load table i table) as [[node t1] | | |] eqn:Hload;
        try discriminate.
      apply load_inv_Ok in Hload as (_ & Hnode & _).
      destruct (Z.eqb_spec (Dyn.nvalue node) emptyValue) as [Hval | Hval];
        [| discriminate].
      cbn [negb orb] in H.
      destruct (Z.eqb_spec (Dyn.sub node bit) 0) as [Hz | Hnz].
      * set (t2 := <[Z.to_nat i := _]> table) in H.
        assert (Hsz : Dyn.tsize table = Dyn.tsize t2)
          by (unfold Dyn.tsize; subst t2; rewrite length_insert; reflexivity).
        assert (Hpos : 0 < Dyn.tsize table)
          by (apply lookup_lt_Some in Hnode; unfold Dyn.tsize; lia).
        rewrite Hsz in H.
        pose proof (insert_loop_extends _ _ _ _ _ _ _ _ H) as Hext.
        apply IH in H; [| lia].
        destruct (Hext (Z.to_nat i) (Dyn.set_sub node bit (Dyn.tsize table)))
          as (node' & Hn' & Hv' & Hs').
        { subst t2. apply list_lookup_insert_eq.
          apply lookup_lt_Some in Hnode. trivial. }
        exists node'. split; [exact Hn' |].
        split; [rewrite Hv', nvalue_set_sub; exact Hval |].
        rewrite (Hs' bit) by (rewrite sub_set_sub, Bool.eqb_reflx; lia).
        rewrite sub_set_sub, Bool.eqb_reflx.
        split; [lia |]. rewrite Hsz. exact H.
      * pose proof (insert_loop_extends _ _ _ _ _ _ _ _ H) as Hext.
        destruct (Z.lt_ge_cases (Dyn.sub node bit) 0) as [Hneg | Hpos].
        { exfalso. rewrite insert_loop_S in H. cbv zeta in H.
          destruct (Z.eqb_spec (Dyn.sub node bit) (Dyn.tsize table));
            [unfold Dyn.tsize in *; lia |].
          unfold load in H.
          destruct (Z.ltb_spec (Dyn.sub node bit) 0); [discriminate | lia]. }
        apply IH in H; [| lia].
        destruct (Hext _ _ Hnode) as (node' & Hn' & Hv' & Hs').
        exists node'. split; [exact Hn' |]. split; [congruence |].
        rewrite (Hs' bit Hnz). split; [exact Hnz | exact H].
Qed.
End DynInsertPath.

Lemma linkInj_push (table : list Dyn.Node) (node : Dyn.Node) (bound : Z) :
  linkInj table -> linksBelow table bound ->
  (forall b, Dyn.sub node b = 0 \/ bound <= Dyn.sub node b) ->
  Dyn.sub node false = 0 \/ Dyn.sub node true = 0 ->
  linkInj (table ++ [node]).
Proof.
  intros Hinj Hbelow Hnode Hone j j' n n' b b' Hj Hj' Hnz Heq.
  apply lookup_app_Some in Hj as [Hj | [Hlj Hj]];
    apply lookup_app_Some in Hj' as [Hj' | [Hlj' Hj']].
  - eapply Hinj; eauto.
  - exfalso. destruct (j' - List.length table)%nat; [| discriminate].
    injection Hj' as <-.
    destruct (Hbelow _ _ b Hj) as [| Hlt]; [contradiction |].
    destruct (Hnode b'); lia.
  - exfalso. destruct (j - List.length table)%nat; [| discriminate].
    injection Hj as <-.
    destruct (Hbelow _ _ b' Hj') as [Hz | Hlt]; [congruence |].
    destruct (Hnode b); lia.
  - destruct (j - List.length table)%nat eqn:Ej; [| discriminate].
    destruct (j' - List.length table)%nat eqn:Ej'; [| discriminate].
    injection Hj as <-. injection Hj' as <-.
    split; [lia |].
    destruct b, b'; trivial; exfalso; destruct Hone; congruence.
Qed.

Lemma linkInj_update (table : list Dyn.Node) (i : nat) (nd : Dyn.Node)
    (b0 : bool) (v bound : Z) :
  linkInj table -> linksBelow table bound ->
  table !! i = Some nd -> Dyn.sub nd b0 = 0 -> bound <= v -> v <> 0 ->
  linkInj (<[i := Dyn.set_sub nd b0 v]> table).
Proof.
  intros Hinj Hbelow Hi Hz Hv Hv0 j j' n n' b b' Hj Hj' Hnz Heq.
  pose proof (lookup_lt_Some _ _ _ Hi) as Hlt.
  destruct (Nat.eq_dec i j) as [<- | Hne];
    destruct (Nat.eq_dec i j') as [<- | Hne'].
  - split; [reflexivity |].
    rewrite list_lookup_insert_eq in Hj, Hj' by trivial.
    injection Hj as <-. injection Hj' as <-.
    rewrite !sub_set_sub in *.
    pose proof (Hbelow _ _ true Hi) as Ht.
    pose proof (Hbelow _ _ false Hi) as Hf.
    destruct b0, b, b'; simpl in *; trivial; exfalso;
      destruct Ht, Hf; lia.
  - exfalso.
    rewrite list_lookup_insert_eq in Hj by trivial.
    rewrite list_lookup_insert_ne in Hj' by trivial.
    injection Hj as <-. rewrite sub_set_sub in *.
    destruct (Bool.eqb b0 b) eqn:Eb.
    + destruct (Hbelow _ _ b' Hj'); lia.
    + destruct (Hinj _ _ _ _ b b' Hi Hj' Hnz Heq). contradiction.
  - exfalso.
    rewrite list_lookup_insert_ne in Hj by trivial.
    rewrite list_lookup_insert_eq in Hj' by trivial.
    injection Hj' as <-. rewrite sub_set_sub in *.
    destruct (Bool.eqb b0 b') eqn:Eb.
    + destruct (Hbelow _ _ b Hj); lia.
    + destruct (Hinj _ _ _ _ b b' Hj Hi Hnz Heq) as [E _]. congruence.
  - rewrite list_lookup_insert_ne in Hj, Hj' by trivial.
    eapply Hinj; eauto.
Qed.

Section DynInsertInv.
Variable emptyValue : Z.

Lemma insert_loop_linkInj (c : HuffmanCode) (n : nat) :
  forall (table table' : list Dyn.Node) (i len : Z) (u : unit),
    len = Dyn.tsize table -> 0 <= i <= len ->
    linksBelow table len
    \/ (i = len /\ (0 < n)%nat /\ linksBelow table (len + 1)) ->
    linkInj table ->
    Dyn.insert_loop emptyValue c n i len table = Ok (u, table') ->
    linkInj table'.
Proof.
  induction n as [| cb IH]; intros table table' i len u Hlen Hi Hinv Hinj H.
  - simpl in H. injection H as _ <-. exact Hinj.
  - rewrite insert_loop_S in H. cbv zeta in H.
    destruct (Z.eqb_spec i len) as [-> | Hne].
    + assert (Hweak : linksBelow table (len + 1)).
      { destruct Hinv as [Hinv | (_ & _ & Hinv)]; trivial.
        apply (linksBelow_mono table len); [lia | trivial]. }
      set (node := Dyn.mkNode _ _ _) in H.
      assert (Hnode : forall b, Dyn.sub node b = 0 \/ Dyn.sub node b = len + 1).
      { intros b. subst node.
        destruct (negb (Z.of_nat cb =? 0) && _),
                 (negb (Z.of_nat cb =? 0) && _), b; simpl; auto. }
      assert (Hone : Dyn.sub node false = 0 \/ Dyn.sub node true = 0).
      { subst node. destruct (negb (Z.of_nat cb =? 0)); simpl; [| auto].
        destruct (if Z.of_nat cb =? 0 then false else _); simpl; auto. }
      eapply IH in H; [exact H | | | |].
      * unfold Dyn.tsize. rewrite length_app. simpl. unfold Dyn.tsize in Hlen. lia.
      * lia.
      * destruct cb as [| cb].
        -- left. apply linksBelow_push.
           ++ subst len. trivial.
           ++ intros b. subst node. destruct b; simpl; auto.
        -- right. split; [reflexivity |]. split; [lia |].
           apply linksBelow_push.
           ++ apply (linksBelow_mono table (len + 1)); [lia | subst len; trivial].
           ++ intros b. subst len. destruct (Hnode b) as [-> | ->]; auto.
              right. lia.
      * apply (linkInj_push table node (len + 1)); trivial.
        intros b. destruct (Hnode b) as [-> | ->]; auto. right. lia.
    + assert (Hinv' : linksBelow table len)
        by (destruct Hinv as [| (? & _)]; [trivial | lia]).
      destruct (load table i table) as [[node t1] | | |] eqn:Hload;
        try discriminate.
      apply load_inv_Ok in Hload as (_ & Hnode & _).
      destruct ((Z.of_nat cb =? 0) || negb (Dyn.nvalue node =? emptyValue)) eqn:E;
        [discriminate |].
      apply orb_false_elim in E as [Ecb _].
      apply Z.eqb_neq in Ecb.
      set (codeBit := if Z.of_nat cb =? 0 then false
                      else codeBitAt (code c) (Z.of_nat cb - 1)) in *.
      pose proof (lookup_lt_Some _ _ _ Hnode) as Hlt.
      destruct (Z.eqb_spec (Dyn.sub node codeBit) 0) as [Etmp | Etmp].
      * eapply IH in H; [exact H | | | |].
        -- unfold Dyn.tsize. rewrite length_insert. exact Hlen.
        -- lia.
        -- right. split; [reflexivity |]. split; [lia |].
           apply linksBelow_update; trivial.
           ++ apply (linksBelow_mono table len); [lia | trivial].
           ++ unfold Dyn.tsize in Hlen. lia.
        -- apply (linkInj_update table _ node codeBit len len); trivial;
             unfold Dyn.tsize in Hlen; lia.
      * destruct (Hinv' _ _ codeBit Hnode) as [| Hl]; [contradiction |].
        eapply IH in H; [exact H | trivial | lia | auto | trivial].
Qed.

(** The only value a successful [insert] adds is the code's own, at the
    end of its path. *)
Lemma insert_loop_new_leaf (c : HuffmanCode) (cb : nat) :
  forall (table table' : list Dyn.Node) (i : Z) (u : unit),
    0 <= i ->
    Dyn.insert_loop emptyValue c (S cb) i (Dyn.tsize table) table = Ok (u, table') ->
    forall j nd',
      table' !! j = Some nd' -> Dyn.nvalue nd' <> emptyValue ->
      (exists nd, table !! j = Some nd /\ Dyn.nvalue nd = Dyn.nvalue nd')
      \/ (walk table' i (codeBits (code c) cb) = Some (Z.of_nat j)
          /\ Dyn.nvalue nd' = value c).
Proof.
  induction cb as [| cb IH]; intros table table' i u Hi H j nd' Hj Hv;
    rewrite insert_loop_S in H; cbv zeta in H.
  - destruct (Z.eqb_spec i (Dyn.tsize table)) as [-> | Hne].
    + simpl in H. injection H as _ <-.
      apply lookup_app_Some in Hj as [Hj | [Hlj Hj]]; [left; eauto |].
      right. destruct (j - List.length table)%nat eqn:Ej; [| discriminate].
      injection Hj as <-. split; [| reflexivity].
      simpl. unfold Dyn.tsize. f_equal. lia.
    + destruct (load table i table) as [[node t1] | | |]; discriminate.
  - rewrite insert_loop_codeBit in H.
    cbn [codeBits walk]. rewrite codeBit_of_bits.
    set (bit := codeBitAt (code c) (Z.of_nat cb)) in *.
    destruct (Z.eqb_spec (Z.of_nat (S cb)) 0) as [| _]; [lia |].
    destruct (Z.eqb_spec i (Dyn.tsize table)) as [-> | Hne].
    + cbn [negb andb] in H.
      set (node := Dyn.mkNode _ _ _) in H.
      assert (Hsz : Dyn.tsize table + 1 = Dyn.tsize (table ++ [node]))
        by (unfold Dyn.tsize; rewrite length_app; simpl; lia).
      rewrite Hsz in H.
      pose proof (insert_loop_extends _ _ _ _ _ _ _ _ H) as Hext.
      destruct (IH (table ++ [node]) table' (Dyn.tsize (table ++ [node])) u
                  ltac:(unfold Dyn.tsize; lia) H j nd' Hj Hv)
        as [(nd & Hnd & Hval) | (Hw & Hval)].
      * apply lookup_app_Some in Hnd as [Hnd | [Hlj Hnd]]; [left; eauto |].
        exfalso. destruct (j - List.length table)%nat; [| discriminate].
        injection Hnd as <-. subst node. simpl in Hval. congruence.
      * right. split; [| exact Hval].
        destruct (Hext (List.length table) node) as (node' & Hn' & _ & Hs').
        { rewrite lookup_app_r by lia. rewrite Nat.sub_diag. reflexivity. }
        assert (Hlink : Dyn.sub node bit = Dyn.tsize table + 1)
          by (subst node; destruct bit; reflexivity).
        unfold Dyn.tsize at 1. rewrite Nat2Z.id, Hn'.
        rewrite (Hs' bit) by (rewrite Hlink; unfold Dyn.tsize; lia).
        rewrite Hlink.
        destruct (Z.eqb_spec (Dyn.tsize table + 1) 0);
          [unfold Dyn.tsize in *; lia |].
        rewrite Hsz. exact Hw.
    + destruct (load table i table) as [[node t1] | | |] eqn:Hload;
        try discriminate.
      apply load_inv_Ok in Hload as (_ & Hnode & _).
      destruct (_ || _); [discriminate |].
      destruct (Z.eqb_spec (Dyn.sub node bit) 0) as [Hz | Hnz].
      * set (t2 := <[Z.to_nat i := _]> table) in H.
        assert (Hsz : Dyn.tsize table = Dyn.tsize t2)
          by (unfold Dyn.tsize; subst t2; rewrite length_insert; reflexivity).
        assert (Hpos : 0 < Dyn.tsize table)
          by (apply lookup_lt_Some in Hnode; unfold Dyn.tsize; lia).
        rewrite Hsz in H.
        pose proof (insert_loop_extends _ _ _ _ _ _ _ _ H) as Hext.
        destruct (IH t2 table' (Dyn.tsize t2) u ltac:(lia) H j nd' Hj Hv)
          as [(nd & Hnd & Hval) | (Hw & Hval)].
        -- left. subst t2.
           destruct (Nat.eq_dec (Z.to_nat i) j) as [<- | Hd].
           ++ rewrite list_lookup_insert_eq in Hnd
                by (apply lookup_lt_Some in Hnode; trivial).
              injection Hnd as <-. rewrite nvalue_set_sub in Hval. eauto.
           ++ rewrite list_lookup_insert_ne in Hnd by trivial. eauto.
        -- right. split; [| exact Hval].
           destruct (Hext (Z.to_nat i) (Dyn.set_sub node bit (Dyn.tsize table)))
             as (node' & Hn' & _ & Hs').
           { subst t2. apply list_lookup_insert_eq.
             apply lookup_lt_Some in Hnode. trivial. }
           rewrite Hn'.
           rewrite (Hs' bit) by (rewrite sub_set_sub, Bool.eqb_reflx; lia).
           rewrite sub_set_sub, Bool.eqb_reflx.
           destruct (Z.eqb_spec (Dyn.tsize table) 0); [lia |].
           rewrite Hsz. exact Hw.
      * pose proof (insert_loop_extends _ _ _ _ _ _ _ _ H) as Hext.
        destruct (Z.lt_ge_cases (Dyn.sub node bit) 0) as [Hneg | Hpos].
        { exfalso. rewrite insert_loop_S in H. cbv zeta in H.
          destruct (Z.eqb_spec (Dyn.sub node bit) (Dyn.tsize table));
            [unfold Dyn.tsize in *; lia |].
          unfold load in H.
          destruct (Z.ltb_spec (Dyn.sub node bit) 0); [discriminate | lia]. }
        destruct (IH _ _ _ _ Hpos H j nd' Hj Hv)
          as [(nd & Hnd & Hval) | (Hw & Hval)]; [left; eauto |].
        right. split; [| exact Hval].
        destruct (Hext _ _ Hnode) as (node' & Hn' & _ & Hs').
        rewrite Hn', (Hs' bit Hnz).
        destruct (Z.eqb_spec (Dyn.sub node bit) 0); [contradiction |].
        exact Hw.
Qed.

(** The nodes a successful [insert] appends lie on the path of the code. *)
Lemma insert_loop_new_nodes (c : HuffmanCode) (cb : nat) :
  forall (table table' : list Dyn.Node) (i : Z) (u : unit),
    0 <= i ->
    Dyn.insert_loop emptyValue c (S cb) i (Dyn.tsize table) table = Ok (u, table') ->
    forall j nd',
      table' !! j = Some nd' -> (List.length table <= j)%nat ->
      exists m,
        walk table' i (take m (codeBits (code c) cb)) = Some (Z.of_nat j).
Proof.
  induction cb as [| cb IH]; intros table table' i u Hi H j nd' Hj Hnew;
    rewrite insert_loop_S in H; cbv zeta in H.
  - destruct (Z.eqb_spec i (Dyn.tsize table)) as [-> | Hne].
    + simpl in H. injection H as _ <-.
      apply lookup_lt_Some in Hj. rewrite length_app in Hj. simpl in Hj.
      exists 0%nat. simpl. unfold Dyn.tsize. f_equal. lia.
    + destruct (load table i table) as [[node t1] | | |]; discriminate.
  - rewrite insert_loop_codeBit in H.
    set (bit := codeBitAt (code c) (Z.of_nat cb)) in *.
    assert (Hstep : forall t m,
              (exists n, table' !! Z.to_nat i = Some n /\ Dyn.sub n bit = t)
              -> t <> 0 ->
              walk table' t (take m (codeBits (code c) cb)) = Some (Z.of_nat j) ->
              walk table' i (take (S m) (codeBits (code c) (S cb)))
              = Some (Z.of_nat j)).
    { intros t m (n & Hn & Hs) Ht Hw. cbn [codeBits take walk].
      rewrite codeBit_of_bits. fold bit. rewrite Hn, Hs.
      destruct (Z.eqb_spec t 0); [contradiction | exact Hw]. }
    destruct (Z.eqb_spec (Z.of_nat (S cb)) 0) as [| _]; [lia |].
    destruct (Z.eqb_spec i (Dyn.tsize table)) as [-> | Hne].
    + cbn [negb andb] in H.
      set (node := Dyn.mkNode _ _ _) in H.
      assert (Hsz : Dyn.tsize table + 1 = Dyn.tsize (table ++ [node]))
        by (unfold Dyn.tsize; rewrite length_app; simpl; lia).
      rewrite Hsz in H.
      pose proof (insert_loop_extends _ _ _ _ _ _ _ _ H) as Hext.
      destruct (Nat.eq_dec j (List.length table)) as [-> | Hd].
      { exists 0%nat. simpl. reflexivity. }
      destruct (IH (table ++ [node]) table' (Dyn.tsize (table ++ [node])) u
                  ltac:(unfold Dyn.tsize; lia) H j nd' Hj
                  ltac:(rewrite length_app; simpl; lia)) as (m & Hw).
      exists (S m). apply (Hstep (Dyn.tsize (table ++ [node]))); trivial.
      * destruct (Hext (List.length table) node) as (node' & Hn' & _ & Hs').
        { rewrite lookup_app_r by lia. rewrite Nat.sub_diag. reflexivity. }
        assert (Hlink : Dyn.sub node bit = Dyn.tsize table + 1)
          by (subst node; destruct bit; reflexivity).
        exists node'. unfold Dyn.tsize at 1. rewrite Nat2Z.id.
        split; [exact Hn' |].
        rewrite (Hs' bit) by (rewrite Hlink; unfold Dyn.tsize; lia).
        rewrite Hlink. exact Hsz.
      * rewrite <- Hsz. unfold Dyn.tsize. lia.
    + destruct (load table i table) as [[node t1] | | |] eqn:Hload;
        try discriminate.
      apply load_inv_Ok in Hload as (_ & Hnode & _).
      destruct (_ || _); [discriminate |].
      destruct (Z.eqb_spec (Dyn.sub node bit) 0) as [Hz | Hnz].
      * set (t2 := <[Z.to_nat i := _]> table) in H.
        assert (Hsz : Dyn.tsize table = Dyn.tsize t2)
          by (unfold Dyn.tsize; subst t2; rewrite length_insert; reflexivity).
        assert (Hpos : 0 < Dyn.tsize table)
          by (apply lookup_lt_Some in Hnode; unfold Dyn.tsize; lia).
        rewrite Hsz in H.
        pose proof (insert_loop_extends _ _ _ _ _ _ _ _ H) as Hext.
        destruct (IH t2 table' (Dyn.tsize t2) u ltac:(lia) H j nd' Hj
                    ltac:(subst t2; rewrite length_insert; lia)) as (m & Hw).
        exists (S m). apply (Hstep (Dyn.tsize t2)); trivial; [| lia].
        destruct (Hext (Z.to_nat i) (Dyn.set_sub node bit (Dyn.tsize table)))
          as (node' & Hn' & _ & Hs').
        { subst t2. apply list_lookup_insert_eq.
          apply lookup_lt_Some in Hnode. trivial. }
        exists node'. split; [exact Hn' |].
        rewrite (Hs' bit) by (rewrite sub_set_sub, Bool.eqb_reflx; lia).
        rewrite sub_set_sub, Bool.eqb_reflx. exact Hsz.
      * pose proof (insert_loop_extends _ _ _ _ _ _ _ _ H) as Hext.
        destruct (Z.lt_ge_cases (Dyn.sub node bit) 0) as [Hneg | Hpos].
        { exfalso. rewrite insert_loop_S in H. cbv zeta in H.
          destruct (Z.eqb_spec (Dyn.sub node bit) (Dyn.tsize table));
            [unfold Dyn.tsize in *; lia |].
          unfold load in H.
          destruct (Z.ltb_spec (Dyn.sub node bit) 0); [discriminate | lia]. }
        destruct (IH table table' (Dyn.sub node bit) u Hpos H j nd' Hj Hnew)
          as (m & Hw).
        exists (S m). apply (Hstep (Dyn.sub node bit)); trivial.
        destruct (Hext _ _ Hnode) as (node' & Hn' & _ & Hs').
        exists node'. split; [exact Hn' | apply Hs'; exact Hnz].
Qed.

(** Once [insert] appends nodes it goes on appending and returns. *)
Lemma insert_loop_appends (c : HuffmanCode) (n : nat) :
  forall (table : list Dyn.Node),
    exists table',
      Dyn.insert_loop emptyValue c n (Dyn.tsize table) (Dyn.tsize table) table
      = Ok (tt, table').
Proof.
  induction n as [| cb IH]; intros table; [simpl; eauto |].
  rewrite insert_loop_S. cbv zeta. rewrite Z.eqb_refl.
  set (node := Dyn.mkNode _ _ _).
  assert (Hsz : Dyn.tsize table + 1 = Dyn.tsize (table ++ [node]))
    by (unfold Dyn.tsize; rewrite length_app; simpl; lia).
  rewrite Hsz. apply IH.
Qed.

(** [insert] raises only at a node of the table: one that holds a
    value, or the one at which the code ends. *)
Lemma insert_loop_raise_inv (c : HuffmanCode) (cb : nat) :
  forall (table : list Dyn.Node) (i : Z) (e : exn),
    wfTable table -> 0 <= i < Dyn.tsize table ->
    Dyn.insert_loop emptyValue c (S cb) i (Dyn.tsize table) table = Raise e ->
    exists m j nd,
      (m <= cb)%nat
      /\ walk table i (take m (codeBits (code c) cb)) = Some j
      /\ 0 <= j /\ table !! Z.to_nat j = Some nd
      /\ (Dyn.nvalue nd <> emptyValue \/ m = cb).
Proof.
  induction cb as [| cb IH]; intros table i e Hwf Hi H;
    rewrite insert_loop_S in H; cbv zeta in H;
    (destruct (Z.eqb_spec i (Dyn.tsize table)); [lia |]);
    destruct (lookup_lt_is_Some_2 table (Z.to_nat i)
                ltac:(unfold Dyn.tsize in Hi; lia)) as [node Hnode];
    rewrite (load_Ok table i table node ltac:(lia) Hnode) in H.
  - exists 0%nat, i, node. simpl. split; [lia |]. split; [reflexivity |].
    split; [lia |]. split; [exact Hnode | auto].
  - rewrite insert_loop_codeBit in H.
    set (bit := codeBitAt (code c) (Z.of_nat cb)) in *.
    destruct (Z.eqb_spec (Z.of_nat (S cb)) 0) as [| _]; [lia |].
    destruct (Z.eqb_spec (Dyn.nvalue node) emptyValue) as [Hval | Hval].
    + cbn [negb orb] in H.
      destruct (Z.eqb_spec (Dyn.sub node bit) 0) as [Hz | Hnz].
      * exfalso.
        set (t2 := <[Z.to_nat i := _]> table) in H.
        assert (Hsz : Dyn.tsize table = Dyn.tsize t2)
          by (unfold Dyn.tsize; subst t2; rewrite length_insert; reflexivity).
        rewrite Hsz in H.
        destruct (insert_loop_appends c (S cb) t2) as (t' & Ht').
        rewrite Ht' in H. discriminate.
      * destruct (Hwf _ _ bit Hnode) as [| Hlt]; [contradiction |].
        destruct (IH table (Dyn.sub node bit) e Hwf ltac:(lia) H)
          as (m & j & nd & Hm & Hw & Hj & Hnd & Hcase).
        exists (S m), j, nd. split; [lia |]. split.
        { cbn [codeBits take walk]. rewrite codeBit_of_bits. fold bit.
          rewrite Hnode.
          destruct (Z.eqb_spec (Dyn.sub node bit) 0); [contradiction | exact Hw]. }
        split; [exact Hj |]. split; [exact Hnd |].
        destruct Hcase; [auto | right; lia].
    + exists 0%nat, i, node. simpl. split; [lia |]. split; [reflexivity |].
      split; [lia |]. split; [exact Hnode | auto].
Qed.
End DynInsertInv.

Lemma walk_nonneg (table : list Dyn.Node) (bits : list Z) :
  forall i j, wfTable table -> 0 <= i -> walk table i bits = Some j -> 0 <= j.
Proof.
  induction bits as [| b bs IH]; intros i j Hwf Hi H; simpl in H.
  - injection H as <-. exact Hi.
  - destruct (table !! Z.to_nat i) as [n |] eqn:Hn; [| discriminate].
    destruct (Z.eqb_spec (Dyn.sub n (negb (b =? 0))) 0); [discriminate |].
    destruct (Hwf _ _ (negb (b =? 0)) Hn) as [| Hlt]; [contradiction |].
    apply (IH _ _ Hwf) in H; lia.
Qed.

Lemma walk_snoc_inv (table : list Dyn.Node) (l : list Z) (b : Z) (i j : Z) :
  walk table i (l ++ [b]) = Some j ->
  exists p n,
    walk table i l = Some p /\ table !! Z.to_nat p = Some n
    /\ Dyn.sub n (negb (b =? 0)) = j /\ j <> 0.
Proof.
  intros H. apply walk_app in H as (p & Hp & H). simpl in H.
  destruct (table !! Z.to_nat p) as [n |] eqn:Hn; [| discriminate].
  destruct (Z.eqb_spec (Dyn.sub n (negb (b =? 0))) 0); [discriminate |].
  injection H as <-. exists p, n. auto.
Qed.

(** In a table whose links lead to distinct nodes a node is reached
    from the root along one sequence of directions only. *)
Lemma walk_unique (table : list Dyn.Node) (bits : list Z) :
  wfTable table -> linkInj table ->
  forall bits' j,
    walk table 0 bits = Some j -> walk table 0 bits' = Some j ->
    dirs bits = dirs bits'.
Proof.
  intros Hwf Hinj.
  induction bits as [| b l IH] using rev_ind; intros bits' j H H'.
  - simpl in H. injection H as <-.
    destruct bits' as [| b' l'] using rev_ind; [reflexivity |].
    apply walk_snoc_inv in H' as (_ & _ & _ & _ & _ & Hnz). contradiction.
  - apply walk_snoc_inv in H as (p & n & Hp & Hn & Hlink & Hnz).
    destruct bits' as [| b' l' _] using rev_ind.
    { simpl in H'. injection H' as <-. contradiction. }
    apply walk_snoc_inv in H' as (p' & n' & Hp' & Hn' & Hlink' & _).
    destruct (Hinj _ _ _ _ (negb (b =? 0)) (negb (b' =? 0)) Hn Hn') as [Ep Eb];
      [congruence | congruence |].
    pose proof (walk_nonneg table l 0 p Hwf ltac:(lia) Hp) as Hp0.
    pose proof (walk_nonneg table l' 0 p' Hwf ltac:(lia) Hp') as Hp0'.
    assert (p = p') by lia. subst p'.
    unfold dirs in *. rewrite !map_app. simpl. rewrite Eb.
    f_equal. apply (IH l' p); trivial.
Qed.

Lemma dirs_inj (bits : list Z) :
  forall bits',
    (forall b, In b bits -> b = 0 \/ b = 1) ->
    (forall b, In b bits' -> b = 0 \/ b = 1) ->
    dirs bits = dirs bits' -> bits = bits'.
Proof.
  induction bits as [| b bs IH]; intros bits' H01 H01' H;
    destruct bits' as [| b' bs']; try discriminate; [reflexivity |].
  simpl in H. injection H as Hb Hrest.
  f_equal.
  - destruct (H01 b ltac:(simpl; auto)) as [-> | ->];
      destruct (H01' b' ltac:(simpl; auto)) as [-> | ->];
      trivial; discriminate.
  - apply IH; trivial; intros x Hx; [apply H01 | apply H01']; simpl; auto.
Qed.

Lemma codeBits_01 (c : Z) (j : nat) :
  forall b, In b (codeBits c j) -> b = 0 \/ b = 1.
Proof.
  induction j as [| j IH]; intros b H; simpl in H; [contradiction |].
  destruct H as [<- | H]; [| auto].
  destruct (codeBitAt c (Z.of_nat j)); auto.
Qed.

Lemma reads_01 {St : Type} (rd : M St Z) (bits : list Z) :
  bitValued rd ->
  forall s s', reads rd s bits s' -> forall b, In b bits -> b = 0 \/ b = 1.
Proof.
  intros Hrd. induction bits as [| b0 bs IH]; intros s s' H b Hb;
    simpl in *; [contradiction |].
  destruct H as (s1 & H0 & Hrest).
  destruct Hb as [<- | Hb]; [eapply Hrd; eauto | eapply IH; eauto].
Qed.

Section DynInserted.
Variable emptyValue : Z.

Lemma dynInv_empty : dynInv emptyValue [] (Dyn.empty emptyValue).
Proof.
  split; [apply empty_wf |]. split; [eexists; split; reflexivity |].
  split; [| split; [| split]].
  - intros j j' n n' b b' Hj _ Hnz _. exfalso.
    destruct j; [| discriminate]. injection Hj as <-.
    destruct b; simpl in Hnz; congruence.
  - intros j nd Hj Hv. exfalso.
    destruct j; [| discriminate]. injection Hj as <-. simpl in Hv. congruence.
  - intros j nd Hj Hpos. destruct j; [lia | discriminate].
  - intros c [].
Qed.

Lemma dynInv_insert (cs : list HuffmanCode) (c : HuffmanCode)
    (table table' : list Dyn.Node) (u : unit) :
  dynInv emptyValue cs table -> 0 <= length c <= 31 ->
  Dyn.insert emptyValue c table = Ok (u, table') ->
  dynInv emptyValue (cs ++ [c]) table'.
Proof.
  intros (Hwf & Hroot & Hinj & Hleaves & Hnodes & Hpaths) Hlen Hins.
  assert (Hv : value c <> emptyValue).
  { intros E. rewrite dyn_insert_empty_value in Hins by trivial. discriminate. }
  pose proof (insert_wf _ _ _ _ _ Hwf Hins) as Hwf'.
  assert (H31 : 0 <= length c < 2 ^ 31)
    by (change (2 ^ 31) with 2147483648; lia).
  rewrite insert_unfold in Hins by trivial.
  pose proof (insert_loop_extends _ _ _ _ _ _ _ _ Hins) as Hext.
  destruct Hroot as (r0 & Hr0 & Hrv).
  assert (Hpos : 0 < Dyn.tsize table)
    by (apply lookup_lt_Some in Hr0; unfold Dyn.tsize; lia).
  assert (Hne : bitsOf c <> []).
  { unfold bitsOf. destruct (Z.to_nat (length c)) eqn:E; [| discriminate].
    exfalso. rewrite insert_loop_S in Hins. cbv zeta in Hins.
    destruct (Z.eqb_spec 0 (Dyn.tsize table)); [lia |].
    change (Z.to_nat 0) with 0%nat in Hins.
    rewrite (load_Ok table 0 table r0 ltac:(lia) Hr0) in Hins.
    discriminate. }
  split; [exact Hwf' |]. split; [| split; [| split; [| split]]].
  - destruct (Hext _ _ Hr0) as (r0' & Hr0' & Hrv' & _).
    exists r0'. split; [exact Hr0' | congruence].
  - eapply insert_loop_linkInj; [reflexivity | | | exact Hinj | exact Hins].
    + lia.
    + left. exact Hwf.
  - intros j nd' Hj Hnv.
    destruct (insert_loop_new_leaf emptyValue c _ table table' 0 u
                ltac:(lia) Hins j nd' Hj Hnv)
      as [(nd & Hnd & Hval) | (Hw & Hval)].
    + destruct (Hleaves j nd Hnd ltac:(congruence)) as (c0 & Hin & Hc0 & Hw).
      exists c0. split; [apply in_or_app; auto |]. split; [congruence |].
      eapply walk_extends; eauto.
    + exists c. split; [apply in_or_app; simpl; auto |].
      split; [congruence | exact Hw].
  - intros j nd' Hj Hjpos.
    destruct (Nat.lt_ge_cases j (List.length table)) as [Hold | Hnew].
    + destruct (lookup_lt_is_Some_2 table j Hold) as [nd Hnd].
      destruct (Hnodes j nd Hnd Hjpos) as (c0 & m & Hin & Hw).
      exists c0, m. split; [apply in_or_app; auto |].
      eapply walk_extends; eauto.
    + destruct (insert_loop_new_nodes emptyValue c _ table table' 0 u
                  ltac:(lia) Hins j nd' Hj Hnew) as (m & Hw).
      exists c, m. split; [apply in_or_app; simpl; auto | exact Hw].
  - intros c0 Hin. apply in_app_or in Hin as [Hin | [<- | []]].
    + destruct (Hpaths c0 Hin) as (H1 & H2 & H3).
      split; [exact H1 |]. split; [exact H2 |].
      eapply codePath_extends; eauto.
    + split; [exact Hne |]. split; [exact Hv |].
      apply (insert_loop_codePath emptyValue c _ table table' 0 u
               ltac:(lia) Hins).
Qed.

Lemma dynInsertAll_dynInv (cs : list HuffmanCode) :
  forall (before : list HuffmanCode) (table table' : list Dyn.Node) (u : unit),
    dynInv emptyValue before table ->
    (forall c, In c cs -> 0 <= length c <= 31) ->
    dynInsertAll emptyValue cs table = Ok (u, table') ->
    dynInv emptyValue (before ++ cs) table'.
Proof.
  induction cs as [| c cs IH]; intros before table table' u Hinv Hlen H.
  - simpl in H. injection H as _ <-. rewrite app_nil_r. exact Hinv.
  - simpl in H. apply bind_inv_Ok in H as (u1 & t1 & Hins & H).
    replace (before ++ c :: cs) with ((before ++ [c]) ++ cs)
      by (rewrite <- app_assoc; reflexivity).
    apply (IH _ t1 table' u); trivial.
    + eapply dynInv_insert; eauto. apply Hlen. simpl. auto.
    + intros c0 Hc0. apply Hlen. simpl. auto.
Qed.
End DynInserted.

(** What [decode] returns on a table that holds the codes [cs]. *)
Lemma dyn_decode_of_inv {St : Type} (emptyValue : Z) (rd : M St Z)
    (cs : list HuffmanCode) (table : list Dyn.Node) (s s' : St) (v : Z) :
  bitValued rd ->
  dynInv emptyValue cs table ->
  (Dyn.decode emptyValue rd table s = Ok (v, s') <->
   exists c, In c cs /\ value c = v /\ reads rd s (bitsOf c) s').
Proof.
  intros Hrd (Hwf & Hroot & Hinj & Hleaves & _ & Hpaths).
  unfold Dyn.decode. split.
  - intros H. destruct Hroot as (r0 & Hr0 & Hrv).
    apply (dyn_decode_loop_sound emptyValue rd table
             (ex_intro _ r0 (conj Hr0 Hrv)) _ 0 s s' v r0) in H;
      trivial; [| lia].
    destruct H as (bits & Hne & Hreads & Hpath & Hv).
    apply codePath_walk in Hpath as (j & nd & Hj & Hw & Hnd & Hnv).
    destruct (Hleaves _ _ Hnd ltac:(congruence)) as (c & Hin & Hc & Hwc).
    rewrite Z2Nat.id in Hwc by lia.
    exists c. split; [exact Hin |]. split; [congruence |].
    replace (bitsOf c) with bits; [exact Hreads |].
    apply dirs_inj.
    + eapply reads_01; eauto.
    + apply codeBits_01.
    + apply (walk_unique table bits Hwf Hinj _ j); trivial.
  - intros (c & Hin & <- & Hreads).
    destruct (Hpaths c Hin) as (Hne & Hv & Hpath).
    apply (dyn_decode_loop_complete emptyValue rd table (bitsOf c)); trivial.
    apply (codePath_bound _ _ Hwf) in Hpath. unfold Dyn.tsize in Hpath. lia.
Qed.

(** X11: After any sequence of successful inserts of codes of at most 31
    bits into a freshly constructed dynamic decoder, [decode] returns a
    value exactly when the bits it reads are the bits of one of the
    inserted codes, and the value is that code's. *)
Theorem dyn_decode_inserted {St : Type} (emptyValue : Z) (rd : M St Z)
    (cs : list HuffmanCode) (table : list Dyn.Node) (u : unit)
    (s s' : St) (v : Z) :
  bitValued rd ->
  (forall c, In c cs -> 0 <= length c <= 31) ->
  dynInsertAll emptyValue cs (Dyn.empty emptyValue) = Ok (u, table) ->
  (Dyn.decode emptyValue rd table s = Ok (v, s') <->
   exists c, In c cs /\ value c = v /\ reads rd s (bitsOf c) s').
Proof.
  intros Hrd Hlen Hall.
  apply dyn_decode_of_inv; [exact Hrd |].
  exact (dynInsertAll_dynInv emptyValue cs [] _ _ _
           (dynInv_empty emptyValue) Hlen Hall).
Qed.

Lemma dyn_decode_inserted_witness :
  bitValued (readBit sampleLiteral)
  /\ (forall c, In c sampleCodes -> 0 <= length c <= 31)
  /\ dynInsertAll 512 sampleCodes (Dyn.empty 512) = Ok (tt, sampleTable)
  /\ (Dyn.decode 512 (readBit sampleLiteral) sampleTable (mkReader 15 65 7)
        = Ok (66, mkReader 15 16 5)
      <-> exists c,
            In c sampleCodes /\ value c = 66
            /\ reads (readBit sampleLiteral) (mkReader 15 65 7) (bitsOf c)
                 (mkReader 15 16 5)).
Proof.
  assert (Hrd : bitValued (readBit sampleLiteral)).
  { intros s b s1 H. apply readBit_range in H. lia. }
  assert (Hlen : forall c, In c sampleCodes -> 0 <= length c <= 31).
  { intros c [<- | [<- | []]]; simpl; lia. }
  assert (Hall : dynInsertAll 512 sampleCodes (Dyn.empty 512)
                 = Ok (tt, sampleTable)) by reflexivity.
  split; [exact Hrd |]. split; [exact Hlen |]. split; [exact Hall |].
  exact (dyn_decode_inserted 512 (readBit sampleLiteral) sampleCodes
           sampleTable tt (mkReader 15 65 7) (mkReader 15 16 5) 66
           Hrd Hlen Hall).
Defined.

Lemma take_01 (bits : list Z) (m : nat) :
  (forall b, In b bits -> b = 0 \/ b = 1) ->
  forall b, In b (take m bits) -> b = 0 \/ b = 1.
Proof.
  intros H b Hb. apply H. apply list_elem_of_In.
  apply list_elem_of_In in Hb. apply elem_of_take in Hb as (i & Hi & _).
  eapply list_elem_of_lookup_2; eauto.
Qed.

Lemma walk_end_nonzero (table : list Dyn.Node) (bits : list Z) (j : Z) :
  bits <> [] -> walk table 0 bits = Some j -> j <> 0.
Proof.
  intros Hne H. destruct (exists_last Hne) as (l & b & ->).
  apply walk_snoc_inv in H as (_ & _ & _ & _ & _ & Hj). exact Hj.
Qed.

Lemma dyn_insert_zero_raises (emptyValue : Z) (c : HuffmanCode)
    (table : list Dyn.Node) :
  length c = 0 -> table <> [] ->
  Dyn.insert emptyValue c table = Raise DecompressionError.
Proof.
  intros Hlen Hne. unfold Dyn.insert.
  destruct (value c =? emptyValue); [reflexivity |].
  unfold bind at 1, get. rewrite Hlen.
  change (Z.to_nat (Dyn.toInt32 0 + 1)) with 1%nat.
  destruct table as [| nd table]; [contradiction |].
  cbn [Dyn.insert_loop]. unfold bind at 1, get.
  destruct (Z.eqb_spec 0 (Dyn.tsize (nd :: table))) as [E |]; [| reflexivity].
  unfold Dyn.tsize in E. simpl in E. lia.
Qed.

(** A further code that is prefix-related to none of the codes held is
    accepted. *)
Lemma dyn_insert_accepts (emptyValue : Z) (cs : list HuffmanCode)
    (table : list Dyn.Node) (c' : HuffmanCode) :
  dynInv emptyValue cs table ->
  0 < length c' <= 31 -> value c' <> emptyValue ->
  (forall c, In c cs -> ~ prefixRelated c c') ->
  exists table', Dyn.insert emptyValue c' table = Ok (tt, table').
Proof.
  intros (Hwf & Hroot & Hinj & Hleaves & Hnodes & Hpaths) Hl Hv Hfree.
  assert (Hpos : 0 < Dyn.tsize table).
  { destruct Hroot as (r0 & Hr0 & _). apply lookup_lt_Some in Hr0.
    unfold Dyn.tsize. lia. }
  assert (H31 : 0 <= length c' < 2 ^ 31)
    by (change (2 ^ 31) with 2147483648; lia).
  pose proof (insert_defined emptyValue c' table Hwf) as Hdef.
  destruct (Dyn.insert emptyValue c' table) as [[[] t'] | e | |] eqn:E;
    simpl in Hdef; try contradiction; [eauto |].
  exfalso. rewrite insert_unfold in E by trivial.
  apply insert_loop_raise_inv in E
    as (m & j & nd & Hm & Hw & Hj & Hnd & Hcase); [| exact Hwf | lia].
  fold (bitsOf c') in Hw.
  destruct Hcase as [Hval | ->].
  - destruct (Hleaves _ _ Hnd Hval) as (c & Hin & _ & Hwc).
    rewrite Z2Nat.id in Hwc by lia.
    apply (Hfree c Hin). exists m. left.
    apply dirs_inj.
    + apply codeBits_01.
    + apply take_01. apply codeBits_01.
    + apply (walk_unique table (bitsOf c) Hwf Hinj _ j); trivial.
  - unfold bitsOf in Hw. rewrite take_codeBits_all in Hw. fold (bitsOf c') in Hw.
    assert (Hne : bitsOf c' <> []).
    { intros E0. apply (f_equal (@List.length Z)) in E0. unfold bitsOf in E0.
      rewrite codeBits_length in E0. simpl in E0. lia. }
    pose proof (walk_end_nonzero _ _ _ Hne Hw) as Hj0.
    destruct (Hnodes _ _ Hnd ltac:(lia)) as (c & m & Hin & Hwc).
    rewrite Z2Nat.id in Hwc by lia.
    apply (Hfree c Hin). exists m. right.
    apply dirs_inj.
    + apply codeBits_01.
    + apply take_01. apply codeBits_01.
    + apply (walk_unique table (bitsOf c') Hwf Hinj _ j); trivial.
Qed.

(** A further code that is prefix-related to one of the codes held is
    rejected. *)
Lemma dyn_insert_rejects_related (emptyValue : Z) (cs : list HuffmanCode)
    (table : list Dyn.Node) (c c' : HuffmanCode) :
  dynInv emptyValue cs table ->
  0 <= length c' <= 31 -> In c cs -> prefixRelated c c' ->
  Dyn.insert emptyValue c' table = Raise DecompressionError.
Proof.
  intros (Hwf & Hroot & Hinj & Hleaves & Hnodes & Hpaths) Hl Hin Hrel.
  assert (H31 : 0 <= length c' < 2 ^ 31)
    by (change (2 ^ 31) with 2147483648; lia).
  destruct (Hpaths c Hin) as (_ & Hv & Hpath).
  apply codePath_walk in Hpath as (j & nd & Hj & Hw & Hnd & Hnv).
  apply (dyn_insert_rejects emptyValue table c c'); trivial.
  split; [exact Hv |]. exists j, nd. auto.
Qed.

(** X12: On a dynamic decoder built by successful inserts of the codes
    [cs], all of at most 31 bits, a further [insert] of such a code
    returns when the code has a value other than EMPTY, at least one
    bit, and is prefix-related to none of [cs]; otherwise it raises
    DecompressionError. *)
Theorem dyn_insert_accepts_iff (emptyValue : Z) (cs : list HuffmanCode)
    (table : list Dyn.Node) (u : unit) (c' : HuffmanCode) :
  (forall c, In c cs -> 0 <= length c <= 31) ->
  0 <= length c' <= 31 ->
  dynInsertAll emptyValue cs (Dyn.empty emptyValue) = Ok (u, table) ->
  (value c' <> emptyValue /\ 0 < length c'
   /\ (forall c, In c cs -> ~ prefixRelated c c') ->
   exists table', Dyn.insert emptyValue c' table = Ok (tt, table'))
  /\ (value c' = emptyValue \/ length c' = 0
      \/ (exists c, In c cs /\ prefixRelated c c') ->
      Dyn.insert emptyValue c' table = Raise DecompressionError).
Proof.
  intros Hlen Hlen' Hall.
  pose proof (dynInsertAll_dynInv emptyValue cs [] _ _ _
                (dynInv_empty emptyValue) Hlen Hall) as Hinv.
  cbn [app] in Hinv.
  split.
  - intros (Hv & Hl & Hfree).
    apply (dyn_insert_accepts emptyValue cs); trivial. lia.
  - intros [Hv | [Hl | (c & Hin & Hrel)]].
    + apply dyn_insert_empty_value. exact Hv.
    + apply dyn_insert_zero_raises; [exact Hl |].
      destruct Hinv as (_ & (r0 & Hr0 & _) & _). intros E. rewrite E in Hr0.
      discriminate.
    + apply (dyn_insert_rejects_related emptyValue cs table c c'); trivial.
Qed.

Lemma dyn_insert_accepts_iff_witness :
  (forall c, In c sampleCodes -> 0 <= length c <= 31)
  /\ 0 <= length (mkCode 2 3 67) <= 31
  /\ dynInsertAll 512 sampleCodes (Dyn.empty 512) = Ok (tt, sampleTable)
  /\ (value (mkCode 2 3 67) <> 512 /\ 0 < length (mkCode 2 3 67)
      /\ (forall c, In c sampleCodes -> ~ prefixRelated c (mkCode 2 3 67)) ->
      exists table', Dyn.insert 512 (mkCode 2 3 67) sampleTable = Ok (tt, table'))
  /\ (value (mkCode 2 3 67) = 512 \/ length (mkCode 2 3 67) = 0
      \/ (exists c, In c sampleCodes /\ prefixRelated c (mkCode 2 3 67)) ->
      Dyn.insert 512 (mkCode 2 3 67) sampleTable = Raise DecompressionError).
Proof.
  assert (Hlen : forall c, In c sampleCodes -> 0 <= length c <= 31).
  { intros c [<- | [<- | []]]; simpl; lia. }
  assert (Hlen' : 0 <= length (mkCode 2 3 67) <= 31) by (simpl; lia).
  assert (Hall : dynInsertAll 512 sampleCodes (Dyn.empty 512)
                 = Ok (tt, sampleTable)) by reflexivity.
  split; [exact Hlen |]. split; [exact Hlen' |]. split; [exact Hall |].
  exact (dyn_insert_accepts_iff 512 sampleCodes sampleTable tt (mkCode 2 3 67)
           Hlen Hlen' Hall).
Defined.
(** ** The flat decoder: inserted codes and decoded values *)

Lemma bitOf_01 (x y : Z) :
  (x = 0 \/ x = 1) -> (y = 0 \/ y = 1) -> bitOf x = bitOf y -> x = y.
Proof. intros [-> | ->] [-> | ->]; unfold bitOf; simpl; lia. Qed.

(** Two paths of 0/1 bits that end in the same slot are the same. *)
Lemma slotFrom_inj (i : Z) (a : list Z) :
  forall b,
    List.length a = List.length b -> a <> [] ->
    (forall x, In x a -> x = 0 \/ x = 1) ->
    (forall x, In x b -> x = 0 \/ x = 1) ->
    slotFrom i a = slotFrom i b -> a = b.
Proof.
  induction a as [| x a0 IH] using rev_ind; intros b Hlen Hne Ha Hb E;
    [congruence |].
  destruct (exists_last (l := b)) as (b0 & y & ->).
  { intros ->. rewrite length_app in Hlen. simpl in Hlen. lia. }
  rewrite !length_app in Hlen. simpl in Hlen.
  assert (Hx : x = 0 \/ x = 1) by (apply Ha, in_or_app; right; left; reflexivity).
  assert (Hy : y = 0 \/ y = 1) by (apply Hb, in_or_app; right; left; reflexivity).
  pose proof (bitOf_range x). pose proof (bitOf_range y).
  destruct a0 as [| a1 a0].
  - destruct b0 as [| b1 b0]; [| simpl in Hlen; lia].
    simpl in E. simpl. f_equal. apply bitOf_01; trivial. lia.
  - destruct b0 as [| b1 b0]; [simpl in Hlen; lia |].
    rewrite !slotFrom_snoc in E by discriminate.
    assert (Es : slotFrom i (a1 :: a0) = slotFrom i (b1 :: b0)) by lia.
    assert (Eb : bitOf x = bitOf y) by lia.
    f_equal.
    + apply IH; trivial; [lia | discriminate | |].
      * intros z Hz. apply Ha, in_or_app. left. exact Hz.
      * intros z Hz. apply Hb, in_or_app. left. exact Hz.
    + f_equal. apply bitOf_01; trivial.
Qed.

(** The same for two paths from the root, of at most [depth] bits. *)
Lemma rootSlot_inj (a b : list Z) :
  a <> [] -> b <> [] ->
  (forall x, In x a -> x = 0 \/ x = 1) ->
  (forall x, In x b -> x = 0 \/ x = 1) ->
  Z.to_nat (slotFrom 0 a) = Z.to_nat (slotFrom 0 b) -> a = b.
Proof.
  intros Ha Hb Ha01 Hb01 E.
  assert (Hat0 : atLevel 0 0) by (unfold atLevel; simpl; lia).
  pose proof (slotFrom_level a 0 0 ltac:(lia) Hat0 Ha) as La.
  pose proof (slotFrom_level b 0 0 ltac:(lia) Hat0 Hb) as Lb.
  assert (Hla : (0 < List.length a)%nat) by (destruct a; simpl; [congruence | lia]).
  assert (Hlb : (0 < List.length b)%nat) by (destruct b; simpl; [congruence | lia]).
  assert (H0a : 0 <= slotFrom 0 a).
  { unfold slotLevel in La.
    pose proof (Z.pow_pos_nonneg 2 (0 + Z.of_nat (List.length a) - 1)). lia. }
  assert (H0b : 0 <= slotFrom 0 b).
  { unfold slotLevel in Lb.
    pose proof (Z.pow_pos_nonneg 2 (0 + Z.of_nat (List.length b) - 1)). lia. }
  apply Z2Nat.inj in E; trivial.
  rewrite E in La.
  pose proof (slotLevel_inj (0 + Z.of_nat (List.length a) - 1)
                (0 + Z.of_nat (List.length b) - 1) (slotFrom 0 b)
                ltac:(lia) ltac:(lia) La Lb).
  apply (slotFrom_inj 0); trivial. lia.
Qed.

Section FlatInserted.
Variables (emptyValue depth : Z).
Hypothesis depth_pos : 0 < depth.

Lemma flatInv_empty : flatInv emptyValue depth [] (Flat.empty emptyValue depth).
Proof.
  split; [| split].
  - unfold Flat.empty. rewrite length_replicate.
    unfold Flat._length. rewrite shiftl2 by lia.
    pose proof (Z.pow_pos_nonneg 2 depth ltac:(lia) ltac:(lia)). lia.
  - intros c [].
  - intros x v Hx Hv. exfalso. unfold Flat.empty in Hx.
    apply lookup_replicate in Hx as [-> _]. congruence.
Qed.

Lemma bitsOf_nonempty (c : HuffmanCode) : 0 < length c -> bitsOf c <> [].
Proof.
  intros H E. apply (f_equal (@List.length Z)) in E. unfold bitsOf in E.
  rewrite codeBits_length in E. simpl in E. lia.
Qed.

Lemma take_nonempty (bits : list Z) (m : nat) :
  (0 < m)%nat -> bits <> [] -> take m bits <> [].
Proof.
  intros Hm Hne. destruct bits; [congruence |]. destruct m; [lia |].
  discriminate.
Qed.

Lemma flatInv_insert (cs : list HuffmanCode) (c : HuffmanCode)
    (table table' : list Z) (u : unit) :
  flatInv emptyValue depth cs table ->
  0 < length c ->
  (forall c0 m, In c0 cs -> bitsOf c <> take m (bitsOf c0)) ->
  Flat.insert emptyValue depth c table = Ok (u, table') ->
  flatInv emptyValue depth (cs ++ [c]) table'.
Proof.
  intros (Hsz & Hcodes & Hslots) Hlen Hfree Hins.
  destruct (flat_insert_effect emptyValue depth table table' c u depth_pos
              Hsz Hlen Hins) as (Hval & Hfit & -> & Hpath).
  pose proof (bitsOf_nonempty c Hlen) as Hne.
  assert (Hbl : List.length (bitsOf c) = Z.to_nat (length c))
    by (unfold bitsOf; apply codeBits_length).
  assert (Hlast : table !! Z.to_nat (slotFrom 0 (bitsOf c)) = Some emptyValue).
  { specialize (Hpath (List.length (bitsOf c)) ltac:(lia)).
    rewrite firstn_all in Hpath. exact Hpath. }
  split; [rewrite length_insert; exact Hsz |]. split.
  - intros c1 Hin. apply in_app_or in Hin as [Hin | [<- | []]].
    + destruct (Hcodes c1 Hin) as (Hl1 & Hv1 & Hst1 & Hp1).
      split; [exact Hl1 |]. split; [exact Hv1 |]. split.
      * rewrite list_lookup_insert_ne; [exact Hst1 |].
        intros E. rewrite E in Hlast. congruence.
      * intros m Hm. rewrite list_lookup_insert_ne; [apply Hp1; exact Hm |].
        intros E. apply rootSlot_inj in E.
        -- apply (Hfree c1 m Hin). exact E.
        -- exact Hne.
        -- apply take_nonempty; [lia | apply bitsOf_nonempty; lia].
        -- apply codeBits_01.
        -- apply take_01, codeBits_01.
    + split; [lia |]. split; [exact Hval |]. split.
      * apply list_lookup_insert_eq. apply lookup_lt_Some in Hlast. exact Hlast.
      * intros m Hm.
        rewrite list_lookup_insert_ne; [apply Hpath; lia |].
        intros E. apply rootSlot_inj in E.
        -- apply (f_equal (@List.length Z)) in E.
           rewrite length_take in E. lia.
        -- exact Hne.
        -- apply take_nonempty; [lia | exact Hne].
        -- apply codeBits_01.
        -- apply take_01, codeBits_01.
  - intros x v Hx Hv.
    destruct (Nat.eq_dec x (Z.to_nat (slotFrom 0 (bitsOf c)))) as [-> | Hne'].
    + rewrite list_lookup_insert_eq in Hx
        by (apply lookup_lt_Some in Hlast; exact Hlast).
      injection Hx as <-. exists c.
      split; [apply in_or_app; right; left; reflexivity |].
      split; reflexivity.
    + rewrite list_lookup_insert_ne in Hx by congruence.
      destruct (Hslots x v Hx Hv) as (c1 & Hin & E1 & E2).
      exists c1. split; [apply in_or_app; left; exact Hin |].
      split; trivial.
Qed.

Lemma flat_insert_all_inv (cs : list HuffmanCode) :
  forall (before : list HuffmanCode) (table table' : list Z) (u : unit),
    flatInv emptyValue depth before table ->
    (forall c, In c cs -> 0 < length c) ->
    (forall c0 c m, In c0 before -> In c cs -> bitsOf c <> take m (bitsOf c0)) ->
    laterNotPrefix cs ->
    Flat.insert_all emptyValue depth cs table = Ok (u, table') ->
    flatInv emptyValue depth (before ++ cs) table'.
Proof.
  induction cs as [| c cs IH];
    intros before table table' u Hinv Hlen Hfree Hlater H.
  - simpl in H. injection H as _ <-. rewrite app_nil_r. exact Hinv.
  - simpl in H. apply bind_inv_Ok in H as (u1 & t1 & Hins & H).
    destruct Hlater as (Hc & Hlater).
    replace (before ++ c :: cs) with ((before ++ [c]) ++ cs)
      by (rewrite <- app_assoc; reflexivity).
    apply (IH _ t1 table' u); trivial.
    + apply (flatInv_insert before c table t1 u1); trivial.
      * apply Hlen. left. reflexivity.
      * intros c0 m Hin. apply Hfree; [exact Hin | left; reflexivity].
    + intros c0 Hin. apply Hlen. right. exact Hin.
    + intros c0 c1 m Hin0 Hin1.
      apply in_app_or in Hin0 as [Hin0 | [<- | []]].
      * apply Hfree; [exact Hin0 | right; exact Hin1].
      * apply Hc. exact Hin1.
Qed.
End FlatInserted.

(** What [decode] returns on a flat table that holds the codes [cs]. *)
Lemma flat_decode_of_inv {St : Type} (emptyValue depth : Z) (rd : M St Z)
    (cs : list HuffmanCode) (table : list Z) (s s' : St) (v : Z) :
  0 < depth -> bitValued rd ->
  flatInv emptyValue depth cs table ->
  (Flat.decode emptyValue depth rd table s = Ok (v, s') <->
   exists c, In c cs /\ value c = v /\ reads rd s (bitsOf c) s').
Proof.
  intros Hd Hrd (Hsz & Hcodes & Hslots).
  assert (Hat0 : atLevel 0 0) by (unfold atLevel; simpl; lia).
  unfold Flat.decode. split.
  - intros H.
    apply (decode_loop_sound emptyValue depth rd table Hsz (Z.to_nat depth) _ 0 0)
      in H; trivial; try lia.
    destruct H as (bits & Hne & _ & Hreads & Hv & Hnv & _).
    destruct (Hslots _ _ Hv Hnv) as (c & Hin & Hval & Hslot).
    destruct (Hcodes c Hin) as (Hl & _).
    exists c. split; [exact Hin |]. split; [exact Hval |].
    replace (bitsOf c) with bits; [exact Hreads |].
    apply rootSlot_inj; trivial.
    + intros E. apply (f_equal (@List.length Z)) in E. unfold bitsOf in E.
      rewrite codeBits_length in E. simpl in E. lia.
    + eapply reads_01; eauto.
    + apply codeBits_01.
  - intros (c & Hin & <- & Hreads).
    destruct (Hcodes c Hin) as (Hl & Hv & Hst & Hp).
    assert (Hbl : List.length (bitsOf c) = Z.to_nat (length c))
      by (unfold bitsOf; apply codeBits_length).
    apply (decode_loop_complete emptyValue depth rd table (bitsOf c) _ 0);
      trivial; try lia.
    intros E. rewrite E in Hbl. simpl in Hbl. lia.
Qed.

(** X8: After the codes of a list, each of at least one bit and none
    equal to or a prefix of a code before it in the list, have been
    inserted with success into a freshly constructed flat decoder,
    [decode] returns a value exactly when the bits it reads are the
    bits of one of the codes, and the value is that code's. *)
Theorem flat_decode_inserted {St : Type} (emptyValue depth : Z) (rd : M St Z)
    (cs : list HuffmanCode) (table : list Z) (u : unit) (s s' : St) (v : Z) :
  0 < depth <= 29 -> bitValued rd ->
  (forall c, In c cs -> 0 < length c) ->
  laterNotPrefix cs ->
  Flat.insert_all emptyValue depth cs (Flat.empty emptyValue depth)
  = Ok (u, table) ->
  (Flat.decode emptyValue depth rd table s = Ok (v, s') <->
   exists c, In c cs /\ value c = v /\ reads rd s (bitsOf c) s').
Proof.
  intros Hd Hrd Hlen Hlater Hall.
  apply flat_decode_of_inv; [lia | exact Hrd |].
  apply (flat_insert_all_inv emptyValue depth ltac:(lia) cs [] _ table u
           (flatInv_empty emptyValue depth ltac:(lia)) Hlen); trivial.
  intros c0 c m [].
Qed.

Lemma flat_decode_inserted_witness :
  0 < 3 <= 29
  /\ bitValued (readBit sampleLiteral)
  /\ (forall c, In c stdLengthCodes -> 0 < length c)
  /\ laterNotPrefix stdLengthCodes
  /\ Flat.insert_all 255 3 stdLengthCodes (Flat.empty 255 3)
     = Ok (tt, stdLengthTable)
  /\ (Flat.decode 255 3 (readBit sampleLiteral) stdLengthTable (mkReader 16 0 0)
      = Ok (2, mkReader 15 16 5)
      <-> exists c,
            In c stdLengthCodes /\ value c = 2
            /\ reads (readBit sampleLiteral) (mkReader 16 0 0) (bitsOf c)
                 (mkReader 15 16 5)).
Proof.
  assert (Hd : 0 < 3 <= 29) by lia.
  assert (Hrd : bitValued (readBit sampleLiteral)).
  { intros s b s1 H. apply readBit_range in H. lia. }
  assert (Hlen : forall c, In c stdLengthCodes -> 0 < length c).
  { intros c [<- | [<- | [<- | [<- | []]]]]; simpl; lia. }
  assert (Hfree : laterNotPrefix stdLengthCodes).
  { repeat split; intros c' m Hin; simpl in Hin;
      repeat (destruct Hin as [<- | Hin]); try contradiction;
      do 4 (try destruct m as [| m]); discriminate. }
  assert (Hall : Flat.insert_all 255 3 stdLengthCodes (Flat.empty 255 3)
                 = Ok (tt, stdLengthTable)) by reflexivity.
  split; [exact Hd |]. split; [exact Hrd |]. split; [exact Hlen |].
  split; [exact Hfree |]. split; [exact Hall |].
  exact (flat_decode_inserted 255 3 (readBit sampleLiteral) stdLengthCodes
           stdLengthTable tt (mkReader 16 0 0) (mkReader 15 16 5) 2
           Hd Hrd Hlen Hfree Hall).
Defined.

(** ** The flat decoder: which codes [insert] accepts *)

Section FlatHolds.
Variables (emptyValue depth : Z).
Hypothesis depth_pos : 0 < depth.

Lemma flatHolds_empty :
  flatHolds emptyValue depth [] (Flat.empty emptyValue depth).
Proof.
  destruct (flatInv_empty emptyValue depth depth_pos) as (H1 & _ & H3).
  split; [exact H1 |]. split; [intros c [] | exact H3].
Qed.

Lemma flatHolds_insert (cs : list HuffmanCode) (c : HuffmanCode)
    (table table' : list Z) (u : unit) :
  flatHolds emptyValue depth cs table ->
  0 < length c ->
  Flat.insert emptyValue depth c table = Ok (u, table') ->
  flatHolds emptyValue depth (cs ++ [c]) table'.
Proof.
  intros (Hsz & Hcodes & Hslots) Hlen Hins.
  destruct (flat_insert_effect emptyValue depth table table' c u depth_pos
              Hsz Hlen Hins) as (Hval & Hfit & -> & Hpath).
  pose proof (bitsOf_nonempty c Hlen) as Hne.
  assert (Hlast : table !! Z.to_nat (slotFrom 0 (bitsOf c)) = Some emptyValue).
  { assert (Hbl : List.length (bitsOf c) = Z.to_nat (length c))
      by (unfold bitsOf; apply codeBits_length).
    specialize (Hpath (List.length (bitsOf c)) ltac:(lia)).
    rewrite firstn_all in Hpath. exact Hpath. }
  split; [rewrite length_insert; exact Hsz |]. split.
  - intros c1 Hin. apply in_app_or in Hin as [Hin | [<- | []]].
    + destruct (Hcodes c1 Hin) as (Hn1 & Hv1 & Hst1).
      split; [exact Hn1 |]. split; [exact Hv1 |].
      rewrite list_lookup_insert_ne; [exact Hst1 |].
      intros E. rewrite E in Hlast. congruence.
    + split; [exact Hne |]. split; [exact Hval |].
      apply list_lookup_insert_eq. apply lookup_lt_Some in Hlast. exact Hlast.
  - intros x v Hx Hv.
    destruct (Nat.eq_dec x (Z.to_nat (slotFrom 0 (bitsOf c)))) as [-> | Hne'].
    + rewrite list_lookup_insert_eq in Hx
        by (apply lookup_lt_Some in Hlast; exact Hlast).
      injection Hx as <-. exists c.
      split; [apply in_or_app; right; left; reflexivity |].
      split; reflexivity.
    + rewrite list_lookup_insert_ne in Hx by congruence.
      destruct (Hslots x v Hx Hv) as (c1 & Hin & E1 & E2).
      exists c1. split; [apply in_or_app; left; exact Hin |].
      split; trivial.
Qed.

Lemma flat_insert_all_holds (cs : list HuffmanCode) :
  forall (before : list HuffmanCode) (table table' : list Z) (u : unit),
    flatHolds emptyValue depth before table ->
    (forall c, In c cs -> 0 < length c) ->
    Flat.insert_all emptyValue depth cs table = Ok (u, table') ->
    flatHolds emptyValue depth (before ++ cs) table'.
Proof.
  induction cs as [| c cs IH]; intros before table table' u Hinv Hlen H.
  - simpl in H. injection H as _ <-. rewrite app_nil_r. exact Hinv.
  - simpl in H. apply bind_inv_Ok in H as (u1 & t1 & Hins & H).
    replace (before ++ c :: cs) with ((before ++ [c]) ++ cs)
      by (rewrite <- app_assoc; reflexivity).
    apply (IH _ t1 table' u); trivial.
    + apply (flatHolds_insert before c table t1 u1); trivial.
      apply Hlen. left. reflexivity.
    + intros c0 Hin. apply Hlen. right. exact Hin.
Qed.

(** A code that has none of the codes held as a prefix is accepted. *)
Lemma flat_insert_accepts (cs : list HuffmanCode) (table : list Z)
    (c' : HuffmanCode) :
  flatHolds emptyValue depth cs table ->
  value c' <> emptyValue -> 0 <= length c' <= depth ->
  (forall c m, In c cs -> bitsOf c <> take m (bitsOf c')) ->
  exists table', Flat.insert emptyValue depth c' table = Ok (tt, table').
Proof.
  intros (Hsz & Hcodes & Hslots) Hval Hlen Hfree.
  unfold Flat.insert.
  destruct (Z.eqb_spec (value c') emptyValue); [contradiction |].
  destruct (Z.ltb_spec depth (length c')); [lia |]. cbn [orb].
  destruct (Z.eq_dec (length c') 0) as [E0 | Hpos].
  { rewrite E0. simpl. eauto. }
  eexists.
  apply (flat_insert_loop_stores emptyValue depth c' _ table 0 0);
    trivial; try lia.
  - unfold atLevel. simpl. lia.
  - intros m Hm.
    destruct (slotLevel_in_table depth (Z.of_nat m - 1) _ table Hsz
                ltac:(lia) (codeSlot_level (code c') _ m Hm)) as [_ Hin].
    destruct (lookup_lt_is_Some_2 table _ Hin) as [v Hv].
    destruct (Z.eq_dec v emptyValue) as [-> | Hne]; [exact Hv |].
    exfalso. destruct (Hslots _ _ Hv Hne) as (c & Hinc & _ & Eslot).
    destruct (Hcodes c Hinc) as (Hne1 & _ & _).
    apply (Hfree c m Hinc). symmetry. apply rootSlot_inj; trivial.
    + apply take_nonempty; [lia |]. apply bitsOf_nonempty. lia.
    + apply take_01, codeBits_01.
    + apply codeBits_01.
Qed.
End FlatHolds.

(** X7: On a flat decoder built by successful inserts of codes of at
    least one bit, a further [insert] is decided by the codes held that
    are a prefix of the new code.  It returns when the value is not
    EMPTY, the length is at most [depth] and no code held equals the new
    code or is a prefix of it; so it also accepts a code that is a
    proper prefix of a code held.  It raises DecompressionError when the
    value is EMPTY, the length exceeds [depth], or a code held equals
    the new code or is a prefix of it. *)
Theorem flat_insert_accepts_iff (emptyValue depth : Z) (cs : list HuffmanCode)
    (table : list Z) (u : unit) (c' : HuffmanCode) :
  0 < depth <= 29 ->
  (forall c, In c cs -> 0 < length c) ->
  0 <= length c' ->
  Flat.insert_all emptyValue depth cs (Flat.empty emptyValue depth)
  = Ok (u, table) ->
  (value c' <> emptyValue /\ length c' <= depth
   /\ (forall c m, In c cs -> bitsOf c <> take m (bitsOf c')) ->
   exists table', Flat.insert emptyValue depth c' table = Ok (tt, table'))
  /\ (value c' = emptyValue \/ depth < length c'
      \/ (exists c m, In c cs /\ bitsOf c = take m (bitsOf c')) ->
      Flat.insert emptyValue depth c' table = Raise DecompressionError).
Proof.
  intros Hd Hlen Hlen' Hall.
  pose proof (flat_insert_all_holds emptyValue depth ltac:(lia) cs [] _ table u
                (flatHolds_empty emptyValue depth ltac:(lia)) Hlen Hall)
    as Hholds.
  cbn [app] in Hholds. split.
  - intros (Hv & Hfit & Hfree).
    apply (flat_insert_accepts emptyValue depth cs); trivial. lia.
  - intros [Hv | [Hlong | (c & m & Hin & Hpre)]].
    + apply flat_insert_empty_value. exact Hv.
    + apply flat_insert_too_long. exact Hlong.
    + destruct Hholds as (Hsz & Hcodes & _).
      apply (flat_insert_rejects_extension emptyValue depth table c c' Hsz
               (Hcodes c Hin) Hlen').
      exists (Nat.min m (List.length (bitsOf c'))). split; [lia |].
      rewrite Hpre. destruct (Nat.le_gt_cases m (List.length (bitsOf c'))).
      * rewrite Nat.min_l by lia. reflexivity.
      * rewrite Nat.min_r by lia. rewrite !firstn_all2 by lia. reflexivity.
Qed.

Lemma flat_insert_accepts_iff_witness :
  0 < 2 <= 29
  /\ (forall c, In c [mkCode 2 2 1] -> 0 < length c)
  /\ 0 <= length (mkCode 1 1 2)
  /\ Flat.insert_all 255 2 [mkCode 2 2 1] (Flat.empty 255 2)
     = Ok (tt, [255; 255; 255; 255; 1; 255])
  /\ (value (mkCode 1 1 2) <> 255 /\ length (mkCode 1 1 2) <= 2
      /\ (forall c m, In c [mkCode 2 2 1] ->
            bitsOf c <> take m (bitsOf (mkCode 1 1 2))) ->
      exists table',
        Flat.insert 255 2 (mkCode 1 1 2) [255; 255; 255; 255; 1; 255]
        = Ok (tt, table'))
  /\ (value (mkCode 1 1 2) = 255 \/ 2 < length (mkCode 1 1 2)
      \/ (exists c m, In c [mkCode 2 2 1]
                      /\ bitsOf c = take m (bitsOf (mkCode 1 1 2))) ->
      Flat.insert 255 2 (mkCode 1 1 2) [255; 255; 255; 255; 1; 255]
      = Raise DecompressionError).
Proof.
  assert (Hd : 0 < 2 <= 29) by lia.
  assert (Hlen : forall c, In c [mkCode 2 2 1] -> 0 < length c).
  { intros c [<- | []]. simpl. lia. }
  assert (Hlen' : 0 <= length (mkCode 1 1 2)) by (simpl; lia).
  assert (Hall : Flat.insert_all 255 2 [mkCode 2 2 1] (Flat.empty 255 2)
                 = Ok (tt, [255; 255; 255; 255; 1; 255])) by reflexivity.
  split; [exact Hd |]. split; [exact Hlen |]. split; [exact Hlen' |].
  split; [exact Hall |].
  exact (flat_insert_accepts_iff 255 2 [mkCode 2 2 1]
           [255; 255; 255; 255; 1; 255] tt (mkCode 1 1 2) Hd Hlen Hlen' Hall).
Defined.

(** ** The decoders stay inside their tables *)

Lemma flat_insert_loop_defined (emptyValue depth : Z) (c : HuffmanCode) (j : nat) :
  forall (table : list Z) (i k : Z),
    Z.of_nat (List.length table) = Flat._length depth ->
    0 <= k -> k + Z.of_nat j <= depth -> atLevel k i ->
    post (fun _ t' => List.length t' = List.length table)
         (Flat.insert_loop emptyValue c j i table).
Proof.
  induction j as [| j IH]; intros table i k Hsz Hk Hd Hl; [reflexivity |].
  cbn [Flat.insert_loop].
  set (i' := if codeBitAt (code c) (Z.of_nat j) then i + 1 else i).
  assert (Hi' : i <= i' <= i + 1) by (subst i'; destruct (codeBitAt _ _); lia).
  pose proof (Z.pow_pos_nonneg 2 k ltac:(lia) Hk) as Hpow.
  assert (Hin : 0 <= i' < Z.of_nat (List.length table)).
  { rewrite Hsz. unfold Flat._length. rewrite shiftl2 by lia.
    unfold atLevel in Hl.
    assert (2 ^ (k + 1) <= 2 ^ depth) by (apply Z.pow_le_mono_r; lia).
    rewrite Z.pow_add_r, Z.pow_1_r in * by lia. lia. }
  unfold bind at 1, get.
  eapply post_bind; [apply (post_load (fun _ t => t = table)); auto |].
  intros r t _ ->.
  destruct (negb (r =? emptyValue)); [reflexivity |].
  assert (Hl' : atLevel (k + 1) (i' * 2 + 2)).
  { unfold atLevel in *. rewrite Z.pow_add_r, Z.pow_1_r by lia. lia. }
  destruct j as [| j].
  - cbn [Nat.eqb]. unfold bind, put. cbn [Flat.insert_loop ret post].
    apply length_insert.
  - change (Nat.eqb (S (S j)) 1) with false. cbv iota.
    unfold bind at 1, ret. apply (IH table _ (k + 1)); trivial; lia.
Qed.

(** X9: The flat decoder never indexes its array outside its [_length]
    slots: [insert] returns or raises DecompressionError whatever the
    code is, and [decode] does so whatever the table holds, provided the
    bit reader does. *)
Theorem flat_decoder_in_bounds {St : Type} (emptyValue depth : Z)
    (table : list Z) (rd : M St Z) (P : St -> Prop) :
  0 < depth <= 29 ->
  Z.of_nat (List.length table) = Flat._length depth ->
  (forall c, post (fun _ t' => List.length t' = List.length table)
               (Flat.insert emptyValue depth c table))
  /\ (hoare P rd (fun _ s => P s) ->
      hoare P (Flat.decode emptyValue depth rd table)
            (fun v s' => P s' /\ v <> emptyValue /\ In v table)).
Proof.
  intros Hd Hsz. split.
  - intros c. unfold Flat.insert.
    destruct (value c =? emptyValue); [reflexivity |].
    destruct (Z.ltb_spec depth (length c)); [reflexivity |]. cbn [orb].
    apply (flat_insert_loop_defined emptyValue depth c _ table 0 0); trivial;
      [lia | lia |].
    unfold atLevel. simpl. lia.
  - intros Hrd. apply flat_decode_defined; trivial. lia.
Qed.

Lemma flat_decoder_in_bounds_witness :
  0 < 3 <= 29
  /\ Z.of_nat (List.length stdLengthTable) = Flat._length 3
  /\ (forall c, post (fun _ t' => List.length t' = List.length stdLengthTable)
                  (Flat.insert 255 3 c stdLengthTable))
  /\ (hoare (fun _ => True) popBit (fun _ _ => True) ->
      hoare (fun _ => True) (Flat.decode 255 3 popBit stdLengthTable)
            (fun v _ => True /\ v <> 255 /\ In v stdLengthTable)).
Proof.
  assert (Hd : 0 < 3 <= 29) by lia.
  assert (Hsz : Z.of_nat (List.length stdLengthTable) = Flat._length 3)
    by reflexivity.
  split; [exact Hd |]. split; [exact Hsz |].
  exact (flat_decoder_in_bounds 255 3 stdLengthTable popBit (fun _ => True)
           Hd Hsz).
Defined.

Section DynSafety.
Variable emptyValue : Z.

Lemma dynInsertAll_wf (cs : list HuffmanCode) :
  forall (table table' : list Dyn.Node) (u : unit),
    wfTable table ->
    dynInsertAll emptyValue cs table = Ok (u, table') -> wfTable table'.
Proof.
  induction cs as [| c cs IH]; intros table table' u Hwf H; simpl in H.
  - injection H as _ <-. exact Hwf.
  - apply bind_inv_Ok in H as (u1 & t1 & Hins & H).
    eapply IH; [| exact H]. eapply insert_wf; eauto.
Qed.
End DynSafety.

(** X13: On a dynamic decoder built by any sequence of successful
    inserts of codes of at most 31 bits, every link points inside the
    node vector, and [insert] of such a code and [decode] index the
    vector only at nodes it holds: each returns or raises
    DecompressionError, provided the bit reader does. *)
Theorem dyn_decoder_in_bounds {St : Type} (emptyValue : Z)
    (cs : list HuffmanCode) (table : list Dyn.Node) (u : unit)
    (rd : M St Z) (P : St -> Prop) :
  (forall c, In c cs -> 0 <= length c <= 31) ->
  dynInsertAll emptyValue cs (Dyn.empty emptyValue) = Ok (u, table) ->
  wfTable table
  /\ (forall c, 0 <= length c <= 31 ->
        post (fun _ _ => True) (Dyn.insert emptyValue c table))
  /\ (hoare P rd (fun _ s => P s) ->
      hoare P (Dyn.decode emptyValue rd table) (fun v s' => P s' /\ v <> emptyValue)).
Proof.
  intros _ Hall.
  assert (Hwf : wfTable table)
    by (eapply dynInsertAll_wf; [apply empty_wf | exact Hall]).
  split; [exact Hwf |]. split.
  - intros c _. apply insert_defined. exact Hwf.
  - intros Hrd s Hs.
    eapply post_weaken.
    + apply (dyn_decode_defined emptyValue (fun _ => True) rd table P);
        trivial.
      intros j node _. auto.
    + intros v s1 (H1 & H2 & _). auto.
Qed.

Lemma dyn_decoder_in_bounds_witness :
  (forall c, In c sampleCodes -> 0 <= length c <= 31)
  /\ dynInsertAll 512 sampleCodes (Dyn.empty 512) = Ok (tt, sampleTable)
  /\ wfTable sampleTable
  /\ (forall c, 0 <= length c <= 31 ->
        post (fun _ _ => True) (Dyn.insert 512 c sampleTable))
  /\ (hoare (fun _ => True) popBit (fun _ _ => True) ->
      hoare (fun _ => True) (Dyn.decode 512 popBit sampleTable)
            (fun v _ => True /\ v <> 512)).
Proof.
  assert (Hlen : forall c, In c sampleCodes -> 0 <= length c <= 31).
  { intros c [<- | [<- | []]]; simpl; lia. }
  assert (Hall : dynInsertAll 512 sampleCodes (Dyn.empty 512)
                 = Ok (tt, sampleTable)) by reflexivity.
  split; [exact Hlen |]. split; [exact Hall |].
  exact (dyn_decoder_in_bounds 512 sampleCodes sampleTable tt popBit
           (fun _ => True) Hlen Hall).
Defined.

(** ** Bytes once written are final *)

Create HintDb settles discriminated.

Section Settles.
Variables (bufPtr : list byte) (rawSize : Z).

Lemma settles_same {A} (m : M State A) :
  (forall s a s', m s = Ok (a, s') ->
     dest s' = dest s /\ destOffset s' = destOffset s /\ writes s' = writes s) ->
  settles rawSize m.
Proof.
  intros Hm s a s' (H1 & H2 & H3) H.
  destruct (Hm _ _ _ H) as (Hd & Ho & Hw).
  unfold outputInv. rewrite Hd, Ho, Hw.
  split; [auto |]. split; [lia |]. auto.
Qed.

Lemma settles_ret {A} (a : A) : settles rawSize (ret a).
Proof. apply settles_same. intros s a0 s' [= <- <-]. auto. Qed.

Lemma settles_throw {A} (e : exn) : settles rawSize (@throw State A e).
Proof. intros s a s' _ H. discriminate. Qed.

Lemma settles_undefined {A} : settles rawSize (@undefined State A).
Proof. intros s a s' _ H. discriminate. Qed.

Lemma settles_outOfFuel {A} : settles rawSize (@outOfFuel State A).
Proof. intros s a s' _ H. discriminate. Qed.

Lemma settles_get : settles rawSize get.
Proof. apply settles_same. intros s a0 s' [= <- <-]. auto. Qed.

Lemma settles_bind {A B} (m : M State A) (k : A -> M State B) :
  settles rawSize m -> (forall a, settles rawSize (k a)) ->
  settles rawSize (bind m k).
Proof.
  intros Hm Hk s b s' Hinv H.
  apply bind_inv_Ok in H as (a & s1 & H1 & H2).
  destruct (Hm _ _ _ Hinv H1) as (Hinv1 & Hle1 & Hlen1 & Hb1).
  destruct (Hk a _ _ _ Hinv1 H2) as (Hinv2 & Hle2 & Hlen2 & Hb2).
  split; [trivial |]. split; [lia |]. split; [congruence |].
  intros j Hj. rewrite Hb2 by lia. apply Hb1. exact Hj.
Qed.

Lemma settles_onReader {A} (m : M Reader A) : settles rawSize (onReader m).
Proof.
  apply settles_same. intros s a s' H.
  apply onReader_inv_Ok in H as (_ & Hd & Ho & Hw). auto.
Qed.

Lemma settles_load {A} (l : list A) (i : Z) : settles rawSize (load l i).
Proof.
  apply settles_same. intros s a s' H.
  apply load_inv_Ok in H as (_ & _ & ->). auto.
Qed.

Lemma settles_lift {A} (r : outcome A) : settles rawSize (lift r).
Proof.
  apply settles_same. intros s a s' H. unfold lift in H.
  destruct r; try discriminate. injection H as <- <-. auto.
Qed.

Lemma settles_writeByte (v : Z) : settles rawSize (writeByte v).
Proof.
  intros s a s' Hinv H.
  destruct (keeps_writeByte rawSize v _ _ _ Hinv H) as [Hinv' Hle].
  apply writeByte_inv_Ok in H as (Hd & ->). cbn [dest destOffset] in *.
  split; [exact Hinv' |]. split; [lia |]. split; [apply length_insert |].
  intros j Hj. apply list_lookup_insert_ne. lia.
Qed.

Hint Resolve settles_ret settles_throw settles_undefined settles_outOfFuel
  settles_get settles_onReader settles_load settles_lift settles_writeByte
  : settles.

Ltac settles_step :=
  match goal with
  | |- settles _ (bind _ _) => apply settles_bind; [| intros ?]
  | |- settles _ (if ?b then _ else _) => destruct b
  | |- settles _ (let x := _ in _) => cbv zeta
  | |- settles _ _ => solve [auto with settles]
  end.

Lemma settles_copyLoop (n : nat) :
  forall distance, settles rawSize (copyLoop n distance).
Proof.
  induction n as [| n IH]; intros distance; simpl; repeat settles_step.
Qed.

Lemma settles_literalLoop (n : nat) : settles rawSize (literalLoop bufPtr n).
Proof.
  induction n as [| n IH]; simpl; repeat settles_step.
Qed.

Hint Resolve settles_copyLoop settles_literalLoop : settles.

Lemma settles_stdToken (ld dd : list Z) :
  settles rawSize (stdToken bufPtr rawSize ld dd).
Proof.
  unfold stdToken, stdLiteralRun, stdMatch, stdMatchCopy, stdCopy.
  repeat settles_step.
Qed.

Lemma settles_stdLoop (ld dd : list Z) (fuel : nat) :
  settles rawSize (stdLoop bufPtr rawSize ld dd fuel).
Proof.
  pose proof (settles_stdToken ld dd).
  induction fuel as [| fuel IH]; simpl; repeat settles_step.
Qed.

Lemma settles_lzhItem (ld dd : list Dyn.Node) :
  settles rawSize (lzhItem bufPtr rawSize ld dd).
Proof.
  unfold lzhItem, lzhCopy. repeat settles_step.
Qed.

Lemma settles_lzhItems (ld dd : list Dyn.Node) (n : nat) :
  settles rawSize (lzhItems bufPtr rawSize ld dd n).
Proof.
  pose proof (settles_lzhItem ld dd).
  induction n as [| n IH]; simpl; repeat settles_step.
Qed.

Lemma settles_lzhBlock : settles rawSize (lzhBlock bufPtr rawSize).
Proof.
  unfold lzhBlock. repeat settles_step. apply settles_lzhItems.
Qed.

Lemma settles_lzhLoop (fuel : nat) : settles rawSize (lzhLoop bufPtr rawSize fuel).
Proof.
  pose proof settles_lzhBlock.
  induction fuel as [| fuel IH]; simpl; repeat settles_step.
Qed.

Lemma settles_decodeBody (isLZH : bool) :
  settles rawSize (decodeBody bufPtr rawSize isLZH).
Proof.
  unfold decodeBody, stdMode.
  pose proof settles_lzhLoop. pose proof settles_stdLoop.
  repeat settles_step.
Qed.
End Settles.

(** X18: Every byte the decode writes is final.  No standard-mode token,
    LZH token or LZH block changes a byte at or above the write cursor
    it starts from or moves the cursor up, and when the decode returns,
    the raw buffer has its size and the bytes from index rawSize on as
    before the call. *)
Theorem written_bytes_final (d : CRMDecompressor) (rawData : list Z) :
  0 <= _rawSize d ->
  settles (_rawSize d)
    (stdToken (_packedData d) (_rawSize d) stdLengthTable stdDistanceTable)
  /\ (forall ld dd,
        settles (_rawSize d) (lzhItem (_packedData d) (_rawSize d) ld dd))
  /\ settles (_rawSize d) (lzhBlock (_packedData d) (_rawSize d))
  /\ forall s,
       decodePhase d rawData = Ok s ->
       List.length (dest s) = List.length rawData
       /\ forall j, _rawSize d <= j ->
            dest s !! Z.to_nat j = rawData !! Z.to_nat j.
Proof.
  intros Hraw.
  split; [apply settles_stdToken |]. split; [apply settles_lzhItem |].
  split; [apply settles_lzhBlock |].
  intros s H. unfold decodePhase in H.
  destruct (Z.ltb_spec (Z.of_nat (List.length rawData)) (_rawSize d)) as [| Hlen];
    [discriminate |].
  apply decodeFrom_inv in H as (r & u & _ & Hbody).
  assert (Hinit : outputInv (_rawSize d) (mkState r rawData (_rawSize d) [])).
  { unfold outputInv. cbn [destOffset dest writes]. rewrite Z.sub_diag.
    split; [lia | split; [lia | reflexivity]]. }
  destruct (settles_decodeBody (_packedData d) (_rawSize d) (_isLZH d) _ _ _
              Hinit Hbody) as (_ & _ & Hl & Hb).
  split; [exact Hl | exact Hb].
Qed.

Lemma written_bytes_final_witness :
  0 <= _rawSize (decoderOf sampleLiteral)
  /\ settles (_rawSize (decoderOf sampleLiteral))
       (stdToken (_packedData (decoderOf sampleLiteral))
          (_rawSize (decoderOf sampleLiteral)) stdLengthTable stdDistanceTable)
  /\ (forall ld dd,
        settles (_rawSize (decoderOf sampleLiteral))
          (lzhItem (_packedData (decoderOf sampleLiteral))
             (_rawSize (decoderOf sampleLiteral)) ld dd))
  /\ settles (_rawSize (decoderOf sampleLiteral))
       (lzhBlock (_packedData (decoderOf sampleLiteral))
          (_rawSize (decoderOf sampleLiteral)))
  /\ forall s,
       decodePhase (decoderOf sampleLiteral) [0; 7] = Ok s ->
       List.length (dest s) = List.length [0; 7]
       /\ forall j, _rawSize (decoderOf sampleLiteral) <= j ->
            dest s !! Z.to_nat j = [0; 7] !! Z.to_nat j.
Proof.
  assert (H : 0 <= _rawSize (decoderOf sampleLiteral)) by (vm_compute; discriminate).
  split; [exact H |].
  exact (written_bytes_final (decoderOf sampleLiteral) [0; 7] H).
Defined.

(** ** The decoded bytes do not depend on what the raw buffer held *)

Create HintDb oblivious discriminated.

Section Oblivious.
Variables (bufPtr : list byte) (rawSize : Z).
Hypothesis rawSize_32 : rawSize < 4294967296.

Lemma oblivious_ret {A} (a : A) : oblivious rawSize (ret a).
Proof. intros s1 s2 H1 H2 Ha. simpl. auto. Qed.

Lemma oblivious_throw {A} (e : exn) : oblivious rawSize (@throw State A e).
Proof. intros s1 s2 H1 H2 Ha. reflexivity. Qed.

Lemma oblivious_undefined {A} : oblivious rawSize (@undefined State A).
Proof. intros s1 s2 H1 H2 Ha. exact I. Qed.

Lemma oblivious_outOfFuel {A} : oblivious rawSize (@outOfFuel State A).
Proof. intros s1 s2 H1 H2 Ha. exact I. Qed.

Lemma corr_bind {A B} (m : M State A) (k : A -> M State B) (s1 s2 : State) :
  corr rawSize (m s1) (m s2) ->
  (forall a t1 t2,
     m s1 = Ok (a, t1) -> m s2 = Ok (a, t2) ->
     outputInv rawSize t1 -> outputInv rawSize t2 -> agree rawSize t1 t2 ->
     corr rawSize (k a t1) (k a t2)) ->
  corr rawSize (bind m k s1) (bind m k s2).
Proof.
  intros Hm Hk. unfold bind.
  destruct (m s1) as [[a1 t1] | e1 | |], (m s2) as [[a2 t2] | e2 | |];
    simpl in Hm; trivial; try contradiction.
  destruct Hm as (<- & Hi1 & Hi2 & Ha). apply Hk; trivial.
Qed.

Lemma oblivious_bind {A B} (m : M State A) (k : A -> M State B) :
  oblivious rawSize m -> (forall a, oblivious rawSize (k a)) ->
  oblivious rawSize (bind m k).
Proof.
  intros Hm Hk s1 s2 H1 H2 Ha.
  apply corr_bind; [apply Hm; trivial |].
  intros a t1 t2 _ _ Ht1 Ht2 Hta. apply Hk; trivial.
Qed.

Lemma oblivious_onReader {A} (m : M Reader A) : oblivious rawSize (onReader m).
Proof.
  intros s1 s2 H1 H2 (Hr & Ho & Hw & Hb). unfold onReader. rewrite <- Hr.
  destruct (m (reader s1)) as [[a r] | e | |]; simpl; trivial.
  split; [reflexivity |]. split; [exact H1 |]. split; [exact H2 |].
  unfold agree. cbn [reader dest destOffset writes]. auto.
Qed.

Lemma oblivious_load {A} (l : list A) (i : Z) : oblivious rawSize (load l i).
Proof.
  intros s1 s2 H1 H2 Ha. unfold load.
  destruct (i <? 0); [exact I |].
  destruct (l !! Z.to_nat i); simpl; auto.
Qed.

Lemma oblivious_lift {A} (r : outcome A) : oblivious rawSize (lift r).
Proof.
  intros s1 s2 H1 H2 Ha. unfold lift. destruct r; simpl; auto.
Qed.

Lemma oblivious_writeByte (v : Z) : oblivious rawSize (writeByte v).
Proof.
  intros s1 s2 H1 H2 Ha.
  pose proof H1 as (Hd1 & Hl1 & _). pose proof H2 as (Hd2 & Hl2 & _).
  pose proof Ha as (Hr & Ho & Hw & Hb).
  destruct (Z.eq_dec (destOffset s1) 0) as [E | E].
  - unfold writeByte, bind, get. rewrite <- Ho, E. simpl. exact I.
  - pose proof (writeByte_Ok v s1 ltac:(lia)) as E1.
    pose proof (writeByte_Ok v s2 ltac:(lia)) as E2.
    pose proof (keeps_writeByte rawSize v _ _ _ H1 E1) as [Hi1 _].
    pose proof (keeps_writeByte rawSize v _ _ _ H2 E2) as [Hi2 _].
    rewrite E1, E2. simpl.
    split; [reflexivity |]. split; [exact Hi1 |]. split; [exact Hi2 |].
    unfold agree. cbn [reader dest destOffset writes].
    split; [exact Hr |]. split; [lia |]. split; [congruence |].
    intros j Hj. rewrite <- Ho.
    destruct (Z.eq_dec j (destOffset s1 - 1)) as [-> | Hne].
    + rewrite !list_lookup_insert_eq by lia. reflexivity.
    + rewrite !list_lookup_insert_ne by lia. apply Hb. lia.
Qed.

Hint Resolve oblivious_ret oblivious_throw oblivious_undefined
  oblivious_outOfFuel oblivious_onReader oblivious_load oblivious_lift
  oblivious_writeByte : oblivious.

Ltac oblivious_step :=
  match goal with
  | |- oblivious _ (bind get _) => fail 1
  | |- oblivious _ (bind _ _) => apply oblivious_bind; [| intros ?]
  | |- oblivious _ (if ?b then _ else _) => destruct b
  | |- oblivious _ (let x := _ in _) => cbv zeta
  | |- oblivious _ _ => solve [auto with oblivious]
  end.

(** A computation chosen by the write cursor alone. *)
Lemma oblivious_by_offset {A} (f : Z -> M State A) :
  (forall o, oblivious rawSize (f o)) ->
  oblivious rawSize (bind get (fun s => f (destOffset s))).
Proof.
  intros Hf s1 s2 H1 H2 Ha. unfold bind, get.
  replace (destOffset s2) with (destOffset s1) by (destruct Ha as (_ & ? & _); trivial).
  apply Hf; trivial.
Qed.

Lemma oblivious_literalLoop (n : nat) : oblivious rawSize (literalLoop bufPtr n).
Proof.
  induction n as [| n IH]; simpl; repeat oblivious_step.
Qed.

(** The copy loop reads only bytes at or above the cursor. *)
Lemma corr_copyLoop (n : nat) :
  forall src s1 s2,
    outputInv rawSize s1 -> outputInv rawSize s2 -> agree rawSize s1 s2 ->
    Z.of_nat n <= destOffset s1 -> destOffset s1 < src <= rawSize ->
    corr rawSize (copyLoop n src s1) (copyLoop n src s2).
Proof.
  induction n as [| n IH]; intros src s1 s2 H1 H2 Ha Hn Hsrc.
  - simpl. auto.
  - pose proof H1 as (Hd1 & Hl1 & _). pose proof H2 as (Hd2 & Hl2 & _).
    pose proof Ha as (Hr & Ho & Hw & Hb).
    assert (Hwr : wrap32 (src - 1) = src - 1).
    { unfold wrap32. change (2 ^ 32) with 4294967296. apply Z.mod_small. lia. }
    assert (E : forall s v,
              dest s !! Z.to_nat (src - 1) = Some v ->
              copyLoop (S n) src s
              = bind (writeByte v) (fun _ => copyLoop n (src - 1)) s).
    { intros s v Hv. cbn [copyLoop]. rewrite Hwr. unfold bind at 1, get.
      rewrite (bind_Ok _ _ _ _ _ (load_Ok (dest s) (src - 1) s v ltac:(lia) Hv)).
      reflexivity. }
    destruct (lookup_lt_is_Some_2 (dest s1) (Z.to_nat (src - 1)) ltac:(lia))
      as [v Hv1].
    assert (Hv2 : dest s2 !! Z.to_nat (src - 1) = Some v)
      by (rewrite <- Hb by lia; exact Hv1).
    rewrite (E s1 v Hv1), (E s2 v Hv2).
    apply corr_bind; [apply oblivious_writeByte; trivial |].
    intros [] t1 t2 E1 E2 Hi1 Hi2 Hta.
    apply writeByte_inv_Ok in E1 as (_ & ->).
    apply IH; trivial; cbn [destOffset]; lia.
Qed.

Lemma oblivious_stdCopy (distance count : Z) :
  0 <= distance -> oblivious rawSize (stdCopy rawSize distance count).
Proof.
  intros Hdist s1 s2 H1 H2 Ha. unfold stdCopy, bind, get.
  pose proof Ha as (_ & Ho & _). rewrite <- Ho.
  destruct (Z.eqb_spec distance 0); [reflexivity |].
  destruct (Z.ltb_spec (destOffset s1) count); [reflexivity |].
  destruct (Z.ltb_spec rawSize (destOffset s1 + distance)); [reflexivity |].
  simpl. pose proof H1 as (Hd1 & _).
  assert (Hwr : wrap32 (distance + destOffset s1) = distance + destOffset s1).
  { unfold wrap32. change (2 ^ 32) with 4294967296. apply Z.mod_small. lia. }
  rewrite Hwr. apply corr_copyLoop; trivial; lia.
Qed.

Lemma oblivious_lzhCopy (distance count : Z) :
  1 <= distance -> oblivious rawSize (lzhCopy rawSize distance count).
Proof.
  intros Hdist s1 s2 H1 H2 Ha. unfold lzhCopy, bind, get.
  pose proof Ha as (_ & Ho & _). rewrite <- Ho.
  destruct (Z.ltb_spec (destOffset s1) count); [reflexivity |].
  destruct (Z.ltb_spec rawSize (destOffset s1 + distance)); [reflexivity |].
  simpl. pose proof H1 as (Hd1 & _).
  assert (Hwr : wrap32 (distance + destOffset s1) = distance + destOffset s1).
  { unfold wrap32. change (2 ^ 32) with 4294967296. apply Z.mod_small. lia. }
  rewrite Hwr. apply corr_copyLoop; trivial; lia.
Qed.

Hint Resolve oblivious_literalLoop : oblivious.

Lemma oblivious_stdToken (ld dd : list Z) :
  oblivious rawSize (stdToken bufPtr rawSize ld dd).
Proof.
  unfold stdToken, stdLiteralRun, stdMatch, stdMatchCopy.
  repeat oblivious_step;
    try (apply oblivious_stdCopy; apply wrap32_range);
    match goal with
    | |- oblivious _ (bind get (fun s => if destOffset s <? ?c then ?x else ?y)) =>
      apply (oblivious_by_offset (fun o => if o <? c then x else y))
    end;
    intros o; repeat oblivious_step.
Qed.

Lemma oblivious_stdLoop (ld dd : list Z) (fuel : nat) :
  oblivious rawSize (stdLoop bufPtr rawSize ld dd fuel).
Proof.
  pose proof (oblivious_stdToken ld dd) as Htok.
  induction fuel as [| fuel IH]; cbn [stdLoop].
  - apply (oblivious_by_offset
             (fun o => if o =? 0 then ret tt else outOfFuel)).
    intros o. repeat oblivious_step.
  - apply (oblivious_by_offset
             (fun o => if o =? 0 then ret tt
                       else bind (stdToken bufPtr rawSize ld dd)
                              (fun _ => stdLoop bufPtr rawSize ld dd fuel))).
    intros o. repeat oblivious_step.
Qed.

Lemma oblivious_bind_onReader {A B} (m : M Reader A) (Q : A -> Prop)
    (k : A -> M State B) :
  (forall r a r', m r = Ok (a, r') -> Q a) ->
  (forall a, Q a -> oblivious rawSize (k a)) ->
  oblivious rawSize (bind (onReader m) k).
Proof.
  intros HQ Hk s1 s2 H1 H2 Ha.
  apply corr_bind; [apply oblivious_onReader; trivial |].
  intros a t1 t2 E1 _ Ht1 Ht2 Hta.
  apply onReader_inv_Ok in E1 as (E1 & _).
  apply Hk; trivial. eapply HQ; eauto.
Qed.

Lemma lzhDistance_pos (distanceBits : Z) (r r' : Reader) (distance : Z) :
  lzhDistance bufPtr distanceBits r = Ok (distance, r') -> 1 <= distance.
Proof.
  unfold lzhDistance. intros H.
  destruct (Z.eqb_spec distanceBits 0) as [E | E];
    apply bind_inv_Ok in H as (v & r1 & Hv & [= <- _]);
    apply readBits_range in Hv as (Hc & Hv).
  - change (2 ^ 1) with 2 in Hv. unfold wrap32.
    change (2 ^ 32) with 4294967296. rewrite Z.mod_small; lia.
  - rewrite Z.lor_comm, (lor_shiftl_small 1 v distanceBits) by lia.
    assert (Hp : 2 ^ distanceBits <= 2 ^ 30) by (apply Z.pow_le_mono_r; lia).
    change (2 ^ 30) with 1073741824 in Hp.
    unfold wrap32. change (2 ^ 32) with 4294967296.
    rewrite Z.mod_small; lia.
Qed.

Lemma oblivious_lzhItem (ld dd : list Dyn.Node) :
  oblivious rawSize (lzhItem bufPtr rawSize ld dd).
Proof.
  unfold lzhItem.
  apply oblivious_bind; [auto with oblivious |]. intros count.
  destruct (negb (Z.land count 256 =? 0)).
  - match goal with
    | |- oblivious _ (bind get (fun s => if destOffset s =? 0 then ?x else ?y)) =>
      apply (oblivious_by_offset (fun o => if o =? 0 then x else y))
    end.
    intros o. repeat oblivious_step.
  - cbv zeta. apply oblivious_bind; [auto with oblivious |]. intros db.
    apply (oblivious_bind_onReader _ (fun d => 1 <= d)).
    + intros r d r' H. eapply lzhDistance_pos; eauto.
    + intros d Hd. apply oblivious_lzhCopy. exact Hd.
Qed.

Lemma oblivious_lzhItems (ld dd : list Dyn.Node) (n : nat) :
  oblivious rawSize (lzhItems bufPtr rawSize ld dd n).
Proof.
  pose proof (oblivious_lzhItem ld dd).
  induction n as [| n IH]; simpl; repeat oblivious_step.
Qed.

Lemma oblivious_lzhBlock : oblivious rawSize (lzhBlock bufPtr rawSize).
Proof.
  unfold lzhBlock. repeat oblivious_step. apply oblivious_lzhItems.
Qed.

Lemma oblivious_lzhLoop (fuel : nat) : oblivious rawSize (lzhLoop bufPtr rawSize fuel).
Proof.
  pose proof oblivious_lzhBlock.
  induction fuel as [| fuel IH]; simpl; repeat oblivious_step.
Qed.

Lemma oblivious_decodeBody (isLZH : bool) :
  oblivious rawSize (decodeBody bufPtr rawSize isLZH).
Proof.
  unfold decodeBody, stdMode.
  pose proof oblivious_lzhLoop. pose proof oblivious_stdLoop.
  apply oblivious_bind.
  - repeat oblivious_step.
  - intros []. 
    apply (oblivious_by_offset
             (fun o => if negb (o =? 0) then throw DecompressionError
                       else ret tt)).
    intros o. repeat oblivious_step.
Qed.
End Oblivious.

(** X19: The decoded bytes do not depend on what the raw buffer held
    before the call.  Two calls of decompress on the same accepted
    stream with raw buffers of at least rawSize bytes end in the same
    way, with the same exception if one is raised, and leave the same
    rawSize decoded bytes. *)
Theorem decoded_bytes_independent (maxRaw maxPacked : Z) (p : list byte)
    (d : CRMDecompressor) (raw1 raw2 : list Z) :
  construct maxRaw maxPacked p = Ok d ->
  _rawSize d <= rawLen raw1 -> _rawSize d <= rawLen raw2 ->
  match decodePhase d raw1, decodePhase d raw2 with
  | Ok s1, Ok s2 =>
    reader s1 = reader s2
    /\ take (Z.to_nat (_rawSize d)) (dest s1)
       = take (Z.to_nat (_rawSize d)) (dest s2)
  | Raise e1, Raise e2 => e1 = e2
  | Undefined, Undefined => True
  | OutOfFuel, OutOfFuel => True
  | _, _ => False
  end.
Proof.
  intros Hc Hl1 Hl2. unfold rawLen in *.
  apply construct_accepts in Hc
    as (hdr & _ & _ & _ & _ & Hraw & _ & Hrs & _).
  apply readBE32_range in Hraw. change (2 ^ 32) with 4294967296 in Hraw.
  unfold decodePhase.
  destruct (Z.ltb_spec (Z.of_nat (List.length raw1)) (_rawSize d)); [lia |].
  destruct (Z.ltb_spec (Z.of_nat (List.length raw2)) (_rawSize d)); [lia |].
  unfold decodeFrom.
  destruct (initReader d) as [r | e | |]; trivial.
  assert (Hi : forall raw, _rawSize d <= Z.of_nat (List.length raw) ->
            outputInv (_rawSize d) (mkState r raw (_rawSize d) [])).
  { intros raw Hraw'. unfold outputInv. cbn [destOffset dest writes].
    rewrite Z.sub_diag. split; [lia | split; [lia | reflexivity]]. }
  pose proof (oblivious_decodeBody (_packedData d) (_rawSize d) ltac:(lia)
                (_isLZH d) (mkState r raw1 (_rawSize d) [])
                (mkState r raw2 (_rawSize d) []) (Hi raw1 ltac:(lia))
                (Hi raw2 ltac:(lia))) as Hcorr.
  assert (Hag : agree (_rawSize d) (mkState r raw1 (_rawSize d) [])
                  (mkState r raw2 (_rawSize d) [])).
  { unfold agree. cbn [reader dest destOffset writes].
    split; [reflexivity |]. split; [reflexivity |]. split; [reflexivity |].
    intros j Hj. lia. }
  specialize (Hcorr Hag).
  destruct (decodeBody _ _ _ (mkState r raw1 _ _)) as [[u1 s1] | e1 | |] eqn:E1;
    destruct (decodeBody _ _ _ (mkState r raw2 _ _)) as [[u2 s2] | e2 | |];
    simpl in Hcorr; trivial; try contradiction.
  destruct Hcorr as (_ & Hi1 & Hi2 & (Hr & Ho & _ & Hb)).
  split; [exact Hr |].
  apply decodeBody_final in E1.
  pose proof Hi1 as (_ & Hlen1 & _). pose proof Hi2 as (_ & Hlen2 & _).
  apply list_eq. intros k.
  destruct (Nat.lt_ge_cases k (Z.to_nat (_rawSize d))) as [Hk | Hk].
  - rewrite !lookup_take_lt by lia.
    specialize (Hb (Z.of_nat k) ltac:(lia)). rewrite Nat2Z.id in Hb. exact Hb.
  - rewrite !lookup_take_ge by lia. reflexivity.
Qed.

Lemma decoded_bytes_independent_witness :
  construct ceiling ceiling sampleLiteral = Ok (decoderOf sampleLiteral)
  /\ _rawSize (decoderOf sampleLiteral) <= rawLen [0; 7]
  /\ _rawSize (decoderOf sampleLiteral) <= rawLen [9; 8; 7]
  /\ match decodePhase (decoderOf sampleLiteral) [0; 7],
          decodePhase (decoderOf sampleLiteral) [9; 8; 7] with
     | Ok s1, Ok s2 =>
       reader s1 = reader s2
       /\ take (Z.to_nat (_rawSize (decoderOf sampleLiteral))) (dest s1)
          = take (Z.to_nat (_rawSize (decoderOf sampleLiteral))) (dest s2)
     | Raise e1, Raise e2 => e1 = e2
     | Undefined, Undefined => True
     | OutOfFuel, OutOfFuel => True
     | _, _ => False
     end.
Proof.
  assert (Hc : construct ceiling ceiling sampleLiteral
               = Ok (decoderOf sampleLiteral)) by reflexivity.
  assert (H1 : _rawSize (decoderOf sampleLiteral) <= rawLen [0; 7])
    by (vm_compute; discriminate).
  assert (H2 : _rawSize (decoderOf sampleLiteral) <= rawLen [9; 8; 7])
    by (vm_compute; discriminate).
  split; [exact Hc |]. split; [exact H1 |]. split; [exact H2 |].
  exact (decoded_bytes_independent ceiling ceiling sampleLiteral
           (decoderOf sampleLiteral) [0; 7] [9; 8; 7] Hc H1 H2).
Defined.
(** ** Consecutive codes and the dynamic decoder *)

Lemma bind_Raise {St A B} (m : M St A) (k : A -> M St B) (s : St) (e : exn) :
  m s = Raise e -> bind m k s = Raise e.
Proof. intros H. unfold bind. rewrite H. reflexivity. Qed.

Lemma dynInsertAll_app (emptyValue : Z) (a b : list HuffmanCode)
    (table : list Dyn.Node) :
  dynInsertAll emptyValue (a ++ b) table
  = bind (dynInsertAll emptyValue a) (fun _ => dynInsertAll emptyValue b) table.
Proof.
  revert table. induction a as [| c a IH]; intros table; simpl.
  - reflexivity.
  - rewrite bind_assoc. apply bind_ext. intros u t1. apply IH.
Qed.

Lemma codeBitAt_testbit (c k : Z) : 0 <= k -> codeBitAt c k = Z.testbit c k.
Proof.
  intros Hk. unfold codeBitAt. rewrite Z.shiftl_1_l.
  destruct (Z.testbit c k) eqn:E.
  - destruct (Z.eqb_spec (Z.land c (2 ^ k)) 0) as [H0 |]; [| reflexivity].
    apply (f_equal (fun z => Z.testbit z k)) in H0.
    rewrite Z.land_spec, E, Z.pow2_bits_true, Z.bits_0 in H0 by lia.
    discriminate.
  - destruct (Z.eqb_spec (Z.land c (2 ^ k)) 0) as [| H0]; [reflexivity |].
    exfalso. apply H0. apply Z.bits_inj'. intros n Hn.
    rewrite Z.land_spec, Z.bits_0.
    destruct (Z.eq_dec n k) as [-> | Hne].
    + rewrite E. reflexivity.
    + rewrite Z.pow2_bits_false by lia. apply andb_false_r.
Qed.

Lemma codeBits_take (c : Z) (d : nat) :
  forall m, (m <= d)%nat ->
    take m (codeBits c d) = codeBits (Z.shiftr c (Z.of_nat (d - m))) m.
Proof.
  induction d as [| d IH]; intros m Hm.
  - replace m with 0%nat by lia. reflexivity.
  - destruct m as [| m]; [reflexivity |].
    cbn [codeBits take]. rewrite IH by lia.
    replace (S d - S m)%nat with (d - m)%nat by lia.
    rewrite !codeBitAt_testbit by lia.
    rewrite Z.shiftr_spec by lia.
    replace (Z.of_nat m + Z.of_nat (d - m)) with (Z.of_nat d) by lia.
    reflexivity.
Qed.

Lemma codeBits_eq_bits (x y : Z) (e : nat) :
  codeBits x e = codeBits y e ->
  forall k, 0 <= k < Z.of_nat e -> Z.testbit x k = Z.testbit y k.
Proof.
  induction e as [| e IH]; intros H k Hk; [lia |].
  cbn [codeBits] in H. injection H as Hb Hrest.
  rewrite !codeBitAt_testbit in Hb by lia.
  destruct (Z.eq_dec k (Z.of_nat e)) as [-> | Hne].
  - destruct (Z.testbit x (Z.of_nat e)), (Z.testbit y (Z.of_nat e));
      congruence.
  - apply IH; [exact Hrest | lia].
Qed.

Lemma codeBits_eq_mod (x y : Z) (e : nat) :
  codeBits x e = codeBits y e -> x mod 2 ^ Z.of_nat e = y mod 2 ^ Z.of_nat e.
Proof.
  intros H. apply Z.bits_inj'. intros k Hk.
  destruct (Z.lt_ge_cases k (Z.of_nat e)).
  - rewrite !Z.mod_pow2_bits_low by lia.
    apply (codeBits_eq_bits x y e H). lia.
  - rewrite !Z.mod_pow2_bits_high by lia. reflexivity.
Qed.

(** When the bits of [a] are a prefix of the bits of [b], the first code
    of [maxDepth] bits that starts with [b] is one of those that start
    with [a]. *)
Lemma prefix_interval (maxDepth : Z) (a b : HuffmanCode) (m : nat) :
  0 <= length a <= maxDepth -> 0 <= length b <= maxDepth ->
  0 <= code a < 2 ^ length a -> 0 <= code b < 2 ^ length b ->
  bitsOf a = take m (bitsOf b) ->
  code a * 2 ^ (maxDepth - length a) <= code b * 2 ^ (maxDepth - length b)
  /\ code b * 2 ^ (maxDepth - length b) < (code a + 1) * 2 ^ (maxDepth - length a).
Proof.
  intros Ha Hb Hca Hcb H. unfold bitsOf in H.
  set (e := Z.to_nat (length a)) in *. set (d := Z.to_nat (length b)) in *.
  assert (He : (e = Nat.min m d)%nat).
  { apply (f_equal (@List.length Z)) in H.
    rewrite length_take, !codeBits_length in H. exact H. }
  assert (Hed : (e <= d)%nat) by lia.
  assert (H' : codeBits (code a) e
               = codeBits (Z.shiftr (code b) (Z.of_nat (d - e))) e).
  { rewrite <- codeBits_take by lia. rewrite H.
    destruct (Nat.le_gt_cases m d).
    - replace e with m by lia. reflexivity.
    - replace e with d by lia.
      rewrite !firstn_all2 by (rewrite codeBits_length; lia). reflexivity. }
  apply codeBits_eq_mod in H'.
  assert (Hea : Z.of_nat e = length a) by lia.
  assert (Hdb : Z.of_nat d = length b) by lia.
  rewrite Hea in H'.
  replace (Z.of_nat (d - e)) with (length b - length a) in H' by lia.
  rewrite Z.shiftr_div_pow2 in H' by lia.
  assert (Hp1 : 0 < 2 ^ (length b - length a)) by (apply Z.pow_pos_nonneg; lia).
  assert (Hp2 : 0 < 2 ^ (maxDepth - length b)) by (apply Z.pow_pos_nonneg; lia).
  assert (Hsplit : 2 ^ length b = 2 ^ length a * 2 ^ (length b - length a)).
  { rewrite <- Z.pow_add_r by lia. f_equal. lia. }
  assert (Hsplit2 : 2 ^ (maxDepth - length a)
                    = 2 ^ (length b - length a) * 2 ^ (maxDepth - length b)).
  { rewrite <- Z.pow_add_r by lia. f_equal. lia. }
  assert (Hq : 0 <= code b / 2 ^ (length b - length a) < 2 ^ length a).
  { split; [apply Z.div_pos; lia |].
    apply Z.div_lt_upper_bound; [lia |]. rewrite Z.mul_comm. lia. }
  rewrite (Z.mod_small (code a)) in H' by lia.
  rewrite (Z.mod_small (code b / _)) in H' by lia.
  pose proof (Z.mul_div_le (code b) (2 ^ (length b - length a)) Hp1) as Hlo.
  pose proof (Z.mul_succ_div_gt (code b) (2 ^ (length b - length a)) Hp1) as Hhi.
  rewrite <- H' in Hlo, Hhi. rewrite Hsplit2. nia.
Qed.

Section Consecutive.
Variables (emptyValue maxDepth : Z).
Hypothesis depth_range : 0 <= maxDepth <= 31.

(** What the next of the consecutive codes is. *)
Lemma consecutive_code (start : Z) (c : HuffmanCode) :
  0 <= start < 2 ^ maxDepth ->
  1 <= length c <= maxDepth ->
  start mod 2 ^ (maxDepth - length c) = 0 ->
  code c = Z.shiftr start (maxDepth - length c) ->
  code c * 2 ^ (maxDepth - length c) = start
  /\ 0 <= code c < 2 ^ length c
  /\ start + 2 ^ (maxDepth - length c) <= 2 ^ maxDepth.
Proof.
  intros Hs Hl Hal Hc.
  assert (Hp : 0 < 2 ^ (maxDepth - length c)) by (apply Z.pow_pos_nonneg; lia).
  assert (Hsplit : 2 ^ maxDepth = 2 ^ length c * 2 ^ (maxDepth - length c)).
  { rewrite <- Z.pow_add_r by lia. f_equal. lia. }
  rewrite Z.shiftr_div_pow2 in Hc by lia.
  pose proof (Z.div_mod start (2 ^ (maxDepth - length c)) ltac:(lia)) as Hdm.
  rewrite Hal, <- Hc in Hdm.
  assert (H0 : 0 <= code c) by (rewrite Hc; apply Z.div_pos; lia).
  assert (H1 : code c < 2 ^ length c).
  { apply (Z.mul_lt_mono_pos_r (2 ^ (maxDepth - length c))); lia. }
  split; [lia |]. split; [lia |].
  rewrite Hsplit.
  pose proof (Z.mul_le_mono_nonneg_r (code c + 1) (2 ^ length c)
                (2 ^ (maxDepth - length c)) ltac:(lia) ltac:(lia)).
  lia.
Qed.

Lemma belowStart_free (before : list HuffmanCode) (start : Z) (c : HuffmanCode) :
  belowStart maxDepth start before ->
  0 <= start < 2 ^ maxDepth ->
  1 <= length c <= maxDepth ->
  start mod 2 ^ (maxDepth - length c) = 0 ->
  code c = Z.shiftr start (maxDepth - length c) ->
  forall c0, In c0 before -> ~ prefixRelated c0 c.
Proof.
  intros Hbelow Hs Hl Hal Hc c0 Hin (m & Hrel).
  destruct (consecutive_code start c Hs Hl Hal Hc) as (Hst & Hcr & _).
  destruct (Hbelow c0 Hin) as (Hl0 & Hc0 & Hend).
  assert (Hp0 : 0 < 2 ^ (maxDepth - length c0)) by (apply Z.pow_pos_nonneg; lia).
  assert (Hsplit0 : 2 ^ maxDepth = 2 ^ length c0 * 2 ^ (maxDepth - length c0)).
  { rewrite <- Z.pow_add_r by lia. f_equal. lia. }
  assert (Hc0r : 0 <= code c0 < 2 ^ length c0) by nia.
  destruct Hrel as [H | H].
  - pose proof (prefix_interval maxDepth c0 c m ltac:(lia) ltac:(lia) Hc0r Hcr H).
    lia.
  - pose proof (prefix_interval maxDepth c c0 m ltac:(lia) ltac:(lia) Hcr Hc0r H).
    nia.
Qed.

(** The next of the consecutive codes is accepted while the code space
    is not used up. *)
Lemma consecutive_step (before : list HuffmanCode) (table : list Dyn.Node)
    (start : Z) (c : HuffmanCode) :
  dynInv emptyValue before table ->
  belowStart maxDepth start before ->
  0 <= start < 2 ^ maxDepth ->
  1 <= length c <= maxDepth ->
  start mod 2 ^ (maxDepth - length c) = 0 ->
  code c = Z.shiftr start (maxDepth - length c) ->
  value c <> emptyValue ->
  exists table',
    Dyn.insert emptyValue c table = Ok (tt, table')
    /\ dynInv emptyValue (before ++ [c]) table'
    /\ belowStart maxDepth (start + 2 ^ (maxDepth - length c)) (before ++ [c])
    /\ start + 2 ^ (maxDepth - length c) <= 2 ^ maxDepth.
Proof.
  intros Hinv Hbelow Hs Hl Hal Hc Hv.
  destruct (consecutive_code start c Hs Hl Hal Hc) as (Hst & Hcr & Hnext).
  assert (Hp : 0 < 2 ^ (maxDepth - length c)) by (apply Z.pow_pos_nonneg; lia).
  destruct (dyn_insert_accepts emptyValue before table c Hinv ltac:(lia) Hv
              (belowStart_free before start c Hbelow Hs Hl Hal Hc))
    as (table' & Hins).
  exists table'. split; [exact Hins |].
  split; [apply (dynInv_insert emptyValue before c table table' tt Hinv
                   ltac:(lia) Hins) |].
  split; [| exact Hnext].
  intros c1 Hin. apply in_app_or in Hin as [Hin | [<- | []]].
  - destruct (Hbelow c1 Hin) as (H1 & H2 & H3). split; [exact H1 |].
    split; [exact H2 | lia].
  - split; [exact Hl |]. split; [lia | lia].
Qed.

Lemma consecutive_accepted (cs : list HuffmanCode) :
  forall (before : list HuffmanCode) (table : list Dyn.Node) (start : Z),
    dynInv emptyValue before table ->
    belowStart maxDepth start before ->
    0 <= start ->
    consecutive maxDepth start cs ->
    start + codeSpace maxDepth cs <= 2 ^ maxDepth ->
    (forall c, In c cs -> value c <> emptyValue) ->
    exists table',
      dynInsertAll emptyValue cs table = Ok (tt, table')
      /\ dynInv emptyValue (before ++ cs) table'.
Proof.
  induction cs as [| c cs IH];
    intros before table start Hinv Hbelow Hs Hcons Hspace Hval.
  - exists table. rewrite app_nil_r. split; [reflexivity | exact Hinv].
  - destruct Hcons as (Hl & Hal & Hc & Hrest). cbn [codeSpace] in Hspace.
    assert (Hp : 0 < 2 ^ (maxDepth - length c)) by (apply Z.pow_pos_nonneg; lia).
    assert (Hcs : 0 <= codeSpace maxDepth cs).
    { clear. induction cs as [| c0 cs IH]; simpl; [lia |].
      pose proof (Z.pow_nonneg 2 (maxDepth - length c0)). lia. }
    destruct (consecutive_step before table start c Hinv Hbelow ltac:(lia) Hl
                Hal Hc (Hval c (or_introl eq_refl)))
      as (t1 & Hins & Hinv1 & Hbelow1 & _).
    destruct (IH (before ++ [c]) t1 _ Hinv1 Hbelow1 ltac:(lia) Hrest
                ltac:(lia) (fun c0 H => Hval c0 (or_intror H)))
      as (table' & Hall & Hinv').
    exists table'. split.
    + cbn [dynInsertAll]. rewrite (bind_Ok _ _ _ _ _ Hins). exact Hall.
    + rewrite <- app_assoc in Hinv'. exact Hinv'.
Qed.

(** The bits of a code whose low bits are all zero. *)
Lemma codeBits_zero (x : Z) (e : nat) :
  x mod 2 ^ Z.of_nat e = 0 -> codeBits x e = replicate e 0.
Proof.
  intros H.
  assert (Hbits : forall k, 0 <= k < Z.of_nat e -> Z.testbit x k = false).
  { intros k Hk. rewrite <- (Z.mod_pow2_bits_low x (Z.of_nat e)) by lia.
    rewrite H. apply Z.bits_0. }
  clear H. induction e as [| e IH]; [reflexivity |].
  cbn [codeBits replicate].
  rewrite IH by (intros k Hk; apply Hbits; lia).
  rewrite codeBitAt_testbit, Hbits by lia. reflexivity.
Qed.

Lemma zeros_related (a b : HuffmanCode) :
  0 <= length a -> 0 <= length b ->
  code a mod 2 ^ length a = 0 -> code b mod 2 ^ length b = 0 ->
  prefixRelated a b.
Proof.
  intros Ha Hb Hza Hzb. unfold prefixRelated, bitsOf.
  rewrite (codeBits_zero (code a)), (codeBits_zero (code b))
    by (rewrite Z2Nat.id by lia; trivial).
  destruct (Nat.le_ge_cases (Z.to_nat (length a)) (Z.to_nat (length b))).
  - exists (Z.to_nat (length a)). left. rewrite take_replicate. f_equal. lia.
  - exists (Z.to_nat (length b)). right. rewrite take_replicate. f_equal. lia.
Qed.

(** Once the code space is used up, the next code is refused. *)
Lemma consecutive_full (before : list HuffmanCode) (table : list Dyn.Node)
    (c0 c : HuffmanCode) :
  dynInv emptyValue before table ->
  In c0 before -> 0 <= length c0 -> code c0 = 0 ->
  1 <= length c <= maxDepth ->
  code c = Z.shiftr (2 ^ maxDepth) (maxDepth - length c) ->
  Dyn.insert emptyValue c table = Raise DecompressionError.
Proof.
  intros Hinv Hin0 Hl0 Hc0 Hl Hc.
  apply (dyn_insert_rejects_related emptyValue before table c0 c Hinv
           ltac:(lia) Hin0).
  apply zeros_related; [lia | lia | |].
  - rewrite Hc0. apply Z.mod_0_l. apply Z.pow_nonzero; lia.
  - rewrite Hc, Z.shiftr_div_pow2 by lia.
    replace (2 ^ maxDepth / 2 ^ (maxDepth - length c)) with (2 ^ length c).
    + apply Z.mod_same. apply Z.pow_nonzero; lia.
    + rewrite <- Z.pow_sub_r by lia. f_equal. lia.
Qed.

Lemma consecutive_refused (cs : list HuffmanCode) :
  forall (before : list HuffmanCode) (table : list Dyn.Node) (start : Z),
    dynInv emptyValue before table ->
    belowStart maxDepth start before ->
    (0 < start -> exists c0, In c0 before /\ code c0 = 0) ->
    0 <= start <= 2 ^ maxDepth ->
    consecutive maxDepth start cs ->
    2 ^ maxDepth < start + codeSpace maxDepth cs ->
    dynInsertAll emptyValue cs table = Raise DecompressionError.
Proof.
  induction cs as [| c cs IH];
    intros before table start Hinv Hbelow Hzero Hs Hcons Hspace.
  - cbn [codeSpace] in Hspace. lia.
  - destruct Hcons as (Hl & Hal & Hc & Hrest). cbn [codeSpace] in Hspace.
    cbn [dynInsertAll]. unfold bind.
    assert (Hp : 0 < 2 ^ (maxDepth - length c)) by (apply Z.pow_pos_nonneg; lia).
    assert (Hpm : 0 < 2 ^ maxDepth) by (apply Z.pow_pos_nonneg; lia).
    destruct (Z.eq_dec (value c) emptyValue) as [Hv | Hv].
    { rewrite dyn_insert_empty_value by trivial. reflexivity. }
    destruct (Z.eq_dec start (2 ^ maxDepth)) as [Hfull | Hnot].
    + destruct (Hzero ltac:(lia)) as (c0 & Hin0 & Hc0).
      destruct (Hbelow c0 Hin0) as (Hl0 & _ & _).
      rewrite (consecutive_full before table c0 c Hinv Hin0 ltac:(lia) Hc0 Hl);
        [reflexivity |].
      rewrite Hc, Hfull. reflexivity.
    + destruct (consecutive_step before table start c Hinv Hbelow ltac:(lia) Hl
                  Hal Hc Hv) as (t1 & Hins & Hinv1 & Hbelow1 & Hnext).
      rewrite Hins.
      apply (IH (before ++ [c]) t1 (start + 2 ^ (maxDepth - length c)));
        trivial; [| lia | lia].
      intros _. destruct (Z.eq_dec start 0) as [-> | Hpos].
      * exists c. split; [apply in_or_app; right; left; reflexivity |].
        rewrite Hc. apply Z.shiftr_0_l.
      * destruct (Hzero ltac:(lia)) as (c0 & Hin0 & Hc0).
        exists c0. split; [apply in_or_app; left; exact Hin0 | exact Hc0].
Qed.
End Consecutive.
(** ** The code space of a table read from the stream *)

Lemma tableCodes_app (s1 s2 : list (Z * Z)) :
  forall v1 v2,
    List.length v1 = List.length s1 ->
    tableCodes (s1 ++ s2) (v1 ++ v2) = tableCodes s1 v1 ++ tableCodes s2 v2.
Proof.
  induction s1 as [| [d c] s1 IH]; intros [| v v1] v2 H; simpl in H;
    try discriminate; [reflexivity |].
  simpl. f_equal. apply IH. lia.
Qed.

Lemma codeSpace_app (maxDepth : Z) (a b : list HuffmanCode) :
  codeSpace maxDepth (a ++ b) = codeSpace maxDepth a + codeSpace maxDepth b.
Proof. induction a as [| c a IH]; simpl; lia. Qed.

Lemma consecutive_app (maxDepth : Z) (a b : list HuffmanCode) :
  forall start,
    consecutive maxDepth start a ->
    consecutive maxDepth (start + codeSpace maxDepth a) b ->
    consecutive maxDepth start (a ++ b).
Proof.
  induction a as [| c a IH]; intros start Ha Hb; simpl in *.
  - rewrite Z.add_0_r in Hb. exact Hb.
  - destruct Ha as (H1 & H2 & H3 & H4).
    split; [exact H1 |]. split; [exact H2 |]. split; [exact H3 |].
    apply IH; [exact H4 |]. rewrite <- Z.add_assoc. exact Hb.
Qed.

(** The codes of one depth. *)
Lemma level_consecutive (maxDepth depth q : Z) (n : nat) :
  1 <= depth <= maxDepth -> 0 <= q ->
  forall lo values,
    0 <= lo -> List.length values = n ->
    consecutive maxDepth ((q + lo) * 2 ^ (maxDepth - depth))
      (tableCodes (map (fun k => (depth, q + k)) (span lo n)) values)
    /\ codeSpace maxDepth
         (tableCodes (map (fun k => (depth, q + k)) (span lo n)) values)
       = Z.of_nat n * 2 ^ (maxDepth - depth).
Proof.
  intros Hd Hq.
  assert (Hp : 0 < 2 ^ (maxDepth - depth)) by (apply Z.pow_pos_nonneg; lia).
  induction n as [| n IH]; intros lo values Hlo Hlen.
  - destruct values; [| discriminate]. simpl. split; [trivial | lia].
  - destruct values as [| v values]; [discriminate |].
    rewrite span_S_l. cbn [map tableCodes consecutive codeSpace length code].
    destruct (IH (lo + 1) values ltac:(lia) ltac:(simpl in Hlen; lia))
      as (Hc & Hs).
    split.
    + split; [exact Hd |]. split; [apply Z.mod_mul; lia |].
      split; [rewrite Z.shiftr_div_pow2, Z.div_mul by lia; reflexivity |].
      replace ((q + lo) * 2 ^ (maxDepth - depth) + 2 ^ (maxDepth - depth))
        with ((q + (lo + 1)) * 2 ^ (maxDepth - depth)) by lia.
      exact Hc.
    + rewrite Hs. lia.
Qed.

Lemma canonicalSlots_length (maxDepth : Z) (lengthTable : list Z) :
  forall depth start,
    (forall cnt, In cnt lengthTable -> 0 <= cnt) ->
    Z.of_nat (List.length (canonicalSlots maxDepth depth start lengthTable))
    = fold_right Z.add 0 lengthTable.
Proof.
  induction lengthTable as [| cnt rest IH]; intros depth start Hcnt;
    [reflexivity |].
  cbn [canonicalSlots fold_right].
  rewrite length_app, length_map, span_length, Nat2Z.inj_add, IH
    by (intros c Hc; apply Hcnt; right; exact Hc).
  pose proof (Hcnt cnt (or_introl eq_refl)). lia.
Qed.

(** The slots of a length table are consecutive codes, and take the
    space of the table. *)
Lemma canonical_consecutive (maxDepth : Z) (lengthTable : list Z) :
  forall depth start values,
    1 <= depth ->
    depth + Z.of_nat (List.length lengthTable) <= maxDepth + 1 ->
    0 <= start -> start mod 2 ^ (maxDepth + 1 - depth) = 0 ->
    (forall cnt, In cnt lengthTable -> 0 <= cnt) ->
    List.length values
    = List.length (canonicalSlots maxDepth depth start lengthTable) ->
    consecutive maxDepth start
      (tableCodes (canonicalSlots maxDepth depth start lengthTable) values)
    /\ codeSpace maxDepth
         (tableCodes (canonicalSlots maxDepth depth start lengthTable) values)
       = tableSpace maxDepth depth lengthTable.
Proof.
  induction lengthTable as [| cnt rest IH];
    intros depth start values Hd Hlen Hs Hal Hcnt Hvals.
  - simpl. split; [trivial | reflexivity].
  - cbn [canonicalSlots tableSpace]. cbn [List.length] in Hlen.
    cbn [canonicalSlots] in Hvals.
    rewrite length_app, length_map, span_length in Hvals.
    pose proof (Hcnt cnt (or_introl eq_refl)) as Hc0.
    assert (Hp : 0 < 2 ^ (maxDepth - depth)) by (apply Z.pow_pos_nonneg; lia).
    assert (Hpp : 2 ^ (maxDepth + 1 - depth) = 2 * 2 ^ (maxDepth - depth)).
    { rewrite <- Z.pow_succ_r by lia. f_equal. lia. }
    assert (Hal' : start mod 2 ^ (maxDepth - depth) = 0).
    { rewrite Hpp in Hal. rewrite Z.mul_comm, Z.rem_mul_r in Hal by lia.
      pose proof (Z.mod_pos_bound start (2 ^ (maxDepth - depth)) Hp).
      pose proof (Z.mod_pos_bound (start / 2 ^ (maxDepth - depth)) 2 ltac:(lia)).
      nia. }
    set (q := Z.shiftr start (maxDepth - depth)).
    assert (Hq : start = q * 2 ^ (maxDepth - depth)).
    { unfold q. rewrite Z.shiftr_div_pow2 by lia.
      pose proof (Z.div_mod start (2 ^ (maxDepth - depth)) ltac:(lia)). lia. }
    assert (Hq0 : 0 <= q).
    { unfold q. rewrite Z.shiftr_div_pow2 by lia. apply Z.div_pos; lia. }
    rewrite <- (take_drop (Z.to_nat cnt) values).
    assert (Hl1 : List.length (take (Z.to_nat cnt) values) = Z.to_nat cnt)
      by (rewrite length_take; lia).
    rewrite tableCodes_app by (rewrite length_map, span_length; exact Hl1).
    destruct (level_consecutive maxDepth depth q (Z.to_nat cnt) ltac:(lia) Hq0
                0 (take (Z.to_nat cnt) values) ltac:(lia) Hl1) as (Hc1 & Hs1).
    rewrite Z.add_0_r, <- Hq in Hc1. rewrite Z2Nat.id in Hs1 by lia.
    destruct (IH (depth + 1) (start + cnt * 2 ^ (maxDepth - depth))
                (drop (Z.to_nat cnt) values)) as (Hc2 & Hs2).
    + lia.
    + lia.
    + nia.
    + replace (maxDepth + 1 - (depth + 1)) with (maxDepth - depth) by lia.
      rewrite Z.add_mod, Hal', Z.mod_mul by lia. reflexivity.
    + intros c Hc. apply Hcnt. right. exact Hc.
    + rewrite length_drop. lia.
    + split.
      * apply consecutive_app; [exact Hc1 |]. rewrite Hs1. exact Hc2.
      * rewrite codeSpace_app, Hs1, Hs2. reflexivity.
Qed.

Section TableSpace.
Variable bufPtr : list byte.

(** The leaf values are read in order, and each is inserted with its
    slot. *)
Lemma readLeaves_inv (codeLength : Z) (slots : list (Z * Z)) :
  forall dec r dec' r',
    readLeaves bufPtr codeLength slots dec r = Ok (dec', r') ->
    exists values,
      readMany bufPtr (replicate (List.length slots) codeLength) r
      = Ok (values, r')
      /\ dynInsertAll 512 (tableCodes slots values) dec = Ok (tt, dec').
Proof.
  induction slots as [| [depth c] slots IH]; intros dec r dec' r' H.
  - simpl in H. injection H as <- <-. exists []. split; reflexivity.
  - cbn [readLeaves] in H.
    apply bind_inv_Ok in H as (v & r1 & Hv & H).
    apply bind_inv_Ok in H as (dec1 & r2 & Hins & H).
    unfold insertInto in Hins.
    destruct (Dyn.insert 512 (mkCode depth c v) dec) as [[[] t1] | | |] eqn:E;
      try discriminate.
    injection Hins as <- <-.
    apply IH in H as (values & Hmany & Hall).
    exists (v :: values). split.
    + cbn [List.length replicate readMany].
      rewrite (bind_Ok _ _ _ _ _ Hv), (bind_Ok _ _ _ _ _ Hmany). reflexivity.
    + cbn [tableCodes dynInsertAll]. rewrite (bind_Ok _ _ _ _ _ E). exact Hall.
Qed.

Lemma readLeaves_Ok (codeLength : Z) (slots : list (Z * Z)) :
  forall dec r dec' r' values,
    readMany bufPtr (replicate (List.length slots) codeLength) r
    = Ok (values, r') ->
    dynInsertAll 512 (tableCodes slots values) dec = Ok (tt, dec') ->
    readLeaves bufPtr codeLength slots dec r = Ok (dec', r').
Proof.
  induction slots as [| [depth c] slots IH]; intros dec r dec' r' values Hm Ha.
  - simpl in Hm. injection Hm as <- <-. simpl in Ha. injection Ha as <-.
    reflexivity.
  - cbn [List.length replicate readMany] in Hm.
    apply bind_inv_Ok in Hm as (v & r1 & Hv & Hm).
    apply bind_inv_Ok in Hm as (rest & r2 & Hrest & [= <- <-]).
    cbn [tableCodes dynInsertAll] in Ha.
    apply bind_inv_Ok in Ha as ([] & t1 & Hins & Ha).
    cbn [readLeaves]. rewrite (bind_Ok _ _ _ _ _ Hv).
    unfold bind at 1. unfold insertInto at 1. rewrite Hins.
    eapply IH; eauto.
Qed.

(** Past the 4-bit depth and the length table, the table reader is the
    insertion of the slots of the length table. *)
Lemma readHuffmanTable_slots (dec : list Dyn.Node) (codeLength maxDepth : Z)
    (lengthTable : list Z) (r r1 r2 : Reader) :
  readBits bufPtr 4 r = Ok (maxDepth, r1) -> maxDepth <> 0 ->
  readLengthTable bufPtr codeLength (Z.to_nat maxDepth) 0 r1
  = Ok (lengthTable, r2) ->
  readHuffmanTable bufPtr dec codeLength r
  = readLeaves bufPtr codeLength (canonicalSlots maxDepth 1 0 lengthTable) dec r2
  /\ 1 <= maxDepth <= 15
  /\ Z.of_nat (List.length lengthTable) = maxDepth
  /\ forall cnt, In cnt lengthTable -> 0 <= cnt.
Proof.
  intros Hmd Hnz Hlt.
  unfold readHuffmanTable. rewrite (bind_Ok _ _ _ _ _ Hmd).
  destruct (Z.eqb_spec maxDepth 0); [contradiction |].
  rewrite (bind_Ok _ _ _ _ _ Hlt).
  apply readBits_range in Hmd as (_ & Hmd). change (2 ^ 4) with 16 in Hmd.
  rewrite readLengthTable_eq in Hlt.
  apply readMany_range in Hlt as (Hlen & Hrange).
  rewrite length_map, span_length in Hlen.
  assert (Hcnt : forall j cnt, lengthTable !! j = Some cnt ->
            0 <= cnt < 2 ^ (Z.of_nat j + 1)).
  { intros j cnt Hj.
    assert (Hjl : (j < Z.to_nat maxDepth)%nat)
      by (apply lookup_lt_Some in Hj; lia).
    specialize (Hrange j (Z.min (Z.of_nat j + 1) codeLength) cnt).
    rewrite lookup_map, span_lookup in Hrange by lia.
    rewrite Z.add_0_l in Hrange.
    destruct (Hrange eq_refl Hj) as [Hlo Hhi].
    split; [lia |].
    destruct (Z.le_gt_cases 0 (Z.min (Z.of_nat j + 1) codeLength)) as [Hw | Hw].
    - apply Z.lt_le_trans with (2 ^ Z.min (Z.of_nat j + 1) codeLength); [lia |].
      apply Z.pow_le_mono_r; lia.
    - rewrite (Z.pow_neg_r 2 _ Hw) in Hhi. lia. }
  split; [| split; [lia | split; [lia |]]].
  - replace (Z.to_nat maxDepth) with (List.length lengthTable) by lia.
    apply (readDepths_eq bufPtr codeLength maxDepth lengthTable [] 0 dec r2).
    + simpl. lia.
    + assert (2 ^ maxDepth <= 2 ^ 15) by (apply Z.pow_le_mono_r; lia). nia.
    + simpl. lia.
    + intros j cnt Hj. simpl List.length.
      replace (Z.of_nat 0 + 1 + Z.of_nat j) with (Z.of_nat j + 1) by lia.
      apply Hcnt. exact Hj.
  - intros cnt Hin. apply list_elem_of_In in Hin.
    apply list_elem_of_lookup_1 in Hin as (j & Hj).
    apply Hcnt in Hj. lia.
Qed.

(** The leaf values are below EMPTY. *)
Lemma tableCodes_values (codeLength : Z) (slots : list (Z * Z)) :
  forall values r r',
    0 <= codeLength <= 9 ->
    readMany bufPtr (replicate (List.length slots) codeLength) r
    = Ok (values, r') ->
    List.length values = List.length slots
    /\ forall c, In c (tableCodes slots values) -> value c <> 512.
Proof.
  intros values r r' Hcl H. apply readMany_range in H as (Hlen & Hr).
  rewrite length_replicate in Hlen. split; [exact Hlen |].
  assert (Hv : forall v, In v values -> 0 <= v < 512).
  { intros v Hin. apply list_elem_of_In in Hin.
    apply list_elem_of_lookup_1 in Hin as (j & Hj).
    assert (Hjl : (j < List.length slots)%nat)
      by (apply lookup_lt_Some in Hj; lia).
    pose proof (Hr j codeLength v (lookup_replicate_2 _ _ _ Hjl) Hj) as Hb.
    assert (2 ^ codeLength <= 2 ^ 9) by (apply Z.pow_le_mono_r; lia).
    change (2 ^ 9) with 512 in *. lia. }
  clear Hr Hlen. revert values Hv.
  induction slots as [| [d c0] slots IH]; intros [| v values] Hv c Hin;
    simpl in Hin; try contradiction.
  destruct Hin as [<- | Hin].
  - simpl. specialize (Hv v (or_introl eq_refl)). lia.
  - apply (IH values); [| exact Hin]. intros v' Hv'. apply Hv. right. exact Hv'.
Qed.
End TableSpace.

(** X14: Whether the LZH table reader accepts a length table is decided
    by the code space the table takes, a code of [d] bits taking
    [2^(maxDepth - d)] of the [2^maxDepth] codes of [maxDepth] bits.  A
    table that takes more raises DecompressionError.  A table that takes
    no more is accepted as soon as the stream holds its leaf values,
    also when it leaves codes unused, and the decoder returned is the
    one obtained by inserting the consecutive codes with those values. *)
Theorem lzh_table_code_space (bufPtr : list byte) (codeLength maxDepth : Z)
    (lengthTable : list Z) (r r1 r2 : Reader) :
  readerInv bufPtr r -> 0 <= codeLength <= 9 ->
  readBits bufPtr 4 r = Ok (maxDepth, r1) -> maxDepth <> 0 ->
  readLengthTable bufPtr codeLength (Z.to_nat maxDepth) 0 r1
  = Ok (lengthTable, r2) ->
  (2 ^ maxDepth < tableSpace maxDepth 1 lengthTable ->
   readHuffmanTable bufPtr (Dyn.empty 512) codeLength r
   = Raise DecompressionError)
  /\ (tableSpace maxDepth 1 lengthTable <= 2 ^ maxDepth ->
      forall values r3,
        readMany bufPtr
          (replicate (List.length (canonicalSlots maxDepth 1 0 lengthTable))
             codeLength) r2
        = Ok (values, r3) ->
        exists dec,
          readHuffmanTable bufPtr (Dyn.empty 512) codeLength r = Ok (dec, r3)
          /\ dynInsertAll 512
               (tableCodes (canonicalSlots maxDepth 1 0 lengthTable) values)
               (Dyn.empty 512)
             = Ok (tt, dec)).
Proof.
  intros Hinv Hcl Hmd Hnz Hlt.
  destruct (readHuffmanTable_slots bufPtr (Dyn.empty 512) codeLength maxDepth
              lengthTable r r1 r2 Hmd Hnz Hlt) as (Heq & Hdepth & Hlen & Hcnt).
  assert (Hcanon : forall values,
            List.length values
            = List.length (canonicalSlots maxDepth 1 0 lengthTable) ->
            consecutive maxDepth 0
              (tableCodes (canonicalSlots maxDepth 1 0 lengthTable) values)
            /\ codeSpace maxDepth
                 (tableCodes (canonicalSlots maxDepth 1 0 lengthTable) values)
               = tableSpace maxDepth 1 lengthTable).
  { intros values Hv.
    apply canonical_consecutive; trivial; lia. }
  split.
  - intros Hover.
    pose proof (readsOk_readHuffmanTable bufPtr codeLength ltac:(lia) r Hinv)
      as Hdef.
    rewrite Heq in Hdef |- *.
    destruct (readLeaves bufPtr codeLength _ (Dyn.empty 512) r2)
      as [[dec r3] | e | |] eqn:E; simpl in Hdef; try contradiction;
      [| congruence].
    exfalso. apply readLeaves_inv in E as (values & Hm & Hall).
    destruct (tableCodes_values bufPtr codeLength _ _ _ _ Hcl Hm) as (Hlv & _).
    destruct (Hcanon values Hlv) as (Hcons & Hspace).
    assert (Hpos : 0 <= 0 <= 2 ^ maxDepth)
      by (split; [lia | apply Z.pow_nonneg; lia]).
    assert (Hnone : belowStart maxDepth 0 []) by (intros c []).
    assert (Hzero : 0 < 0 -> exists c0 : HuffmanCode, In c0 [] /\ code c0 = 0)
      by lia.
    pose proof (consecutive_refused 512 maxDepth ltac:(lia) _ []
                  (Dyn.empty 512) 0 (dynInv_empty 512) Hnone Hzero Hpos Hcons
                  ltac:(lia)) as Href.
    congruence.
  - intros Hfits values r3 Hm.
    destruct (tableCodes_values bufPtr codeLength _ _ _ _ Hcl Hm) as (Hlv & Hval).
    destruct (Hcanon values Hlv) as (Hcons & Hspace).
    destruct (consecutive_accepted 512 maxDepth ltac:(lia) _ [] (Dyn.empty 512) 0
                (dynInv_empty 512) ltac:(intros c []) ltac:(lia) Hcons
                ltac:(lia) Hval) as (dec & Hall & _).
    exists dec. split; [| exact Hall].
    rewrite Heq. eapply readLeaves_Ok; eauto.
Qed.

Lemma lzh_table_code_space_witness :
  readerInv sampleLZH (mkReader 21 41298 16)
  /\ 0 <= 9 <= 9
  /\ readBits sampleLZH 4 (mkReader 21 41298 16) = Ok (2, mkReader 21 2581 12)
  /\ 2 <> 0
  /\ readLengthTable sampleLZH 9 (Z.to_nat 2) 0 (mkReader 21 2581 12)
     = Ok ([1; 2], mkReader 21 322 9)
  /\ (2 ^ 2 < tableSpace 2 1 [1; 2] ->
      readHuffmanTable sampleLZH (Dyn.empty 512) 9 (mkReader 21 41298 16)
      = Raise DecompressionError)
  /\ (tableSpace 2 1 [1; 2] <= 2 ^ 2 ->
      forall values r3,
        readMany sampleLZH
          (replicate (List.length (canonicalSlots 2 1 0 [1; 2])) 9)
          (mkReader 21 322 9)
        = Ok (values, r3) ->
        exists dec,
          readHuffmanTable sampleLZH (Dyn.empty 512) 9 (mkReader 21 41298 16)
          = Ok (dec, r3)
          /\ dynInsertAll 512 (tableCodes (canonicalSlots 2 1 0 [1; 2]) values)
               (Dyn.empty 512)
             = Ok (tt, dec)).
Proof.
  assert (Hinv : readerInv sampleLZH (mkReader 21 41298 16))
    by (unfold readerInv; vm_compute; intuition discriminate).
  assert (Hcl : 0 <= 9 <= 9) by lia.
  assert (Hmd : readBits sampleLZH 4 (mkReader 21 41298 16)
                = Ok (2, mkReader 21 2581 12)) by reflexivity.
  assert (Hnz : 2 <> 0) by lia.
  assert (Hlt : readLengthTable sampleLZH 9 (Z.to_nat 2) 0 (mkReader 21 2581 12)
                = Ok ([1; 2], mkReader 21 322 9)) by reflexivity.
  split; [exact Hinv |]. split; [exact Hcl |]. split; [exact Hmd |].
  split; [exact Hnz |]. split; [exact Hlt |].
  exact (lzh_table_code_space sampleLZH 9 2 [1; 2] (mkReader 21 41298 16)
           (mkReader 21 2581 12) (mkReader 21 322 9) Hinv Hcl Hmd Hnz Hlt).
Defined.
(** ** Orderly tables *)

Lemma codeSpace_nonneg (maxDepth : Z) (cs : list HuffmanCode) :
  0 <= codeSpace maxDepth cs.
Proof.
  induction cs as [| c cs IH]; simpl; [lia |].
  pose proof (Z.pow_nonneg 2 (maxDepth - length c)). lia.
Qed.

Lemma depthRange_fold (bitLengths : list Z) :
  forall a b,
    depthRange bitLengths a b
    = (fold_left (fun m l => if l =? 0 then m else Z.min m l) bitLengths a,
       fold_left Z.max bitLengths b).
Proof.
  induction bitLengths as [| l rest IH]; intros a b; [reflexivity |].
  cbn [depthRange fold_left]. rewrite IH. f_equal.
  - f_equal. destruct (Z.eqb_spec l 0); simpl; [reflexivity |].
    destruct (Z.ltb_spec l a); lia.
  - f_equal. destruct (Z.ltb_spec b l); lia.
Qed.

Lemma fold_max_spec (ls : list Z) :
  forall b,
    b <= fold_left Z.max ls b
    /\ (forall l, In l ls -> l <= fold_left Z.max ls b)
    /\ (fold_left Z.max ls b = b \/ In (fold_left Z.max ls b) ls).
Proof.
  induction ls as [| x ls IH]; intros b; simpl.
  - split; [lia |]. split; [intros l [] | left; reflexivity].
  - destruct (IH (Z.max b x)) as (H1 & H2 & H3).
    split; [lia |]. split.
    + intros l [<- | Hl]; [lia | apply H2; exact Hl].
    + destruct H3 as [H3 | H3]; [| right; right; exact H3].
      destruct (Z.max_spec b x) as [[_ E] | [_ E]]; rewrite E in H3 |- *.
      * right. left. symmetry. exact H3.
      * left. exact H3.
Qed.

Lemma fold_min_spec (ls : list Z) :
  forall a,
    fold_left (fun m l => if l =? 0 then m else Z.min m l) ls a <= a
    /\ (forall l, In l ls -> l <> 0 ->
          fold_left (fun m l => if l =? 0 then m else Z.min m l) ls a <= l)
    /\ (fold_left (fun m l => if l =? 0 then m else Z.min m l) ls a = a
        \/ (In (fold_left (fun m l => if l =? 0 then m else Z.min m l) ls a) ls
            /\ fold_left (fun m l => if l =? 0 then m else Z.min m l) ls a <> 0)).
Proof.
  induction ls as [| x ls IH]; intros a; simpl.
  - split; [lia |]. split; [intros l [] | left; reflexivity].
  - destruct (Z.eqb_spec x 0) as [-> | Hx].
    + destruct (IH a) as (H1 & H2 & H3).
      split; [exact H1 |]. split.
      * intros l [<- | Hl] Hnz; [contradiction | apply H2; trivial].
      * destruct H3 as [H3 | [H3 H4]]; [left; exact H3 |].
        right. split; [right; exact H3 | exact H4].
    + destruct (IH (Z.min a x)) as (H1 & H2 & H3).
      split; [lia |]. split.
      * intros l [<- | Hl] Hnz; [lia | apply H2; trivial].
      * destruct H3 as [H3 | [H3 H4]]; [| right; split; [right |]; trivial].
        destruct (Z.min_spec a x) as [[_ E] | [_ E]]; rewrite E in H3 |- *.
        -- left. exact H3.
        -- right. rewrite H3. split; [left; reflexivity | exact Hx].
Qed.

(** The range of depths the outer loop walks. *)
Lemma lengths_range (bitLengths : list Z) :
  (forall l, In l bitLengths -> 0 <= l <= 31) ->
  0 <= maxLength bitLengths <= 31
  /\ (forall l, In l bitLengths -> l <= maxLength bitLengths)
  /\ (maxLength bitLengths = 0 -> forall l, In l bitLengths -> l = 0)
  /\ (0 < maxLength bitLengths ->
      1 <= minLength bitLengths <= maxLength bitLengths
      /\ forall l, In l bitLengths -> l <> 0 -> minLength bitLengths <= l).
Proof.
  intros Hl. unfold maxLength, minLength.
  destruct (fold_max_spec bitLengths 0) as (M1 & M2 & M3).
  destruct (fold_min_spec bitLengths 32) as (N1 & N2 & N3).
  split.
  { split; [exact M1 |]. destruct M3 as [-> | M3]; [lia |].
    apply Hl in M3. lia. }
  split; [exact M2 |]. split.
  { intros E l Hin. specialize (M2 l Hin). specialize (Hl l Hin). lia. }
  intros Hpos.
  assert (Hmax : In (fold_left Z.max bitLengths 0) bitLengths)
    by (destruct M3 as [E | M3]; [lia | exact M3]).
  split; [| exact N2].
  split.
  - destruct N3 as [E | [N3 N4]].
    + rewrite E. lia.
    + apply Hl in N3. lia.
  - apply N2; [exact Hmax | lia].
Qed.

Lemma rangeSpace_split (maxDepth lo mid hi : Z) (ls : list Z) :
  lo <= mid <= hi ->
  rangeSpace maxDepth lo hi ls
  = rangeSpace maxDepth lo mid ls + rangeSpace maxDepth mid hi ls.
Proof.
  intros H. induction ls as [| l ls IH]; simpl; [reflexivity |].
  rewrite IH.
  destruct (Z.leb_spec lo l), (Z.ltb_spec l hi), (Z.ltb_spec l mid),
    (Z.leb_spec mid l); simpl; lia.
Qed.

Lemma rangeSpace_empty (maxDepth lo : Z) (ls : list Z) :
  rangeSpace maxDepth lo lo ls = 0.
Proof.
  induction ls as [| l ls IH]; simpl; [reflexivity |].
  rewrite IH. destruct (Z.leb_spec lo l), (Z.ltb_spec l lo); simpl; lia.
Qed.

Lemma rangeSpace_all (maxDepth lo hi : Z) (ls : list Z) :
  0 < lo ->
  (forall l, In l ls -> 0 <= l) ->
  (forall l, In l ls -> l <> 0 -> lo <= l < hi) ->
  rangeSpace maxDepth lo hi ls = lengthsSpace maxDepth ls.
Proof.
  intros Hlo Hnn Hin. induction ls as [| l ls IH]; simpl; [reflexivity |].
  rewrite IH;
    [| intros l0 H0; apply Hnn; right; exact H0
     | intros l0 H0; apply Hin; right; exact H0].
  f_equal. specialize (Hin l (or_introl eq_refl)).
  specialize (Hnn l (or_introl eq_refl)).
  destruct (Z.eqb_spec l 0) as [-> | Hnz].
  - destruct (Z.leb_spec lo 0); [lia | reflexivity].
  - specialize (Hin Hnz).
    destruct (Z.leb_spec lo l), (Z.ltb_spec l hi); simpl; lia.
Qed.

Section LevelCodes.
Variables (toItem : Z -> Z) (maxDepth : Z).

Lemma levelCodes_space (depth : Z) (ls : list Z) :
  forall i start,
    codeSpace maxDepth (levelCodes toItem maxDepth depth ls i start)
    = rangeSpace maxDepth depth (depth + 1) ls.
Proof.
  induction ls as [| l ls IH]; intros i start; simpl; [reflexivity |].
  destruct (Z.eqb_spec l depth) as [-> | Hne].
  - cbn [codeSpace length]. rewrite IH.
    destruct (Z.leb_spec depth depth), (Z.ltb_spec depth (depth + 1));
      simpl; lia.
  - rewrite IH.
    destruct (Z.leb_spec depth l), (Z.ltb_spec l (depth + 1)); simpl; lia.
Qed.

Lemma depthCodes_space (ls : list Z) (n : nat) :
  forall depth start,
    codeSpace maxDepth (depthCodes toItem maxDepth ls n depth start)
    = rangeSpace maxDepth depth (depth + Z.of_nat n) ls.
Proof.
  induction n as [| n IH]; intros depth start.
  - simpl. rewrite Z.add_0_r, rangeSpace_empty. reflexivity.
  - cbn [depthCodes]. rewrite codeSpace_app, levelCodes_space, IH.
    rewrite (rangeSpace_split maxDepth depth (depth + 1) (depth + Z.of_nat (S n)))
      by lia.
    do 2 f_equal. lia.
Qed.

Lemma levelCodes_items (depth : Z) (ls : list Z) :
  forall i start,
    map (fun c => (length c, value c))
      (levelCodes toItem maxDepth depth ls i start)
    = levelItems toItem depth ls i.
Proof.
  induction ls as [| l ls IH]; intros i start; simpl; [reflexivity |].
  destruct (Z.eqb_spec l depth); simpl; rewrite IH; reflexivity.
Qed.

Lemma depthCodes_items (ls : list Z) (n : nat) :
  forall depth start,
    map (fun c => (length c, value c))
      (depthCodes toItem maxDepth ls n depth start)
    = orderlyItems toItem ls n depth.
Proof.
  induction n as [| n IH]; intros depth start; [reflexivity |].
  cbn [depthCodes orderlyItems].
  rewrite map_app, levelCodes_items, IH. reflexivity.
Qed.

Lemma levelCodes_consecutive (depth : Z) (ls : list Z) :
  1 <= depth <= maxDepth ->
  forall i start,
    start mod 2 ^ (maxDepth - depth) = 0 ->
    consecutive maxDepth start (levelCodes toItem maxDepth depth ls i start).
Proof.
  intros Hd.
  assert (Hp : 0 < 2 ^ (maxDepth - depth)) by (apply Z.pow_pos_nonneg; lia).
  induction ls as [| l ls IH]; intros i start Hal; simpl; [trivial |].
  destruct (Z.eqb_spec l depth) as [-> | Hne]; [| apply IH; exact Hal].
  cbn [consecutive length code].
  split; [exact Hd |]. split; [exact Hal |]. split; [reflexivity |].
  apply IH. rewrite Z.add_mod, Hal, Z.mod_same by lia. reflexivity.
Qed.

Lemma aligned_next (depth start : Z) :
  1 <= depth <= maxDepth ->
  start mod 2 ^ (maxDepth + 1 - depth) = 0 ->
  start mod 2 ^ (maxDepth - depth) = 0.
Proof.
  intros Hd Hal.
  assert (Hp : 0 < 2 ^ (maxDepth - depth)) by (apply Z.pow_pos_nonneg; lia).
  replace (maxDepth + 1 - depth) with (Z.succ (maxDepth - depth)) in Hal by lia.
  rewrite Z.pow_succ_r, Z.mul_comm, Z.rem_mul_r in Hal by lia.
  pose proof (Z.mod_pos_bound start (2 ^ (maxDepth - depth)) Hp).
  pose proof (Z.mod_pos_bound (start / 2 ^ (maxDepth - depth)) 2 ltac:(lia)).
  nia.
Qed.

Lemma level_aligned (depth start : Z) (ls : list Z) (i : Z) :
  1 <= depth <= maxDepth ->
  start mod 2 ^ (maxDepth - depth) = 0 ->
  (start + codeSpace maxDepth (levelCodes toItem maxDepth depth ls i start))
    mod 2 ^ (maxDepth - depth) = 0.
Proof.
  intros Hd Hal.
  assert (Hp : 0 < 2 ^ (maxDepth - depth)) by (apply Z.pow_pos_nonneg; lia).
  revert i start Hal. induction ls as [| l ls IH]; intros i start Hal; simpl.
  - rewrite Z.add_0_r. exact Hal.
  - destruct (Z.eqb_spec l depth) as [-> | Hne]; [| apply IH; exact Hal].
    cbn [codeSpace length]. rewrite Z.add_assoc. apply IH.
    rewrite Z.add_mod, Hal, Z.mod_same by lia. reflexivity.
Qed.

Lemma depthCodes_consecutive (ls : list Z) (n : nat) :
  forall depth start,
    1 <= depth -> depth + Z.of_nat n <= maxDepth + 1 ->
    start mod 2 ^ (maxDepth + 1 - depth) = 0 ->
    consecutive maxDepth start (depthCodes toItem maxDepth ls n depth start).
Proof.
  induction n as [| n IH]; intros depth start Hd Hn Hal; [exact I |].
  cbn [depthCodes].
  pose proof (aligned_next depth start ltac:(lia) Hal) as Hal'.
  apply consecutive_app.
  - apply levelCodes_consecutive; [lia | exact Hal'].
  - apply IH; [lia | lia |].
    replace (maxDepth + 1 - (depth + 1)) with (maxDepth - depth) by lia.
    apply level_aligned; [lia | exact Hal'].
Qed.
End LevelCodes.

Section OrderlyDyn.
Variables (emptyValue : Z) (toItem : Z -> Z) (maxDepth tableLength : Z).
Hypothesis depth_range : 0 <= maxDepth <= 31.
Hypothesis items : forall i, 0 <= i < tableLength -> toItem i <> emptyValue.

(** The inner loop inserts the consecutive codes of its depth, and
    raises when they do not fit. *)
Lemma orderlyCodes_spec (depth : Z) (ls : list Z) :
  1 <= depth <= maxDepth ->
  forall i before table start,
    0 <= i -> i + Z.of_nat (List.length ls) <= tableLength ->
    orderlyInv emptyValue maxDepth before table start ->
    start mod 2 ^ (maxDepth - depth) = 0 ->
    (start + codeSpace maxDepth (levelCodes toItem maxDepth depth ls i start)
     <= 2 ^ maxDepth ->
     exists table',
       orderlyCodes (Dyn.insert emptyValue) toItem maxDepth depth ls i start
         table
       = Ok (start
             + codeSpace maxDepth (levelCodes toItem maxDepth depth ls i start),
             table')
       /\ dynInsertAll emptyValue
            (levelCodes toItem maxDepth depth ls i start) table
          = Ok (tt, table')
       /\ orderlyInv emptyValue maxDepth
            (before ++ levelCodes toItem maxDepth depth ls i start) table'
            (start
             + codeSpace maxDepth
                 (levelCodes toItem maxDepth depth ls i start)))
    /\ (2 ^ maxDepth
        < start
          + codeSpace maxDepth (levelCodes toItem maxDepth depth ls i start) ->
        orderlyCodes (Dyn.insert emptyValue) toItem maxDepth depth ls i start
          table
        = Raise DecompressionError).
Proof.
  intros Hd.
  assert (Hp : 0 < 2 ^ (maxDepth - depth)) by (apply Z.pow_pos_nonneg; lia).
  assert (Hpm : 2 ^ maxDepth <= 2 ^ 31) by (apply Z.pow_le_mono_r; lia).
  change (2 ^ 31) with 2147483648 in Hpm.
  induction ls as [| l ls IH]; intros i before table start Hi Hlen Hinv Hal.
  - cbn [levelCodes codeSpace orderlyCodes]. rewrite Z.add_0_r, app_nil_r.
    split.
    + intros _. exists table. split; [reflexivity |].
      split; [reflexivity | exact Hinv].
    + destruct Hinv as (_ & _ & _ & Hs). lia.
  - cbn [levelCodes orderlyCodes].
    cbn [List.length] in Hlen.
    destruct (Z.eqb_spec l depth) as [-> | Hne]; [| apply IH; trivial; lia].
    cbn [codeSpace length].
    pose proof (codeSpace_nonneg maxDepth
                  (levelCodes toItem maxDepth depth ls (i + 1)
                     (start + 2 ^ (maxDepth - depth)))) as Hnn.
    destruct Hinv as (Hdyn & Hbelow & Hzero & Hs).
    unfold shr32.
    destruct (Z.leb_spec 0 (maxDepth - depth)); [| lia].
    destruct (Z.ltb_spec (maxDepth - depth) 32); [| lia].
    cbn [andb].
    set (c := mkCode depth (Z.shiftr start (maxDepth - depth)) (toItem i)).
    destruct (Z.eq_dec start (2 ^ maxDepth)) as [Hfull | Hnot].
    + split; [intros; lia |]. intros _.
      destruct (Hzero ltac:(lia)) as (c0 & Hin0 & Hc0).
      destruct (Hbelow c0 Hin0) as (Hl0 & _ & _).
      apply bind_Raise.
      apply (consecutive_full emptyValue maxDepth depth_range before table
               c0 c Hdyn Hin0 ltac:(lia) Hc0 Hd).
      unfold c. cbn [code length]. rewrite Hfull. reflexivity.
    + destruct (consecutive_step emptyValue maxDepth depth_range before table
                  start c Hdyn Hbelow ltac:(lia) Hd Hal eq_refl
                  (items i ltac:(lia)))
        as (t1 & Hins & Hdyn1 & Hbelow1 & Hnext).
      change (length c) with depth in Hbelow1, Hnext.
      rewrite (bind_Ok _ _ _ _ _ Hins).
      destruct (Z.ltb_spec (maxDepth - depth) 0); [lia |].
      destruct (Z.leb_spec 31 (maxDepth - depth)); [lia |]. cbn [orb].
      rewrite Z.shiftl_1_l.
      assert (Hw : wrap32 (start + 2 ^ (maxDepth - depth))
                   = start + 2 ^ (maxDepth - depth)).
      { unfold wrap32. change (2 ^ 32) with 4294967296.
        apply Z.mod_small. lia. }
      rewrite Hw.
      assert (Hinv1 : orderlyInv emptyValue maxDepth (before ++ [c]) t1
                        (start + 2 ^ (maxDepth - depth))).
      { split; [exact Hdyn1 |]. split; [exact Hbelow1 |]. split; [| lia].
        intros _. destruct (Z.eq_dec start 0) as [E0 | Hpos].
        - exists c. split; [apply in_or_app; right; left; reflexivity |].
          unfold c. cbn [code]. rewrite E0. apply Z.shiftr_0_l.
        - destruct (Hzero ltac:(lia)) as (c0 & Hin0 & Hc0).
          exists c0. split; [apply in_or_app; left; exact Hin0 | exact Hc0]. }
      destruct (IH (i + 1) (before ++ [c]) t1 _ ltac:(lia) ltac:(lia) Hinv1)
        as (IH1 & IH2).
      { rewrite Z.add_mod, Hal, Z.mod_same by lia. reflexivity. }
      split.
      * intros Hfit. destruct (IH1 ltac:(lia)) as (table' & Hrun & Hall & Hinv').
        exists table'. split; [rewrite Hrun; f_equal; f_equal; lia |].
        split.
        -- cbn [dynInsertAll]. rewrite (bind_Ok _ _ _ _ _ Hins). exact Hall.
        -- rewrite <- app_assoc in Hinv'. cbn [app] in Hinv'.
           replace (start + (2 ^ (maxDepth - depth)
                             + codeSpace maxDepth
                                 (levelCodes toItem maxDepth depth ls (i + 1)
                                    (start + 2 ^ (maxDepth - depth)))))
             with (start + 2 ^ (maxDepth - depth)
                   + codeSpace maxDepth
                       (levelCodes toItem maxDepth depth ls (i + 1)
                          (start + 2 ^ (maxDepth - depth)))) by lia.
           exact Hinv'.
      * intros Hover. apply IH2. lia.
Qed.

(** The outer loop inserts the consecutive codes depth by depth, and
    raises when they do not fit. *)
Lemma orderlyDepths_spec (ls : list Z) (n : nat) :
  forall depth before table start,
    Z.of_nat (List.length ls) <= tableLength ->
    1 <= depth -> depth + Z.of_nat n <= maxDepth + 1 ->
    orderlyInv emptyValue maxDepth before table start ->
    start mod 2 ^ (maxDepth + 1 - depth) = 0 ->
    (start + codeSpace maxDepth (depthCodes toItem maxDepth ls n depth start)
     <= 2 ^ maxDepth ->
     exists table',
       orderlyDepths (Dyn.insert emptyValue) toItem maxDepth ls n depth start
         table
       = Ok (tt, table')
       /\ dynInsertAll emptyValue
            (depthCodes toItem maxDepth ls n depth start) table
          = Ok (tt, table'))
    /\ (2 ^ maxDepth
        < start + codeSpace maxDepth (depthCodes toItem maxDepth ls n depth start) ->
        orderlyDepths (Dyn.insert emptyValue) toItem maxDepth ls n depth start
          table
        = Raise DecompressionError).
Proof.
  induction n as [| n IH]; intros depth before table start Hlen Hd Hn Hinv Hal.
  - cbn [depthCodes codeSpace orderlyDepths]. split.
    + intros _. exists table. split; reflexivity.
    + destruct Hinv as (_ & _ & _ & Hs). lia.
  - cbn [depthCodes orderlyDepths]. rewrite codeSpace_app.
    pose proof (aligned_next maxDepth depth start ltac:(lia) Hal) as Hal'.
    destruct (orderlyCodes_spec depth ls ltac:(lia) 0 before table start
                ltac:(lia) ltac:(lia) Hinv Hal') as (L1 & L2).
    set (level := levelCodes toItem maxDepth depth ls 0 start) in *.
    pose proof (codeSpace_nonneg maxDepth level) as Hnn1.
    pose proof (codeSpace_nonneg maxDepth
                  (depthCodes toItem maxDepth ls n (depth + 1)
                     (start + codeSpace maxDepth level))) as Hnn2.
    destruct (Z.le_gt_cases (start + codeSpace maxDepth level) (2 ^ maxDepth))
      as [Hfit1 | Hover1].
    + destruct (L1 Hfit1) as (t1 & Hrun & Hall1 & Hinv1).
      destruct (IH (depth + 1) (before ++ level) t1
                  (start + codeSpace maxDepth level)) as (IH1 & IH2);
        [exact Hlen | lia | lia | exact Hinv1 | |].
      { replace (maxDepth + 1 - (depth + 1)) with (maxDepth - depth) by lia.
        apply level_aligned; [lia | exact Hal']. }
      split.
      * intros Hfit. destruct (IH1 ltac:(lia)) as (table' & Hrun' & Hall').
        exists table'. split.
        -- unfold bind. rewrite Hrun. exact Hrun'.
        -- rewrite dynInsertAll_app, (bind_Ok _ _ _ _ _ Hall1). exact Hall'.
      * intros Hover. unfold bind. rewrite Hrun. apply IH2. lia.
    + split; [intros; lia |]. intros _.
      unfold bind. rewrite (L2 Hover1). reflexivity.
Qed.
End OrderlyDyn.

(** X15: [CreateOrderlyHuffmanTable] raises DecompressionError, without
    an insert, when no bit length is nonzero; an empty list of bit
    lengths is such a case. *)
Theorem orderly_no_codes {T : Type} (insert : HuffmanCode -> M T unit)
    (toItem : Z -> Z) (bitLengths : list Z) (dec : T) :
  (forall l, In l bitLengths -> l = 0) ->
  CreateOrderlyHuffmanTable insert toItem bitLengths dec
  = Raise DecompressionError.
Proof.
  intros Hz. unfold CreateOrderlyHuffmanTable. rewrite depthRange_fold.
  destruct (fold_max_spec bitLengths 0) as (_ & _ & [E | Hin]).
  - rewrite E. reflexivity.
  - rewrite (Hz _ Hin). reflexivity.
Qed.

Lemma orderly_no_codes_witness :
  (forall l, In l [0; 0; 0] -> l = 0)
  /\ CreateOrderlyHuffmanTable (Dyn.insert 512) (fun i => i) [0; 0; 0]
       (Dyn.empty 512)
     = Raise DecompressionError.
Proof.
  assert (H : forall l, In l [0; 0; 0] -> l = 0).
  { intros l [<- | [<- | [<- | []]]]; reflexivity. }
  split; [exact H |].
  exact (orderly_no_codes (Dyn.insert 512) (fun i => i) [0; 0; 0]
           (Dyn.empty 512) H).
Defined.

(** X16: On a freshly constructed dynamic decoder, with bit lengths of at
    most 31 of which one is nonzero and with items other than EMPTY,
    [CreateOrderlyHuffmanTable] is decided by the code space the nonzero
    lengths take, a length [l] taking [2^(maxDepth - l)] of the
    [2^maxDepth] codes of the largest length.  When they take more it
    raises DecompressionError.  When they take no more it returns, and
    the decoder is the one obtained by inserting consecutive codes for
    the indices of nonzero length, by length and within a length by
    index, each with its index as the value. *)
Theorem orderly_table_code_space (emptyValue : Z) (toItem : Z -> Z)
    (bitLengths : list Z) :
  (forall l, In l bitLengths -> 0 <= l <= 31) ->
  (forall i, 0 <= i < Z.of_nat (List.length bitLengths) ->
     toItem i <> emptyValue) ->
  0 < maxLength bitLengths ->
  (2 ^ maxLength bitLengths < lengthsSpace (maxLength bitLengths) bitLengths ->
   CreateOrderlyHuffmanTable (Dyn.insert emptyValue) toItem bitLengths
     (Dyn.empty emptyValue)
   = Raise DecompressionError)
  /\ (lengthsSpace (maxLength bitLengths) bitLengths
      <= 2 ^ maxLength bitLengths ->
      exists table cs,
        CreateOrderlyHuffmanTable (Dyn.insert emptyValue) toItem bitLengths
          (Dyn.empty emptyValue)
        = Ok (tt, table)
        /\ dynInsertAll emptyValue cs (Dyn.empty emptyValue) = Ok (tt, table)
        /\ consecutive (maxLength bitLengths) 0 cs
        /\ map (fun c => (length c, value c)) cs
           = orderlyItems toItem bitLengths
               (Z.to_nat (maxLength bitLengths + 1 - minLength bitLengths))
               (minLength bitLengths)).
Proof.
  intros Hl Hitems Hpos.
  destruct (lengths_range bitLengths Hl) as (Hmax & Hle & _ & Hmin).
  destruct (Hmin Hpos) as (Hmn & Hge).
  set (maxDepth := maxLength bitLengths) in *.
  set (minDepth := minLength bitLengths) in *.
  set (n := Z.to_nat (maxDepth + 1 - minDepth)).
  assert (Hrun : CreateOrderlyHuffmanTable (Dyn.insert emptyValue) toItem
                   bitLengths (Dyn.empty emptyValue)
                 = orderlyDepths (Dyn.insert emptyValue) toItem maxDepth
                     bitLengths n minDepth 0 (Dyn.empty emptyValue)).
  { unfold CreateOrderlyHuffmanTable. rewrite depthRange_fold.
    fold (maxLength bitLengths) (minLength bitLengths).
    fold maxDepth minDepth.
    destruct (Z.eqb_spec maxDepth 0); [lia | reflexivity]. }
  assert (Hinv : orderlyInv emptyValue maxDepth [] (Dyn.empty emptyValue) 0).
  { split; [apply dynInv_empty |]. split; [intros c [] |].
    split; [lia |]. split; [lia | apply Z.pow_nonneg; lia]. }
  destruct (orderlyDepths_spec emptyValue toItem maxDepth
              (Z.of_nat (List.length bitLengths)) ltac:(lia) Hitems bitLengths n
              minDepth [] (Dyn.empty emptyValue) 0 ltac:(lia) ltac:(lia)
              ltac:(lia) Hinv ltac:(apply Z.mod_0_l, Z.pow_nonzero; lia))
    as (S1 & S2).
  assert (Hspace : codeSpace maxDepth
                     (depthCodes toItem maxDepth bitLengths n minDepth 0)
                   = lengthsSpace maxDepth bitLengths).
  { rewrite depthCodes_space. apply rangeSpace_all; [lia | |].
    - intros l Hin. apply Hl in Hin. lia.
    - intros l Hin Hnz. specialize (Hle l Hin). specialize (Hge l Hin Hnz).
      lia. }
  rewrite Hspace, Z.add_0_l in S1, S2. rewrite Hrun.
  split; [exact S2 |].
  intros Hfit. destruct (S1 Hfit) as (table & Hok & Hall).
  exists table, (depthCodes toItem maxDepth bitLengths n minDepth 0).
  split; [exact Hok |]. split; [exact Hall |]. split.
  - apply depthCodes_consecutive; [lia | lia |].
    apply Z.mod_0_l, Z.pow_nonzero; lia.
  - apply depthCodes_items.
Qed.

Lemma orderly_table_code_space_witness :
  (forall l, In l [2; 1; 0; 2] -> 0 <= l <= 31)
  /\ (forall i, 0 <= i < Z.of_nat (List.length [2; 1; 0; 2]) ->
        (fun i => i) i <> 512)
  /\ 0 < maxLength [2; 1; 0; 2]
  /\ (2 ^ maxLength [2; 1; 0; 2]
      < lengthsSpace (maxLength [2; 1; 0; 2]) [2; 1; 0; 2] ->
      CreateOrderlyHuffmanTable (Dyn.insert 512) (fun i => i) [2; 1; 0; 2]
        (Dyn.empty 512)
      = Raise DecompressionError)
  /\ (lengthsSpace (maxLength [2; 1; 0; 2]) [2; 1; 0; 2]
      <= 2 ^ maxLength [2; 1; 0; 2] ->
      exists table cs,
        CreateOrderlyHuffmanTable (Dyn.insert 512) (fun i => i) [2; 1; 0; 2]
          (Dyn.empty 512)
        = Ok (tt, table)
        /\ dynInsertAll 512 cs (Dyn.empty 512) = Ok (tt, table)
        /\ consecutive (maxLength [2; 1; 0; 2]) 0 cs
        /\ map (fun c => (length c, value c)) cs
           = orderlyItems (fun i => i) [2; 1; 0; 2]
               (Z.to_nat (maxLength [2; 1; 0; 2] + 1 - minLength [2; 1; 0; 2]))
               (minLength [2; 1; 0; 2])).
Proof.
  assert (Hl : forall l, In l [2; 1; 0; 2] -> 0 <= l <= 31).
  { intros l [<- | [<- | [<- | [<- | []]]]]; lia. }
  assert (Hi : forall i, 0 <= i < Z.of_nat (List.length [2; 1; 0; 2]) ->
            (fun i => i) i <> 512) by (simpl; lia).
  assert (Hpos : 0 < maxLength [2; 1; 0; 2]) by reflexivity.
  split; [exact Hl |]. split; [exact Hi |]. split; [exact Hpos |].
  exact (orderly_table_code_space 512 (fun i => i) [2; 1; 0; 2] Hl Hi Hpos).
Defined.
(** ** LZH tokens *)

Lemma bit8_set (count : Z) :
  0 <= count < 512 -> (Z.land count 256 =? 0) = (count <? 256).
Proof.
  intros H.
  change 256 with (Z.shiftl 1 8) at 1.
  assert (E : negb (Z.land count (Z.shiftl 1 8) =? 0) = Z.testbit count 8)
    by (apply (codeBitAt_testbit count 8); lia).
  apply (f_equal negb) in E. rewrite negb_involutive in E. rewrite E.
  destruct (Z.ltb_spec count 256) as [Hlt | Hge].
  - apply negb_true_iff. apply Z.testbit_false; [lia |].
    change (2 ^ 8) with 256. rewrite Z.div_small by lia. reflexivity.
  - apply negb_false_iff. apply Z.testbit_true; [lia |].
    change (2 ^ 8) with 256.
    replace (count / 256) with 1; [reflexivity |].
    apply Z.div_unique with (count - 256); lia.
Qed.

Section Tokens.
Variables (bufPtr : list byte) (rawSize : Z).

(** X17: An LZH token starts with a symbol of the length decoder.  A
    symbol from 256 to 511 is a literal: it raises DecompressionError
    when the output is full and otherwise writes the symbol's low eight
    bits at destOffset-1.  A symbol below 256 is a match of symbol+3
    bytes at the distance read next: it raises DecompressionError
    exactly when destOffset < symbol+3 or destOffset + distance >
    rawSize, and otherwise copies symbol+3 bytes downwards, each from
    distance positions above where it goes, and touches nothing else. *)
Theorem lzh_token (lengthDecoder distanceDecoder : list Dyn.Node)
    (s s1 : State) (symbol : Z) :
  0 <= destOffset s <= rawSize ->
  rawSize <= Z.of_nat (List.length (dest s)) ->
  rawSize < 2 ^ 32 ->
  onReader (Dyn.decode 512 (readBit bufPtr) lengthDecoder) s = Ok (symbol, s1) ->
  0 <= symbol < 512 ->
  (256 <= symbol ->
   (destOffset s = 0 ->
    lzhItem bufPtr rawSize lengthDecoder distanceDecoder s
    = Raise DecompressionError)
   /\ (0 < destOffset s ->
       lzhItem bufPtr rawSize lengthDecoder distanceDecoder s
       = Ok (tt, mkState (reader s1)
                   (<[Z.to_nat (destOffset s - 1) := symbol - 256]> (dest s))
                   (destOffset s - 1) ((destOffset s - 1) :: writes s))))
  /\ (symbol < 256 ->
      forall distanceBits s2 distance s3,
        onReader (Dyn.decode 512 (readBit bufPtr) distanceDecoder) s1
        = Ok (distanceBits, s2) ->
        onReader (lzhDistance bufPtr distanceBits) s2 = Ok (distance, s3) ->
        (lzhItem bufPtr rawSize lengthDecoder distanceDecoder s
         = Raise DecompressionError
         <-> destOffset s < symbol + 3 \/ rawSize < destOffset s + distance)
        /\ (symbol + 3 <= destOffset s -> destOffset s + distance <= rawSize ->
            exists s',
              lzhItem bufPtr rawSize lengthDecoder distanceDecoder s
              = Ok (tt, s')
              /\ reader s' = reader s3
              /\ destOffset s' = destOffset s - (symbol + 3)
              /\ writes s'
                 = span (destOffset s - (symbol + 3)) (Z.to_nat (symbol + 3))
                   ++ writes s
              /\ (forall k, 0 <= k < symbol + 3 ->
                    dest s' !! Z.to_nat (destOffset s - 1 - k)
                    = dest s' !! Z.to_nat (destOffset s + distance - 1 - k))
              /\ (forall j, 0 <= j ->
                    j < destOffset s - (symbol + 3) \/ destOffset s <= j ->
                    dest s' !! Z.to_nat j = dest s !! Z.to_nat j))).
Proof.
  intros Hd Hlen H32 Hsym Hrange.
  pose proof (onReader_inv_Ok _ _ _ _ Hsym) as (_ & Hd1 & Ho1 & Hw1).
  unfold lzhItem. rewrite (bind_Ok _ _ _ _ _ Hsym).
  rewrite (bit8_set symbol Hrange).
  split.
  - intros Hlit.
    destruct (Z.ltb_spec symbol 256); [lia |]. cbn [negb].
    unfold bind, get. rewrite Ho1.
    assert (Hw8 : wrap8 symbol = symbol - 256).
    { unfold wrap8. change (2 ^ 8) with 256.
      symmetry. apply Z.mod_unique with 1; lia. }
    split.
    + intros E0. rewrite E0. reflexivity.
    + intros Hpos. destruct (Z.eqb_spec (destOffset s) 0); [lia |].
      rewrite writeByte_Ok by (rewrite Ho1, Hd1; lia).
      rewrite Hd1, Ho1, Hw1, Hw8. reflexivity.
  - intros Hmatch distanceBits s2 distance s3 Hdb Hdist.
    destruct (Z.ltb_spec symbol 256); [| lia]. cbn [negb].
    rewrite (bind_Ok _ _ _ _ _ Hdb), (bind_Ok _ _ _ _ _ Hdist).
    pose proof (onReader_inv_Ok _ _ _ _ Hdb) as (_ & Hd2 & Ho2 & Hw2).
    pose proof (onReader_inv_Ok _ _ _ _ Hdist) as (Hdv & Hd3 & Ho3 & Hw3).
    apply lzhDistance_pos in Hdv.
    assert (Hc : wrap32 (symbol + 3) = symbol + 3).
    { unfold wrap32. change (2 ^ 32) with 4294967296.
      apply Z.mod_small. lia. }
    rewrite Hc. unfold lzhCopy, bind, get.
    assert (Eo : destOffset s3 = destOffset s) by congruence.
    assert (Ed : dest s3 = dest s) by congruence.
    assert (Ew : writes s3 = writes s) by congruence.
    rewrite Eo.
    destruct (Z.ltb_spec (destOffset s) (symbol + 3)) as [H1 | H1]; simpl.
    { split; [split; [auto | reflexivity] | intros; lia]. }
    destruct (Z.ltb_spec rawSize (destOffset s + distance)) as [H2 | H2]; simpl.
    { split; [split; [auto | reflexivity] | intros; lia]. }
    assert (Hw : wrap32 (distance + destOffset s) = destOffset s + distance)
      by (unfold wrap32; rewrite Z.mod_small; lia).
    rewrite Hw.
    destruct (copyLoop_spec (Z.to_nat (symbol + 3)) s3 (destOffset s + distance))
      as (s' & Hrun & Hrd & Hoff & Hl & Hwr & Hout & Hcp); try lia.
    { rewrite Ed. lia. }
    rewrite Z2Nat.id in * by lia. rewrite Eo in *. rewrite Ed in *.
    rewrite Ew in *.
    split.
    + rewrite Hrun. split; [discriminate | lia].
    + intros _ _. exists s'. repeat (split; [trivial |]). trivial.
Qed.
End Tokens.

Lemma lzh_token_witness :
  0 <= destOffset lzhStart <= 10
  /\ 10 <= Z.of_nat (List.length (dest lzhStart))
  /\ 10 < 2 ^ 32
  /\ onReader (Dyn.decode 512 (readBit sampleLZH) lzhLengths) lzhStart
     = Ok (322, lzhSecond)
  /\ 0 <= 322 < 512
  /\ 256 <= 322
  /\ 0 < destOffset lzhStart
  /\ lzhItem sampleLZH 10 lzhLengths lzhDistances lzhStart
     = Ok (tt, mkState (reader lzhSecond)
                 (<[Z.to_nat (destOffset lzhStart - 1) := 322 - 256]>
                    (dest lzhStart))
                 (destOffset lzhStart - 1)
                 ((destOffset lzhStart - 1) :: writes lzhStart)).
Proof.
  assert (Hd : 0 <= destOffset lzhStart <= 10) by (simpl; lia).
  assert (Hl : 10 <= Z.of_nat (List.length (dest lzhStart))) by (simpl; lia).
  assert (H32 : 10 < 2 ^ 32) by reflexivity.
  assert (Hs : onReader (Dyn.decode 512 (readBit sampleLZH) lzhLengths) lzhStart
               = Ok (322, lzhSecond)) by reflexivity.
  assert (Hr : 0 <= 322 < 512) by lia.
  assert (Hlit : 256 <= 322) by lia.
  assert (Hpos : 0 < destOffset lzhStart) by (simpl; lia).
  split; [exact Hd |]. split; [exact Hl |]. split; [exact H32 |].
  split; [exact Hs |]. split; [exact Hr |]. split; [exact Hlit |].
  split; [exact Hpos |].
  exact (proj2 (proj1 (lzh_token sampleLZH 10 lzhLengths lzhDistances lzhStart
                         lzhSecond 322 Hd Hl H32 Hs Hr) Hlit) Hpos).
Defined.
(** ** The bit stream of an accepted packed stream *)

(** X3: For an accepted stream whose trailing shift word is at most 16,
    the bit reader starts inside the packed data with 16 + shift bits,
    the 32-bit word at packedSize + 8 less its low 16 - shift bits, and
    the stream it delivers is those bits, least significant first, then
    the packed bytes from index packedSize + 7 down to 14. *)
Theorem initReader_stream (maxRaw maxPacked : Z) (p : list byte)
    (d : CRMDecompressor) (word shift : Z) :
  construct maxRaw maxPacked p = Ok d ->
  readBE32 p (_packedSize d + 8) = Ok word ->
  readBE16 p (_packedSize d + 12) = Ok shift ->
  shift <= 16 ->
  exists r,
    initReader d = Ok r
    /\ cleanReader p r
    /\ pending p r
       = lowBits (Z.to_nat (16 + shift)) (Z.shiftr word (16 - shift))
         ++ bytesBelow p (Z.to_nat (_packedSize d - 6)) (_packedSize d + 8)
    /\ Z.of_nat (List.length (pending p r))
       = 16 + shift + 8 * Z.max 0 (_packedSize d - 6).
Proof.
  intros Hc Hw Hs H16.
  apply construct_accepts in Hc
    as (hdr & _ & _ & _ & Hp & _ & _ & _ & Hps & Hsz & _).
  pose proof (readBE32_range _ _ _ Hw) as Hwr.
  pose proof (readBE16_value _ _ _ Hs) as Hsv.
  pose proof (at8_range p (_packedSize d + 12)).
  pose proof (at8_range p (_packedSize d + 12 + 1)).
  assert (Hs0 : 0 <= shift) by lia.
  unfold initReader, seedShift. rewrite Hp.
  replace (_packedSize d + 14 - 6) with (_packedSize d + 8) by lia.
  replace (_packedSize d + 8 + 4) with (_packedSize d + 12) by lia.
  rewrite Hw, Hs. unfold shr32.
  destruct (Z.leb_spec 0 (16 - shift)); [| lia].
  destruct (Z.ltb_spec (16 - shift) 32); [| lia]. cbn [andb].
  assert (Hw8 : wrap8 (shift + 16) = 16 + shift).
  { unfold wrap8. change (2 ^ 8) with 256. rewrite Z.mod_small; lia. }
  rewrite Hw8. eexists. split; [reflexivity |].
  assert (Hclean : cleanReader p
                     (mkReader (_packedSize d + 8) (Z.shiftr word (16 - shift))
                        (16 + shift))).
  { unfold cleanReader. cbn [bufOffset bufBitsContent bufBitsLength].
    split; [lia |]. split; [lia |].
    rewrite Z.shiftr_div_pow2 by lia.
    assert (Hp1 : 0 < 2 ^ (16 - shift)) by (apply Z.pow_pos_nonneg; lia).
    split; [apply Z.div_pos; lia |].
    apply Z.div_lt_upper_bound; [lia |].
    rewrite <- Z.pow_add_r by lia.
    replace (16 - shift + (16 + shift)) with 32 by lia. lia. }
  split; [exact Hclean |]. split.
  - unfold pending. cbn [bufOffset bufBitsContent bufBitsLength].
    replace (_packedSize d + 8 - 14) with (_packedSize d - 6) by lia.
    reflexivity.
  - rewrite pending_length by (cbn [bufBitsLength]; lia).
    cbn [bufOffset bufBitsLength].
    replace (_packedSize d + 8 - 14) with (_packedSize d - 6) by lia.
    reflexivity.
Qed.

Lemma initReader_stream_witness :
  construct ceiling ceiling sampleLZH = Ok (decoderOf sampleLZH)
  /\ readBE32 sampleLZH (_packedSize (decoderOf sampleLZH) + 8) = Ok 2706505728
  /\ readBE16 sampleLZH (_packedSize (decoderOf sampleLZH) + 12) = Ok 0
  /\ 0 <= 16
  /\ exists r,
       initReader (decoderOf sampleLZH) = Ok r
       /\ cleanReader sampleLZH r
       /\ pending sampleLZH r
          = lowBits (Z.to_nat (16 + 0)) (Z.shiftr 2706505728 (16 - 0))
            ++ bytesBelow sampleLZH
                 (Z.to_nat (_packedSize (decoderOf sampleLZH) - 6))
                 (_packedSize (decoderOf sampleLZH) + 8)
       /\ Z.of_nat (List.length (pending sampleLZH r))
          = 16 + 0 + 8 * Z.max 0 (_packedSize (decoderOf sampleLZH) - 6).
Proof.
  assert (Hc : construct ceiling ceiling sampleLZH = Ok (decoderOf sampleLZH))
    by reflexivity.
  assert (Hw : readBE32 sampleLZH (_packedSize (decoderOf sampleLZH) + 8)
               = Ok 2706505728) by reflexivity.
  assert (Hs : readBE16 sampleLZH (_packedSize (decoderOf sampleLZH) + 12)
               = Ok 0) by reflexivity.
  assert (H16 : 0 <= 16) by lia.
  split; [exact Hc |]. split; [exact Hw |]. split; [exact Hs |].
  split; [exact H16 |].
  exact (initReader_stream ceiling ceiling sampleLZH (decoderOf sampleLZH)
           2706505728 0 Hc Hw Hs H16).
Defined.
(** ** Names and the XPK form *)

Lemma byteZ_inj (a b : byte) : byteZ a = byteZ b -> a = b.
Proof.
  unfold byteZ. intros H. apply N2Z.inj in H.
  pose proof (Byte.of_to_N a) as Ha. pose proof (Byte.of_to_N b) as Hb.
  rewrite H in Ha. congruence.
Qed.

(** The signature bytes of an accepted stream. *)
Lemma accepted_signature (maxRaw maxPacked : Z) (p : list byte)
    (d : CRMDecompressor) :
  construct maxRaw maxPacked p = Ok d ->
  exists b2 b3 rest,
    p = "C"%byte :: "r"%byte :: b2 :: b3 :: rest
    /\ (b2 = "M"%byte \/ b2 = "m"%byte) /\ (b3 = "!"%byte \/ b3 = "2"%byte)
    /\ _isSampled d = (byteZ b2 =? byteZ "m")
    /\ _isLZH d = (byteZ b3 =? byteZ "2").
Proof.
  intros H. apply construct_accepts in H
    as (hdr & Hh & Hd & Hsz & _ & _ & _ & _ & _ & _ & Hs & Hl & _).
  rewrite (header_byte2 _ _ Hh) in Hs. rewrite (header_byte3 _ _ Hh) in Hl.
  destruct p as [| b0 [| b1 [| b2 [| b3 rest]]]];
    try (unfold size in Hsz; simpl in Hsz; lia).
  apply readBE32_value in Hh. unfold at8 in Hh, Hs, Hl.
  cbn [lookup list_lookup Z.to_nat Z.add Pos.to_nat Pos.iter_op Init.Nat.add]
    in Hh, Hs, Hl.
  change (Z.to_nat (0 + 1)) with 1%nat in Hh.
  change (Z.to_nat (0 + 2)) with 2%nat in Hh.
  change (Z.to_nat (0 + 3)) with 3%nat in Hh.
  change (Z.to_nat 0) with 0%nat in Hh.
  change (Z.to_nat 2) with 2%nat in Hs. change (Z.to_nat 3) with 3%nat in Hl.
  cbn [lookup list_lookup] in Hh, Hs, Hl.
  pose proof (byteZ_range b0). pose proof (byteZ_range b1).
  pose proof (byteZ_range b2). pose proof (byteZ_range b3).
  exists b2, b3, rest.
  unfold detectHeader in Hd.
  assert (Hsig : byteZ b0 = byteZ "C" /\ byteZ b1 = byteZ "r"
               /\ (byteZ b2 = byteZ "M" \/ byteZ b2 = byteZ "m")
               /\ (byteZ b3 = byteZ "!" \/ byteZ b3 = byteZ "2")).
  { change (byteZ "C") with 67. change (byteZ "r") with 114.
    change (byteZ "M") with 77. change (byteZ "m") with 109.
    change (byteZ "!") with 33. change (byteZ "2") with 50.
    repeat (apply orb_prop in Hd; destruct Hd as [Hd | Hd]);
      apply Z.eqb_eq in Hd; vm_compute in Hd; rewrite Hd in Hh; lia. }
  destruct Hsig as (E0 & E1 & E2 & E3).
  apply byteZ_inj in E0, E1. subst b0 b1.
  split; [reflexivity |].
  split; [destruct E2 as [E2 | E2]; apply byteZ_inj in E2; auto |].
  split; [destruct E3 as [E3 | E3]; apply byteZ_inj in E3; auto |].
  split; [exact Hs | exact Hl].
Qed.

(** X22: The name of a decoder starts with the signature of its stream:
    for every accepted packed stream the first four characters of
    [getName()] are the first four bytes of the stream. *)
Theorem getName_signature (maxRaw maxPacked : Z) (p : list byte)
    (d : CRMDecompressor) :
  construct maxRaw maxPacked p = Ok d ->
  String.substring 0 4 (getName d) = String.string_of_list_byte (take 4 p).
Proof.
  intros H.
  destruct (accepted_signature _ _ _ _ H)
    as (b2 & b3 & rest & -> & H2 & H3 & Hs & Hl).
  unfold getName. rewrite Hs, Hl.
  destruct H2 as [-> | ->], H3 as [-> | ->]; reflexivity.
Qed.

Lemma getName_signature_witness :
  construct ceiling ceiling sampleRun = Ok (decoderOf sampleRun)
  /\ String.substring 0 4 (getName (decoderOf sampleRun))
     = String.string_of_list_byte (take 4 sampleRun).
Proof.
  assert (H : construct ceiling ceiling sampleRun = Ok (decoderOf sampleRun))
    by reflexivity.
  split; [exact H |].
  exact (getName_signature ceiling ceiling sampleRun (decoderOf sampleRun) H).
Defined.

(** X23: The XPK constructor accepts what the plain constructor accepts,
    whatever the XPK id is, and the id decides nothing but the sub-name:
    sizes, name and decoded bytes are those of the plain decoder, so the
    id CRMS does not turn the delta filter on, and the XPK form of
    decompress on a raw buffer of rawSize bytes gives what the plain
    form gives. *)
Theorem xpk_id_names_only (maxRaw maxPacked hdr : Z) (p : list byte)
    (d : CRMDecompressor) (rawData previousData : list Z) :
  construct maxRaw maxPacked p = Ok d ->
  exists dx,
    constructXPK maxRaw maxPacked hdr p = Ok dx
    /\ getSubName dx
       = nth (if hdr =? FourCC "C" "R" "M" "S" then 1%nat else 0%nat)
           GetSubName.names String.EmptyString
    /\ getName dx = getName d
    /\ getRawSize dx = getRawSize d
    /\ getPackedSize dx = getPackedSize d
    /\ decompressImpl dx rawData = decompressImpl d rawData
    /\ (rawLen rawData = _rawSize d ->
        decompressImplXPK dx rawData previousData = decompressImpl d rawData).
Proof.
  intros H. unfold constructXPK. rewrite H. eexists. split; [reflexivity |].
  split; [reflexivity |]. split; [reflexivity |]. split; [reflexivity |].
  split; [reflexivity |]. split; [reflexivity |].
  intros Hlen. unfold decompressImplXPK, rawLen in *.
  cbn [_rawSize]. rewrite Hlen, Z.eqb_refl. reflexivity.
Qed.

Lemma xpk_id_names_only_witness :
  construct ceiling ceiling sampleRun = Ok (decoderOf sampleRun)
  /\ exists dx,
       constructXPK ceiling ceiling (FourCC "C" "R" "M" "2") sampleRun = Ok dx
       /\ getSubName dx
          = nth (if FourCC "C" "R" "M" "2" =? FourCC "C" "R" "M" "S"
                 then 1%nat else 0%nat)
              GetSubName.names String.EmptyString
       /\ getName dx = getName (decoderOf sampleRun)
       /\ getRawSize dx = getRawSize (decoderOf sampleRun)
       /\ getPackedSize dx = getPackedSize (decoderOf sampleRun)
       /\ decompressImpl dx (replicate 16 0)
          = decompressImpl (decoderOf sampleRun) (replicate 16 0)
       /\ (rawLen (replicate 16 0) = _rawSize (decoderOf sampleRun) ->
           decompressImplXPK dx (replicate 16 0) []
           = decompressImpl (decoderOf sampleRun) (replicate 16 0)).
Proof.
  assert (H : construct ceiling ceiling sampleRun = Ok (decoderOf sampleRun))
    by reflexivity.
  split; [exact H |].
  exact (xpk_id_names_only ceiling ceiling (FourCC "C" "R" "M" "2") sampleRun
           (decoderOf sampleRun) (replicate 16 0) [] H).
Defined.
(** ** Progress *)

(** X20: The decode loops end.  Every standard-mode token and every LZH
    block that returns has moved the write cursor down by at least one
    byte, so [while (destOffset)] takes at most rawSize turns and
    [do ... while (readBit())] at most rawSize blocks, and decompress
    never stops for lack of the rawSize turns its loops are given. *)
Theorem decode_loops_end (d : CRMDecompressor) (rawData : list Z) :
  0 <= _rawSize d ->
  (forall lengthDecoder distanceDecoder s s' u,
     stdToken (_packedData d) (_rawSize d) lengthDecoder distanceDecoder s
     = Ok (u, s') ->
     destOffset s' < destOffset s)
  /\ (forall s s' u,
        lzhBlock (_packedData d) (_rawSize d) s = Ok (u, s') ->
        destOffset s' < destOffset s)
  /\ decompressImpl d rawData <> OutOfFuel.
Proof.
  intros Hraw.
  split; [intros ld dd s s' u; apply stdToken_advances |].
  split; [intros s s' u; apply lzhBlock_advances |].
  exact (proj2 (decompress_total d rawData Hraw)).
Qed.

Lemma decode_loops_end_witness :
  0 <= _rawSize (decoderOf sampleLZH)
  /\ (forall lengthDecoder distanceDecoder s s' u,
        stdToken (_packedData (decoderOf sampleLZH))
          (_rawSize (decoderOf sampleLZH)) lengthDecoder distanceDecoder s
        = Ok (u, s') ->
        destOffset s' < destOffset s)
  /\ (forall s s' u,
        lzhBlock (_packedData (decoderOf sampleLZH))
          (_rawSize (decoderOf sampleLZH)) s = Ok (u, s') ->
        destOffset s' < destOffset s)
  /\ decompressImpl (decoderOf sampleLZH) (replicate 10 0) <> OutOfFuel.
Proof.
  assert (H : 0 <= _rawSize (decoderOf sampleLZH)) by (vm_compute; discriminate).
  split; [exact H |].
  exact (decode_loops_end (decoderOf sampleLZH) (replicate 10 0) H).
Defined.
